(** * The plan enumerator of src/mongo/db/query/plan_enumerator.cpp

    A shallow embedding of [PlanEnumerator]: the memo builder [prepMemo],
    the tagger [tagMemo], the compound completer [checkCompound], and the
    public operations [init] and [getNext], followed by the properties of
    the specification that concern them. *)

From stdpp Require Import gmap strings list fin_maps pretty.

Set Default Proof Using "Type".

(** ** The borrowed predicate tree *)

(** [MatchExpression::MatchType] is declared in match_expression.h.  The
    enumerator names three of its values; every other value is kept by its
    numeric code. *)
Inductive MatchType :=
  | AND
  | OR
  | GEO_NEAR
  | OtherMatchType (code : nat).

Global Instance MatchType_eq_dec : EqDecision MatchType.
Proof. solve_decision. Defined.

(** The shape of a node: match type, path and children.  The tag slot of a
    node is mutable and lives in the tag store below. *)
#[local] Unset Elimination Schemes.
Inductive MatchExpression :=
  MkExpr (mt : MatchType) (p : string) (cs : list MatchExpression).
#[local] Set Elimination Schemes.

Definition matchType (e : MatchExpression) : MatchType :=
  match e with MkExpr mt _ _ => mt end.
Definition path (e : MatchExpression) : string :=
  match e with MkExpr _ p _ => p end.
Definition children (e : MatchExpression) : list MatchExpression :=
  match e with MkExpr _ _ cs => cs end.
Definition numChildren (e : MatchExpression) : nat := length (children e).

(** A node is identified, as a pointer identifies it in the source, by its
    position in the tree: the child indices on the way from the root. *)
Abbreviation Addr := (list nat).

(** A [MatchExpression*]: the identity of the node and the node it points to. *)
Record NodePtr := mkPtr { addr : Addr; target : MatchExpression }.

Definition getChild (n : NodePtr) (i : nat) : option NodePtr :=
  mkPtr (addr n ++ [i]) <$> children (target n) !! i.

(** The two kinds of tag data a tag slot can hold: the [RelevantTag] left by
    the relevance tagger and the [IndexTag] written by the enumerator. *)
Inductive TagData :=
  | RelevantTag (first notFirst : list nat)
  | IndexTag (index pos : nat).

(** An entry of the index catalog; [keyPattern] keeps the field names of
    the key pattern's elements in order. *)
Record IndexEntry := mkIndexEntry { keyPattern : list string; multikey : bool }.

(** ** The memo structure *)

Record PredicateSolution := mkPred {
  first : list nat;
  notFirst : list nat;
  expr : NodePtr
}.

Record AndSolution := mkAnd { and_subnodes : list (list nat) }.
Record OrSolution := mkOr { or_subnodes : list nat }.

(** [NodeSolution] has three owned, nullable parts. *)
Record NodeSolution := mkSoln {
  pred : option PredicateSolution;
  andSolution : option AndSolution;
  orSolution : option OrSolution
}.

Definition predSoln (p : PredicateSolution) : NodeSolution := mkSoln (Some p) None None.
Definition andSoln (a : AndSolution) : NodeSolution := mkSoln None (Some a) None.
Definition orSoln (o : OrSolution) : NodeSolution := mkSoln None None (Some o).

(** The enumerator's members, together with the tag slots of the tree it
    borrows ([_tagData], keyed by node identity; an absent key is a NULL
    tag).

    [_nodeToId] is a [std::map] from node to id: a read of it through
    [operator[]] at an absent key inserts the key with the value 0, and
    the model keeps the key set.

    [_memo] is a [std::map] from id to [NodeSolution*] (line 30).  The
    model keeps the entries that are not NULL; an id without a key stands
    for an absent id and for an id mapped to NULL alike, which every read
    of [_memo] in the file reads as NULL.

    Modelled from the spec: [_curEnum] is declared in plan_enumerator.h;
    the spec describes the cursor as counters that are 0 for every memo
    id, so a read yields 0 for an id without a slot. *)
Record PlanEnumerator := mkEnum {
  _root : MatchExpression;
  _indices : list IndexEntry;
  _nodeToId : gmap Addr nat;
  _memo : gmap nat NodeSolution;
  _curEnum : gmap nat nat;
  _inOrderCount : nat;
  _done : bool;
  _tagData : gmap Addr TagData
}.

(** ** Failures and the state monad of the member functions *)

Inductive error :=
  | VerifyFailed (line : nat)  (* a [verify] of the source, by its line *)
  | OutOfRange                 (* a vector read past its end *)
  | BadCast                    (* a tag [static_cast] to the wrong kind *)
  | NoFuel.                    (* the recursion bound of the model ran out *)

Inductive result (A : Type) :=
  | Ok (a : A)
  | Err (e : error).
Arguments Ok {A} a.
Arguments Err {A} e.

Definition M (A : Type) : Type := PlanEnumerator -> result (A * PlanEnumerator).

Definition ret {A} (a : A) : M A := fun s => Ok (a, s).
Definition fail {A} (e : error) : M A := fun _ => Err e.
Definition bind {A B} (m : M A) (k : A -> M B) : M B :=
  fun s => match m s with
           | Ok (a, s') => k a s'
           | Err e => Err e
           end.

Notation "'let*' x ':=' m 'in' k" := (bind m (fun x => k))
  (at level 10, x pattern, m at level 100, k at level 200).
Notation "m ';;;' k" := (bind m (fun _ => k))
  (at level 100, k at level 200, right associativity).

Definition verify (line : nat) (b : bool) : M unit :=
  if b then ret tt else fail (VerifyFailed line).

Definition gets {A} (f : PlanEnumerator -> A) : M A := fun s => Ok (f s, s).
Definition modify (f : PlanEnumerator -> PlanEnumerator) : M unit := fun s => Ok (tt, f s).

(** *** Member access *)

Definition memoAt (id : nat) : M (option NodeSolution) := gets (fun s => _memo s !! id).
Definition curEnum (id : nat) : M nat := gets (fun s => default 0 (_curEnum s !! id)).
Definition getTag (a : Addr) : M (option TagData) := gets (fun s => _tagData s !! a).

Definition set_nodeToId (a : Addr) (id : nat) : M unit :=
  modify (fun s => mkEnum (_root s) (_indices s) (<[a := id]> (_nodeToId s)) (_memo s)
                          (_curEnum s) (_inOrderCount s) (_done s) (_tagData s)).
(** [_nodeToId[a]] as a value: the read inserts an absent key with the
    value 0, which is then the value read. *)
Definition nodeToId (a : Addr) : M nat := fun s =>
  match _nodeToId s !! a with
  | Some id => Ok (id, s)
  | None =>
      Ok (0, mkEnum (_root s) (_indices s) (<[a := 0]> (_nodeToId s)) (_memo s)
                    (_curEnum s) (_inOrderCount s) (_done s) (_tagData s))
  end.
Definition set_memo (id : nat) (soln : NodeSolution) : M unit :=
  modify (fun s => mkEnum (_root s) (_indices s) (_nodeToId s) (<[id := soln]> (_memo s))
                          (_curEnum s) (_inOrderCount s) (_done s) (_tagData s)).
Definition set_curEnum (id v : nat) : M unit :=
  modify (fun s => mkEnum (_root s) (_indices s) (_nodeToId s) (_memo s)
                          (<[id := v]> (_curEnum s)) (_inOrderCount s) (_done s) (_tagData s)).
Definition set_tagData (f : gmap Addr TagData -> gmap Addr TagData) : M unit :=
  modify (fun s => mkEnum (_root s) (_indices s) (_nodeToId s) (_memo s)
                          (_curEnum s) (_inOrderCount s) (_done s) (f (_tagData s))).
Definition setTag (a : Addr) (t : TagData) : M unit := set_tagData (insert a t).
Definition set_done (b : bool) : M unit :=
  modify (fun s => mkEnum (_root s) (_indices s) (_nodeToId s) (_memo s)
                          (_curEnum s) (_inOrderCount s) b (_tagData s)).
Definition set_inOrderCount (n : nat) : M unit :=
  modify (fun s => mkEnum (_root s) (_indices s) (_nodeToId s) (_memo s)
                          (_curEnum s) n (_done s) (_tagData s)).

(** [_inOrderCount++] *)
Definition postIncrement : M nat :=
  let* n := gets _inOrderCount in
  set_inOrderCount (S n);;;
  ret n.

(** The read of [_indices] at [idx]. *)
Definition indexAt (idx : nat) : M IndexEntry :=
  let* ixs := gets _indices in
  match ixs !! idx with
  | Some e => ret e
  | None => fail OutOfRange
  end.

(** A loop over the children of a node, in child order, with the loop
    counter and an accumulator for the locals the loop updates. *)
Definition forChildren {A} (body : nat -> MatchExpression -> A -> M A)
  : list MatchExpression -> nat -> A -> M A :=
  fix loop cs i acc :=
    match cs with
    | [] => ret acc
    | c :: cs' => let* acc' := body i c acc in loop cs' (S i) acc'
    end.

(** A loop over a vector whose body only acts on the state. *)
Definition forEach {A} (body : A -> M unit) : list A -> M unit :=
  fix loop l :=
    match l with
    | [] => ret tt
    | x :: l' => body x;;; loop l'
    end.

Section Enumerator.

(** Declared outside this file: [MatchExpression::isLogical], the two
    classifiers of [Indexability] (indexability.h), the sentinel
    [IndexTag::kNoIndex], a [size_t], and the two post-processing passes
    over a cloned tree (index_tag.h). *)
Variable isLogical : MatchExpression -> bool.
Variable arrayUsesIndexOnChildren : MatchExpression -> bool.
Variable nodeCanUseIndexOnOwnField : MatchExpression -> bool.
Variable kNoIndex : N.

(** ** The memo builder *)

(** [swap] of two elements of a vector. *)
Definition swapAt {A} (i j : nat) (v : list A) : list A :=
  match v !! i, v !! j with
  | Some x, Some y => <[j := x]> (<[i := y]> v)
  | _, _ => v
  end.

(** The builder.  A node is classified in the order of the source; a node
    of none of the three kinds gets no entry ([return false] of line 365).
    The entries are written once their parts are complete, which no read
    in between observes.  A [PredicateSolution] of the model always has
    its [expr], so the [verify] of line 339 has no counterpart.  Reading
    [static_cast<RelevantTag*>] on an [IndexTag] is a [BadCast]. *)
Fixpoint prepMemo (node : MatchExpression) (a : Addr) {struct node} : M bool :=
  if arrayUsesIndexOnChildren node then
    let* subnodes :=
      forChildren (fun i child subnodes =>
        let* indexed := prepMemo child (a ++ [i]) in
        if indexed then
          let* childID := nodeToId (a ++ [i]) in
          ret (subnodes ++ [[childID]])
        else ret subnodes) (children node) 0 [] in
    let* myID := postIncrement in
    set_nodeToId a myID;;;
    let* id := nodeToId a in
    set_memo id (andSoln (mkAnd subnodes));;;
    set_curEnum myID 0;;;
    ret (0 <? length subnodes)
  else if nodeCanUseIndexOnOwnField node then
    let* myID := postIncrement in
    set_nodeToId a myID;;;
    let* id := nodeToId a in
    set_curEnum myID 0;;;
    let* tag := getTag a in
    let* lists :=
      match tag with
      | None => ret ([], [])
      | Some (RelevantTag f nf) =>
          setTag a (RelevantTag [] []);;; ret (f, nf)
      | Some (IndexTag _ _) => fail BadCast
      end in
    set_memo id (predSoln (mkPred lists.1 lists.2 (mkPtr a node)));;;
    ret (0 <? length lists.1)
  else if isLogical node then
    if decide (matchType node = OR) then
      let* indexed :=
        forChildren (fun i child indexed =>
          let* b := prepMemo child (a ++ [i]) in
          ret (if b then indexed else false)) (children node) 0 true in
      let* myID := postIncrement in
      set_nodeToId a myID;;;
      let* id := nodeToId a in
      let* subnodes :=
        forChildren (fun i _ subnodes =>
          let* childID := nodeToId (a ++ [i]) in
          ret (subnodes ++ [childID])) (children node) 0 [] in
      set_memo id (orSoln (mkOr subnodes));;;
      ret indexed
    else
      let* acc :=
        forChildren (fun i child '(subnodes, geoNearChild) =>
          let* indexed := prepMemo child (a ++ [i]) in
          if indexed then
            let* childID := nodeToId (a ++ [i]) in
            let subnodes := subnodes ++ [[childID]] in
            let* ns := memoAt childID in
            match ns with
            | Some (mkSoln (Some p) _ _) =>
                if decide (matchType (target (expr p)) = GEO_NEAR)
                then ret (subnodes, N.of_nat (length subnodes - 1))
                else ret (subnodes, geoNearChild)
            | _ => ret (subnodes, geoNearChild)
            end
          else ret (subnodes, geoNearChild)) (children node) 0 ([], kNoIndex) in
      let '(subnodes, geoNearChild) := acc in
      let subnodes :=
        if decide (kNoIndex <> geoNearChild /\ 0%N <> geoNearChild)
        then swapAt 0 (N.to_nat geoNearChild) subnodes
        else subnodes in
      let* myID := postIncrement in
      set_nodeToId a myID;;;
      let* id := nodeToId a in
      verify 357 (bool_decide (matchType node = AND));;;
      set_curEnum myID 0;;;
      set_memo id (andSoln (mkAnd subnodes));;;
      ret (0 <? length subnodes)
  else ret false.

(** ** The tagger *)

(** [tagMemo] recurses through memo ids, which is not structural: [fuel]
    bounds the depth of the recursion.

    Modelled from the spec: the constructor [IndexTag(size_t)] of line 380
    is declared in index_tag.h; the spec gives the tag it makes position
    0. *)
Fixpoint tagMemo (fuel : nat) (id : nat) {struct fuel} : M unit :=
  match fuel with
  | 0 => fail NoFuel
  | S fuel' =>
      let* soln := memoAt id in
      match soln with
      | None => fail (VerifyFailed 370)
      | Some soln =>
          match pred soln with
          | Some p =>
              let* tag := getTag (addr (expr p)) in
              verify 373 (bool_decide (tag = None));;;
              if negb (length (first p) =? 0) then
                let* cur := curEnum id in
                match first p !! cur with
                | None => fail (VerifyFailed 379)
                | Some index => setTag (addr (expr p)) (IndexTag index 0)
                end
              else ret tt
          | None =>
              match orSolution soln with
              | Some o => forEach (tagMemo fuel') (or_subnodes o)
              | None =>
                  match andSolution soln with
                  | None => fail (VerifyFailed 391)
                  | Some an =>
                      let* cur := curEnum id in
                      match and_subnodes an !! cur with
                      | None => fail (VerifyFailed 392)
                      | Some cur => forEach (tagMemo fuel') cur
                      end
                  end
              end
          end
      end
  end.

(** ** The compound completer *)

Definition isCompound (idx : nat) : M bool :=
  let* e := indexAt idx in
  ret (1 <? length (keyPattern e)).

(** The memo entry of a node that must exist and must be a predicate;
    [l1] and [l2] are the lines of the two [verify]s.  The source reads
    [_nodeToId] at the node once for each [verify]; the second read finds
    the key the first has left. *)
Definition predOf (l1 l2 : nat) (a : Addr) : M PredicateSolution :=
  let* id := nodeToId a in
  let* soln := memoAt id in
  match soln with
  | None => fail (VerifyFailed l1)
  | Some soln =>
      match pred soln with
      | None => fail (VerifyFailed l2)
      | Some p => ret p
      end
  end.

(** The [IndexTag] a tagged node carries. *)
Definition indexTagOf (a : Addr) : M (nat * nat) :=
  let* tag := getTag a in
  match tag with
  | Some (IndexTag index pos) => ret (index, pos)
  | _ => fail BadCast
  end.

(** Step 1 (lines 128-144): the children that carry a compound index and
    the children that carry none. *)
Definition partitionChildren (node : MatchExpression) (a : Addr)
  : M (list NodePtr * list NodePtr) :=
  forChildren (fun i child '(assignedCompound, unassigned) =>
    if nodeCanUseIndexOnOwnField child then
      predOf 131 132 (a ++ [i]);;;
      let* tag := getTag (a ++ [i]) in
      match tag with
      | None => ret (assignedCompound, unassigned ++ [mkPtr (a ++ [i]) child])
      | Some _ =>
          let* childTag := indexTagOf (a ++ [i]) in
          let* compound := isCompound childTag.1 in
          if compound
          then ret (assignedCompound ++ [mkPtr (a ++ [i]) child], unassigned)
          else ret (assignedCompound, unassigned)
      end
    else ret (assignedCompound, unassigned)) (children node) 0 ([], []).

(** The loop over [unassigned] of lines 180-205; the result is
    [assignedField]. *)
Fixpoint pickUnassigned (prefix fieldName : string) (index posInIdx : nat)
    (unassigned : list NodePtr) : M bool :=
  match unassigned with
  | [] => ret false
  | u :: rest =>
      if negb (String.eqb (prefix +:+ path (target u)) fieldName) then
        pickUnassigned prefix fieldName index posInIdx rest
      else
        let* tag := getTag (addr u) in
        match tag with
        | Some _ => pickUnassigned prefix fieldName index posInIdx rest
        | None =>
            let* p := predOf 194 195 (addr u) in
            verify 196 (bool_decide (addr u = addr (expr p)));;;
            if bool_decide (index ∈ notFirst p) then
              setTag (addr u) (IndexTag index posInIdx);;;
              ret true
            else pickUnassigned prefix fieldName index posInIdx rest
        end
  end.

(** The loop over the remaining elements of the key pattern (lines
    175-212); [it] holds the elements the iterator has not yielded. *)
Fixpoint assignFields (prefix : string) (index : nat) (it : list string)
    (posInIdx : nat) (unassigned : list NodePtr) : M unit :=
  match it with
  | [] => ret tt
  | kpElt :: it' =>
      let posInIdx := S posInIdx in
      let* assignedField := pickUnassigned prefix kpElt index posInIdx unassigned in
      if assignedField
      then assignFields prefix index it' posInIdx unassigned
      else ret tt
  end.

(** Step 2 (lines 155-213); [i] is the loop counter. *)
Fixpoint completeCompound (prefix : string) (i : nat)
    (assignedCompound unassigned : list NodePtr) : M unit :=
  match assignedCompound with
  | [] => ret tt
  | child :: rest =>
      let* childTag := indexTagOf (addr child) in
      let* entry := indexAt i in
      if multikey entry then completeCompound prefix (S i) rest unassigned
      else
        let* entry := indexAt childTag.1 in
        let it := tail (keyPattern entry) in
        verify 174 (bool_decide (it <> []));;;
        assignFields prefix childTag.1 it 0 unassigned;;;
        completeCompound prefix (S i) rest unassigned
  end.

(** The prefix handed to the children (lines 216-220). *)
Definition childPrefix (prefix : string) (node : MatchExpression) : string :=
  if arrayUsesIndexOnChildren node && negb (String.eqb (path node) "")
  then prefix +:+ (path node +:+ ".")
  else prefix.

Fixpoint checkCompound (prefix : string) (node : MatchExpression) (a : Addr)
    {struct node} : M unit :=
  (if decide (matchType node = AND) then
     let* parts := partitionChildren node a in
     completeCompound prefix 0 parts.1 parts.2
   else ret tt);;;
  forChildren (fun i child _ => checkCompound (childPrefix prefix node) child (a ++ [i]))
    (children node) 0 tt.

(** ** The public operations *)

(** Modelled from the spec: [MatchExpression::resetTag] is declared in
    match_expression.h.  The spec says of it that the tags are cleared
    from the tree: it empties the tag slot of the node and of every node
    below it. *)
Definition resetTag (a : Addr) : M unit :=
  set_tagData (filter (fun kv => ~ a `prefix_of` kv.1)).

(** The constructor.  [_inOrderCount] and [_done] are set by [init]. *)
Definition newPlanEnumerator (root : MatchExpression) (tags : gmap Addr TagData)
    (indices : list IndexEntry) : PlanEnumerator :=
  mkEnum root indices ∅ ∅ ∅ 0 false tags.

Definition init (fuel : nat) : M unit :=
  set_inOrderCount 0;;;
  set_done false;;;
  let* root := gets _root in
  let* indexed := prepMemo root [] in
  set_done (negb indexed);;;
  resetTag [];;;
  let* done := gets _done in
  if negb done then
    let* id := nodeToId [] in
    tagMemo fuel id;;;
    checkCompound "" root []
  else ret tt.

(** A cloned tree: its shape and its own tag slots. *)
Definition Clone : Type := MatchExpression * gmap Addr TagData.

Variable tagForSort : Clone -> Clone.
Variable sortUsingTags : Clone -> Clone.

(** [getNext] returns its boolean and, when it is true, the tree written
    to the out-parameter. *)
Definition getNext : M (bool * option Clone) :=
  let* done := gets _done in
  if done then ret (false, None)
  else
    let* root := gets _root in
    let* tags := gets _tagData in
    let tree := sortUsingTags (tagForSort (root, tags)) in
    resetTag [];;;
    set_done true;;;
    ret (true, Some tree).

Definition nextMemo (id : nat) : M bool := ret false.

End Enumerator.

(** ** A concrete instance

    The classifiers below follow the spec's node kinds: conjunctions and
    disjunctions are the generic logical nodes, element-match is the
    array-scoped node, and comparisons and geo-nearest leaves with a path
    are indexable on their own field.  A size test is none of the three. *)
Module Sample.

Definition EQ : MatchType := OtherMatchType 0.
Definition ELEM_MATCH_OBJECT : MatchType := OtherMatchType 1.
Definition SIZE : MatchType := OtherMatchType 2.

Definition isLogical (e : MatchExpression) : bool :=
  bool_decide (matchType e = AND) || bool_decide (matchType e = OR).
Definition arrayUsesIndexOnChildren (e : MatchExpression) : bool :=
  bool_decide (matchType e = ELEM_MATCH_OBJECT).
Definition nodeCanUseIndexOnOwnField (e : MatchExpression) : bool :=
  negb (String.eqb (path e) "")
  && (bool_decide (matchType e = EQ) || bool_decide (matchType e = GEO_NEAR)).
Definition kNoIndex : N := 18446744073709551615%N.

Definition prepMemo := prepMemo isLogical arrayUsesIndexOnChildren nodeCanUseIndexOnOwnField kNoIndex.
Definition checkCompound := checkCompound arrayUsesIndexOnChildren nodeCanUseIndexOnOwnField.
Definition init := init isLogical arrayUsesIndexOnChildren nodeCanUseIndexOnOwnField kNoIndex.
Definition getNext := getNext id id.

Definition leaf (mt : MatchType) (p : string) : MatchExpression := MkExpr mt p [].

End Sample.



(** ** The diagnostic output *)

Section Diagnostics.

(** Declared outside this file: [MatchExpression::toString]
    (match_expression.h), which prints a node of the tree with the tags
    the tree carries. *)
Variable exprToString : NodePtr -> gmap Addr TagData -> string.

(** The loops of [NodeSolution::toString] over a vector of ids (lines
    71-75, 77-81 and 91-95): the element at [i] is printed in decimal, and
    a comma and a space follow it when [i < size - 1].  [rest] holds the
    elements from [i] on. *)
Definition commaLoop (size : nat) : nat -> list nat -> string :=
  fix loop i rest :=
    match rest with
    | [] => ""
    | x :: rest' =>
        pretty x +:+ (if i <? size - 1 then ", " else "") +:+ loop (S i) rest'
    end.

(** The loop over the options of an [AndSolution] (lines 88-99). *)
Definition optionsLoop (size : nat) : nat -> list (list nat) -> string :=
  fix loop i rest :=
    match rest with
    | [] => ""
    | sn :: rest' =>
        "[" +:+ commaLoop (length sn) 0 sn +:+ "]"
        +:+ (if i <? size - 1 then ", " else "") +:+ loop (S i) rest'
    end.

(** The loop over the subnodes of an [OrSolution] (lines 107-109). *)
Definition allLoop : list nat -> string :=
  fix loop rest :=
    match rest with
    | [] => ""
    | x :: rest' => " " +:+ pretty x +:+ loop rest'
    end.

(** [NodeSolution::toString] (lines 67-113). *)
Definition toString (ns : NodeSolution) : M string :=
  match pred ns with
  | Some p =>
      let* tags := gets _tagData in
      ret ("predicate, first indices: [" +:+ commaLoop (length (first p)) 0 (first p)
           +:+ "], notFirst indices: ["
           +:+ commaLoop (length (notFirst p)) 0 (notFirst p)
           +:+ "], pred: " +:+ exprToString (expr p) tags)
  | None =>
      match andSolution ns with
      | Some an =>
          ret ("ONE OF: ["
               +:+ optionsLoop (length (and_subnodes an)) 0 (and_subnodes an) +:+ "]")
      | None =>
          verify 104 (bool_decide (is_Some (orSolution ns)));;;
          match orSolution ns with
          | Some o => ret ("ALL OF: [" +:+ allLoop (or_subnodes o) +:+ "]")
          | None => fail (VerifyFailed 104)
          end
      end
  end.

(** The memo dump of [init] (lines 51-53) reads [_memo[i]] for every [i]
    below [_inOrderCount] and calls [toString] through the pointer: it
    prints its lines, or reads through the NULL entry of an id, or fails
    in [toString]. *)
Inductive dump :=
  | Lines (l : list string)
  | NullRead (id : nat)
  | Failed (e : error).

Definition memoDump (s : PlanEnumerator) : dump :=
  (fix loop ids :=
     match ids with
     | [] => Lines []
     | i :: ids' =>
         match _memo s !! i with
         | None => NullRead i
         | Some ns =>
             match toString ns s with
             | Err e => Failed e
             | Ok (str, _) =>
                 match loop ids' with
                 | Lines l => Lines (("Node #" +:+ pretty i +:+ ": " +:+ str) :: l)
                 | r => r
                 end
             end
         end
     end) (seq 0 (_inOrderCount s)).

End Diagnostics.
(** * Vocabulary of the specification *)

Section Vocabulary.

Variable isLogical : MatchExpression -> bool.
Variable arrayUsesIndexOnChildren : MatchExpression -> bool.
Variable nodeCanUseIndexOnOwnField : MatchExpression -> bool.
Variable kNoIndex : N.

Local Abbreviation prepMemo :=
  (prepMemo isLogical arrayUsesIndexOnChildren nodeCanUseIndexOnOwnField kNoIndex).

(** The three loops of [prepMemo] over the children of a node. *)
Definition arrayLoop (a : Addr) :=
  forChildren (fun i child (subnodes : list (list nat)) =>
    let* indexed := prepMemo child (a ++ [i]) in
    if indexed then
      let* childID := nodeToId (a ++ [i]) in
      ret (subnodes ++ [[childID]])
    else ret subnodes).

Definition orLoop (a : Addr) :=
  forChildren (fun i child (indexed : bool) =>
    let* b := prepMemo child (a ++ [i]) in
    ret (if b then indexed else false)).

Definition orSubnodes (a : Addr) :=
  forChildren (fun i (_ : MatchExpression) (subnodes : list nat) =>
    let* childID := nodeToId (a ++ [i]) in
    ret (subnodes ++ [childID])).

Definition andLoop (a : Addr) :=
  forChildren (fun i child '((subnodes, geoNearChild) : list (list nat) * N) =>
    let* indexed := prepMemo child (a ++ [i]) in
    if indexed then
      let* childID := nodeToId (a ++ [i]) in
      let subnodes := subnodes ++ [[childID]] in
      let* ns := memoAt childID in
      match ns with
      | Some (mkSoln (Some p) _ _) =>
          if decide (matchType (target (expr p)) = GEO_NEAR)
          then ret (subnodes, N.of_nat (length subnodes - 1))
          else ret (subnodes, geoNearChild)
      | _ => ret (subnodes, geoNearChild)
      end
    else ret (subnodes, geoNearChild)).

(** A list collected from the children of a node, in child order. *)
Definition overChildren {B} (f : nat -> MatchExpression -> list B)
  : list MatchExpression -> nat -> list B :=
  fix go cs i :=
    match cs with
    | [] => []
    | c :: cs' => f i c ++ go cs' (S i)
    end.

(** A node the builder gives a memo entry. *)
Definition classified (node : MatchExpression) : bool :=
  arrayUsesIndexOnChildren node || nodeCanUseIndexOnOwnField node || isLogical node.

(** The nodes the builder gives a memo entry, in the order in which it
    finalizes them: a node the classifiers put in none of the three kinds
    gets no entry and its children are not visited, nor are the children
    of a node that is indexable on its own field. *)
Fixpoint memoOrder (node : MatchExpression) (a : Addr) {struct node} : list Addr :=
  let below := overChildren (fun i c => memoOrder c (a ++ [i])) (children node) 0 in
  if arrayUsesIndexOnChildren node then below ++ [a]
  else if nodeCanUseIndexOnOwnField node then [a]
  else if isLogical node then below ++ [a]
  else [].

(** The nodes that get a key of [_nodeToId] without a memo entry: the
    children of a disjunction that the builder puts in none of its three
    kinds, whose id the loop of lines 303-305 reads all the same. *)
Fixpoint orphans (node : MatchExpression) (a : Addr) {struct node} : list Addr :=
  let below := overChildren (fun i c => orphans c (a ++ [i])) (children node) 0 in
  if arrayUsesIndexOnChildren node then below
  else if nodeCanUseIndexOnOwnField node then []
  else if isLogical node then
    if decide (matchType node = OR)
    then below ++ overChildren (fun i c => if classified c then [] else [a ++ [i]])
                    (children node) 0
    else below
  else [].

(** Whether a node is indexable, by the rule of the spec for the memo
    entry it gets: a predicate when the [first] list of its relevance tag
    is non-empty, a choice among options when at least one child is
    indexable, a disjunction when every child is; a node that gets no
    entry is not indexable. *)
Fixpoint indexable (tags : gmap Addr TagData) (node : MatchExpression) (a : Addr)
    {struct node} : bool :=
  let kids := overChildren (fun i c => [indexable tags c (a ++ [i])]) (children node) 0 in
  if arrayUsesIndexOnChildren node then existsb id kids
  else if nodeCanUseIndexOnOwnField node then
    match tags !! a with
    | Some (RelevantTag f _) => negb (bool_decide (f = []))
    | _ => false
    end
  else if isLogical node then
    if decide (matchType node = OR) then forallb id kids else existsb id kids
  else false.

(** Consecutive ids from [n] on, given to the nodes of [l] in order. *)
Fixpoint assignIds (n : nat) (l : list Addr) (m : gmap Addr nat) : gmap Addr nat :=
  match l with
  | [] => m
  | x :: l' => assignIds (S n) l' (<[x := n]> m)
  end.

(** The map a read of [_nodeToId] at [x] leaves: an absent key is there
    with the value 0.  [zeroKeys] is the map after reads at the nodes of a
    list, in order. *)
Definition zeroKey (x : Addr) (m : gmap Addr nat) : gmap Addr nat :=
  match m !! x with
  | Some _ => m
  | None => <[x := 0]> m
  end.

Definition zeroKeys (xs : list Addr) (m : gmap Addr nat) : gmap Addr nat :=
  foldl (fun m x => zeroKey x m) m xs.
Global Arguments zeroKeys : simpl never.

(** The slots of the children of the node at [a] from child number [i]
    on, [n] of them. *)
Definition childSlots (a : Addr) (i n : nat) : list Addr :=
  (fun j => a ++ [j]) <$> seq i n.

(** The number of nodes of a tree. *)
Fixpoint treeSize (node : MatchExpression) : nat :=
  S (foldr (fun c n => treeSize c + n) 0 (children node)).

(** [s'] differs from [s] in the tag slots only. *)
Definition onlyTags (s s' : PlanEnumerator) : Prop :=
  _root s' = _root s /\ _indices s' = _indices s /\ _nodeToId s' = _nodeToId s /\
  _memo s' = _memo s /\ _curEnum s' = _curEnum s /\
  _inOrderCount s' = _inOrderCount s /\ _done s' = _done s.

(** [s] with another map from node to id. *)
Definition withIds (s : PlanEnumerator) (m : gmap Addr nat) : PlanEnumerator :=
  mkEnum (_root s) (_indices s) m (_memo s) (_curEnum s)
         (_inOrderCount s) (_done s) (_tagData s).

(** [m'] is [m] with keys of value 0 added, at nodes of [K] only: what
    reads of [_nodeToId] at nodes of [K] make of [m]. *)
Definition zerosAdded (K : Addr -> Prop) (m m' : gmap Addr nat) : Prop :=
  forall x, m' !! x = m !! x \/ (K x /\ m !! x = None /\ m' !! x = Some 0).

(** [s'] differs from [s] in the tag slots, and in keys of value 0 that
    reads of [_nodeToId] at nodes of [K] have inserted. *)
Definition tagsAndReads (K : Addr -> Prop) (s s' : PlanEnumerator) : Prop :=
  _root s' = _root s /\ _indices s' = _indices s /\
  zerosAdded K (_nodeToId s) (_nodeToId s') /\
  _memo s' = _memo s /\ _curEnum s' = _curEnum s /\
  _inOrderCount s' = _inOrderCount s /\ _done s' = _done s.

(** [s'] extends [s] by the memo entries of the nodes of [l], which lie
    in the subtree at [a]: they get the next ids in order, the nodes of
    [os] have been read in [_nodeToId], and nothing else of the maps and
    no tag slot outside the subtree changes. *)
Definition builtOver (l os : list Addr) (a : Addr) (s s' : PlanEnumerator) : Prop :=
  _root s' = _root s /\ _indices s' = _indices s /\ _done s' = _done s /\
  _inOrderCount s' = _inOrderCount s + length l /\
  _nodeToId s' = assignIds (_inOrderCount s) l (zeroKeys os (_nodeToId s)) /\
  (forall k, ~ (_inOrderCount s <= k < _inOrderCount s') -> _memo s' !! k = _memo s !! k) /\
  (forall k, _inOrderCount s <= k < _inOrderCount s' -> is_Some (_memo s' !! k)) /\
  (forall k, ~ (_inOrderCount s <= k < _inOrderCount s') ->
             _curEnum s' !! k = _curEnum s !! k) /\
  (forall x, ~ a `prefix_of` x -> _tagData s' !! x = _tagData s !! x).

(** The options a loop over the children collects: one single-member
    option for each child whose build returned true, in child order. *)
Fixpoint optionsOf (m : gmap Addr nat) (a : Addr) (i : nat) (bs : list bool)
  : list (list nat) :=
  match bs with
  | [] => []
  | b :: bs' =>
      (if b then [[default 0 (m !! (a ++ [i]))]] else []) ++ optionsOf m a (S i) bs'
  end.

(** The memo entry [cid] is a predicate over a geo-nearest node. *)
Definition isGeoNear (memo : gmap nat NodeSolution) (cid : nat) : bool :=
  match memo !! cid with
  | Some (mkSoln (Some p) _ _) => bool_decide (matchType (target (expr p)) = GEO_NEAR)
  | _ => false
  end.

(** The option at [k] is the last of [opts] that is a geo-nearest
    predicate. *)
Definition lastGeo (memo : gmap nat NodeSolution) (opts : list (list nat)) (k : nat)
  : Prop :=
  (exists cid, opts !! k = Some [cid] /\ isGeoNear memo cid = true) /\
  forall k' cid', k < k' -> opts !! k' = Some [cid'] -> isGeoNear memo cid' = false.

(** What [geoNearChild] holds for the options [opts] collected so far:
    the sentinel when no option is a geo-nearest predicate, and otherwise
    the place of the last one that is. *)
Definition geoChoice (memo : gmap nat NodeSolution) (opts : list (list nat)) (g : N)
  : Prop :=
  (g = kNoIndex /\ forall k cid, opts !! k = Some [cid] -> isGeoNear memo cid = false) \/
  (exists k, g = N.of_nat k /\ lastGeo memo opts k).

(** [v'] is [v] with the elements at [i] and [j] exchanged. *)
Definition exchanged {A} (i j : nat) (v v' : list A) : Prop :=
  length v' = length v /\ v' !! i = v !! j /\ v' !! j = v !! i /\
  forall k, k <> i -> k <> j -> v' !! k = v !! k.

(** The references of the memo entry [soln], which has the id [k] and
    belongs to the node at [x]: every member of an option is a lower id;
    every subnode of a disjunction is what [_nodeToId] holds for the
    child it stands for, and a lower id when the child is one of
    [order], the nodes with a memo entry. *)
Definition refsLower (m : gmap Addr nat) (order : list Addr) (x : Addr) (k : nat)
    (soln : NodeSolution) : Prop :=
  (forall an o c, andSolution soln = Some an -> o ∈ and_subnodes an -> c ∈ o -> c < k) /\
  (forall o i c, orSolution soln = Some o -> or_subnodes o !! i = Some c ->
                 m !! (x ++ [i]) = Some c /\ ((x ++ [i]) ∈ order -> c < k)).

(** The builder builds the children [cs] of the node at [a] one after the
    other, from child number [i] on; [bs] keeps what each build returns. *)
Inductive childBuilds (a : Addr)
  : nat -> list MatchExpression -> PlanEnumerator -> list bool -> PlanEnumerator -> Prop :=
  | childBuilds_nil i s : childBuilds a i [] s [] s
  | childBuilds_cons i c cs s b s1 bs s2 :
      prepMemo c (a ++ [i]) s = Ok (b, s1) ->
      childBuilds a (S i) cs s1 bs s2 ->
      childBuilds a i (c :: cs) s (b :: bs) s2.

(** What [s] records of the subtree at [a] is still there in [s']: the
    ids of its nodes and every memo entry and cursor made so far. *)
Definition keeps (a : Addr) (s s' : PlanEnumerator) : Prop :=
  (forall x, a `prefix_of` x -> _nodeToId s' !! x = _nodeToId s !! x) /\
  (forall k, k < _inOrderCount s ->
             _memo s' !! k = _memo s !! k /\ _curEnum s' !! k = _curEnum s !! k) /\
  _inOrderCount s <= _inOrderCount s'.

(** The memo entry [id] stands for the indexable node [node] at [a]:
    under the cursor it leads the tagger down the tree below [a], to
    entries with lower ids that stand for children of [node]. *)
Inductive built (memo : gmap nat NodeSolution) (cur : gmap nat nat)
  : MatchExpression -> Addr -> nat -> Prop :=
  | built_pred node a id soln p index :
      memo !! id = Some soln -> pred soln = Some p ->
      addr (expr p) = a -> cur !! id = Some 0 -> first p !! 0 = Some index ->
      built memo cur node a id
  | built_or node a id soln o :
      memo !! id = Some soln -> pred soln = None -> orSolution soln = Some o ->
      matchType node = OR ->
      (forall i cid, or_subnodes o !! i = Some cid -> cid < id) ->
      (forall i cid, or_subnodes o !! i = Some cid -> is_Some (children node !! i)) ->
      (forall i cid c, or_subnodes o !! i = Some cid -> children node !! i = Some c ->
                       built memo cur c (a ++ [i]) cid) ->
      built memo cur node a id
  | built_and node a id soln an cid i c :
      memo !! id = Some soln -> pred soln = None -> orSolution soln = None ->
      andSolution soln = Some an ->
      cur !! id = Some 0 -> and_subnodes an !! 0 = Some [cid] ->
      children node !! i = Some c ->
      cid < id -> built memo cur c (a ++ [i]) cid ->
      built memo cur node a id.

(** The build of the node at [a] has left an entry that stands for it,
    the last id given out. *)
Definition builtAt (node : MatchExpression) (a : Addr) (s' : PlanEnumerator) : Prop :=
  exists id, _nodeToId s' !! a = Some id /\ S id = _inOrderCount s' /\
             built (_memo s') (_curEnum s') node a id.

(** The node [n'] at [a'] lies in the tree of the node [n] at [a]. *)
Inductive nodeAt : MatchExpression -> Addr -> MatchExpression -> Addr -> Prop :=
  | nodeAt_here n a : nodeAt n a n a
  | nodeAt_child n a i c n' a' :
      children n !! i = Some c -> nodeAt c (a ++ [i]) n' a' -> nodeAt n a n' a'.

(** Every conjunction in the tree of [node] has at most one tagged child. *)
Definition oneTagged (tags : gmap Addr TagData) (node : MatchExpression) (a : Addr) : Prop :=
  forall n' a' k1 k2,
    nodeAt node a n' a' -> matchType n' = AND ->
    is_Some (tags !! (a' ++ [k1])) -> is_Some (tags !! (a' ++ [k2])) -> k1 = k2.


(** [s] with other tag slots. *)
Definition withTags (s : PlanEnumerator) (tags : gmap Addr TagData) : PlanEnumerator :=
  mkEnum (_root s) (_indices s) (_nodeToId s) (_memo s) (_curEnum s)
         (_inOrderCount s) (_done s) tags.

(** The predicate entry the memo holds for the node at [a]. *)
Definition entryOf (s : PlanEnumerator) (a : Addr) : option PredicateSolution :=
  _memo s !! default 0 (_nodeToId s !! a) ≫= pred.

(** A candidate for a key-pattern element, in the words of the spec: its
    qualified field path equals the element's field name, it is still
    untagged, and the [notFirst] list of its memo entry contains the
    index. *)
Definition candidate (s : PlanEnumerator) (prefix fieldName : string) (index : nat)
    (u : NodePtr) : Prop :=
  prefix +:+ path (target u) = fieldName /\
  _tagData s !! addr u = None /\
  exists p, entryOf s (addr u) = Some p /\ index ∈ notFirst p.

(** The nodes [picked] get the columns after [posInIdx] of [index], one
    each, in order. *)
Fixpoint tagColumns (index posInIdx : nat) (picked : list NodePtr)
    (tags : gmap Addr TagData) : gmap Addr TagData :=
  match picked with
  | [] => tags
  | u :: rest =>
      tagColumns index (S posInIdx) rest (<[addr u := IndexTag index (S posInIdx)]> tags)
  end.

(** What the completer has checked when it gives column [pos] of [index]
    to the node [u] under the prefix [prefix]: the column exists and is
    not the first, its field name is the qualified field path of [u], and
    the memo entry of [u] lists [index] in [notFirst]. *)
Definition compoundColumn (s : PlanEnumerator) (prefix : string) (u : NodePtr)
    (index pos : nat) : Prop :=
  0 < pos /\
  (exists e, _indices s !! index = Some e /\
             keyPattern e !! pos = Some (prefix +:+ path (target u))) /\
  (exists p, entryOf s (addr u) = Some p /\ addr (expr p) = addr u /\
             index ∈ notFirst p).

(** Tag slots are only filled, never overwritten, and every tag that is
    new satisfies [Q]. *)
Definition tagsGrow (Q : Addr -> TagData -> Prop) (t t' : gmap Addr TagData) : Prop :=
  forall x, t' !! x = t !! x \/
            (t !! x = None /\ exists tag, t' !! x = Some tag /\ Q x tag).

(** The positions of each index among the tags of the children of the
    node at [a] are closed downwards: they form a prefix of the columns. *)
Definition downclosed (a : Addr) (t : gmap Addr TagData) : Prop :=
  forall index pos i, t !! (a ++ [i]) = Some (IndexTag index pos) ->
    forall pos', pos' < pos -> exists j, t !! (a ++ [j]) = Some (IndexTag index pos').

(** The calls of the completer: called with a prefix on a node, it calls
    itself on every child with the prefix of lines 216-220. *)
Inductive visits
  : string -> MatchExpression -> Addr -> string -> MatchExpression -> Addr -> Prop :=
  | visits_here prefix n a : visits prefix n a prefix n a
  | visits_child prefix n a i c prefix' n' a' :
      children n !! i = Some c ->
      visits (childPrefix arrayUsesIndexOnChildren prefix n) c (a ++ [i]) prefix' n' a' ->
      visits prefix n a prefix' n' a'.

(** The work of the completer at one node (lines 123-214). *)
Definition completeAt (prefix : string) (node : MatchExpression) (a : Addr) : M unit :=
  if decide (matchType node = AND) then
    let* parts := partitionChildren nodeCanUseIndexOnOwnField node a in
    completeCompound prefix 0 parts.1 parts.2
  else ret tt.

(** A tag the completer writes at the conjunction [node] at [a]. *)
Definition completedAt (s : PlanEnumerator) (prefix : string) (node : MatchExpression)
    (a : Addr) (x : Addr) (tag : TagData) : Prop :=
  exists i u index pos,
    matchType node = AND /\ children node !! i = Some u /\
    nodeCanUseIndexOnOwnField u = true /\ x = a ++ [i] /\
    tag = IndexTag index pos /\ compoundColumn s prefix (mkPtr x u) index pos.

(** The nodes on the way from [node] down the child numbers [l], the
    node that is reached left out. *)
Fixpoint ancestors (node : MatchExpression) (l : list nat) {struct l}
  : list MatchExpression :=
  match l with
  | [] => []
  | i :: l' =>
      match children node !! i with
      | Some c => node :: ancestors c l'
      | None => []
      end
  end.

(** The enclosing array-scoped prefix, in the words of the spec, of the
    node reached from [node] down the child numbers [l]: the paths, each
    followed by a dot, of the array-scoped nodes with a non-empty path
    that enclose it, the outermost first. *)
Definition enclosingPrefix (node : MatchExpression) (l : list nat) : string :=
  foldr (fun n rest => (path n +:+ ".") +:+ rest) ""
    (filter (fun n => arrayUsesIndexOnChildren n = true /\ path n <> "")
       (ancestors node l)).

(** A tag the completer writes on a child of a conjunction below the
    node at [a], in the words of the spec: the child is indexable on its
    own field, and the tag gives it a later column of an index whose
    field name is the path of the child under the enclosing array-scoped
    prefix and which the [notFirst] list of its memo entry contains. *)
Definition completes (s : PlanEnumerator) (prefix : string) (node : MatchExpression)
    (a : Addr) (x : Addr) (tag : TagData) : Prop :=
  exists l n i u index pos,
    nodeAt node a n (a ++ l) /\ matchType n = AND /\ children n !! i = Some u /\
    nodeCanUseIndexOnOwnField u = true /\ x = a ++ l ++ [i] /\
    tag = IndexTag index pos /\
    compoundColumn s (prefix +:+ enclosingPrefix node l) (mkPtr x u) index pos.

(** The two lists of step 1 at the conjunction at [a], in the words of
    the spec and in sibling order: the children indexable on their own
    field that carry no tag, and those that carry the tag of a compound
    index. *)
Definition unassignedOf (tags : gmap Addr TagData) (node : MatchExpression) (a : Addr)
  : list NodePtr :=
  overChildren (fun i c =>
    if nodeCanUseIndexOnOwnField c && bool_decide (tags !! (a ++ [i]) = None)
    then [mkPtr (a ++ [i]) c] else []) (children node) 0.

Definition compoundIndex (indices : list IndexEntry) (index : nat) : bool :=
  match indices !! index with
  | Some e => 1 <? length (keyPattern e)
  | None => false
  end.

Definition assignedCompoundOf (indices : list IndexEntry) (tags : gmap Addr TagData)
    (node : MatchExpression) (a : Addr) : list NodePtr :=
  overChildren (fun i c =>
    match tags !! (a ++ [i]) with
    | Some (IndexTag index _) =>
        if nodeCanUseIndexOnOwnField c && compoundIndex indices index
        then [mkPtr (a ++ [i]) c] else []
    | _ => []
    end) (children node) 0.

(** The slots the completer reads in [_nodeToId] below the node at [a]:
    those of the children of a conjunction that are indexable on their
    own field. *)
Definition ownFieldSlots (node : MatchExpression) (a : Addr) (x : Addr) : Prop :=
  exists n a' i c,
    nodeAt node a n a' /\ matchType n = AND /\ children n !! i = Some c /\
    nodeCanUseIndexOnOwnField c = true /\ x = a' ++ [i].

(** The same slots as a list, in the order in which the completer reads
    them: at a conjunction those of its children, then those below each
    child. *)
Fixpoint ownFieldKeys (node : MatchExpression) (a : Addr) {struct node} : list Addr :=
  (if decide (matchType node = AND)
   then overChildren (fun i c => if nodeCanUseIndexOnOwnField c then [a ++ [i]] else [])
          (children node) 0
   else []) ++
  overChildren (fun i c => ownFieldKeys c (a ++ [i])) (children node) 0.

(** A tag the completer writes somewhere below its first call. *)
Definition completed (s : PlanEnumerator) (prefix : string) (node : MatchExpression)
    (a : Addr) (x : Addr) (tag : TagData) : Prop :=
  exists prefix' n a',
    visits prefix node a prefix' n a' /\ completedAt s prefix' n a' x tag.

(** [x] is the slot of a node strictly below the node at [a]. *)
Definition under (a x : Addr) : Prop := exists l k, x = a ++ l ++ [k].

(** A tag the tagger writes: the index the cursor selects in the [first]
    list of a predicate entry, at position 0, on the node of that entry. *)
Definition taggedFirst (s : PlanEnumerator) (x : Addr) (tag : TagData) : Prop :=
  exists id soln p index,
    _memo s !! id = Some soln /\ pred soln = Some p /\ addr (expr p) = x /\
    first p !! default 0 (_curEnum s !! id) = Some index /\ index ∈ first p /\
    tag = IndexTag index 0.

(** The state in which [init] starts the builder, and the state in which
    the builder's result [indexed] and the reset of the tags leave it. *)
Definition beforeBuild (s : PlanEnumerator) : PlanEnumerator :=
  mkEnum (_root s) (_indices s) (_nodeToId s) (_memo s) (_curEnum s) 0 false (_tagData s).

Definition afterBuild (s : PlanEnumerator) (indexed : bool) : PlanEnumerator :=
  mkEnum (_root s) (_indices s) (_nodeToId s) (_memo s) (_curEnum s) (_inOrderCount s)
         (negb indexed) (filter (fun kv => ~ [] `prefix_of` kv.1) (_tagData s)).

(** The entries the tagger reaches from an entry under the cursor: the
    entry itself, the entries reached from every subnode of a
    disjunction, and those reached from every member of the option the
    cursor selects. *)
Inductive reaches (s : PlanEnumerator) : nat -> nat -> Prop :=
  | reaches_here id : reaches s id id
  | reaches_or id soln o cid id' :
      _memo s !! id = Some soln -> pred soln = None -> orSolution soln = Some o ->
      cid ∈ or_subnodes o -> reaches s cid id' -> reaches s id id'
  | reaches_and id soln an cur cid id' :
      _memo s !! id = Some soln -> pred soln = None -> orSolution soln = None ->
      andSolution soln = Some an ->
      and_subnodes an !! default 0 (_curEnum s !! id) = Some cur ->
      cid ∈ cur -> reaches s cid id' -> reaches s id id'.

(** *** Well-formed inputs *)

(** The pre-conditions of the constructor.  The kinds and arities of a
    node are consistent: an array-scoped node is not indexable on its own
    field; a node that is indexable on its own field, or that is none of
    the three kinds, is a leaf; a generic logical node is a conjunction
    or a disjunction. *)
Definition wfNode (node : MatchExpression) : bool :=
  if arrayUsesIndexOnChildren node then negb (nodeCanUseIndexOnOwnField node)
  else if nodeCanUseIndexOnOwnField node || negb (isLogical node)
       then bool_decide (children node = [])
       else bool_decide (matchType node = AND \/ matchType node = OR).

Fixpoint wfTree (node : MatchExpression) : bool :=
  wfNode node && forallb wfTree (children node).

(** A tag of the input is a relevance tag, and the members of its lists
    are index ids of a catalog of [n] entries. *)
Definition relevantWithin (n : nat) (tag : TagData) : bool :=
  match tag with
  | RelevantTag f nf => forallb (fun i => i <? n) f && forallb (fun i => i <? n) nf
  | IndexTag _ _ => false
  end.

Definition relevanceTags (n : nat) (tags : gmap Addr TagData) : Prop :=
  map_Forall (fun _ tag => relevantWithin n tag = true) tags.

(** Every tag is an [IndexTag] of an index of a catalog of [n] entries. *)
Definition indexTags (n : nat) (tags : gmap Addr TagData) : Prop :=
  forall x tag, tags !! x = Some tag -> exists index pos, tag = IndexTag index pos /\ index < n.

(** The [first] lists of the predicate entries hold index ids of a
    catalog of [n] entries. *)
Definition validFirst (n : nat) (memo : gmap nat NodeSolution) : Prop :=
  forall id soln p, memo !! id = Some soln -> pred soln = Some p -> Forall (fun i => i < n) (first p).

(** The node at [x] has a memo id, and the entry of that id is a
    predicate entry that points back to the node. *)
Definition leafEntry (s : PlanEnumerator) (x : Addr) : Prop :=
  exists id soln p,
    _nodeToId s !! x = Some id /\ id < _inOrderCount s /\
    _memo s !! id = Some soln /\ pred soln = Some p /\ addr (expr p) = x.

(** Every node in the tree of [node] that is indexable on its own field
    has such an entry. *)
Definition leafEntries (s : PlanEnumerator) (node : MatchExpression) (a : Addr) : Prop :=
  forall n' x, nodeAt node a n' x -> nodeCanUseIndexOnOwnField n' = true -> leafEntry s x.

(** The failures that can only come from [tagMemo]: its five [verify]s
    and the end of the fuel. *)
Definition taggerError (e : error) : bool :=
  match e with
  | VerifyFailed line => bool_decide (line ∈ [370; 373; 379; 391; 392])
  | NoFuel => true
  | _ => false
  end.

End Vocabulary.

Section Calls.

Variable tagForSort : Clone -> Clone.
Variable sortUsingTags : Clone -> Clone.

(** [n] calls of [getNext] in a row, with the booleans they return. *)
Fixpoint getNextTimes (n : nat) : M (list bool) :=
  match n with
  | 0 => ret []
  | S n' =>
      let* r := getNext tagForSort sortUsingTags in
      let* rs := getNextTimes n' in
      ret (r.1 :: rs)
  end.

End Calls.

(** ** Inputs of the worked examples *)

Module Examples.

Import Sample.

Definition memoOrder := memoOrder isLogical arrayUsesIndexOnChildren nodeCanUseIndexOnOwnField.
Definition indexable := indexable isLogical arrayUsesIndexOnChildren nodeCanUseIndexOnOwnField.

(** The conjunction of two comparisons over [a] and [b], the first
    relevant as first column and the second as a later column of index 0. *)
Definition andAB : MatchExpression := MkExpr AND "" [leaf EQ "a"; leaf EQ "b"].
Definition tagsAB : gmap Addr TagData :=
  <[[0] := RelevantTag [0] []]> (<[[1] := RelevantTag [] [0]]> ∅).
Definition catalogAB : list IndexEntry := [mkIndexEntry ["a"; "b"] false].
Definition enumAB : PlanEnumerator := newPlanEnumerator andAB tagsAB catalogAB.

(** [enumAB] after the build pass and the reset of the tags, and after
    the tagger. *)
Definition builtAB : PlanEnumerator :=
  match prepMemo andAB [] enumAB with
  | Ok (indexed, s) => afterBuild s indexed
  | Err _ => enumAB
  end.
Definition taggedAB : PlanEnumerator :=
  match tagMemo 3 2 builtAB with
  | Ok (_, s) => s
  | Err _ => builtAB
  end.

(** The same conjunction over [c] and [d], for index 1 of a catalog of
    two compound indexes, of which one is multikey. *)
Definition andCD : MatchExpression := MkExpr AND "" [leaf EQ "c"; leaf EQ "d"].
Definition tagsCD : gmap Addr TagData :=
  <[[0] := RelevantTag [1] []]> (<[[1] := RelevantTag [] [1]]> ∅).
Definition catalogCD (multikeyAB multikeyCD : bool) : list IndexEntry :=
  [mkIndexEntry ["a"; "b"] multikeyAB; mkIndexEntry ["c"; "d"] multikeyCD].

(** Logical nodes without children. *)
Definition emptyAnd : MatchExpression := MkExpr AND "" [].
Definition emptyOr : MatchExpression := MkExpr OR "" [].

(** Disjunctions: of a size test alone, of a comparison and a size test,
    and of two comparisons. *)
Definition orSize : MatchExpression := MkExpr OR "" [leaf SIZE "b"].
Definition orASize : MatchExpression := MkExpr OR "" [leaf EQ "a"; leaf SIZE "b"].
Definition orAB : MatchExpression := MkExpr OR "" [leaf EQ "a"; leaf EQ "b"].
Definition tagsA : gmap Addr TagData := <[[0] := RelevantTag [0] []]> ∅.
Definition tagsOrAB : gmap Addr TagData :=
  <[[0] := RelevantTag [0] []]> (<[[1] := RelevantTag [1] []]> ∅).
Definition catalogA : list IndexEntry := [mkIndexEntry ["a"] false].
Definition catalogOrAB : list IndexEntry :=
  [mkIndexEntry ["a"] false; mkIndexEntry ["b"] false].

(** A conjunction with a geo-nearest child after a comparison. *)
Definition andGeo : MatchExpression := MkExpr AND "" [leaf EQ "a"; leaf GEO_NEAR "g"].
Definition tagsGeo : gmap Addr TagData :=
  <[[0] := RelevantTag [0] []]> (<[[1] := RelevantTag [1] []]> ∅).
Definition catalogGeo : list IndexEntry :=
  [mkIndexEntry ["a"] false; mkIndexEntry ["g"] false].

(** A conjunction with a geo-nearest child after two comparisons. *)
Definition andABGeo : MatchExpression :=
  MkExpr AND "" [leaf EQ "a"; leaf EQ "b"; leaf GEO_NEAR "g"].
Definition tagsABGeo : gmap Addr TagData :=
  <[[0] := RelevantTag [0] []]>
    (<[[1] := RelevantTag [1] []]> (<[[2] := RelevantTag [2] []]> ∅)).
Definition catalogABGeo : list IndexEntry :=
  [mkIndexEntry ["a"] false; mkIndexEntry ["b"] false; mkIndexEntry ["g"] false].

(** An element-match over [a] of a conjunction of a comparison over [x]
    and two comparisons over [y]: the first is relevant as first column
    and the other two as a later column of the index over [a.x] and
    [a.y].  [taggedXYY] is the state after the build pass, the reset of
    the tags and the tagger. *)
Definition elemXYY : MatchExpression :=
  MkExpr ELEM_MATCH_OBJECT "a"
    [MkExpr AND "" [leaf EQ "x"; leaf EQ "y"; leaf EQ "y"]].
Definition tagsXYY : gmap Addr TagData :=
  <[[0; 0] := RelevantTag [0] []]>
    (<[[0; 1] := RelevantTag [] [0]]> (<[[0; 2] := RelevantTag [] [0]]> ∅)).
Definition catalogXYY : list IndexEntry := [mkIndexEntry ["a.x"; "a.y"] false].
Definition taggedXYY : PlanEnumerator :=
  match prepMemo elemXYY [] (newPlanEnumerator elemXYY tagsXYY catalogXYY) with
  | Ok (indexed, s) =>
      match tagMemo 5 4 (afterBuild s indexed) with
      | Ok (_, s') => s'
      | Err _ => s
      end
  | Err _ => newPlanEnumerator elemXYY tagsXYY catalogXYY
  end.

End Examples.


(** ** Vocabulary of the further properties *)

(** The writes with which the builder finishes the node at [a], once its
    children are built: the next id for the node, its entry, the cursor 0
    except for a disjunction, for a predicate the move of the lists of
    the relevance tag into the entry, and for a disjunction the reads of
    the ids of its children, at the slots [kids]. *)
Inductive finishes (a : Addr) (node : MatchExpression)
  : PlanEnumerator -> PlanEnumerator -> Prop :=
  | finishes_choice s (subnodes : list (list nat)) :
      finishes a node s
        (mkEnum (_root s) (_indices s) (<[a := _inOrderCount s]> (_nodeToId s))
           (<[_inOrderCount s := andSoln (mkAnd subnodes)]> (_memo s))
           (<[_inOrderCount s := 0]> (_curEnum s))
           (S (_inOrderCount s)) (_done s) (_tagData s))
  | finishes_untagged s :
      _tagData s !! a = None ->
      finishes a node s
        (mkEnum (_root s) (_indices s) (<[a := _inOrderCount s]> (_nodeToId s))
           (<[_inOrderCount s := predSoln (mkPred [] [] (mkPtr a node))]> (_memo s))
           (<[_inOrderCount s := 0]> (_curEnum s))
           (S (_inOrderCount s)) (_done s) (_tagData s))
  | finishes_tagged s f nf :
      _tagData s !! a = Some (RelevantTag f nf) ->
      finishes a node s
        (mkEnum (_root s) (_indices s) (<[a := _inOrderCount s]> (_nodeToId s))
           (<[_inOrderCount s := predSoln (mkPred f nf (mkPtr a node))]> (_memo s))
           (<[_inOrderCount s := 0]> (_curEnum s))
           (S (_inOrderCount s)) (_done s)
           (<[a := RelevantTag [] []]> (_tagData s)))
  | finishes_all s (subnodes : list nat) (kids : list Addr) :
      (forall x, x ∈ kids -> exists i, x = a ++ [i]) ->
      finishes a node s
        (mkEnum (_root s) (_indices s)
           (zeroKeys kids (<[a := _inOrderCount s]> (_nodeToId s)))
           (<[_inOrderCount s := orSoln (mkOr subnodes)]> (_memo s))
           (_curEnum s)
           (S (_inOrderCount s)) (_done s) (_tagData s)).

(** A memo entry has exactly one of its three parts. *)
Definition oneKind (soln : NodeSolution) : Prop :=
  (exists p, soln = predSoln p) \/ (exists an, soln = andSoln an) \/
  (exists o, soln = orSoln o).

(** The lists of a relevance tag, and none for a node without a tag. *)
Definition firstOf (tag : option TagData) : list nat :=
  match tag with
  | Some (RelevantTag f _) => f
  | _ => []
  end.
Definition notFirstOf (tag : option TagData) : list nat :=
  match tag with
  | Some (RelevantTag _ nf) => nf
  | _ => []
  end.

(** No disjunction of the tree is without children. *)
Fixpoint noEmptyOr (node : MatchExpression) : bool :=
  negb (bool_decide (matchType node = OR) && bool_decide (children node = []))
  && forallb noEmptyOr (children node).

(** Every cursor reads 0. *)
Definition cursorsZero (cur : gmap nat nat) : Prop :=
  forall id, default 0 (cur !! id) = 0.

(** Every tag slot is empty. *)
Definition untagged (tags : gmap Addr TagData) : Prop := forall x, tags !! x = None.

(** What the state holds of the relevance tags [tags0] of the input: a
    tag slot is as in the input or holds the emptied relevance tag, and
    the lists of a predicate entry are those of the tag of its node in
    the input, or empty. *)
Definition fromTags (tags0 : gmap Addr TagData) (s : PlanEnumerator) : Prop :=
  (forall x, _tagData s !! x = tags0 !! x \/ _tagData s !! x = Some (RelevantTag [] [])) /\
  (forall id soln p,
      _memo s !! id = Some soln -> pred soln = Some p ->
      (first p = firstOf (tags0 !! addr (expr p)) \/ first p = []) /\
      (notFirst p = notFirstOf (tags0 !! addr (expr p)) \/ notFirst p = [])).

(** The tag slot of a node after the build has moved its lists out. *)
Definition emptied (tag : option TagData) : option TagData :=
  match tag with
  | Some _ => Some (RelevantTag [] [])
  | None => None
  end.

(** The tagged children of every conjunction in the tree of [node] carry
    the same index. *)
Definition oneIndex (tags : gmap Addr TagData) (node : MatchExpression) (a : Addr)
  : Prop :=
  forall n' a' k1 k2 i1 p1 i2 p2,
    nodeAt node a n' a' -> matchType n' = AND ->
    tags !! (a' ++ [k1]) = Some (IndexTag i1 p1) ->
    tags !! (a' ++ [k2]) = Some (IndexTag i2 p2) -> i1 = i2.

(** A tag the completer writes at the node at [a]: on a child, with the
    index of a child that was tagged before. *)
Definition extends (t : gmap Addr TagData) (a : Addr) (x : Addr) (tag : TagData) : Prop :=
  exists k k' index pos pos',
    t !! (a ++ [k]) = Some (IndexTag index pos') /\ x = a ++ [k'] /\
    tag = IndexTag index pos.

(** The failures that can come from the completer: the [verify]s of
    lines 131, 132 and 196, a tag that is not an [IndexTag], and an index
    past the end of the catalog. *)
Definition completerError (e : error) : bool :=
  match e with
  | VerifyFailed line => bool_decide (line ∈ [131; 132; 196])
  | OutOfRange | BadCast => true
  | NoFuel => false
  end.

(** ** Further inputs of the worked examples *)

Module MoreExamples.

Import Sample Examples.

(** [enumAB] after [init], and the same conjunction with a catalog of
    one single-field index after the build pass and the tagger. *)
Definition readyAB : PlanEnumerator :=
  match init 3 enumAB with
  | Ok (_, s) => s
  | Err _ => enumAB
  end.
Definition taggedA : PlanEnumerator :=
  match prepMemo andAB [] (newPlanEnumerator andAB tagsAB catalogA) with
  | Ok (indexed, s) =>
      match tagMemo 3 2 (afterBuild s indexed) with
      | Ok (_, s') => s'
      | Err _ => s
      end
  | Err _ => enumAB
  end.

(** A comparison that carries an [IndexTag]. *)
Definition tagsIndexed : gmap Addr TagData := <[[] := IndexTag 0 0]> ∅.

(** A stand-in for [MatchExpression::toString]: the path of the node. *)
Definition showPath (p : NodePtr) (_ : gmap Addr TagData) : string := path (target p).

End MoreExamples.
(** * Properties *)

(** ** Reasoning about the monad and the loops *)

Lemma bind_Ok {A B} (m : M A) (k : A -> M B) s b s' :
  bind m k s = Ok (b, s') <-> exists a s1, m s = Ok (a, s1) /\ k a s1 = Ok (b, s').
Proof.
  unfold bind. split.
  - destruct (m s) as [[a s1]|e]; [eauto | discriminate].
  - intros (a & s1 & -> & Hk). done.
Qed.

Lemma bind_Err {A B} (m : M A) (k : A -> M B) s e :
  bind m k s = Err e <->
  m s = Err e \/ exists a s1, m s = Ok (a, s1) /\ k a s1 = Err e.
Proof.
  unfold bind. split.
  - destruct (m s) as [[a s1]|e']; [eauto | intros [= ->]; eauto].
  - intros [-> | (a & s1 & -> & Hk)]; done.
Qed.

Lemma verify_Ok line b s u s' : verify line b s = Ok (u, s') <-> b = true /\ s' = s.
Proof.
  unfold verify, ret, fail. destruct b; split; try discriminate.
  - by intros [= _ ->].
  - by intros [_ ->]; destruct u.
  - by intros [? _].
Qed.

(** Induction on a tree with the hypothesis for every child. *)
Lemma MatchExpression_ind (P : MatchExpression -> Prop) :
  (forall mt p cs, Forall P cs -> P (MkExpr mt p cs)) -> forall e, P e.
Proof.
  intros H. fix IH 1. intros [mt p cs]. apply H.
  induction cs as [|c cs IHcs]; constructor; [apply IH | apply IHcs].
Qed.

Lemma forChildren_inv_from {A} (body : nat -> MatchExpression -> A -> M A)
    (I : nat -> A -> PlanEnumerator -> Prop) cs :
  forall i0 acc s r s',
    forChildren body cs i0 acc s = Ok (r, s') ->
    I i0 acc s ->
    (forall i c acc s acc' s',
        cs !! i = Some c -> I (i0 + i) acc s ->
        body (i0 + i) c acc s = Ok (acc', s') -> I (S (i0 + i)) acc' s') ->
    I (i0 + length cs) r s'.
Proof.
  induction cs as [|c cs IH]; intros i0 acc s r s' Hrun HI Hbody; simpl in *.
  - injection Hrun as <- <-. by rewrite Nat.add_0_r.
  - apply bind_Ok in Hrun as (acc1 & s1 & Hb & Hrun).
    replace (i0 + S (length cs)) with (S i0 + length cs) by lia.
    eapply IH; [exact Hrun | |].
    + specialize (Hbody 0 c acc s acc1 s1). rewrite Nat.add_0_r in Hbody. by apply Hbody.
    + intros i c' acc' s2 acc2 s3 Hc. replace (S i0 + i) with (i0 + S i) by lia.
      by apply Hbody.
Qed.

Lemma forChildren_inv {A} (body : nat -> MatchExpression -> A -> M A)
    (I : nat -> A -> PlanEnumerator -> Prop) cs acc s r s' :
  forChildren body cs 0 acc s = Ok (r, s') ->
  I 0 acc s ->
  (forall i c acc s acc' s',
      cs !! i = Some c -> I i acc s -> body i c acc s = Ok (acc', s') -> I (S i) acc' s') ->
  I (length cs) r s'.
Proof.
  intros Hrun HI Hbody.
  apply (forChildren_inv_from body I cs 0 acc s r s' Hrun HI). intros. simpl in *. eauto.
Qed.

Lemma forChildren_total_from {A} (body : nat -> MatchExpression -> A -> M A)
    (I : nat -> A -> PlanEnumerator -> Prop) cs :
  forall i0 acc s,
    I i0 acc s ->
    (forall i c acc s,
        cs !! i = Some c -> I (i0 + i) acc s ->
        exists acc' s', body (i0 + i) c acc s = Ok (acc', s') /\ I (S (i0 + i)) acc' s') ->
    exists r s', forChildren body cs i0 acc s = Ok (r, s') /\ I (i0 + length cs) r s'.
Proof.
  induction cs as [|c cs IH]; intros i0 acc s HI Hbody; simpl.
  - exists acc, s. by rewrite Nat.add_0_r.
  - destruct (Hbody 0 c acc s) as (acc1 & s1 & Hb & HI1); [done | by rewrite Nat.add_0_r |].
    rewrite Nat.add_0_r in Hb, HI1.
    destruct (IH (S i0) acc1 s1 HI1) as (r & s' & Hrun & HI').
    + intros i c' acc' s2 Hc. replace (S i0 + i) with (i0 + S i) by lia. by apply Hbody.
    + exists r, s'. split.
      * apply bind_Ok. eauto.
      * by replace (i0 + S (length cs)) with (S i0 + length cs) by lia.
Qed.

Lemma forChildren_total {A} (body : nat -> MatchExpression -> A -> M A)
    (I : nat -> A -> PlanEnumerator -> Prop) cs acc s :
  I 0 acc s ->
  (forall i c acc s,
      cs !! i = Some c -> I i acc s ->
      exists acc' s', body i c acc s = Ok (acc', s') /\ I (S i) acc' s') ->
  exists r s', forChildren body cs 0 acc s = Ok (r, s') /\ I (length cs) r s'.
Proof.
  intros HI Hbody. apply (forChildren_total_from body I cs 0 acc s HI). intros. simpl. eauto.
Qed.

(** ** Reads of the map from node to id *)

Lemma withIds_same s : withIds s (_nodeToId s) = s.
Proof. by destruct s. Qed.

Lemma nodeToId_run a s :
  nodeToId a s = Ok (default 0 (_nodeToId s !! a), withIds s (zeroKey a (_nodeToId s))).
Proof.
  unfold nodeToId, zeroKey. destruct (_nodeToId s !! a); simpl; [|done].
  by rewrite withIds_same.
Qed.

Lemma nodeToId_present a s id : _nodeToId s !! a = Some id -> nodeToId a s = Ok (id, s).
Proof. intros H. unfold nodeToId. by rewrite H. Qed.

Lemma zeroKey_lookup (x : Addr) (m : gmap Addr nat) (y : Addr) :
  zeroKey x m !! y = if decide (y = x) then Some (default 0 (m !! x)) else m !! y.
Proof.
  unfold zeroKey. destruct (m !! x) eqn:Hx; case_decide as Hy; subst;
    rewrite ?lookup_insert_eq, ?lookup_insert_ne by done; done.
Qed.

Lemma zeroKey_present (x : Addr) (m : gmap Addr nat) : is_Some (m !! x) -> zeroKey x m = m.
Proof. intros [k Hk]. unfold zeroKey. by rewrite Hk. Qed.

Lemma zeroKeys_cons (x : Addr) (xs : list Addr) (m : gmap Addr nat) :
  zeroKeys (x :: xs) m = zeroKeys xs (zeroKey x m).
Proof. done. Qed.

Lemma zeroKeys_lookup_notin (xs : list Addr) : forall (m : gmap Addr nat) (y : Addr),
  y ∉ xs -> zeroKeys xs m !! y = m !! y.
Proof.
  induction xs as [|x xs IH]; intros m y Hy; [done|].
  apply not_elem_of_cons in Hy as [Hne Hy]. rewrite zeroKeys_cons, IH by done.
  rewrite zeroKey_lookup. by rewrite decide_False.
Qed.

Lemma zeroKeys_lookup_Some (xs : list Addr) : forall (m : gmap Addr nat) (y : Addr) k,
  m !! y = Some k -> zeroKeys xs m !! y = Some k.
Proof.
  induction xs as [|x xs IH]; intros m y k Hy; [done|].
  rewrite zeroKeys_cons. apply IH. rewrite zeroKey_lookup. case_decide; [|done].
  subst. by rewrite Hy.
Qed.

Lemma zeroKeys_default (xs : list Addr) : forall (m : gmap Addr nat) (y : Addr),
  default 0 (zeroKeys xs m !! y) = default 0 (m !! y).
Proof.
  induction xs as [|x xs IH]; intros m y; [done|].
  rewrite zeroKeys_cons, IH, zeroKey_lookup. case_decide; [|done]. by subst.
Qed.

Lemma zeroKeys_lookup_in (xs : list Addr) (m : gmap Addr nat) (y : Addr) :
  y ∈ xs -> zeroKeys xs m !! y = Some (default 0 (m !! y)).
Proof.
  revert m. induction xs as [|x xs IH]; intros m Hy; [by apply elem_of_nil in Hy|].
  rewrite zeroKeys_cons. destruct (decide (y = x)) as [->|Hne].
  - apply zeroKeys_lookup_Some. rewrite zeroKey_lookup. by rewrite decide_True.
  - apply elem_of_cons in Hy as [?|Hy]; [done|].
    rewrite IH by done. rewrite zeroKey_lookup. by rewrite decide_False.
Qed.

Lemma zeroKeys_app (xs ys : list Addr) (m : gmap Addr nat) :
  zeroKeys (xs ++ ys) m = zeroKeys ys (zeroKeys xs m).
Proof. apply foldl_app. Qed.

Lemma zeroKeys_present (xs : list Addr) : forall (m : gmap Addr nat),
  (forall x, x ∈ xs -> is_Some (m !! x)) -> zeroKeys xs m = m.
Proof.
  induction xs as [|x xs IH]; intros m Hxs; [done|].
  rewrite zeroKeys_cons, zeroKey_present by (apply Hxs; by left).
  apply IH. intros y Hy. apply Hxs. by right.
Qed.

Lemma zeroKeys_insert (xs : list Addr) : forall (m : gmap Addr nat) (x : Addr) k,
  x ∉ xs -> zeroKeys xs (<[x := k]> m) = <[x := k]> (zeroKeys xs m).
Proof.
  induction xs as [|y xs IH]; intros m x k Hx; [done|].
  apply not_elem_of_cons in Hx as [Hne Hx]. rewrite !zeroKeys_cons.
  rewrite <- IH by done. f_equal. unfold zeroKey.
  rewrite lookup_insert_ne by done. destruct (m !! y); [done|].
  by apply insert_insert_ne.
Qed.

Lemma zeroKeys_assignIds (os : list Addr) n (l : list Addr) : forall (m : gmap Addr nat),
  (forall x, x ∈ l -> x ∉ os) ->
  zeroKeys os (assignIds n l m) = assignIds n l (zeroKeys os m).
Proof.
  revert n. induction l as [|x l IH]; intros n m Hl; simpl; [done|].
  rewrite IH by (intros y Hy; apply Hl; by right).
  rewrite zeroKeys_insert by (apply Hl; by left). done.
Qed.

Lemma zerosAdded_refl (K : Addr -> Prop) (m : gmap Addr nat) : zerosAdded K m m.
Proof. intros x. by left. Qed.

Lemma zerosAdded_trans (K : Addr -> Prop) (m1 m2 m3 : gmap Addr nat) :
  zerosAdded K m1 m2 -> zerosAdded K m2 m3 -> zerosAdded K m1 m3.
Proof.
  intros H12 H23 x. destruct (H23 x) as [->|(HK & Hn & Hz)]; [apply H12|].
  destruct (H12 x) as [Heq|(_ & _ & Hz')]; [|congruence].
  right. split_and!; congruence.
Qed.

Lemma zerosAdded_mono (K K' : Addr -> Prop) (m m' : gmap Addr nat) :
  (forall x, K x -> K' x) -> zerosAdded K m m' -> zerosAdded K' m m'.
Proof. intros HK H x. destruct (H x) as [?|(? & ? & ?)]; [by left|right; auto]. Qed.

Lemma zerosAdded_zeroKey (K : Addr -> Prop) (x : Addr) (m : gmap Addr nat) : K x -> zerosAdded K m (zeroKey x m).
Proof.
  intros HK y. rewrite zeroKey_lookup. case_decide as Hy; [|by left]. subst.
  destruct (m !! x); [by left|by right].
Qed.

Lemma zerosAdded_default (K : Addr -> Prop) (m m' : gmap Addr nat) (x : Addr) :
  zerosAdded K m m' -> default 0 (m' !! x) = default 0 (m !! x).
Proof. intros H. destruct (H x) as [->|(_ & -> & ->)]; done. Qed.

Lemma zerosAdded_Some (K : Addr -> Prop) (m m' : gmap Addr nat) (x : Addr) k :
  zerosAdded K m m' -> m !! x = Some k -> m' !! x = Some k.
Proof. intros H Hx. destruct (H x) as [->|(_ & ? & _)]; congruence. Qed.

Lemma zerosAdded_same (K : Addr -> Prop) (m m' : gmap Addr nat) :
  zerosAdded K m m' -> (forall x, K x -> is_Some (m !! x)) -> m' = m.
Proof.
  intros H HK. apply map_eq. intros x. destruct (H x) as [?|(Hx & Hn & _)]; [done|].
  destruct (HK x Hx) as [k Hk]. congruence.
Qed.

(** ** The order of the memo *)

Section OrderFacts.

Variable isLogical : MatchExpression -> bool.
Variable arrayUsesIndexOnChildren : MatchExpression -> bool.
Variable nodeCanUseIndexOnOwnField : MatchExpression -> bool.

Local Abbreviation memoOrder :=
  (memoOrder isLogical arrayUsesIndexOnChildren nodeCanUseIndexOnOwnField).

Lemma overChildren_app {B} (f : nat -> MatchExpression -> list B) cs1 cs2 i :
  overChildren f (cs1 ++ cs2) i = overChildren f cs1 i ++ overChildren f cs2 (i + length cs1).
Proof.
  revert i. induction cs1 as [|c cs1 IH]; intros i; simpl.
  - by rewrite Nat.add_0_r.
  - rewrite IH, <- app_assoc. do 3 f_equal. lia.
Qed.

Lemma overChildren_take_S {B} (f : nat -> MatchExpression -> list B) cs i c :
  cs !! i = Some c ->
  overChildren f (take (S i) cs) 0 = overChildren f (take i cs) 0 ++ f i c.
Proof.
  intros Hc. rewrite (take_S_r _ _ _ Hc), overChildren_app. simpl.
  rewrite length_take, app_nil_r. apply lookup_lt_Some in Hc.
  by replace (i `min` length cs) with i by lia.
Qed.

Lemma elem_of_overChildren {B} (f : nat -> MatchExpression -> list B) cs i0 x :
  x ∈ overChildren f cs i0 <-> exists i c, cs !! i = Some c /\ x ∈ f (i0 + i) c.
Proof.
  revert i0. induction cs as [|c cs IH]; intros i0; simpl.
  - split; [by intros ?%elem_of_nil | by intros (i & c & ? & _)].
  - rewrite elem_of_app, IH. split.
    + intros [Hx | (i & c' & Hc & Hx)].
      * exists 0, c. by rewrite Nat.add_0_r.
      * exists (S i), c'. by replace (i0 + S i) with (S i0 + i) by lia.
    + intros ([|i] & c' & Hc & Hx); simpl in Hc.
      * left. injection Hc as ->. by rewrite Nat.add_0_r in Hx.
      * right. exists i, c'. by replace (S i0 + i) with (i0 + S i) by lia.
Qed.

Lemma memoOrder_unfold node a :
  memoOrder node a =
  let below := overChildren (fun i c => memoOrder c (a ++ [i])) (children node) 0 in
  if arrayUsesIndexOnChildren node then below ++ [a]
  else if nodeCanUseIndexOnOwnField node then [a]
  else if isLogical node then below ++ [a]
  else [].
Proof. by destruct node. Qed.

Lemma memoOrder_prefix node : forall a x, x ∈ memoOrder node a -> a `prefix_of` x.
Proof.
  induction node as [mt p cs IH] using MatchExpression_ind. intros a x.
  rewrite memoOrder_unfold. simpl.
  assert (Hbelow : x ∈ overChildren (fun i c => memoOrder c (a ++ [i])) cs 0 ->
                   a `prefix_of` x).
  { intros (i & c & Hc & Hx)%elem_of_overChildren.
    rewrite Forall_forall in IH. apply IH in Hx; [|by eapply list_elem_of_lookup_2].
    etrans; [|exact Hx]. by apply prefix_app_r. }
  repeat case_match; rewrite ?elem_of_app, ?list_elem_of_singleton;
    try (intros [?| ->]); try (intros ->); try done; auto.
  by intros ?%elem_of_nil.
Qed.

Lemma prefix_snoc_ne (a x : Addr) i j :
  i <> j -> (a ++ [i]) `prefix_of` x -> (a ++ [j]) `prefix_of` x -> False.
Proof.
  intros Hij [k1 ->] [k2 Hk]. rewrite <- !app_assoc in Hk.
  apply app_inv_head in Hk. simpl in Hk. congruence.
Qed.

Lemma prefix_snoc_self (a : Addr) i : ~ (a ++ [i]) `prefix_of` a.
Proof.
  intros Hp%prefix_length. rewrite length_app in Hp. simpl in Hp. lia.
Qed.

Lemma overChildren_NoDup (f : nat -> MatchExpression -> list Addr) a cs :
  (forall i c, cs !! i = Some c -> NoDup (f i c)) ->
  (forall i c x, cs !! i = Some c -> x ∈ f i c -> (a ++ [i]) `prefix_of` x) ->
  forall n, NoDup (overChildren f (take n cs) 0).
Proof.
  intros Hnd Hpre n. induction n as [|n IH]; [rewrite take_0; constructor|].
  destruct (cs !! n) as [c|] eqn:Hc.
  - rewrite (overChildren_take_S _ _ _ _ Hc). apply NoDup_app. split_and!; [done| |eauto].
    intros x (i & c' & Hc' & Hx)%elem_of_overChildren Hx'. simpl in Hx.
    apply lookup_take_Some in Hc' as [Hc' Hlt].
    eapply (prefix_snoc_ne a x i n); [lia|eauto..].
  - apply lookup_ge_None in Hc. rewrite take_ge in IH |- * by lia. done.
Qed.

Lemma memoOrder_NoDup node : forall a, NoDup (memoOrder node a).
Proof.
  induction node as [mt p cs IH] using MatchExpression_ind. intros a.
  rewrite memoOrder_unfold. simpl.
  assert (Hbelow : NoDup (overChildren (fun i c => memoOrder c (a ++ [i])) cs 0 ++ [a])).
  { apply NoDup_app. split_and!.
    - rewrite <- (firstn_all cs) at 1. apply (overChildren_NoDup _ a).
      + intros i c Hc. rewrite Forall_forall in IH. apply IH.
        by eapply list_elem_of_lookup_2.
      + intros i c x _. apply memoOrder_prefix.
    - intros x (i & c & Hc & Hx)%elem_of_overChildren ->%list_elem_of_singleton.
      apply memoOrder_prefix in Hx. by apply prefix_snoc_self in Hx.
    - apply NoDup_singleton. }
  repeat case_match; try done; [apply NoDup_singleton | constructor].
Qed.

Local Abbreviation orphans :=
  (orphans isLogical arrayUsesIndexOnChildren nodeCanUseIndexOnOwnField).
Local Abbreviation classified :=
  (classified isLogical arrayUsesIndexOnChildren nodeCanUseIndexOnOwnField).

Lemma orphans_unfold node a :
  orphans node a =
  let below := overChildren (fun i c => orphans c (a ++ [i])) (children node) 0 in
  if arrayUsesIndexOnChildren node then below
  else if nodeCanUseIndexOnOwnField node then []
  else if isLogical node then
    if decide (matchType node = OR)
    then below ++ overChildren (fun i c => if classified c then [] else [a ++ [i]])
                    (children node) 0
    else below
  else [].
Proof. by destruct node. Qed.

Lemma memoOrder_classified node a :
  classified node = true -> exists below, memoOrder node a = below ++ [a].
Proof.
  rewrite memoOrder_unfold. unfold classified. simpl.
  destruct (arrayUsesIndexOnChildren _); [eauto|].
  destruct (nodeCanUseIndexOnOwnField _); [by exists []|].
  destruct (isLogical _); [eauto|done].
Qed.

Lemma memoOrder_unclassified node a :
  classified node = false -> memoOrder node a = [].
Proof.
  rewrite memoOrder_unfold. unfold classified. simpl.
  destruct (arrayUsesIndexOnChildren _); [done|].
  destruct (nodeCanUseIndexOnOwnField _); [done|].
  by destruct (isLogical _).
Qed.

(** The unclassified children of the node at [a]. *)
Lemma elem_of_unclassified (a : Addr) cs i0 x :
  x ∈ overChildren (fun i c => if classified c then [] else [a ++ [i]]) cs i0 <->
  exists i c, cs !! i = Some c /\ classified c = false /\ x = a ++ [i0 + i].
Proof.
  rewrite elem_of_overChildren. split.
  - intros (i & c & Hc & Hx). exists i, c. destruct (classified c); [by apply elem_of_nil in Hx|].
    by apply list_elem_of_singleton in Hx.
  - intros (i & c & Hc & Hcl & ->). exists i, c. rewrite Hcl. split; [done|by left].
Qed.

Lemma orphans_below node : forall a x, x ∈ orphans node a -> exists l k, x = a ++ l ++ [k].
Proof.
  induction node as [mt p cs IH] using MatchExpression_ind. intros a x.
  rewrite orphans_unfold. simpl.
  assert (Hbelow : x ∈ overChildren (fun i c => orphans c (a ++ [i])) cs 0 ->
                   exists l k, x = a ++ l ++ [k]).
  { intros (i & c & Hc & Hx)%elem_of_overChildren.
    rewrite Forall_forall in IH. apply IH in Hx as (l & k & ->);
      [|by eapply list_elem_of_lookup_2].
    exists (i :: l), k. by rewrite <- !app_assoc. }
  assert (Hkids : x ∈ overChildren (fun i c => if classified c then [] else [a ++ [i]])
                        cs 0 -> exists l k, x = a ++ l ++ [k]).
  { intros (i & c & _ & _ & ->)%elem_of_unclassified. by exists [], i. }
  repeat case_match; rewrite ?elem_of_app; try (by intros ?%elem_of_nil); intuition.
Qed.

Lemma orphans_prefix node a x : x ∈ orphans node a -> a `prefix_of` x.
Proof. intros (l & k & ->)%orphans_below. by eexists. Qed.

Lemma orphans_ne node a : a ∉ orphans node a.
Proof.
  intros (l & k & H)%orphans_below. apply (f_equal length) in H.
  rewrite !length_app in H. simpl in H. lia.
Qed.

(** A node with a key and no entry has no entry. *)
Lemma orphans_memoOrder node : forall a x, x ∈ orphans node a -> x ∉ memoOrder node a.
Proof.
  induction node as [mt p cs IH] using MatchExpression_ind. intros a x Ho Hm.
  pose proof (orphans_ne (MkExpr mt p cs) a) as Hne.
  rewrite orphans_unfold in Ho. rewrite memoOrder_unfold in Hm. simpl in Ho, Hm.
  rewrite Forall_forall in IH.
  assert (Hbb : x ∈ overChildren (fun i c => orphans c (a ++ [i])) cs 0 ->
                x ∈ overChildren (fun i c => memoOrder c (a ++ [i])) cs 0 -> False).
  { intros (i & c & Hc & Hx)%elem_of_overChildren (j & c' & Hc' & Hx')%elem_of_overChildren.
    simpl in *. pose proof (orphans_prefix _ _ _ Hx) as Hp.
    pose proof (memoOrder_prefix _ _ _ Hx') as Hp'.
    destruct (decide (i = j)) as [->|Hij]; [|by eapply (prefix_snoc_ne a x i j)].
    assert (c' = c) as -> by congruence.
    by eapply (IH c (list_elem_of_lookup_2 _ _ _ Hc)). }
  assert (Hkb : x ∈ overChildren (fun i c => if classified c then [] else [a ++ [i]]) cs 0 ->
                x ∈ overChildren (fun i c => memoOrder c (a ++ [i])) cs 0 -> False).
  { intros (i & c & Hc & Hcl & ->)%elem_of_unclassified
           (j & c' & Hc' & Hx')%elem_of_overChildren. simpl in *.
    pose proof (memoOrder_prefix _ _ _ Hx') as Hp'.
    destruct (decide (i = j)) as [->|Hij].
    - assert (c' = c) as -> by congruence.
      by rewrite (memoOrder_unclassified _ _ Hcl) in Hx'; apply elem_of_nil in Hx'.
    - eapply (prefix_snoc_ne a (a ++ [i]) i j); [done|done|done]. }
  assert (Hself : x = a -> x ∈ orphans (MkExpr mt p cs) a -> False)
    by (intros -> ?; done).
  assert (Ho' : x ∈ orphans (MkExpr mt p cs) a)
    by (rewrite orphans_unfold; simpl; exact Ho).
  destruct (arrayUsesIndexOnChildren _); [|destruct (nodeCanUseIndexOnOwnField _);
    [|destruct (isLogical _); [destruct (decide (mt = OR))|]]];
    rewrite ?elem_of_app, ?list_elem_of_singleton in Hm;
    rewrite ?elem_of_app in Ho;
    try (by apply elem_of_nil in Ho); intuition.
Qed.

(** Reads at the slots of all children of a node leave the map that
    reads at the slots of the unclassified children leave, when the
    classified children have their keys. *)
Lemma zeroKeys_childSlots (a : Addr) cs : forall i (m : gmap Addr nat),
  (forall j c, cs !! j = Some c -> classified c = true -> is_Some (m !! (a ++ [i + j]))) ->
  zeroKeys (childSlots a i (length cs)) m
  = zeroKeys (overChildren (fun i c => if classified c then [] else [a ++ [i]]) cs i) m.
Proof.
  induction cs as [|c cs IH]; intros i m Hkeys; [done|].
  change (zeroKeys ((a ++ [i]) :: childSlots a (S i) (length cs)) m
          = zeroKeys ((if classified c then [] else [a ++ [i]])
                      ++ overChildren (fun i c => if classified c then [] else [a ++ [i]])
                           cs (S i)) m).
  rewrite zeroKeys_cons.
  assert (Hrest : forall m' : gmap Addr nat,
            (forall x k, m !! x = Some k -> m' !! x = Some k) ->
            forall j c', cs !! j = Some c' -> classified c' = true ->
                         is_Some (m' !! (a ++ [S i + j]))).
  { intros m' Hm' j c' Hc' Hcl. destruct (Hkeys (S j) c' Hc' Hcl) as [k Hk].
    replace (i + S j) with (S i + j) in Hk by lia. eauto. }
  destruct (classified c) eqn:Hcl; simpl.
  - rewrite zeroKey_present.
    + apply (IH (S i)). by apply Hrest.
    + specialize (Hkeys 0 c eq_refl Hcl). by rewrite Nat.add_0_r in Hkeys.
  - rewrite zeroKeys_cons. apply (IH (S i)). apply Hrest.
    intros x k Hx. rewrite zeroKey_lookup. case_decide; [|done]. subst. by rewrite Hx.
Qed.

Lemma assignIds_app n l1 l2 m :
  assignIds n (l1 ++ l2) m = assignIds (n + length l1) l2 (assignIds n l1 m).
Proof.
  revert n m. induction l1 as [|x l1 IH]; intros n m; simpl.
  - by rewrite Nat.add_0_r.
  - rewrite IH. by replace (n + S (length l1)) with (S n + length l1) by lia.
Qed.

Lemma assignIds_notin n l m x : x ∉ l -> assignIds n l m !! x = m !! x.
Proof.
  revert n m. induction l as [|y l IH]; intros n m Hx; simpl; [done|].
  apply not_elem_of_cons in Hx as [Hxy Hx]. rewrite IH by done.
  by rewrite lookup_insert_ne.
Qed.

Lemma assignIds_lookup n l m j x :
  NoDup l -> l !! j = Some x -> assignIds n l m !! x = Some (n + j).
Proof.
  revert n m j. induction l as [|y l IH]; intros n m j Hnd Hj; [done|].
  apply NoDup_cons in Hnd as [Hy Hnd]. destruct j as [|j]; simpl in *.
  - injection Hj as ->. rewrite assignIds_notin by done.
    by rewrite lookup_insert_eq, Nat.add_0_r.
  - rewrite (IH _ _ j) by done. f_equal. lia.
Qed.

Lemma assignIds_lookup_Some n l m x k :
  NoDup l ->
  assignIds n l m !! x = Some k ->
  (exists j, l !! j = Some x /\ k = n + j) \/ ((x ∉ l) /\ m !! x = Some k).
Proof.
  intros Hnd Hk. destruct (decide (x ∈ l)) as [Hx|Hx].
  - left. apply list_elem_of_lookup in Hx as [j Hj]. exists j. split; [done|].
    rewrite (assignIds_lookup _ _ _ j) in Hk by done. congruence.
  - right. by rewrite assignIds_notin in Hk.
Qed.

End OrderFacts.

(** ** The memo builder *)

Section Builder.

Variable isLogical : MatchExpression -> bool.
Variable arrayUsesIndexOnChildren : MatchExpression -> bool.
Variable nodeCanUseIndexOnOwnField : MatchExpression -> bool.
Variable kNoIndex : N.

Local Abbreviation prepMemo :=
  (prepMemo isLogical arrayUsesIndexOnChildren nodeCanUseIndexOnOwnField kNoIndex).
Local Abbreviation memoOrder :=
  (memoOrder isLogical arrayUsesIndexOnChildren nodeCanUseIndexOnOwnField).
Local Abbreviation arrayLoop :=
  (arrayLoop isLogical arrayUsesIndexOnChildren nodeCanUseIndexOnOwnField kNoIndex).
Local Abbreviation orLoop :=
  (orLoop isLogical arrayUsesIndexOnChildren nodeCanUseIndexOnOwnField kNoIndex).
Local Abbreviation andLoop :=
  (andLoop isLogical arrayUsesIndexOnChildren nodeCanUseIndexOnOwnField kNoIndex).
Local Abbreviation orphans :=
  (orphans isLogical arrayUsesIndexOnChildren nodeCanUseIndexOnOwnField).
Local Abbreviation classified :=
  (classified isLogical arrayUsesIndexOnChildren nodeCanUseIndexOnOwnField).
Local Abbreviation childBuilds :=
  (childBuilds isLogical arrayUsesIndexOnChildren nodeCanUseIndexOnOwnField kNoIndex).

Lemma prepMemo_unfold node a :
  prepMemo node a =
  if arrayUsesIndexOnChildren node then
    let* subnodes := arrayLoop a (children node) 0 [] in
    let* myID := postIncrement in
    set_nodeToId a myID;;;
    let* id := nodeToId a in
    set_memo id (andSoln (mkAnd subnodes));;;
    set_curEnum myID 0;;;
    ret (0 <? length subnodes)
  else if nodeCanUseIndexOnOwnField node then
    let* myID := postIncrement in
    set_nodeToId a myID;;;
    let* id := nodeToId a in
    set_curEnum myID 0;;;
    let* tag := getTag a in
    let* lists :=
      match tag with
      | None => ret ([], [])
      | Some (RelevantTag f nf) =>
          setTag a (RelevantTag [] []);;; ret (f, nf)
      | Some (IndexTag _ _) => fail BadCast
      end in
    set_memo id (predSoln (mkPred lists.1 lists.2 (mkPtr a node)));;;
    ret (0 <? length lists.1)
  else if isLogical node then
    if decide (matchType node = OR) then
      let* indexed := orLoop a (children node) 0 true in
      let* myID := postIncrement in
      set_nodeToId a myID;;;
      let* id := nodeToId a in
      let* subnodes := orSubnodes a (children node) 0 [] in
      set_memo id (orSoln (mkOr subnodes));;;
      ret indexed
    else
      let* acc := andLoop a (children node) 0 ([], kNoIndex) in
      let '(subnodes, geoNearChild) := acc in
      let subnodes :=
        if decide (kNoIndex <> geoNearChild /\ 0%N <> geoNearChild)
        then swapAt 0 (N.to_nat geoNearChild) subnodes
        else subnodes in
      let* myID := postIncrement in
      set_nodeToId a myID;;;
      let* id := nodeToId a in
      verify 357 (bool_decide (matchType node = AND));;;
      set_curEnum myID 0;;;
      set_memo id (andSoln (mkAnd subnodes));;;
      ret (0 <? length subnodes)
  else ret false.
Proof. by destruct node. Qed.


Ltac run H :=
  unfold bind, ret, fail, gets, modify, postIncrement, set_nodeToId, set_memo,
    set_curEnum, set_inOrderCount, set_done, nodeToId, memoAt, curEnum, getTag,
    setTag, set_tagData in H; simpl in H.

Ltac run_goal :=
  unfold bind, ret, fail, gets, modify, postIncrement, set_nodeToId, set_memo,
    set_curEnum, set_inOrderCount, set_done, nodeToId, memoAt, curEnum, getTag,
    setTag, set_tagData; simpl.

Lemma bind_run {A B} (m : M A) (k : A -> M B) s x s1 :
  m s = Ok (x, s1) -> (let* y := m in k y) s = k x s1.
Proof. intros H. unfold bind. by rewrite H. Qed.

Lemma builtOver_nil a s : builtOver [] [] a s s.
Proof.
  unfold builtOver. simpl. rewrite Nat.add_0_r. split_and!; try done.
  intros k ?. lia.
Qed.

Lemma builtOver_app l1 os1 l2 os2 a s s1 s2 :
  builtOver l1 os1 a s s1 -> builtOver l2 os2 a s1 s2 ->
  (forall x, x ∈ l1 -> x ∉ os2) ->
  builtOver (l1 ++ l2) (os1 ++ os2) a s s2.
Proof.
  intros (Hr1 & Hi1 & Hd1 & Hc1 & Hn1 & Hm1 & Hs1 & He1 & Ht1)
         (Hr2 & Hi2 & Hd2 & Hc2 & Hn2 & Hm2 & Hs2 & He2 & Ht2) Hdisj.
  unfold builtOver. rewrite length_app, assignIds_app, zeroKeys_app.
  split_and!; try congruence; try lia.
  - rewrite Hn2, Hn1, Hc1. by rewrite zeroKeys_assignIds.
  - intros k Hk. rewrite Hm2, Hm1 by lia. done.
  - intros k Hk. destruct (decide (k < _inOrderCount s1)).
    + rewrite Hm2 by lia. apply Hs1. lia.
    + apply Hs2. lia.
  - intros k Hk. rewrite He2, He1 by lia. done.
  - intros x Hx. rewrite Ht2, Ht1 by done. done.
Qed.

Lemma builtOver_child l os a i s s' :
  builtOver l os (a ++ [i]) s s' -> builtOver l os a s s'.
Proof.
  intros (Hr & Hi & Hd & Hc & Hn & Hm & Hs & He & Ht). unfold builtOver.
  split_and!; try done. intros x Hx. apply Ht. intros Hp. apply Hx.
  etrans; [|exact Hp]. by apply prefix_app_r.
Qed.

(** The state after the children of a node, whatever the loop collects. *)
(** The nodes with an entry below the children before child [i] are not
    read without an entry below child [i]. *)
Lemma memoOrder_orphans_apart a cs i c x :
  cs !! i = Some c ->
  x ∈ overChildren (fun i c => memoOrder c (a ++ [i])) (take i cs) 0 ->
  x ∉ orphans c (a ++ [i]).
Proof.
  intros Hc (j & c' & Hc' & Hx)%elem_of_overChildren Hx'. simpl in Hx.
  apply lookup_take_Some in Hc' as [_ Hj].
  apply memoOrder_prefix in Hx. apply orphans_prefix in Hx'.
  eapply (prefix_snoc_ne a x j i); [lia|done..].
Qed.

Lemma children_builtOver {A} (body : nat -> MatchExpression -> A -> M A) a cs :
  Forall (fun c => forall a s b s',
            prepMemo c a s = Ok (b, s') ->
            builtOver (memoOrder c a) (orphans c a) a s s') cs ->
  (forall i c acc s acc' s',
      body i c acc s = Ok (acc', s') -> exists b, prepMemo c (a ++ [i]) s = Ok (b, s')) ->
  forall acc s r s',
    forChildren body cs 0 acc s = Ok (r, s') ->
    builtOver (overChildren (fun i c => memoOrder c (a ++ [i])) cs 0)
      (overChildren (fun i c => orphans c (a ++ [i])) cs 0) a s s'.
Proof.
  intros IH Hbody acc s r s' Hrun.
  pose proof (forChildren_inv body
           (fun i _ s1 =>
              builtOver (overChildren (fun i c => memoOrder c (a ++ [i])) (take i cs) 0)
                (overChildren (fun i c => orphans c (a ++ [i])) (take i cs) 0)
                a s s1) cs acc s r s' Hrun) as Hinv.
  cbv beta in Hinv. rewrite firstn_all in Hinv. apply Hinv.
  - rewrite take_0. apply builtOver_nil.
  - intros i c acc1 s1 acc2 s2 Hc HI Hb.
    rewrite !(overChildren_take_S _ _ _ _ Hc).
    apply Hbody in Hb as [b Hb]. eapply builtOver_app; [exact HI| |].
    + eapply builtOver_child. rewrite Forall_forall in IH.
      eapply IH; [by eapply list_elem_of_lookup_2 | exact Hb].
    + intros x. by apply memoOrder_orphans_apart.
Qed.

Lemma orSubnodes_spec a cs : forall i acc s r s',
  orSubnodes a cs i acc s = Ok (r, s') ->
  r = acc ++ map (fun j => default 0 (_nodeToId s !! (a ++ [j]))) (seq i (length cs)) /\
  s' = withIds s (zeroKeys (childSlots a i (length cs)) (_nodeToId s)).
Proof.
  induction cs as [|c cs IH]; intros i acc s r s' Hrun; simpl in Hrun.
  - injection Hrun as <- <-. split; [by rewrite app_nil_r|]. symmetry. apply withIds_same.
  - apply bind_Ok in Hrun as (acc1 & s1 & Hb & Hrun).
    rewrite (bind_run _ _ _ _ _ (nodeToId_run _ _)) in Hb. injection Hb as <- <-.
    apply IH in Hrun as [-> ->]. split.
    + simpl. rewrite <- app_assoc. simpl. do 2 f_equal. apply map_ext. intros j.
      apply (zeroKeys_default [a ++ [i]]).
    + done.
Qed.

(** A node the builder gives an entry has its key when the build
    returns. *)
Lemma orSubnodes_run a cs : forall i acc s,
  orSubnodes a cs i acc s
  = Ok (acc ++ map (fun j => default 0 (_nodeToId s !! (a ++ [j]))) (seq i (length cs)),
        withIds s (zeroKeys (childSlots a i (length cs)) (_nodeToId s))).
Proof.
  intros i acc s. destruct (orSubnodes a cs i acc s) as [[r s']|e] eqn:Hrun.
  - by apply orSubnodes_spec in Hrun as [-> ->].
  - exfalso. revert i acc s Hrun.
    induction cs as [|c cs IH]; intros i acc s Hrun; simpl in Hrun; [done|].
    apply bind_Err in Hrun as [Hb | (acc1 & s1 & _ & Hrun)]; [|by eapply IH].
    by rewrite (bind_run _ _ _ _ _ (nodeToId_run _ _)) in Hb.
Qed.

Lemma prepMemo_key node a s b s' :
  prepMemo node a s = Ok (b, s') -> classified node = true ->
  is_Some (_nodeToId s' !! a).
Proof.
  rewrite prepMemo_unfold. unfold classified.
  destruct (arrayUsesIndexOnChildren node); [|destruct (nodeCanUseIndexOnOwnField node);
    [|destruct (isLogical node); [destruct (decide (matchType node = OR))|]]]; simpl.
  - intros (subnodes & s1 & _ & Htail)%bind_Ok _.
    run Htail. rewrite lookup_insert_eq in Htail. simpl in Htail.
    injection Htail as _ <-. simpl. by rewrite lookup_insert_eq.
  - intros Htail _. run Htail. rewrite lookup_insert_eq in Htail. simpl in Htail.
    destruct (_tagData s !! a) as [[f nf|]|]; simpl in Htail; [|discriminate|];
      injection Htail as _ <-; simpl; by rewrite lookup_insert_eq.
  - intros (indexed & s1 & _ & Htail)%bind_Ok _.
    run Htail. rewrite lookup_insert_eq in Htail. simpl in Htail.
    match type of Htail with
    | match ?m ?st with _ => _ end = _ => destruct (m st) as [[subs s2]|] eqn:Hsubs
    end; [|discriminate].
    apply orSubnodes_spec in Hsubs as [-> ->]. simpl in Htail.
    injection Htail as _ <-. simpl. eexists. apply zeroKeys_lookup_Some.
    apply lookup_insert_eq.
  - intros ([subnodes g] & s1 & _ & Htail)%bind_Ok _.
    run Htail. rewrite lookup_insert_eq in Htail. simpl in Htail.
    unfold verify in Htail. case_bool_decide; [|discriminate]. run Htail.
    injection Htail as _ <-. simpl. by rewrite lookup_insert_eq.
  - done.
Qed.

Lemma prepMemo_classified node a s s' :
  prepMemo node a s = Ok (true, s') -> classified node = true.
Proof.
  rewrite prepMemo_unfold. unfold classified.
  destruct (arrayUsesIndexOnChildren _); [done|].
  destruct (nodeCanUseIndexOnOwnField _); [done|].
  destruct (isLogical _); [done|]. by intros [= ?].
Qed.

(** The read of the id of a child whose build has returned true finds
    the key and changes nothing. *)
Lemma childRead {B} c a s s1 (k : nat -> M B) :
  prepMemo c a s = Ok (true, s1) ->
  (let* childID := nodeToId a in k childID) s1
  = k (default 0 (_nodeToId s1 !! a)) s1.
Proof.
  intros Hc. destruct (prepMemo_key _ _ _ _ _ Hc) as [id Hid];
    [by eapply prepMemo_classified|].
  rewrite (bind_run _ _ _ _ _ (nodeToId_present _ _ _ Hid)). by rewrite Hid.
Qed.

Lemma arrayLoop_body a i c acc s acc' s' :
  (let* indexed := prepMemo c (a ++ [i]) in
   if indexed then
     let* childID := nodeToId (a ++ [i]) in
     ret (acc ++ [[childID]])
   else ret acc) s = Ok (acc', s') ->
  exists b, prepMemo c (a ++ [i]) s = Ok (b, s').
Proof.
  intros (b & s1 & Hb & Hrest)%bind_Ok. exists b.
  destruct b; [rewrite (childRead _ _ _ _ _ Hb) in Hrest|];
    run Hrest; by injection Hrest as <- <-.
Qed.

Lemma orLoop_body a i c (acc : bool) s acc' s' :
  (let* b := prepMemo c (a ++ [i]) in ret (if b then acc else false)) s = Ok (acc', s') ->
  exists b, prepMemo c (a ++ [i]) s = Ok (b, s').
Proof.
  intros (b & s1 & Hb & Hrest)%bind_Ok. exists b. run Hrest. by injection Hrest as <- <-.
Qed.

Lemma andLoop_body a i c (acc : list (list nat) * N) s acc' s' :
  (let '(subnodes, geoNearChild) := acc in
   let* indexed := prepMemo c (a ++ [i]) in
   if indexed then
     let* childID := nodeToId (a ++ [i]) in
     let subnodes := subnodes ++ [[childID]] in
     let* ns := memoAt childID in
     match ns with
     | Some (mkSoln (Some p) _ _) =>
         if decide (matchType (target (expr p)) = GEO_NEAR)
         then ret (subnodes, N.of_nat (length subnodes - 1))
         else ret (subnodes, geoNearChild)
     | _ => ret (subnodes, geoNearChild)
     end
   else ret (subnodes, geoNearChild)) s = Ok (acc', s') ->
  exists b, prepMemo c (a ++ [i]) s = Ok (b, s').
Proof.
  destruct acc as [subnodes g].
  intros (b & s1 & Hb & Hrest)%bind_Ok. exists b.
  destruct b; [rewrite (childRead _ _ _ _ _ Hb) in Hrest|];
    run Hrest; [|by injection Hrest as <- <-].
  destruct (_memo s1 !! _) as [[[p|] ? ?]|]; [case_decide|..];
    by injection Hrest as <- <-.
Qed.

(** The entry a node allocates for itself. *)
Lemma builtOver_own a s soln cur tags :
  (forall x, ~ a `prefix_of` x -> tags !! x = _tagData s !! x) ->
  builtOver [a] [] a s
    (mkEnum (_root s) (_indices s) (<[a := _inOrderCount s]> (_nodeToId s))
            (<[_inOrderCount s := soln]> (_memo s))
            (match cur with
             | Some v => <[_inOrderCount s := v]> (_curEnum s)
             | None => _curEnum s
             end)
            (S (_inOrderCount s)) (_done s) tags).
Proof.
  intros Htags. unfold builtOver. simpl. split_and!; try done; try lia.
  - intros k Hk. rewrite lookup_insert_ne by lia. done.
  - intros k Hk. assert (k = _inOrderCount s) as -> by lia.
    rewrite lookup_insert_eq. eauto.
  - intros k Hk. destruct cur; [|done]. rewrite lookup_insert_ne by lia. done.
Qed.

(** The node with its own entry after the entries below the children. *)
Lemma builtOver_last l os a s s1 s2 :
  builtOver l os a s s1 -> builtOver [a] [] a s1 s2 -> builtOver (l ++ [a]) os a s s2.
Proof.
  intros H1 H2. rewrite <- (app_nil_r os). eapply builtOver_app; [exact H1|exact H2|].
  intros x _. apply not_elem_of_nil.
Qed.

(** Reads of [_nodeToId] after a build. *)
Lemma builtOver_reads l os a s s1 kids us :
  builtOver l os a s s1 ->
  zeroKeys kids (_nodeToId s1) = zeroKeys us (_nodeToId s1) ->
  (forall x, x ∈ l -> x ∉ us) ->
  builtOver l (os ++ us) a s (withIds s1 (zeroKeys kids (_nodeToId s1))).
Proof.
  intros (Hr & Hi & Hd & Hc & Hn & Hm & Hs & He & Ht) Hkids Hdisj.
  unfold builtOver. simpl. split_and!; try done.
  rewrite Hkids, Hn, zeroKeys_app. by apply zeroKeys_assignIds.
Qed.

(** What the builds of the children leave at the slots of the children:
    a classified child has its key. *)
Lemma children_keys a cs s s1 :
  builtOver (overChildren (fun i c => memoOrder c (a ++ [i])) cs 0)
    (overChildren (fun i c => orphans c (a ++ [i])) cs 0) a s s1 ->
  forall j c, cs !! j = Some c -> classified c = true ->
              is_Some (_nodeToId s1 !! (a ++ [j])).
Proof.
  intros (_ & _ & _ & _ & Hn & _) j c Hc Hcl. rewrite Hn.
  assert ((a ++ [j]) ∈ overChildren (fun i c => memoOrder c (a ++ [i])) cs 0) as Hin.
  { apply elem_of_overChildren. exists j, c. split; [done|]. simpl.
    destruct (memoOrder_classified isLogical arrayUsesIndexOnChildren
                nodeCanUseIndexOnOwnField c (a ++ [j]) Hcl) as [below ->].
    apply elem_of_app. right. by left. }
  apply list_elem_of_lookup in Hin as [k Hk]. eexists.
  apply (assignIds_lookup _ _ _ k); [|done].
  rewrite <- (firstn_all cs). apply (overChildren_NoDup _ a).
  - intros i c' _. apply memoOrder_NoDup.
  - intros i c' y _. apply memoOrder_prefix.
Qed.

Theorem prepMemo_builtOver node : forall a s b s',
  prepMemo node a s = Ok (b, s') -> builtOver (memoOrder node a) (orphans node a) a s s'.
Proof.
  induction node as [mt p cs IH] using MatchExpression_ind. intros a s b s'.
  rewrite prepMemo_unfold, memoOrder_unfold, orphans_unfold. simpl.
  destruct (arrayUsesIndexOnChildren _); [|destruct (nodeCanUseIndexOnOwnField _);
    [|destruct (isLogical _); [destruct (decide (mt = OR))|]]].
  - intros (subnodes & s1 & Hloop & Htail)%bind_Ok.
    eapply builtOver_last.
    { eapply children_builtOver; [exact IH | apply arrayLoop_body | exact Hloop]. }
    run Htail. rewrite lookup_insert_eq in Htail. simpl in Htail.
    injection Htail as <- <-.
    apply (builtOver_own a s1 _ (Some 0)). done.
  - intros Htail. run Htail. rewrite lookup_insert_eq in Htail. simpl in Htail.
    destruct (_tagData s !! a) as [[f nf|]|] eqn:Htag; simpl in Htail;
      [| discriminate |]; injection Htail as <- <-.
    + apply (builtOver_own a s _ (Some 0)). intros x Hx.
      rewrite lookup_insert_ne; [done|]. by intros ->.
    + apply (builtOver_own a s _ (Some 0)). done.
  - intros (indexed & s1 & Hloop & Htail)%bind_Ok.
    pose proof (children_builtOver _ a cs IH (orLoop_body a) _ _ _ _ Hloop) as Hkids.
    run Htail. rewrite lookup_insert_eq in Htail. simpl in Htail.
    match type of Htail with
    | match ?m ?s with _ => _ end = _ => destruct (m s) as [[subs s2]|] eqn:Hsubs
    end; [|discriminate].
    apply orSubnodes_spec in Hsubs as [-> ->]. simpl in Htail. injection Htail as <- <-.
    pose proof (builtOver_last _ _ _ _ _ _ Hkids
                  (builtOver_own a s1 (orSoln (mkOr
                     (map (fun j => default 0
                        (<[a := _inOrderCount s1]> (_nodeToId s1) !! (a ++ [j])))
                        (seq 0 (length cs))))) None (_tagData s1) (fun _ _ => eq_refl)))
      as Hown.
    eapply (builtOver_reads _ _ _ _ _ (childSlots a 0 (length cs))) in Hown.
    + exact Hown.
    + simpl. apply zeroKeys_childSlots. intros j c Hc Hcl.
      destruct (children_keys _ _ _ _ Hkids j c Hc Hcl) as [k Hk]. exists k.
      rewrite lookup_insert_ne; [done|]. apply not_eq_sym.
      intros H%(f_equal length). rewrite length_app in H. simpl in H. lia.
    + intros x Hx (i & c & Hc & Hcl & ->)%elem_of_unclassified. simpl in Hx.
      apply elem_of_app in Hx as [Hx|Hx%list_elem_of_singleton].
      * apply elem_of_overChildren in Hx as (j & c' & Hc' & Hx). simpl in Hx.
        pose proof (memoOrder_prefix _ _ _ _ _ _ Hx) as Hp.
        destruct (decide (i = j)) as [->|Hij].
        -- assert (c' = c) as -> by congruence.
           rewrite (memoOrder_unclassified _ _ _ _ _ Hcl) in Hx.
           by apply elem_of_nil in Hx.
        -- by eapply (prefix_snoc_ne a (a ++ [i]) i j).
      * apply (f_equal length) in Hx. rewrite length_app in Hx. simpl in Hx. lia.
  - intros ([subnodes g] & s1 & Hloop & Htail)%bind_Ok.
    eapply builtOver_last.
    { eapply children_builtOver; [exact IH | | exact Hloop].
      intros i c acc. apply andLoop_body. }
    run Htail. rewrite lookup_insert_eq in Htail. simpl in Htail.
    unfold verify in Htail. case_bool_decide; [|discriminate]. run Htail.
    injection Htail as <- <-.
    apply (builtOver_own a s1 _ (Some 0)). done.
  - intros Htail. run Htail. injection Htail as <- <-. apply builtOver_nil.
Qed.

Lemma built_mono memo cur node a id :
  built memo cur node a id ->
  forall memo' cur',
    (forall k, k <= id -> memo' !! k = memo !! k /\ cur' !! k = cur !! k) ->
    built memo' cur' node a id.
Proof.
  induction 1 as [node a id soln p index Hm Hp Ha Hc Hf
                 |node a id soln o Hm Hp Ho Hmt Hlt Hch _ IH
                 |node a id soln an cid i c Hm Hp Ho Han Hc Hopt Hch Hlt _ IH];
    intros memo' cur' Hagree.
  - eapply built_pred; eauto.
    + by rewrite (proj1 (Hagree id (le_n _))).
    + by rewrite (proj2 (Hagree id (le_n _))).
  - eapply built_or; eauto.
    + by rewrite (proj1 (Hagree id (le_n _))).
    + intros i cid c Hcid Hc. apply (IH i cid c Hcid Hc). intros k Hk. apply Hagree.
      specialize (Hlt i cid Hcid). lia.
  - eapply built_and; eauto.
    + by rewrite (proj1 (Hagree id (le_n _))).
    + by rewrite (proj2 (Hagree id (le_n _))).
    + apply IH. intros k Hk. apply Hagree. lia.
Qed.

(** A node that gets an entry gets the last id its build hands out. *)
Lemma prepMemo_ownId node a s b s' :
  prepMemo node a s = Ok (b, s') ->
  classified node = true ->
  exists id, _nodeToId s' !! a = Some id /\ S id = _inOrderCount s' /\
             _inOrderCount s <= id.
Proof.
  intros Hrun Hcl. apply prepMemo_builtOver in Hrun as (_ & _ & _ & Hc & Hn & _).
  destruct (memoOrder_classified _ _ _ node a Hcl) as [below Hbelow].
  pose proof (memoOrder_NoDup isLogical arrayUsesIndexOnChildren
                nodeCanUseIndexOnOwnField node a) as Hnd.
  rewrite Hbelow in Hc, Hn, Hnd. rewrite length_app in Hc. simpl in Hc.
  exists (_inOrderCount s + length below). split_and!; [|lia..].
  rewrite Hn. apply assignIds_lookup; [done|].
  by rewrite lookup_app_r, Nat.sub_diag by lia.
Qed.

Lemma keeps_refl a s : keeps a s s.
Proof. unfold keeps. split_and!; auto. Qed.

Lemma keeps_trans a s1 s2 s3 : keeps a s1 s2 -> keeps a s2 s3 -> keeps a s1 s3.
Proof.
  intros (Hn1 & Hm1 & Hc1) (Hn2 & Hm2 & Hc2). unfold keeps. split_and!; [| |lia].
  - intros x Hx. rewrite Hn2, Hn1 by done. done.
  - intros k Hk. destruct (Hm2 k) as [-> ->]; [lia|]. by apply Hm1.
Qed.

(** Building in another part of the tree keeps the subtree at [a]. *)
Lemma builtOver_keeps l os b a s s' :
  builtOver l os b s s' ->
  (forall x, x ∈ l -> ~ a `prefix_of` x) ->
  (forall x, x ∈ os -> ~ a `prefix_of` x) ->
  keeps a s s'.
Proof.
  intros (_ & _ & _ & Hc & Hn & Hm & _ & He & _) Hl Hos. unfold keeps.
  split_and!; [| |lia].
  - intros x Hx. rewrite Hn, assignIds_notin, zeroKeys_lookup_notin; [done|..].
    + intros Hin. by apply (Hos x).
    + intros Hin. by apply (Hl x).
  - intros k Hk. rewrite Hm, He by lia. done.
Qed.

Lemma built_keeps node a s s' id :
  built (_memo s) (_curEnum s) node a id -> id < _inOrderCount s -> keeps a s s' ->
  built (_memo s') (_curEnum s') node a id.
Proof.
  intros Hb Hid (_ & Hm & _). eapply built_mono; [exact Hb|].
  intros k Hk. apply Hm. lia.
Qed.

Lemma childBuilds_length a i cs s bs s' :
  childBuilds a i cs s bs s' -> length bs = length cs.
Proof. induction 1; simpl; congruence. Qed.

Lemma childBuilds_builtOver a i cs s bs s' :
  childBuilds a i cs s bs s' ->
  builtOver (overChildren (fun i c => memoOrder c (a ++ [i])) cs i)
    (overChildren (fun i c => orphans c (a ++ [i])) cs i) a s s'.
Proof.
  induction 1 as [|i c cs s b s1 bs s2 Hc _ IH]; simpl; [apply builtOver_nil|].
  eapply builtOver_app; [|exact IH|].
  - eapply builtOver_child, prepMemo_builtOver, Hc.
  - intros x Hx%memoOrder_prefix (k & c' & _ & Hx'%orphans_prefix)%elem_of_overChildren.
    eapply (prefix_snoc_ne a x i (S i + k)); [lia|done..].
Qed.

(** Nothing below the children from [i] on is below another child. *)
Lemma children_apart a (f : nat -> MatchExpression -> list Addr) cs i j x :
  (forall k c y, y ∈ f k c -> (a ++ [k]) `prefix_of` y) ->
  x ∈ overChildren f cs i -> j < i -> ~ (a ++ [j]) `prefix_of` x.
Proof.
  intros Hf (k & c & _ & Hx%Hf)%elem_of_overChildren Hj Hp.
  eapply (prefix_snoc_ne a x j (i + k)); [lia|done..].
Qed.

(** Each child is built, and what its build records is kept to the end of
    the loop. *)
Lemma childBuilds_lookup a i0 cs s bs s' j c :
  childBuilds a i0 cs s bs s' ->
  cs !! j = Some c ->
  exists b s1 s2,
    bs !! j = Some b /\
    prepMemo c (a ++ [i0 + j]) s1 = Ok (b, s2) /\
    _inOrderCount s <= _inOrderCount s1 /\
    keeps (a ++ [i0 + j]) s2 s'.
Proof.
  intros Hcb. revert j. induction Hcb as [|i c' cs s b s1 bs s2 Hc Hcb IH]; intros j Hj.
  - done.
  - destruct j as [|j]; simpl in Hj.
    + injection Hj as ->. exists b, s, s1. rewrite Nat.add_0_r. split_and!; try done.
      apply childBuilds_builtOver in Hcb. eapply builtOver_keeps; [exact Hcb|..].
      * intros x Hx. eapply (children_apart a); [|exact Hx|lia].
        intros k c' y. apply memoOrder_prefix.
      * intros x Hx. eapply (children_apart a); [|exact Hx|lia].
        intros k c' y. apply orphans_prefix.
    + destruct (IH j Hj) as (b' & s1' & s2' & Hb & Hrun & Hle & Hk).
      replace (S i + j) with (i + S j) in * by lia.
      exists b', s1', s2'. split_and!; try done.
      apply prepMemo_builtOver in Hc as (_ & _ & _ & Hc & _). lia.
Qed.

(** The builds of the children from [i] on leave the ids of the other
    nodes alone. *)
Lemma childBuilds_nodeToId_other a i cs s bs s' x :
  childBuilds a i cs s bs s' ->
  (forall j, i <= j -> ~ (a ++ [j]) `prefix_of` x) ->
  _nodeToId s' !! x = _nodeToId s !! x.
Proof.
  intros (_ & _ & _ & _ & Hn & _)%childBuilds_builtOver Hx.
  rewrite Hn, assignIds_notin, zeroKeys_lookup_notin; [done|..].
  - intros (k & c & _ & Hin)%elem_of_overChildren.
    apply orphans_prefix in Hin. apply (Hx (i + k)); [lia|done].
  - intros (k & c & _ & Hin)%elem_of_overChildren.
    apply memoOrder_prefix in Hin. apply (Hx (i + k)); [lia|done].
Qed.

Lemma childBuilds_nodeToId_before a i cs s bs s' j :
  childBuilds a i cs s bs s' -> j < i ->
  _nodeToId s' !! (a ++ [j]) = _nodeToId s !! (a ++ [j]).
Proof.
  intros Hcb Hj. eapply childBuilds_nodeToId_other; [exact Hcb|].
  intros k Hk [t Ht]. rewrite <- app_assoc in Ht. apply app_inv_head in Ht.
  simpl in Ht. injection Ht as -> _. lia.
Qed.

Lemma optionsOf_before m m' a i bs :
  (forall j, i <= j -> m' !! (a ++ [j]) = m !! (a ++ [j])) ->
  optionsOf m' a i bs = optionsOf m a i bs.
Proof.
  revert i. induction bs as [|b bs IH]; intros i Hm; simpl; [done|].
  rewrite Hm by lia. f_equal. apply IH. intros j Hj. apply Hm. lia.
Qed.

Lemma optionsOf_lookup m a i bs k o :
  optionsOf m a i bs !! k = Some o ->
  exists j, bs !! j = Some true /\ o = [default 0 (m !! (a ++ [i + j]))].
Proof.
  revert i k. induction bs as [|b bs IH]; intros i k; simpl; [done|].
  destruct b; simpl.
  - destruct k as [|k]; simpl.
    + intros [= <-]. exists 0. by rewrite Nat.add_0_r.
    + intros (j & Hj & ->)%IH. exists (S j). split; [done|].
      by replace (i + S j) with (S i + j) by lia.
  - intros (j & Hj & ->)%IH. exists (S j). split; [done|].
    by replace (i + S j) with (S i + j) by lia.
Qed.

Lemma optionsOf_length m a i bs :
  length (optionsOf m a i bs) = length (filter (fun b => b = true) bs).
Proof.
  revert i. induction bs as [|b bs IH]; intros i; [done|]. cbn [optionsOf].
  rewrite length_app, IH. destruct b.
  - by rewrite filter_cons_True.
  - by rewrite filter_cons_False.
Qed.

(** The builds of the children leave the key of a child that gets no
    entry as it was. *)
Lemma childBuilds_unclassified a cs s bs s' i c :
  childBuilds a 0 cs s bs s' -> cs !! i = Some c -> classified c = false ->
  _nodeToId s' !! (a ++ [i]) = _nodeToId s !! (a ++ [i]).
Proof.
  intros (_ & _ & _ & _ & Hn & _)%childBuilds_builtOver Hc Hcl.
  rewrite Hn, assignIds_notin, zeroKeys_lookup_notin; [done|..].
  - intros (k & c' & _ & (l & j & Hin)%orphans_below)%elem_of_overChildren.
    rewrite <- !app_assoc in Hin. apply app_inv_head in Hin.
    apply (f_equal length) in Hin. simpl in Hin. rewrite length_app in Hin.
    simpl in Hin. lia.
  - intros (k & c' & Hc' & Hin)%elem_of_overChildren. simpl in Hin.
    pose proof (memoOrder_prefix _ _ _ _ _ _ Hin) as [l Hl].
    rewrite <- app_assoc in Hl. apply app_inv_head in Hl. simpl in Hl.
    injection Hl as -> Hl. assert (c' = c) as -> by congruence.
    rewrite (memoOrder_unclassified _ _ _ c (a ++ [k]) Hcl) in Hin.
    by apply elem_of_nil in Hin.
Qed.

Lemma arrayLoop_spec a cs : forall i acc s r s',
  arrayLoop a cs i acc s = Ok (r, s') ->
  exists bs, childBuilds a i cs s bs s' /\ r = acc ++ optionsOf (_nodeToId s') a i bs.
Proof.
  induction cs as [|c cs IH]; intros i acc s r s' Hrun; simpl in Hrun.
  - injection Hrun as <- <-. exists []. split; [constructor|]. by rewrite app_nil_r.
  - apply bind_Ok in Hrun as (acc1 & s1 & Hb & Hrun).
    apply bind_Ok in Hb as (b & s1' & Hc & Hb).
    assert (s1' = s1 /\
            acc1 = acc ++ if b then [[default 0 (_nodeToId s1 !! (a ++ [i]))]] else [])
      as [-> ->].
    { destruct b; [rewrite (childRead _ _ _ _ _ Hc) in Hb|];
        run Hb; injection Hb as <- <-; by rewrite ?app_nil_r. }
    apply IH in Hrun as (bs & Hcb & ->). exists (b :: bs). split; [by econstructor|].
    simpl. rewrite <- app_assoc. do 2 f_equal.
    by rewrite (childBuilds_nodeToId_before _ _ _ _ _ _ i Hcb) by lia.
Qed.

Lemma orLoop_spec a cs : forall i acc s r s',
  orLoop a cs i acc s = Ok (r, s') ->
  exists bs, childBuilds a i cs s bs s' /\ r = acc && forallb id bs.
Proof.
  induction cs as [|c cs IH]; intros i acc s r s' Hrun; simpl in Hrun.
  - injection Hrun as <- <-. exists []. split; [constructor|]. by rewrite andb_true_r.
  - apply bind_Ok in Hrun as (acc1 & s1 & Hb & Hrun).
    apply bind_Ok in Hb as (b & s1' & Hc & Hb). run Hb. injection Hb as <- <-.
    apply IH in Hrun as (bs & Hcb & ->). exists (b :: bs). split; [by econstructor|].
    simpl. by destruct b, acc.
Qed.

Lemma andLoop_spec a cs : forall i acc g s r g' s',
  andLoop a cs i (acc, g) s = Ok ((r, g'), s') ->
  exists bs, childBuilds a i cs s bs s' /\ r = acc ++ optionsOf (_nodeToId s') a i bs.
Proof.
  induction cs as [|c cs IH]; intros i acc g s r g' s' Hrun; simpl in Hrun.
  - injection Hrun as <- <- <-. exists []. split; [constructor|]. by rewrite app_nil_r.
  - apply bind_Ok in Hrun as ([acc1 g1] & s1 & Hb & Hrun).
    apply bind_Ok in Hb as (b & s1' & Hc & Hb).
    assert (s1' = s1 /\
            acc1 = acc ++ if b then [[default 0 (_nodeToId s1 !! (a ++ [i]))]] else [])
      as [-> ->].
    { destruct b; [rewrite (childRead _ _ _ _ _ Hc) in Hb|];
        run Hb; [|injection Hb as <- <- <-; by rewrite ?app_nil_r].
      destruct (_memo s1' !! _) as [[[p|] ? ?]|]; [case_decide|..];
        by injection Hb as <- <- <-. }
    apply IH in Hrun as (bs & Hcb & ->). exists (b :: bs). split; [by econstructor|].
    simpl. rewrite <- app_assoc. do 2 f_equal.
    by rewrite (childBuilds_nodeToId_before _ _ _ _ _ _ i Hcb) by lia.
Qed.

(** The map after the builder has given the node at [a] the id [c] and
    read the ids at slots [kids] of its children. *)
Lemma ownKey_lookups (a : Addr) (m : gmap Addr nat) c kids :
  (forall y, y ∈ kids -> exists i, y = a ++ [i]) ->
  zeroKeys kids (<[a := c]> m) !! a = Some c /\
  (forall y k, y <> a -> m !! y = Some k -> zeroKeys kids (<[a := c]> m) !! y = Some k) /\
  (forall y, y <> a -> (forall i, y <> a ++ [i]) ->
             zeroKeys kids (<[a := c]> m) !! y = m !! y).
Proof.
  intros Hkids. split_and!.
  - apply zeroKeys_lookup_Some, lookup_insert_eq.
  - intros y k Hy Hk. apply zeroKeys_lookup_Some. by rewrite lookup_insert_ne.
  - intros y Hy Hi. rewrite zeroKeys_lookup_notin.
    + by rewrite lookup_insert_ne.
    + intros (i & ->)%Hkids. by apply (Hi i).
Qed.

Lemma childSlots_slot a i n y : y ∈ childSlots a i n -> exists j, y = a ++ [j].
Proof. intros (j & -> & _)%list_elem_of_fmap. by exists j. Qed.

(** The last step of the builder at a node that has a loop over its
    children: after the children, the node gets the next id; a
    disjunction then reads the ids at the slots of its children. *)
Lemma prepMemo_inner node a s b s' :
  prepMemo node a s = Ok (b, s') ->
  arrayUsesIndexOnChildren node = true \/
  (nodeCanUseIndexOnOwnField node = false /\ isLogical node = true) ->
  exists bs s1,
    childBuilds a 0 (children node) s bs s1 /\
    (_nodeToId s' !! a = Some (_inOrderCount s1) /\
     (forall y k, y <> a -> _nodeToId s1 !! y = Some k -> _nodeToId s' !! y = Some k) /\
     (forall y, y <> a -> (forall i, y <> a ++ [i]) ->
                _nodeToId s' !! y = _nodeToId s1 !! y)) /\
    (forall k, k < _inOrderCount s1 -> _memo s' !! k = _memo s1 !! k) /\
    _inOrderCount s' = S (_inOrderCount s1) /\
    (forall y, _tagData s' !! y = _tagData s1 !! y).
Proof.
  rewrite prepMemo_unfold. intros Hrun Hkind.
  destruct (arrayUsesIndexOnChildren node).
  - apply bind_Ok in Hrun as (subnodes & s1 & Hloop & Htail).
    apply arrayLoop_spec in Hloop as (bs & Hcb & _). exists bs, s1.
    run Htail. rewrite lookup_insert_eq in Htail. simpl in Htail.
    injection Htail as <- <-. simpl. split; [done|].
    split; [apply (ownKey_lookups a (_nodeToId s1) _ []); by intros y ?%elem_of_nil|].
    split_and!; try done. intros k Hk. rewrite lookup_insert_ne; [done|lia].
  - destruct Hkind as [|[Hown Hlog]]; [done|]. rewrite Hown, Hlog in Hrun.
    destruct (decide (matchType node = OR)).
    + apply bind_Ok in Hrun as (indexed & s1 & Hloop & Htail).
      apply orLoop_spec in Hloop as (bs & Hcb & _). exists bs, s1.
      run Htail. rewrite lookup_insert_eq in Htail. simpl in Htail.
      match type of Htail with
      | match ?m ?st with _ => _ end = _ => destruct (m st) as [[subs s2]|] eqn:Hsubs
      end; [|discriminate].
      apply orSubnodes_spec in Hsubs as [-> ->]. simpl in Htail.
      injection Htail as <- <-. simpl. split; [done|].
      split; [apply ownKey_lookups; apply childSlots_slot|].
      split_and!; try done. intros k Hk. rewrite lookup_insert_ne; [done|lia].
    + apply bind_Ok in Hrun as ([subnodes g] & s1 & Hloop & Htail).
      apply andLoop_spec in Hloop as (bs & Hcb & _). exists bs, s1.
      run Htail. rewrite lookup_insert_eq in Htail. simpl in Htail.
      unfold verify in Htail. case_bool_decide; [|discriminate]. run Htail.
      injection Htail as <- <-. simpl. split; [done|].
      split; [apply (ownKey_lookups a (_nodeToId s1) _ []); by intros y ?%elem_of_nil|].
      split_and!; try done. intros k Hk. rewrite lookup_insert_ne; [done|lia].
Qed.

Lemma swapAt_length {A} i j (v : list A) : length (swapAt i j v) = length v.
Proof.
  unfold swapAt. destruct (v !! i), (v !! j); by rewrite ?length_insert.
Qed.

Lemma swapAt_lookup {A} i j (v : list A) x y :
  v !! i = Some x -> v !! j = Some y ->
  swapAt i j v !! i = Some y /\ swapAt i j v !! j = Some x.
Proof.
  intros Hi Hj. unfold swapAt. rewrite Hi, Hj.
  pose proof (lookup_lt_Some _ _ _ Hi). pose proof (lookup_lt_Some _ _ _ Hj).
  destruct (decide (i = j)) as [->|Hne].
  - rewrite list_lookup_insert_eq by (by rewrite length_insert). split; congruence.
  - rewrite list_lookup_insert_ne, !list_lookup_insert_eq by
      (done || by rewrite ?length_insert). done.
Qed.

Lemma swapAt_elem {A} i j (v : list A) k x :
  swapAt i j v !! k = Some x -> x ∈ v.
Proof.
  unfold swapAt. destruct (v !! i) as [xi|] eqn:Hi, (v !! j) as [xj|] eqn:Hj;
    try by apply list_elem_of_lookup_2.
  intros Hk.
  pose proof (lookup_lt_Some _ _ _ Hi). pose proof (lookup_lt_Some _ _ _ Hj).
  destruct (decide (k = j)) as [->|Hkj].
  - rewrite list_lookup_insert_eq in Hk by (by rewrite length_insert).
    injection Hk as <-. by eapply list_elem_of_lookup_2.
  - rewrite list_lookup_insert_ne in Hk by done.
    destruct (decide (k = i)) as [->|Hki].
    + rewrite list_lookup_insert_eq in Hk by done.
      injection Hk as <-. by eapply list_elem_of_lookup_2.
    + rewrite list_lookup_insert_ne in Hk by done. by eapply list_elem_of_lookup_2.
Qed.

Lemma childBuilds_built a i0 cs s bs s' j :
  Forall (fun c => forall a s s', prepMemo c a s = Ok (true, s') -> builtAt c a s') cs ->
  childBuilds a i0 cs s bs s' ->
  bs !! j = Some true ->
  exists id c, cs !! j = Some c /\
               _nodeToId s' !! (a ++ [i0 + j]) = Some id /\ id < _inOrderCount s' /\
               built (_memo s') (_curEnum s') c (a ++ [i0 + j]) id.
Proof.
  intros IH Hcb Hj.
  destruct (cs !! j) as [c|] eqn:Hc.
  2:{ apply lookup_ge_None in Hc. apply lookup_lt_Some in Hj.
      apply childBuilds_length in Hcb. lia. }
  destruct (childBuilds_lookup _ _ _ _ _ _ _ _ Hcb Hc) as (b & s1 & s2 & Hb & Hrun & _ & Hk).
  assert (b = true) as -> by congruence.
  rewrite Forall_forall in IH.
  destruct (IH c (list_elem_of_lookup_2 _ _ _ Hc) _ _ _ Hrun) as (id & Hid & Hcnt & Hbuilt).
  exists id, c. pose proof Hk as (Hn & _ & Hle). split_and!.
  - done.
  - by rewrite Hn.
  - lia.
  - eapply built_keeps; [exact Hbuilt | lia | exact Hk].
Qed.

Lemma snoc_ne (a : Addr) i : a ++ [i] <> a.
Proof. intros H%(f_equal length). rewrite length_app in H. simpl in H. lia. Qed.

(** The child facts survive the allocation of the parent's own entry. *)
Lemma built_own_step c a j s1 id soln cur' :
  _nodeToId s1 !! (a ++ [j]) = Some id -> id < _inOrderCount s1 ->
  built (_memo s1) (_curEnum s1) c (a ++ [j]) id ->
  (forall k, k < _inOrderCount s1 -> cur' !! k = _curEnum s1 !! k) ->
  <[a := _inOrderCount s1]> (_nodeToId s1) !! (a ++ [j]) = Some id /\
  built (<[_inOrderCount s1 := soln]> (_memo s1)) cur' c (a ++ [j]) id.
Proof.
  intros Hid Hlt Hb Hcur. split.
  - rewrite lookup_insert_ne; [done|]. intros H. by apply (snoc_ne a j).
  - eapply built_mono; [exact Hb|]. intros k Hk. split.
    + rewrite lookup_insert_ne by lia. done.
    + apply Hcur. lia.
Qed.

Theorem prepMemo_built node : forall a s s',
  prepMemo node a s = Ok (true, s') -> builtAt node a s'.
Proof.
  induction node as [mt p cs IH] using MatchExpression_ind. intros a s s'.
  rewrite prepMemo_unfold. simpl.
  destruct (arrayUsesIndexOnChildren _); [|destruct (nodeCanUseIndexOnOwnField _);
    [|destruct (isLogical _); [destruct (decide (mt = OR))|]]].
  - intros (subnodes & s1 & Hloop & Htail)%bind_Ok.
    apply arrayLoop_spec in Hloop as (bs & Hcb & ->). simpl in Htail.
    run Htail. rewrite lookup_insert_eq in Htail. simpl in Htail.
    injection Htail as Hlen <-. apply Nat.ltb_lt in Hlen.
    destruct (optionsOf (_nodeToId s1) a 0 bs) as [|o rest] eqn:Hopts;
      [simpl in Hlen; lia|].
    destruct (optionsOf_lookup (_nodeToId s1) a 0 bs 0 o) as (j & Hj & ->);
      [by rewrite Hopts|].
    destruct (childBuilds_built _ _ _ _ _ _ _ IH Hcb Hj) as (id & c & Hc & Hid & Hlt & Hb).
    simpl in Hid, Hb |- *. rewrite Hid. simpl.
    destruct (built_own_step c a j s1 id (andSoln (mkAnd ([id] :: rest)))
                (<[_inOrderCount s1 := 0]> (_curEnum s1)) Hid Hlt Hb) as [_ Hb'].
    { intros k Hk. by rewrite lookup_insert_ne by lia. }
    exists (_inOrderCount s1). simpl. split_and!; [by rewrite lookup_insert_eq|done|].
    eapply built_and; [by rewrite lookup_insert_eq|done|done|done| | |exact Hc|exact Hlt|
                       exact Hb'].
    + by rewrite lookup_insert_eq.
    + done.
  - intros Htail. run Htail. rewrite lookup_insert_eq in Htail. simpl in Htail.
    exists (_inOrderCount s).
    destruct (_tagData s !! a) as [[f nf|]|] eqn:Htag; simpl in Htail;
      [| discriminate | discriminate]; injection Htail as Hlen <-.
    apply Nat.ltb_lt in Hlen. simpl.
    destruct f as [|index f]; [simpl in Hlen; lia|].
    split_and!; [by rewrite lookup_insert_eq|done|].
    eapply built_pred; [by rewrite lookup_insert_eq|done|done| |done].
    by rewrite lookup_insert_eq.
  - intros (indexed & s1 & Hloop & Htail)%bind_Ok.
    apply orLoop_spec in Hloop as (bs & Hcb & ->). simpl in Htail.
    run Htail. rewrite lookup_insert_eq in Htail. simpl in Htail.
    match type of Htail with
    | match ?m ?s with _ => _ end = _ => destruct (m s) as [[subs s2]|] eqn:Hsubs
    end; [|discriminate].
    apply orSubnodes_spec in Hsubs as [-> ->]. simpl in Htail.
    injection Htail as Hall <-. simpl.
    exists (_inOrderCount s1). simpl.
    split_and!; [apply zeroKeys_lookup_Some; by rewrite lookup_insert_eq|done|].
    assert (Hchild : forall i cid,
               map (fun j => default 0 (<[a:=_inOrderCount s1]> (_nodeToId s1) !! (a ++ [j])))
                 (seq 0 (length cs)) !! i = Some cid ->
               cid < _inOrderCount s1 /\
               exists c, cs !! i = Some c /\
               built (<[_inOrderCount s1 := orSoln (mkOr
                 (map (fun j => default 0
                    (<[a:=_inOrderCount s1]> (_nodeToId s1) !! (a ++ [j])))
                   (seq 0 (length cs))))]> (_memo s1)) (_curEnum s1) c (a ++ [i]) cid).
    { intros i cid Hi. rewrite list_lookup_fmap in Hi.
      destruct (seq 0 (length cs) !! i) as [j|] eqn:Hseq; [|done].
      apply lookup_seq in Hseq as [-> Hlt]. simpl in Hi. injection Hi as <-.
      assert (bs !! i = Some true) as Hbi.
      { apply childBuilds_length in Hcb.
        destruct (bs !! i) as [b|] eqn:Hb;
          [|apply lookup_ge_None in Hb; lia].
        f_equal. rewrite forallb_forall in Hall.
        apply (Hall b). apply list_elem_of_In. by eapply list_elem_of_lookup_2. }
      destruct (childBuilds_built _ _ _ _ _ _ _ IH Hcb Hbi) as (id & c & Hc & Hid & Hlt' & Hb).
      simpl in Hid, Hb.
      destruct (built_own_step c a i s1 id (orSoln (mkOr
                 (map (fun j => default 0
                    (<[a:=_inOrderCount s1]> (_nodeToId s1) !! (a ++ [j])))
                   (seq 0 (length cs))))) (_curEnum s1) Hid Hlt' Hb) as [Hid' Hb'];
        [done|].
      rewrite Hid'. simpl. eauto. }
    eapply built_or; [by rewrite lookup_insert_eq|done|done|done|..].
    + intros i cid Hi. exact (proj1 (Hchild i cid Hi)).
    + intros i cid Hi. destruct (Hchild i cid Hi) as (_ & c & Hc & _). simpl. eauto.
    + intros i cid c Hi Hc. destruct (Hchild i cid Hi) as (_ & c' & Hc' & Hb).
      simpl in Hc. by assert (c' = c) as <- by congruence.
  - intros ([subnodes g] & s1 & Hloop & Htail)%bind_Ok.
    apply andLoop_spec in Hloop as (bs & Hcb & ->). simpl in Htail.
    run Htail. rewrite lookup_insert_eq in Htail. simpl in Htail.
    unfold verify in Htail. case_bool_decide; [|discriminate]. run Htail.
    injection Htail as Hlen <-. apply Nat.ltb_lt in Hlen.
    set (opts := if decide (kNoIndex <> g /\ 0%N <> g)
                 then swapAt 0 (N.to_nat g) (optionsOf (_nodeToId s1) a 0 bs)
                 else optionsOf (_nodeToId s1) a 0 bs) in *.
    destruct opts as [|o rest] eqn:Hopts; [simpl in Hlen; lia|].
    assert (o ∈ optionsOf (_nodeToId s1) a 0 bs) as Ho.
    { subst opts. case_decide.
      - apply (swapAt_elem 0 (N.to_nat g) _ 0). by rewrite Hopts.
      - rewrite Hopts. by left. }
    apply list_elem_of_lookup in Ho as [k Hk].
    destruct (optionsOf_lookup _ _ _ _ _ _ Hk) as (j & Hj & ->).
    destruct (childBuilds_built _ _ _ _ _ _ _ IH Hcb Hj) as (id & c & Hc & Hid & Hlt & Hb).
    simpl in Hid, Hb |- *. rewrite Hid. simpl.
    destruct (built_own_step c a j s1 id (andSoln (mkAnd ([id] :: rest)))
                (<[_inOrderCount s1 := 0]> (_curEnum s1)) Hid Hlt Hb) as [_ Hb'].
    { intros k' Hk'. by rewrite lookup_insert_ne by lia. }
    exists (_inOrderCount s1). simpl. split_and!; [by rewrite lookup_insert_eq|done|].
    eapply built_and; [by rewrite lookup_insert_eq|done|done|done| | |exact Hc|exact Hlt|
                       exact Hb'].
    + by rewrite lookup_insert_eq.
    + done.
  - intros Htail. run Htail. discriminate.
Qed.

Lemma forChildren_Err {A} (body : nat -> MatchExpression -> A -> M A) cs :
  forall i acc s e,
    forChildren body cs i acc s = Err e ->
    exists j c acc' s', cs !! j = Some c /\ body (i + j) c acc' s' = Err e.
Proof.
  induction cs as [|c cs IH]; intros i acc s e Hrun; simpl in Hrun; [done|].
  apply bind_Err in Hrun as [Hb | (acc1 & s1 & _ & Hrun)].
  - exists 0, c, acc, s. by rewrite Nat.add_0_r.
  - apply IH in Hrun as (j & c' & acc' & s' & Hc & Hb).
    exists (S j), c', acc', s'. by replace (i + S j) with (S i + j) by lia.
Qed.

(** The builder fails only on a tag of the wrong kind or on a logical
    node that is neither a disjunction nor a conjunction. *)
Lemma prepMemo_Err node : forall a s e,
  prepMemo node a s = Err e -> e = BadCast \/ e = VerifyFailed 357.
Proof.
  induction node as [mt p cs IH] using MatchExpression_ind. intros a s e.
  rewrite prepMemo_unfold. simpl. rewrite Forall_forall in IH.
  assert (Hchild : forall i c s1 e1,
             cs !! i = Some c -> prepMemo c (a ++ [i]) s1 = Err e1 ->
             e1 = BadCast \/ e1 = VerifyFailed 357).
  { intros i c s1 e1 Hc. apply IH. by eapply list_elem_of_lookup_2. }
  destruct (arrayUsesIndexOnChildren _); [|destruct (nodeCanUseIndexOnOwnField _);
    [|destruct (isLogical _); [destruct (decide (mt = OR))|]]].
  - intros [Hloop | (subnodes & s1 & _ & Htail)]%bind_Err.
    + apply forChildren_Err in Hloop as (j & c & acc & s1 & Hc & Hb).
      apply bind_Err in Hb as [Hb | (b & s2 & _ & Hb)]; [by eapply Hchild|].
      destruct b; [rewrite (bind_run _ _ _ _ _ (nodeToId_run _ _)) in Hb|];
        run Hb; discriminate.
    + run Htail. rewrite lookup_insert_eq in Htail. discriminate.
  - intros Htail. run Htail. rewrite lookup_insert_eq in Htail. simpl in Htail.
    destruct (_tagData s !! a) as [[f nf|]|]; simpl in Htail; try discriminate.
    injection Htail as <-. by left.
  - intros [Hloop | (indexed & s1 & _ & Htail)]%bind_Err.
    + apply forChildren_Err in Hloop as (j & c & acc & s1 & Hc & Hb).
      apply bind_Err in Hb as [Hb | (b & s2 & _ & Hb)]; [by eapply Hchild|].
      run Hb. discriminate.
    + run Htail. rewrite lookup_insert_eq in Htail. simpl in Htail.
      match type of Htail with
      | match ?m ?s with _ => _ end = _ => destruct (m s) as [[subs s2]|e'] eqn:Hsubs
      end; [discriminate|].
      apply forChildren_Err in Hsubs as (j & c & acc & s2 & Hc & Hb).
      rewrite (bind_run _ _ _ _ _ (nodeToId_run _ _)) in Hb. discriminate.
  - intros [Hloop | ([subnodes g] & s1 & _ & Htail)]%bind_Err.
    + apply forChildren_Err in Hloop as (j & c & [acc g] & s1 & Hc & Hb).
      apply bind_Err in Hb as [Hb | (b & s2 & _ & Hb)]; [by eapply Hchild|].
      destruct b; [rewrite (bind_run _ _ _ _ _ (nodeToId_run _ _)) in Hb|];
        run Hb; [|discriminate].
      destruct (_memo s2 !! _) as [[[p'|] ? ?]|]; [case_decide|..]; discriminate.
    + run Htail. rewrite lookup_insert_eq in Htail. simpl in Htail.
      unfold verify in Htail. case_bool_decide; run Htail; [discriminate|].
      injection Htail as <-. by right.
  - intros Htail. run Htail. discriminate.
Qed.

Local Abbreviation geoChoice := (geoChoice kNoIndex).

Lemma isGeoNear_agree memo memo' cid :
  memo' !! cid = memo !! cid -> isGeoNear memo' cid = isGeoNear memo cid.
Proof. unfold isGeoNear. by intros ->. Qed.

Lemma geoChoice_agree memo memo' opts g n :
  (forall k o, opts !! k = Some o -> exists cid, o = [cid] /\ cid < n) ->
  (forall cid, cid < n -> memo' !! cid = memo !! cid) ->
  geoChoice memo opts g -> geoChoice memo' opts g.
Proof.
  intros Hopts Hagree [[-> Hno] | (k & -> & (cid & Hk & Hgeo) & Hlast)].
  - left. split; [done|]. intros k cid Hk.
    destruct (Hopts k _ Hk) as (cid' & [= <-] & Hlt).
    rewrite (isGeoNear_agree memo) by auto. eauto.
  - right. exists k. split; [done|]. split.
    + exists cid. split; [done|].
      destruct (Hopts k _ Hk) as (cid' & [= <-] & Hlt).
      by rewrite (isGeoNear_agree memo) by auto.
    + intros k' cid' Hlt Hk'.
      destruct (Hopts k' _ Hk') as (cid'' & [= <-] & Hlt').
      rewrite (isGeoNear_agree memo) by auto. eauto.
Qed.

Lemma andBody_geo a i c acc g s acc1 g1 s1 :
  (let* indexed := prepMemo c (a ++ [i]) in
   if indexed then
     let* childID := nodeToId (a ++ [i]) in
     let subnodes := acc ++ [[childID]] in
     let* ns := memoAt childID in
     match ns with
     | Some (mkSoln (Some p) _ _) =>
         if decide (matchType (target (expr p)) = GEO_NEAR)
         then ret (subnodes, N.of_nat (length subnodes - 1))
         else ret (subnodes, g)
     | _ => ret (subnodes, g)
     end
   else ret (acc, g)) s = Ok ((acc1, g1), s1) ->
  (forall k o, acc !! k = Some o -> exists cid, o = [cid] /\ cid < _inOrderCount s) ->
  geoChoice (_memo s) acc g ->
  (forall k o, acc1 !! k = Some o -> exists cid, o = [cid] /\ cid < _inOrderCount s1) /\
  geoChoice (_memo s1) acc1 g1.
Proof.
  intros (b & s1' & Hc & Hb)%bind_Ok Hacc Hgeo.
  pose proof (prepMemo_builtOver _ _ _ _ _ Hc) as (_ & _ & _ & Hcnt & _ & Hm & _).
  assert (Hacc' : forall k o, acc !! k = Some o ->
             exists cid, o = [cid] /\ cid < _inOrderCount s1').
  { intros k o Hk. destruct (Hacc k o Hk) as (cid & -> & ?). exists cid.
    split; [done|lia]. }
  assert (Hgeo' : geoChoice (_memo s1') acc g).
  { eapply geoChoice_agree; [exact Hacc| |exact Hgeo].
    intros cid Hcid. apply Hm. lia. }
  destruct b; [|by injection Hb as <- <- <-].
  destruct (prepMemo_ownId _ _ _ _ _ Hc) as (id & Hid & Hsid & _);
    [by eapply prepMemo_classified|].
  run Hb. rewrite Hid in Hb. simpl in Hb.
  assert (Hnew : forall k o, (acc ++ [[id]]) !! k = Some o ->
             exists cid, o = [cid] /\ cid < _inOrderCount s1').
  { intros k o [Hk | [_ Hk]]%lookup_app_Some; [by eapply Hacc'|].
    apply list_lookup_singleton_Some in Hk as [_ <-]. exists id. split; [done|lia]. }
  assert (Hkeep : isGeoNear (_memo s1') id = false ->
             geoChoice (_memo s1') (acc ++ [[id]]) g).
  { intros Hnot. destruct Hgeo' as [[-> Hno] | (k & -> & (cid & Hk & Hg) & Hlast)].
    - left. split; [done|]. intros k cid [Hk | [_ Hk]]%lookup_app_Some;
        [by eapply Hno|].
      apply list_lookup_singleton_Some in Hk as [_ [= <-]]. done.
    - right. exists k. split; [done|]. split.
      + exists cid. split; [by apply lookup_app_l_Some|done].
      + intros k' cid' Hlt [Hk' | [_ Hk']]%lookup_app_Some; [by eapply Hlast|].
        apply list_lookup_singleton_Some in Hk' as [_ [= <-]]. done. }
  assert (Hset : isGeoNear (_memo s1') id = true ->
             geoChoice (_memo s1') (acc ++ [[id]])
               (N.of_nat (length (acc ++ [[id]]) - 1))).
  { intros Hyes. right. exists (length acc). rewrite length_app. simpl.
    replace (length acc + 1 - 1) with (length acc) by lia.
    split; [done|]. split.
    - exists id. split; [|done]. by rewrite lookup_app_r, Nat.sub_diag by lia.
    - intros k' cid' Hlt Hk'. apply lookup_lt_Some in Hk'.
      rewrite length_app in Hk'. simpl in Hk'. lia. }
  unfold isGeoNear in Hkeep, Hset.
  destruct (_memo s1' !! id) as [[[p|] ? ?]|]; [case_decide|..];
    injection Hb as <- <- <-; split; try done.
  - apply Hset. by apply bool_decide_eq_true.
  - apply Hkeep. by apply bool_decide_eq_false.
  - by apply Hkeep.
  - by apply Hkeep.
Qed.

(** The loop of the conjunction case keeps in [geoNearChild] the place of
    a geo-nearest option when there is one. *)
Lemma andLoop_geo a cs : forall i acc g s r g' s',
  andLoop a cs i (acc, g) s = Ok ((r, g'), s') ->
  (forall k o, acc !! k = Some o -> exists cid, o = [cid] /\ cid < _inOrderCount s) ->
  geoChoice (_memo s) acc g ->
  (forall k o, r !! k = Some o -> exists cid, o = [cid] /\ cid < _inOrderCount s') /\
  geoChoice (_memo s') r g'.
Proof.
  induction cs as [|c cs IH]; intros i acc g s r g' s' Hrun Hacc Hgeo; simpl in Hrun.
  - by injection Hrun as <- <- <-.
  - apply bind_Ok in Hrun as ([acc1 g1] & s1 & Hb & Hrun).
    destruct (andBody_geo _ _ _ _ _ _ _ _ _ Hb Hacc Hgeo) as [Hacc1 Hgeo1].
    by apply (IH _ _ _ _ _ _ _ Hrun).
Qed.

Lemma lastGeo_agree memo memo' opts k n :
  (forall j o, opts !! j = Some o -> exists cid, o = [cid] /\ cid < n) ->
  (forall cid, cid < n -> memo' !! cid = memo !! cid) ->
  lastGeo memo opts k -> lastGeo memo' opts k.
Proof.
  intros Hopts Hagree [(cid & Hk & Hgeo) Hlast]. split.
  - exists cid. split; [done|].
    destruct (Hopts k _ Hk) as (cid' & [= <-] & Hlt).
    by rewrite (isGeoNear_agree memo) by auto.
  - intros k' cid' Hlt Hk'.
    destruct (Hopts k' _ Hk') as (cid'' & [= <-] & Hlt').
    rewrite (isGeoNear_agree memo) by auto. eauto.
Qed.

Lemma lastGeo_unique memo opts k k' : lastGeo memo opts k -> lastGeo memo opts k' -> k = k'.
Proof.
  intros [(cid & Hk & Hgeo) Hlast] [(cid' & Hk' & Hgeo') Hlast'].
  destruct (Nat.lt_trichotomy k k') as [Hlt|[?|Hlt]]; [|done|].
  - rewrite (Hlast k' cid' Hlt Hk') in Hgeo'. done.
  - rewrite (Hlast' k cid Hlt Hk) in Hgeo. done.
Qed.

Lemma exchanged_same {A} i (v : list A) : exchanged i i v v.
Proof. by unfold exchanged. Qed.

Lemma swapAt_exchanged {A} i j (v : list A) :
  i < length v -> j < length v -> exchanged i j v (swapAt i j v).
Proof.
  intros Hi Hj.
  destruct (lookup_lt_is_Some_2 v i Hi) as [x Hx].
  destruct (lookup_lt_is_Some_2 v j Hj) as [y Hy].
  destruct (swapAt_lookup i j v x y Hx Hy) as [H1 H2].
  split_and!; [apply swapAt_length|congruence..|].
  intros k Hki Hkj. unfold swapAt. rewrite Hx, Hy.
  by rewrite !list_lookup_insert_ne.
Qed.

Lemma childBuilds_ownId a i0 cs s bs s' j :
  childBuilds a i0 cs s bs s' -> bs !! j = Some true ->
  exists id, _nodeToId s' !! (a ++ [i0 + j]) = Some id /\ id < _inOrderCount s'.
Proof.
  intros Hcb Hj.
  destruct (childBuilds_built a i0 cs s bs s' j) as (id & c & _ & Hid & Hlt & _);
    [|done..|eauto].
  apply Forall_forall. intros c _ a' s1 s2. apply prepMemo_built.
Qed.

Lemma refsLower_agree (m m' : gmap Addr nat) order order' x k soln :
  (forall i, m' !! (x ++ [i]) = m !! (x ++ [i])) ->
  (forall i, (x ++ [i]) ∈ order' -> (x ++ [i]) ∈ order) ->
  refsLower m order x k soln -> refsLower m' order' x k soln.
Proof.
  intros Hagree Horder [Hand Hor]. split; [done|].
  intros o i c Ho Hc. rewrite Hagree. destruct (Hor o i c Ho Hc) as [Hm Hlt].
  split; [done|]. intros Hin. by apply Hlt, Horder.
Qed.

(** The entry of a node whose options come from its indexable children. *)
Lemma refsLower_options (a : Addr) (cs : list MatchExpression) (s : PlanEnumerator)
    (bs : list bool) (s1 : PlanEnumerator) (m : gmap Addr nat)
    (order : list Addr) (opts : list (list nat)) :
  childBuilds a 0 cs s bs s1 ->
  (forall o, o ∈ opts -> o ∈ optionsOf (_nodeToId s1) a 0 bs) ->
  refsLower m order a (_inOrderCount s1) (andSoln (mkAnd opts)).
Proof.
  intros Hcb Hopts. split; [|done].
  intros an o c [= <-] Ho Hc. simpl in Ho. apply Hopts in Ho.
  apply list_elem_of_lookup in Ho as [k Hk].
  apply optionsOf_lookup in Hk as (j & Hj & ->).
  destruct (childBuilds_ownId _ _ _ _ _ _ _ Hcb Hj) as (id & Hid & Hlt).
  rewrite Hid in Hc. simpl in Hc.
  by apply list_elem_of_singleton in Hc as ->.
Qed.

Lemma children_NoDup a cs :
  NoDup (overChildren (fun i c => memoOrder c (a ++ [i])) cs 0).
Proof.
  rewrite <- (firstn_all cs). apply (overChildren_NoDup _ a).
  - intros i c _. apply memoOrder_NoDup.
  - intros i c y _. apply memoOrder_prefix.
Qed.

(** In the memo the builder makes, every member of an option is a lower
    id, and every subnode of a disjunction is the value of [_nodeToId]
    at the child, a lower id when the child has an entry. *)
Theorem prepMemo_refs node : forall a s b s',
  prepMemo node a s = Ok (b, s') ->
  forall x k soln,
    x ∈ memoOrder node a -> _nodeToId s' !! x = Some k -> _memo s' !! k = Some soln ->
    refsLower (_nodeToId s') (memoOrder node a) x k soln.
Proof.
  induction node as [mt p cs IH] using MatchExpression_ind.
  intros a s b s' Hrun x k soln Hx Hk Hsoln.
  (* the entries of the children *)
  assert (Hchildren : forall s1 bs order,
    childBuilds a 0 cs s bs s1 ->
    (_nodeToId s' !! a = Some (_inOrderCount s1) /\
     (forall y k0, y <> a -> _nodeToId s1 !! y = Some k0 -> _nodeToId s' !! y = Some k0) /\
     (forall y, y <> a -> (forall i, y <> a ++ [i]) ->
                _nodeToId s' !! y = _nodeToId s1 !! y)) ->
    (forall k', k' < _inOrderCount s1 -> _memo s' !! k' = _memo s1 !! k') ->
    (forall y, y ∈ order ->
       y = a \/ y ∈ overChildren (fun i c => memoOrder c (a ++ [i])) cs 0) ->
    x ∈ overChildren (fun i c => memoOrder c (a ++ [i])) cs 0 ->
    refsLower (_nodeToId s') order x k soln).
  { intros s1 bs order Hcb (_ & Hkeep1 & Hsame1) Hm' Horder
      (j & c & Hc & Hxj)%elem_of_overChildren. simpl in Hxj.
    destruct (childBuilds_lookup _ _ _ _ _ _ _ _ Hcb Hc)
      as (bj & sj & sj' & _ & Hrunj & _ & Hkeep). simpl in *.
    pose proof (memoOrder_prefix _ _ _ _ _ _ Hxj) as Hpre.
    destruct Hkeep as (Hkn & Hkm & Hkc).
    pose proof (prepMemo_builtOver _ _ _ _ _ Hrunj) as (_ & _ & _ & Hcj & Hnj & _).
    pose proof Hxj as Hidx. apply list_elem_of_lookup in Hidx as [idx Hidx].
    assert (Hxid : _nodeToId sj' !! x = Some (_inOrderCount sj + idx)).
    { rewrite Hnj. apply assignIds_lookup; [apply memoOrder_NoDup|done]. }
    assert (Hne : forall y, (a ++ [j]) `prefix_of` y -> y <> a).
    { intros y Hy ->. by apply prefix_snoc_self in Hy. }
    assert (_nodeToId s' !! x = Some (_inOrderCount sj + idx)) as Hxs'.
    { apply Hkeep1; [by apply Hne|]. by rewrite Hkn. }
    rewrite Hxs' in Hk. injection Hk as <-.
    assert (_inOrderCount sj + idx < _inOrderCount sj') as Hlt.
    { apply lookup_lt_Some in Hidx. lia. }
    assert (Hdeep : forall i, (a ++ [j]) `prefix_of` (x ++ [i]))
      by (intros i; etrans; [exact Hpre|by apply prefix_app_r]).
    rewrite Forall_forall in IH.
    eapply refsLower_agree;
      [| |eapply (IH c (list_elem_of_lookup_2 _ _ _ Hc) _ _ _ _ Hrunj x _ soln Hxj Hxid)].
    - intros i. rewrite Hsame1; [by apply Hkn|by apply Hne|].
      intros i' Heq. destruct Hpre as [t ->]. rewrite <- !app_assoc in Heq.
      apply app_inv_head in Heq. simpl in Heq. injection Heq as _ Heq.
      by destruct t.
    - intros i Hin. apply Horder in Hin as [Heq|Hin].
      { by apply (Hne (x ++ [i])) in Heq. }
      apply elem_of_overChildren in Hin as (j' & c' & Hc' & Hin). simpl in Hin.
      pose proof (memoOrder_prefix _ _ _ _ _ _ Hin) as Hp'.
      destruct (decide (j' = j)) as [->|Hj'].
      + by assert (c' = c) as -> by congruence.
      + exfalso. by eapply (prefix_snoc_ne a (x ++ [i]) j' j).
    - rewrite <- Hsoln, Hm' by lia. symmetry. by apply Hkm. }
  assert (Hsplit : forall y (below : list Addr), y ∈ below ++ [a] -> y = a \/ y ∈ below).
  { intros y below [?| ->%list_elem_of_singleton]%elem_of_app; auto. }
  revert Hrun Hx. rewrite prepMemo_unfold, memoOrder_unfold. simpl.
  destruct (arrayUsesIndexOnChildren _); [|destruct (nodeCanUseIndexOnOwnField _);
    [|destruct (isLogical _); [destruct (decide (mt = OR))|]]].
  - intros (subnodes & s1 & Hloop & Htail)%bind_Ok Hx.
    apply arrayLoop_spec in Hloop as (bs & Hcb & ->). simpl in Htail.
    run Htail. rewrite lookup_insert_eq in Htail. simpl in Htail.
    injection Htail as _ <-. simpl in *.
    apply elem_of_app in Hx as [Hx | ->%list_elem_of_singleton].
    + eapply Hchildren; [exact Hcb| | |intros y; apply Hsplit|done].
      * apply (ownKey_lookups a (_nodeToId s1) _ []). by intros y ?%elem_of_nil.
      * intros k' Hk'. by rewrite lookup_insert_ne by lia.
    + rewrite lookup_insert_eq in Hk. injection Hk as <-.
      rewrite lookup_insert_eq in Hsoln. injection Hsoln as <-.
      by eapply refsLower_options.
  - intros Htail ->%list_elem_of_singleton. run Htail.
    rewrite lookup_insert_eq in Htail. simpl in Htail.
    assert (exists f nf t, s' = mkEnum (_root s) (_indices s)
              (<[a := _inOrderCount s]> (_nodeToId s))
              (<[_inOrderCount s := predSoln (mkPred f nf (mkPtr a (MkExpr mt p cs)))]>
                 (_memo s))
              (<[_inOrderCount s := 0]> (_curEnum s)) (S (_inOrderCount s)) (_done s) t)
      as (f & nf & t & ->).
    { destruct (_tagData s !! a) as [[f nf|]|]; simpl in Htail; [|done|];
        injection Htail as _ <-; eauto. }
    simpl in *. rewrite lookup_insert_eq in Hk. injection Hk as <-.
    rewrite lookup_insert_eq in Hsoln. injection Hsoln as <-. by split.
  - intros (indexed & s1 & Hloop & Htail)%bind_Ok Hx.
    apply orLoop_spec in Hloop as (bs & Hcb & ->). simpl in Htail.
    run Htail. rewrite lookup_insert_eq in Htail. simpl in Htail.
    match type of Htail with
    | match ?m ?s with _ => _ end = _ => destruct (m s) as [[subs s2]|] eqn:Hsubs
    end; [|discriminate].
    apply orSubnodes_spec in Hsubs as [-> ->]. simpl in Htail.
    injection Htail as _ <-. simpl in *.
    pose proof (ownKey_lookups a (_nodeToId s1) (_inOrderCount s1)
                  (childSlots a 0 (length cs)) (childSlots_slot a 0 (length cs))) as Hown.
    apply elem_of_app in Hx as [Hx | ->%list_elem_of_singleton].
    + eapply Hchildren; [exact Hcb|exact Hown| |intros y; apply Hsplit|done].
      intros k' Hk'. by rewrite lookup_insert_ne by lia.
    + rewrite (proj1 Hown) in Hk. injection Hk as <-.
      rewrite lookup_insert_eq in Hsoln. injection Hsoln as <-.
      split; [done|]. intros o i c [= <-] Hi. simpl in Hi.
      rewrite list_lookup_fmap in Hi.
      destruct (seq 0 (length cs) !! i) as [j|] eqn:Hseq; [|done].
      apply lookup_seq in Hseq as [-> Hilt]. simpl in Hi. injection Hi as <-. split.
      * apply zeroKeys_lookup_in. apply list_elem_of_fmap. exists i. split; [done|].
        apply elem_of_seq. lia.
      * intros [Hin | Habs%list_elem_of_singleton]%elem_of_app;
          [|by apply snoc_ne in Habs].
        rewrite lookup_insert_ne by (by apply not_eq_sym, snoc_ne).
        apply childBuilds_builtOver in Hcb as (_ & _ & _ & Hcnt & Hn & _).
        apply list_elem_of_lookup in Hin as [idx Hidx].
        rewrite Hn, (assignIds_lookup _ _ _ idx) by (apply children_NoDup || done).
        simpl. apply lookup_lt_Some in Hidx. lia.
  - intros ([subnodes g] & s1 & Hloop & Htail)%bind_Ok Hx.
    apply andLoop_spec in Hloop as (bs & Hcb & ->). simpl in Htail.
    run Htail. rewrite lookup_insert_eq in Htail. simpl in Htail.
    unfold verify in Htail. case_bool_decide; [|discriminate]. run Htail.
    injection Htail as _ <-. simpl in *.
    apply elem_of_app in Hx as [Hx | ->%list_elem_of_singleton].
    + eapply Hchildren; [exact Hcb| | |intros y; apply Hsplit|done].
      * apply (ownKey_lookups a (_nodeToId s1) _ []). by intros y ?%elem_of_nil.
      * intros k' Hk'. by rewrite lookup_insert_ne by lia.
    + rewrite lookup_insert_eq in Hk. injection Hk as <-.
      rewrite lookup_insert_eq in Hsoln. injection Hsoln as <-.
      eapply refsLower_options; [exact Hcb|].
      intros o Ho. case_decide; [|done].
      apply list_elem_of_lookup in Ho as [k Hk]. by eapply swapAt_elem.
  - by intros _ ?%elem_of_nil.
Qed.

Local Abbreviation indexable :=
  (indexable isLogical arrayUsesIndexOnChildren nodeCanUseIndexOnOwnField).

Lemma indexable_unfold tags node a :
  indexable tags node a =
  let kids := overChildren (fun i c => [indexable tags c (a ++ [i])]) (children node) 0 in
  if arrayUsesIndexOnChildren node then existsb id kids
  else if nodeCanUseIndexOnOwnField node then
    match tags !! a with
    | Some (RelevantTag f _) => negb (bool_decide (f = []))
    | _ => false
    end
  else if isLogical node then
    if decide (matchType node = OR) then forallb id kids else existsb id kids
  else false.
Proof. by destruct node. Qed.

Lemma overChildren_ext {B} (f g : nat -> MatchExpression -> list B) cs : forall i0,
  (forall j c, cs !! j = Some c -> f (i0 + j) c = g (i0 + j) c) ->
  overChildren f cs i0 = overChildren g cs i0.
Proof.
  induction cs as [|c cs IH]; intros i0 Hfg; simpl; [done|].
  pose proof (Hfg 0 c eq_refl) as H0. rewrite Nat.add_0_r in H0. rewrite H0. f_equal.
  apply IH. intros j c' Hc'.
  replace (S i0 + j) with (i0 + S j) by lia. by apply Hfg.
Qed.

(** Indexability looks at the tag slots of the subtree only. *)
Lemma indexable_ext node : forall a t t',
  (forall x, a `prefix_of` x -> t' !! x = t !! x) ->
  indexable t' node a = indexable t node a.
Proof.
  induction node as [mt p cs IH] using MatchExpression_ind. intros a t t' Hagree.
  rewrite !indexable_unfold. simpl. rewrite (Hagree a) by done.
  assert (overChildren (fun i c => [indexable t' c (a ++ [i])]) cs 0
          = overChildren (fun i c => [indexable t c (a ++ [i])]) cs 0) as ->; [|done].
  apply overChildren_ext. intros j c Hc. simpl. f_equal.
  rewrite Forall_forall in IH. apply IH; [by eapply list_elem_of_lookup_2|].
  intros x Hx. apply Hagree. etrans; [|exact Hx]. by apply prefix_app_r.
Qed.

Lemma childBuilds_indexable a i cs s bs s' :
  Forall (fun c => forall a s b s',
            prepMemo c a s = Ok (b, s') -> b = indexable (_tagData s) c a) cs ->
  childBuilds a i cs s bs s' ->
  bs = overChildren (fun i c => [indexable (_tagData s) c (a ++ [i])]) cs i.
Proof.
  intros IH Hcb. induction Hcb as [|i c cs s b s1 bs s2 Hc Hcb IHcb]; simpl; [done|].
  apply Forall_cons in IH as [IHc IHcs].
  rewrite (IHc _ _ _ _ Hc), (IHcb IHcs). f_equal.
  apply overChildren_ext. intros j c' Hc'. f_equal. apply indexable_ext.
  intros x Hx. apply prepMemo_builtOver in Hc as (_ & _ & _ & _ & _ & _ & _ & _ & Ht).
  apply Ht. intros Hp. eapply (prefix_snoc_ne a x i (S i + j)); [lia|done..].
Qed.

Lemma optionsOf_nonempty m a i bs : (0 <? length (optionsOf m a i bs)) = existsb id bs.
Proof.
  revert i. induction bs as [|b bs IH]; intros i; [done|]. cbn [optionsOf existsb].
  rewrite length_app. destruct b; simpl; [done|]. apply IH.
Qed.

(** The builder returns the indexability of the node. *)
Theorem prepMemo_indexable node : forall a s b s',
  prepMemo node a s = Ok (b, s') -> b = indexable (_tagData s) node a.
Proof.
  induction node as [mt p cs IH] using MatchExpression_ind. intros a s b s'.
  rewrite prepMemo_unfold, indexable_unfold. simpl.
  destruct (arrayUsesIndexOnChildren _); [|destruct (nodeCanUseIndexOnOwnField _);
    [|destruct (isLogical _); [destruct (decide (mt = OR))|]]].
  - intros (subnodes & s1 & Hloop & Htail)%bind_Ok.
    apply arrayLoop_spec in Hloop as (bs & Hcb & ->). simpl in Htail.
    run Htail. rewrite lookup_insert_eq in Htail. simpl in Htail.
    injection Htail as <- _.
    by rewrite optionsOf_nonempty, (childBuilds_indexable _ _ _ _ _ _ IH Hcb).
  - intros Htail. run Htail. rewrite lookup_insert_eq in Htail. simpl in Htail.
    destruct (_tagData s !! a) as [[f nf|]|]; simpl in Htail; [|done|];
      injection Htail as <- _; [|done].
    by destruct f.
  - intros (indexed & s1 & Hloop & Htail)%bind_Ok.
    apply orLoop_spec in Hloop as (bs & Hcb & ->). simpl in Htail.
    run Htail. rewrite lookup_insert_eq in Htail. simpl in Htail.
    match type of Htail with
    | match ?m ?s with _ => _ end = _ => destruct (m s) as [[subs s2]|] eqn:Hsubs
    end; [|discriminate].
    simpl in Htail. injection Htail as <- _.
    by rewrite (childBuilds_indexable _ _ _ _ _ _ IH Hcb).
  - intros ([subnodes g] & s1 & Hloop & Htail)%bind_Ok.
    apply andLoop_spec in Hloop as (bs & Hcb & ->). simpl in Htail.
    run Htail. rewrite lookup_insert_eq in Htail. simpl in Htail.
    unfold verify in Htail. case_bool_decide; [|discriminate]. run Htail.
    injection Htail as <- _.
    rewrite <- (childBuilds_indexable _ _ _ _ _ _ IH Hcb), <- (optionsOf_nonempty (_nodeToId s1) a 0).
    case_decide; [by rewrite swapAt_length|done].
  - by intros [= <- _].
Qed.

Lemma memoOrder_size node : forall a, length (memoOrder node a) <= treeSize node.
Proof.
  induction node as [mt p cs IH] using MatchExpression_ind. intros a.
  rewrite memoOrder_unfold. simpl.
  assert (Hbelow : forall i,
             length (overChildren (fun i c => memoOrder c (a ++ [i])) cs i)
             <= foldr (fun c n => treeSize c + n) 0 cs).
  { induction IH as [|c cs Hc _ IHcs]; intros i; simpl; [lia|].
    rewrite length_app. specialize (Hc (a ++ [i])). specialize (IHcs (S i)). lia. }
  specialize (Hbelow 0).
  repeat case_match; rewrite ?length_app; simpl; lia.
Qed.

Lemma nodeAt_prefix n a n' a' : nodeAt n a n' a' -> a `prefix_of` a'.
Proof.
  induction 1 as [|n a i c n' a' Hc _ IH]; [done|].
  etrans; [|exact IH]. by apply prefix_app_r.
Qed.

(** *** The builder on well-formed inputs *)

Local Abbreviation wfNode :=
  (wfNode isLogical arrayUsesIndexOnChildren nodeCanUseIndexOnOwnField).
Local Abbreviation wfTree :=
  (wfTree isLogical arrayUsesIndexOnChildren nodeCanUseIndexOnOwnField).
Local Abbreviation leafEntries := (leafEntries nodeCanUseIndexOnOwnField).

Lemma wfTree_unfold node :
  wfTree node = true <->
  wfNode node = true /\ Forall (fun c => wfTree c = true) (children node).
Proof.
  destruct node as [mt p cs]. simpl.
  rewrite andb_true_iff, forallb_forall, Forall_forall.
  split; intros [Hn Hcs]; (split; [done|]); intros c Hc; apply Hcs;
    by apply list_elem_of_In.
Qed.

(** The kinds of a well-formed node, as the builder tells them apart. *)
Lemma wfNode_cases node :
  wfNode node = true ->
  if arrayUsesIndexOnChildren node then nodeCanUseIndexOnOwnField node = false
  else if nodeCanUseIndexOnOwnField node || negb (isLogical node)
       then children node = []
       else matchType node = AND \/ matchType node = OR.
Proof.
  unfold wfNode. intros H1. destruct (arrayUsesIndexOnChildren node).
  - by apply negb_true_iff.
  - destruct (_ || _); by apply bool_decide_eq_true in H1.
Qed.

Lemma forallb_lt (n : nat) (l : list nat) :
  forallb (fun i => i <? n) l = true <-> Forall (fun i => i < n) l.
Proof.
  induction l as [|x l IH]; simpl; [by split; [constructor|]|].
  rewrite andb_true_iff, Forall_cons, IH, Nat.ltb_lt. done.
Qed.

Lemma goodTags_relevant (n : nat) (tags : gmap Addr TagData) x tag :
  relevanceTags n tags -> tags !! x = Some tag ->
  exists f nf, tag = RelevantTag f nf /\ Forall (fun i => i < n) f /\
               Forall (fun i => i < n) nf.
Proof.
  intros Hall Hx. specialize (Hall x tag Hx). simpl in Hall.
  destruct tag as [f nf|]; [|done]. simpl in Hall.
  apply andb_true_iff in Hall as [Hf Hnf]. rewrite !forallb_lt in *. eauto.
Qed.

(** The builder ends on a well-formed tree with relevance tags, and keeps
    the tags and the [first] lists of the memo within the catalog. *)
Theorem prepMemo_total (n : nat) node : forall a s,
  wfTree node = true ->
  relevanceTags n (_tagData s) -> validFirst n (_memo s) ->
  exists b s', prepMemo node a s = Ok (b, s') /\
               relevanceTags n (_tagData s') /\ validFirst n (_memo s').
Proof.
  induction node as [mt p cs IH] using MatchExpression_ind. intros a s Hwf Htags Hmemo.
  apply wfTree_unfold in Hwf as [Hnode Hcs]. simpl in Hcs.
  assert (Hchild : forall i c s1,
             cs !! i = Some c ->
             relevanceTags n (_tagData s1) /\ validFirst n (_memo s1) ->
             exists b s2, prepMemo c (a ++ [i]) s1 = Ok (b, s2) /\
                          relevanceTags n (_tagData s2) /\ validFirst n (_memo s2)).
  { intros i c s1 Hc [Ht Hm]. rewrite Forall_forall in IH, Hcs.
    pose proof (list_elem_of_lookup_2 _ _ _ Hc) as Hin. by apply IH; [|apply Hcs|..]. }
  assert (Hinsert : forall (memo : gmap nat NodeSolution) k soln,
             validFirst n memo -> (forall p0, pred soln = Some p0 ->
                                              Forall (fun i => i < n) (first p0)) ->
             validFirst n (<[k := soln]> memo)).
  { intros memo k soln Hv Hsoln id soln' p0 Hlook Hp0.
    destruct (decide (k = id)) as [->|Hne].
    - rewrite lookup_insert_eq in Hlook. injection Hlook as <-. by apply Hsoln.
    - rewrite lookup_insert_ne in Hlook by done. by eapply Hv. }
  apply wfNode_cases in Hnode. rename Hnode into Hkind. simpl in Hkind.
  rewrite prepMemo_unfold. simpl.
  destruct (arrayUsesIndexOnChildren _); [|destruct (nodeCanUseIndexOnOwnField _);
    [|destruct (isLogical _); [destruct (decide (mt = OR)) as [->|Hne]|]]];
    simpl in Hkind.
  - unfold arrayLoop.
    edestruct (forChildren_total (A := list (list nat)))
      with (I := fun (_ : nat) (_ : list (list nat)) s1 =>
                   relevanceTags n (_tagData s1) /\ validFirst n (_memo s1))
      as (subnodes & s1 & Hloop & Ht1 & Hm1); [| |erewrite (bind_run _ _ _ _ _ Hloop)].
    { split; [exact Htags|exact Hmemo]. }
    { intros i c acc s1 Hc HI. destruct (Hchild i c s1 Hc HI) as (b & s2 & Hrun & HI2).
      rewrite (bind_run _ _ _ _ _ Hrun).
      destruct b; [rewrite (bind_run _ _ _ _ _ (nodeToId_run _ _))|]; run_goal; eauto. }
    run_goal. rewrite lookup_insert_eq. simpl. eexists _, _. split; [done|]. simpl.
    split; [done|]. by apply Hinsert.
  - run_goal. rewrite lookup_insert_eq. simpl.
    destruct (_tagData s !! a) as [tag|] eqn:Htag.
    + destruct (goodTags_relevant n _ _ _ Htags Htag) as (f & nf & -> & Hf & Hnf).
      simpl. eexists _, _. split; [done|]. simpl. split.
      * by apply map_Forall_insert_2.
      * apply Hinsert; [done|]. by intros p0 [= <-].
    + simpl. eexists _, _. split; [done|]. simpl. split; [done|].
      apply Hinsert; [done|]. by intros p0 [= <-].
  - unfold orLoop.
    edestruct (forChildren_total (A := bool))
      with (I := fun (_ : nat) (_ : bool) s1 =>
                   relevanceTags n (_tagData s1) /\ validFirst n (_memo s1))
      as (indexed & s1 & Hloop & Ht1 & Hm1); [| |erewrite (bind_run _ _ _ _ _ Hloop)].
    { split; [exact Htags|exact Hmemo]. }
    { intros i c acc s1 Hc HI. destruct (Hchild i c s1 Hc HI) as (b & s2 & Hrun & HI2).
      rewrite (bind_run _ _ _ _ _ Hrun). run_goal. eauto. }
    run_goal. rewrite lookup_insert_eq. simpl. unfold orSubnodes.
    match goal with
    | |- context [forChildren ?body cs 0 [] ?st] =>
        destruct (forChildren_total body
                    (fun _ _ s2 => _tagData s2 = _tagData st /\ _memo s2 = _memo st)
                    cs [] st)
          as (subs & s2 & Hsubs & Ht2 & Hm2); [done| |rewrite Hsubs]
    end.
    { intros i c acc s2 _ [Ht2 Hm2]. rewrite (bind_run _ _ _ _ _ (nodeToId_run _ _)).
      run_goal. eauto. }
    simpl in *. eexists _, _. split; [done|]. simpl. rewrite Ht2, Hm2.
    split; [done|]. by apply Hinsert.
  - assert (mt = AND) as -> by (by destruct Hkind). unfold andLoop.
    edestruct (forChildren_total (A := list (list nat) * N))
      with (I := fun (_ : nat) (_ : list (list nat) * N) s1 =>
                   relevanceTags n (_tagData s1) /\ validFirst n (_memo s1))
      as ([subnodes g] & s1 & Hloop & Ht1 & Hm1); [| |erewrite (bind_run _ _ _ _ _ Hloop)].
    { split; [exact Htags|exact Hmemo]. }
    { intros i c [acc g] s1 Hc HI.
      destruct (Hchild i c s1 Hc HI) as (b & s2 & Hrun & HI2).
      rewrite (bind_run _ _ _ _ _ Hrun).
      destruct b; [rewrite (bind_run _ _ _ _ _ (nodeToId_run _ _))|]; run_goal; [|eauto].
      destruct (_memo s2 !! _) as [[[p'|] ? ?]|]; [case_decide|..]; eauto. }
    run_goal. rewrite lookup_insert_eq. simpl. eexists _, _. split; [done|]. simpl.
    split; [done|]. by apply Hinsert.
  - run_goal. eauto.
Qed.

Lemma leafEntry_keeps a s s' x :
  keeps a s s' -> a `prefix_of` x -> leafEntry s x -> leafEntry s' x.
Proof.
  intros (Hn & Hm & Hc) Hpre (id & soln & p & Hid & Hlt & Hsoln & Hp & Hx).
  exists id, soln, p. split_and!; try done.
  - by rewrite Hn.
  - lia.
  - by rewrite (proj1 (Hm id Hlt)).
Qed.

(** After the builder, every node of a well-formed tree that is indexable
    on its own field has a predicate entry, which points to the node. *)
Theorem prepMemo_leafEntries node : forall a s b s',
  wfTree node = true -> prepMemo node a s = Ok (b, s') -> leafEntries s' node a.
Proof.
  induction node as [mt p cs IH] using MatchExpression_ind. intros a s b s' Hwf Hrun.
  apply wfTree_unfold in Hwf as [Hnode Hcs]. simpl in Hcs.
  apply wfNode_cases in Hnode. rename Hnode into Hkind. simpl in Hkind.
  assert (Hbelow : forall bs s1 s2,
             childBuilds a 0 cs s bs s1 ->
             (forall y k, y <> a -> _nodeToId s1 !! y = Some k ->
                          _nodeToId s2 !! y = Some k) ->
             (forall k, k < _inOrderCount s1 -> _memo s2 !! k = _memo s1 !! k) ->
             _inOrderCount s2 = S (_inOrderCount s1) ->
             forall i c n' x, cs !! i = Some c -> nodeAt c (a ++ [i]) n' x ->
                              nodeCanUseIndexOnOwnField n' = true -> leafEntry s2 x).
  { intros bs s1 s2 Hcb Hn Hm Hc i c n' x Hi Hat Hown.
    destruct (childBuilds_lookup _ _ _ _ _ _ _ _ Hcb Hi) as (b' & t1 & t2 & _ & Hb & _ & Hk).
    simpl in Hb, Hk. rewrite Forall_forall in IH, Hcs.
    pose proof (list_elem_of_lookup_2 _ _ _ Hi) as Hin.
    pose proof (IH c Hin _ _ _ _ (Hcs c Hin) Hb n' x Hat Hown) as Hleaf.
    pose proof (nodeAt_prefix _ _ _ _ Hat) as Hpre.
    apply (leafEntry_keeps _ _ _ _ Hk Hpre) in Hleaf
      as (id & soln & p' & Hid & Hlt & Hsoln & Hp & Hx).
    exists id, soln, p'. split_and!; try done.
    - apply Hn; [|done]. intros ->.
      apply prefix_length in Hpre. rewrite length_app in Hpre. simpl in Hpre. lia.
    - lia.
    - by rewrite Hm. }
  intros n' x Hat Hown.
  destruct (arrayUsesIndexOnChildren (MkExpr mt p cs)) eqn:Harr.
  - destruct (prepMemo_inner _ _ _ _ _ Hrun) as (bs & s1 & Hcb & (_ & Hn & _) & Hm & Hc & _);
      [by left|].
    inversion Hat as [|? ? i c ? ? Hi Hat']; subst; [congruence|].
    by eapply Hbelow.
  - destruct (nodeCanUseIndexOnOwnField (MkExpr mt p cs)) eqn:Hnode.
    + simpl in Hkind. subst cs.
      inversion Hat as [|? ? i c ? ? Hi Hat']; subst; [|done].
      rewrite prepMemo_unfold, Harr, Hnode in Hrun. run Hrun.
      rewrite lookup_insert_eq in Hrun. simpl in Hrun.
      destruct (_tagData s !! x) as [[f nf|]|]; simpl in Hrun;
        [|discriminate|]; injection Hrun as <- <-;
        eexists _, _, _; simpl; split_and!;
        try apply lookup_insert_eq; try done; lia.
    + destruct (isLogical (MkExpr mt p cs)) eqn:Hlog; simpl in Hkind.
      * destruct (prepMemo_inner _ _ _ _ _ Hrun) as (bs & s1 & Hcb & (_ & Hn & _) & Hm & Hc & _);
          [by right|].
        inversion Hat as [|? ? i c ? ? Hi Hat']; subst; [congruence|].
        by eapply Hbelow.
      * subst cs. inversion Hat as [|? ? i c ? ? Hi Hat']; subst; [congruence|done].
Qed.

End Builder.

(** ** The tagger *)

Section Tagger.

Ltac run H :=
  unfold bind, ret, fail, gets, modify, postIncrement, set_nodeToId, set_memo,
    set_curEnum, set_inOrderCount, set_done, nodeToId, memoAt, curEnum, getTag,
    setTag, set_tagData in H; simpl in H.
Ltac run_goal :=
  unfold bind, ret, fail, gets, modify, postIncrement, set_nodeToId, set_memo,
    set_curEnum, set_inOrderCount, set_done, nodeToId, memoAt, curEnum, getTag,
    setTag, set_tagData; simpl.

Lemma onlyTags_refl s : onlyTags s s.
Proof. by unfold onlyTags. Qed.

Lemma onlyTags_trans s1 s2 s3 : onlyTags s1 s2 -> onlyTags s2 s3 -> onlyTags s1 s3.
Proof. unfold onlyTags. intros ? ?. split_and!; destruct_and!; congruence. Qed.

Lemma forEach_total {A} (body : A -> M unit) (I : nat -> PlanEnumerator -> Prop) l :
  forall s,
    I 0 s ->
    (forall i x s, l !! i = Some x -> I i s ->
                   exists s', body x s = Ok (tt, s') /\ I (S i) s') ->
    exists s', forEach body l s = Ok (tt, s') /\ I (length l) s'.
Proof.
  revert I. induction l as [|x l IH]; intros I s HI Hbody; simpl.
  - by exists s.
  - destruct (Hbody 0 x s) as (s1 & Hx & HI1); [done..|].
    destruct (IH (fun i => I (S i)) s1 HI1) as (s' & Hrun & HI').
    + intros i y s2 Hy. by apply (Hbody (S i)).
    + exists s'. split; [|done]. apply bind_Ok. eauto.
Qed.

Lemma forEach_inv {A} (body : A -> M unit) (I : nat -> PlanEnumerator -> Prop) l :
  forall s u s',
    forEach body l s = Ok (u, s') ->
    I 0 s ->
    (forall i x s u s', l !! i = Some x -> I i s -> body x s = Ok (u, s') -> I (S i) s') ->
    I (length l) s'.
Proof.
  revert I. induction l as [|x l IH]; intros I s u s' Hrun HI Hbody; simpl in *.
  - by injection Hrun as _ <-.
  - apply bind_Ok in Hrun as (u1 & s1 & Hx & Hrun).
    apply (IH (fun i => I (S i)) s1 u s' Hrun).
    + by apply (Hbody 0 x s u1).
    + intros i y s2 u2 s3 Hy. by apply (Hbody (S i)).
Qed.

Lemma oneTagged_untagged tags node a :
  (forall x l k, x = a ++ l ++ [k] -> tags !! x = None) -> oneTagged tags node a.
Proof.
  intros Hnone n' a' k1 k2 [l ->]%nodeAt_prefix _ [t Ht] _.
  rewrite (Hnone ((a ++ l) ++ [k1]) l k1) in Ht; [done|]. by rewrite <- app_assoc.
Qed.

Lemma oneTagged_ext tags tags' node a :
  (forall x, a `prefix_of` x -> tags' !! x = tags !! x) ->
  oneTagged tags node a -> oneTagged tags' node a.
Proof.
  intros Hagree Hone n' a' k1 k2 Hat Hand H1 H2.
  pose proof (nodeAt_prefix _ _ _ _ Hat) as Hpre.
  rewrite Hagree in H1, H2 by (etrans; [exact Hpre|by apply prefix_app_r]).
  by eapply Hone.
Qed.

(** From an entry that stands for an indexable node the tagger runs to
    the end when the slots below the node are empty; it writes below the
    node only, and below one child of each conjunction at most. *)
Theorem tagMemo_built memo cur node a id :
  built memo cur node a id ->
  forall fuel s,
    id < fuel -> _memo s = memo -> _curEnum s = cur ->
    (forall x, a `prefix_of` x -> _tagData s !! x = None) ->
    exists s', tagMemo fuel id s = Ok (tt, s') /\ onlyTags s s' /\
               (forall x, ~ a `prefix_of` x -> _tagData s' !! x = _tagData s !! x) /\
               oneTagged (_tagData s') node a.
Proof.
  induction 1 as [node a id soln p index Hm Hp Ha Hc Hf
                 |node a id soln o Hm Hp Ho Hmt Hlt Hch _ IH
                 |node a id soln an cid i c Hm Hp Ho Han Hc Hopt Hch Hlt _ IH];
    intros fuel s Hfuel Hmemo Hcur Hempty;
    (destruct fuel as [|fuel]; [lia|]); simpl; run_goal;
    rewrite Hmemo, Hm, Hp.
  - rewrite Ha, (Hempty a) by done. simpl.
    destruct (first p) as [|ix rest] eqn:Hfirst; [done|]. simpl.
    rewrite Hcur, Hc. simpl. eexists. split_and!; [done|done| |].
    + simpl. intros x Hx. rewrite lookup_insert_ne; [done|]. by intros ->.
    + simpl. apply oneTagged_untagged. intros x l k ->.
      rewrite lookup_insert_ne.
      * apply Hempty. by eexists.
      * intros H%(f_equal length). rewrite !length_app in H. simpl in H. lia.
  - rewrite Ho.
    destruct (forEach_total (tagMemo fuel)
                (fun i s1 => onlyTags s s1 /\
                   (forall x, (forall j, j < i -> ~ (a ++ [j]) `prefix_of` x) ->
                              _tagData s1 !! x = _tagData s !! x) /\
                   (forall j c, j < i -> children node !! j = Some c ->
                                oneTagged (_tagData s1) c (a ++ [j])))
                (or_subnodes o) s) as (s' & Hrun & Hs' & Htags & Hone).
    + split_and!; [apply onlyTags_refl|done|]. intros j c Hj. lia.
    + intros j cid s1 Hcid (Hs1 & Htags1 & Hone1).
      destruct (Hch j cid Hcid) as [c Hcj].
      destruct (IH j cid c Hcid Hcj fuel s1) as (s2 & Hrun & Hs2 & Htags2 & Hone2).
      * specialize (Hlt j cid Hcid). lia.
      * destruct Hs1 as (_ & _ & _ & -> & _). done.
      * destruct Hs1 as (_ & _ & _ & _ & -> & _). done.
      * intros x Hx. rewrite Htags1.
        -- apply Hempty. etrans; [|exact Hx]. by apply prefix_app_r.
        -- intros j' Hj' Hx'. by apply (prefix_snoc_ne a x j j'); [lia|..].
      * exists s2. split_and!; [done|by eapply onlyTags_trans| |].
        -- intros x Hx. destruct (decide ((a ++ [j]) `prefix_of` x)) as [Hp'|Hp'].
           ++ exfalso. apply (Hx j); [lia|done].
           ++ rewrite Htags2 by done. apply Htags1. intros j' Hj'. apply Hx. lia.
        -- intros j' c' Hj' Hc'. destruct (decide (j' = j)) as [->|Hne].
           ++ by assert (c' = c) as -> by congruence.
           ++ eapply oneTagged_ext; [|apply (Hone1 j' c'); [lia|done]].
              intros x Hx. apply Htags2. intros Hx'.
              by apply (prefix_snoc_ne a x j j').
    + exists s'. split_and!; [done|done| |].
      * intros x Hx. apply Htags. intros j _ Hp'. apply Hx.
        etrans; [|exact Hp']. by apply prefix_app_r.
      * intros n' a' k1 k2 Hat Hand H1 H2.
        inversion Hat as [|? ? j c ? ? Hcj Hat']; subst.
        { congruence. }
        destruct (decide (j < length (or_subnodes o))) as [Hj|Hj].
        -- by eapply (Hone j c Hj Hcj).
        -- pose proof (nodeAt_prefix _ _ _ _ Hat') as Hpre.
           destruct H1 as [t Ht]. rewrite Htags in Ht.
           ++ rewrite Hempty in Ht; [done|].
              etrans; [|etrans; [exact Hpre|by apply prefix_app_r]]. by apply prefix_app_r.
           ++ intros j' Hj' Hx. apply (prefix_snoc_ne a (a' ++ [k1]) j j'); [lia| |done].
              etrans; [exact Hpre|]. by apply prefix_app_r.
  - rewrite Ho, Han, Hcur, Hc. simpl. rewrite Hopt. simpl.
    destruct (IH fuel s) as (s' & Hrun & Hs' & Htags & Hone); [lia|done|done| |].
    { intros x Hx. apply Hempty. etrans; [|exact Hx]. by apply prefix_app_r. }
    unfold bind. rewrite Hrun. exists s'. split_and!; [done|done| |].
    + intros x Hx. apply Htags. intros Hp'. apply Hx.
      etrans; [|exact Hp']. by apply prefix_app_r.
    + assert (Hin : forall x, is_Some (_tagData s' !! x) -> a `prefix_of` x ->
                              (a ++ [i]) `prefix_of` x).
      { intros x [t Ht] Hx. destruct (decide ((a ++ [i]) `prefix_of` x)); [done|].
        rewrite Htags, Hempty in Ht; done. }
      intros n' a' k1 k2 Hat Hand H1 H2.
      inversion Hat as [|? ? j c' ? ? Hcj Hat']; subst.
      * apply Hin in H1; [|by apply prefix_app_r]. apply Hin in H2; [|by apply prefix_app_r].
        destruct H1 as [l1 H1], H2 as [l2 H2]. rewrite <- !app_assoc in H1, H2.
        apply app_inv_head in H1, H2. simpl in H1, H2. congruence.
      * pose proof (nodeAt_prefix _ _ _ _ Hat') as Hpre.
        assert (j = i) as ->.
        { destruct (decide (j = i)); [done|]. exfalso.
          apply (prefix_snoc_ne a (a' ++ [k1]) j i); [done| |].
          - etrans; [exact Hpre|]. by apply prefix_app_r.
          - apply Hin; [done|]. etrans; [|etrans; [exact Hpre|by apply prefix_app_r]].
            by apply prefix_app_r. }
        assert (c' = c) as -> by congruence. by eapply Hone.
Qed.

Lemma taggedFirst_onlyTags s s' x tag :
  onlyTags s s' -> taggedFirst s' x tag -> taggedFirst s x tag.
Proof.
  intros (_ & _ & _ & Hm & Hc & _) (id & soln & p & index & H).
  exists id, soln, p, index. by rewrite <- Hm, <- Hc.
Qed.

(** A call on a predicate entry: the node must be untagged; it gets the
    first-column tag of the index under the cursor, or nothing when
    [first] is empty. *)
Lemma tagMemo_pred fuel id s soln p u s' :
  _memo s !! id = Some soln -> pred soln = Some p ->
  tagMemo fuel id s = Ok (u, s') ->
  _tagData s !! addr (expr p) = None /\
  match first p !! default 0 (_curEnum s !! id) with
  | Some index =>
      s' = withTags s (<[addr (expr p) := IndexTag index 0]> (_tagData s))
  | None => first p = [] /\ s' = s
  end.
Proof.
  intros Hm Hp. destruct fuel as [|fuel]; [done|]. simpl. run_goal.
  rewrite Hm, Hp. destruct (_tagData s !! addr (expr p)) eqn:Htag; simpl; [done|].
  destruct (first p) as [|ix rest] eqn:Hfirst; simpl.
  - intros [= _ <-]. done.
  - rewrite <- Hfirst.
    destruct (first p !! default 0 (_curEnum s !! id)); [|done].
    by intros [= _ <-].
Qed.

(** Every tag the tagger writes is one of [taggedFirst], on a node that
    was untagged. *)
Lemma tagMemo_grows fuel : forall id s u s',
  tagMemo fuel id s = Ok (u, s') ->
  onlyTags s s' /\ tagsGrow (taggedFirst s) (_tagData s) (_tagData s').
Proof.
  induction fuel as [|fuel IH]; intros id s u s' Hrun; [done|].
  assert (Hloop : forall l u s',
             forEach (tagMemo fuel) l s = Ok (u, s') ->
             onlyTags s s' /\ tagsGrow (taggedFirst s) (_tagData s) (_tagData s')).
  { intros l u1 s1 Hl.
    apply (forEach_inv (tagMemo fuel)
             (fun _ s2 => onlyTags s s2 /\
                          tagsGrow (taggedFirst s) (_tagData s) (_tagData s2))
             l s u1 s1 Hl).
    - split; [apply onlyTags_refl|]. intros x. by left.
    - intros i cid s2 u2 s3 _ [Hs2 Hg2] Hbody. apply IH in Hbody as [Hs3 Hg3].
      split; [by eapply onlyTags_trans|].
      intros x. destruct (Hg3 x) as [->|(Hn & tag & Ht & HQ)]; [apply Hg2|].
      destruct (Hg2 x) as [Heq|(_ & tag' & Ht' & _)]; [|congruence].
      right. split; [congruence|]. exists tag. split; [done|].
      by eapply taggedFirst_onlyTags. }
  destruct (_memo s !! id) as [soln|] eqn:Hm.
  2:{ simpl in Hrun. run Hrun. by rewrite Hm in Hrun. }
  destruct (pred soln) as [p|] eqn:Hp.
  - destruct (tagMemo_pred _ _ _ _ _ _ _ Hm Hp Hrun) as [Hnone Hres].
    destruct (first p !! default 0 (_curEnum s !! id)) as [index|] eqn:Hix.
    + subst s'. split; [done|]. simpl. intros x.
      destruct (decide (x = addr (expr p))) as [->|Hne].
      * right. split; [done|]. rewrite lookup_insert_eq. eexists. split; [done|].
        exists id, soln, p, index. split_and!; try done.
        by eapply list_elem_of_lookup_2.
      * left. by rewrite lookup_insert_ne.
    + destruct Hres as [_ ->]. split; [apply onlyTags_refl|]. intros x. by left.
  - simpl in Hrun. run Hrun. rewrite Hm, Hp in Hrun.
    destruct (orSolution soln) as [o|]; [by eapply Hloop|].
    destruct (andSolution soln) as [an|]; [|done].
    destruct (and_subnodes an !! _); [by eapply Hloop|done].
Qed.

Lemma forEach_split {A} (body : A -> M unit) (R : PlanEnumerator -> PlanEnumerator -> Prop) l :
  (forall s, R s s) ->
  (forall s1 s2 s3, R s1 s2 -> R s2 s3 -> R s1 s3) ->
  (forall x s u s', body x s = Ok (u, s') -> R s s') ->
  forall s u s' x,
    forEach body l s = Ok (u, s') -> x ∈ l ->
    exists s1 u1 s2, R s s1 /\ body x s1 = Ok (u1, s2) /\ R s2 s'.
Proof.
  intros Hrefl Htrans Hstep.
  assert (Hall : forall l s u s', forEach body l s = Ok (u, s') -> R s s').
  { clear l. induction l as [|y l IH]; intros s u s' Hrun; simpl in Hrun.
    - injection Hrun as _ <-. apply Hrefl.
    - apply bind_Ok in Hrun as (u1 & s1 & Hy & Hrun). eauto. }
  induction l as [|y l IH]; intros s u s' x Hrun Hx; [by apply elem_of_nil in Hx|].
  simpl in Hrun. apply bind_Ok in Hrun as (u1 & s1 & Hy & Hrun).
  apply elem_of_cons in Hx as [->|Hx].
  - exists s, u1, s1. split_and!; [apply Hrefl|done|by eapply Hall].
  - destruct (IH _ _ _ _ Hrun Hx) as (s2 & u2 & s3 & HR & Hb & HR').
    exists s2, u2, s3. split_and!; [|done..]. eapply Htrans; [|exact HR]. eauto.
Qed.

Lemma reaches_agree s s' id id' :
  _memo s' = _memo s -> _curEnum s' = _curEnum s -> reaches s id id' -> reaches s' id id'.
Proof.
  intros Hm Hc. induction 1.
  - constructor.
  - eapply reaches_or; eauto. by rewrite Hm.
  - eapply reaches_and; eauto; by rewrite ?Hm, ?Hc.
Qed.

Lemma reaches_onlyTags s s' id id' : onlyTags s s' -> reaches s id id' -> reaches s' id id'.
Proof.
  intros (_ & _ & _ & Hm & Hc & _). induction 1.
  - constructor.
  - eapply reaches_or; eauto. by rewrite Hm.
  - eapply reaches_and; eauto; by rewrite ?Hm, ?Hc.
Qed.

(** Every predicate entry the tagger reaches with a non-empty [first]
    list has its node tagged, when the tagger returns, with the index
    under the cursor at position 0. *)
Lemma tagMemo_reaches fuel : forall id s u s' id' soln p index,
  tagMemo fuel id s = Ok (u, s') ->
  reaches s id id' ->
  _memo s !! id' = Some soln -> pred soln = Some p ->
  first p !! default 0 (_curEnum s !! id') = Some index ->
  _tagData s' !! addr (expr p) = Some (IndexTag index 0).
Proof.
  induction fuel as [|fuel IH]; intros id s u s' id' soln p index Hrun Hreach Hm Hp Hix;
    [done|].
  assert (Hloop : forall l cid u s',
             forEach (tagMemo fuel) l s = Ok (u, s') -> cid ∈ l -> reaches s cid id' ->
             _tagData s' !! addr (expr p) = Some (IndexTag index 0)).
  { intros l cid u1 s1 Hl Hcid Hr.
    destruct (forEach_split (tagMemo fuel)
                (fun s1 s2 => onlyTags s1 s2 /\
                   tagsGrow (fun _ _ => True) (_tagData s1) (_tagData s2)) l)
      with (s := s) (u := u1) (s' := s1) (x := cid)
      as (s2 & u2 & s3 & [Hs2 _] & Hb & [_ Hg3]); try done.
    - intros s0. split; [apply onlyTags_refl|]. intros x. by left.
    - intros sa sb sc [? Hab] [? Hbc]. split; [by eapply onlyTags_trans|].
      intros x. destruct (Hbc x) as [->|(Hn & tag & Ht & _)]; [apply Hab|].
      destruct (Hab x) as [Heq|(_ & tag' & Ht' & _)]; [|congruence].
      right. split; [congruence|eauto].
    - intros x s0 u0 s0' [? Hg]%tagMemo_grows. split; [done|].
      intros y. destruct (Hg y) as [?|(? & tag & ? & _)]; [by left|right; eauto].
    - pose proof Hs2 as (_ & _ & _ & Hm2 & Hc2 & _).
      assert (_tagData s3 !! addr (expr p) = Some (IndexTag index 0)) as Ht.
      { eapply IH; [exact Hb|by eapply reaches_onlyTags|by rewrite Hm2|done|
                    by rewrite Hc2]. }
      destruct (Hg3 (addr (expr p))) as [->|[? _]]; congruence. }
  inversion Hreach as [|? soln0 o cid ? Hm0 Hp0 Ho0 Hcid Hr|
                       ? soln0 an cur cid ? Hm0 Hp0 Ho0 Han0 Hcur0 Hcid Hr]; subst.
  - destruct (tagMemo_pred _ _ _ _ _ _ _ Hm Hp Hrun) as [_ Hres].
    rewrite Hix in Hres. subst s'. simpl. by rewrite lookup_insert_eq.
  - simpl in Hrun. run Hrun. rewrite Hm0, Hp0, Ho0 in Hrun. by eapply Hloop.
  - simpl in Hrun. run Hrun. rewrite Hm0, Hp0, Ho0, Han0, Hcur0 in Hrun.
    by eapply Hloop.
Qed.

Lemma forEach_Err {A} (body : A -> M unit) l : forall s e,
  forEach body l s = Err e -> exists x s1, x ∈ l /\ body x s1 = Err e.
Proof.
  induction l as [|x l IH]; intros s e Hrun; simpl in Hrun; [done|].
  apply bind_Err in Hrun as [Hx | (u & s1 & _ & Hrun)].
  - exists x, s. split; [by left|done].
  - apply IH in Hrun as (y & s2 & Hy & Hb). exists y, s2. split; [by right|done].
Qed.

End Tagger.

(** ** The compound completer *)

Section Completer.

Variable arrayUsesIndexOnChildren : MatchExpression -> bool.
Variable nodeCanUseIndexOnOwnField : MatchExpression -> bool.

Local Abbreviation partitionChildren := (partitionChildren nodeCanUseIndexOnOwnField).
Local Abbreviation checkCompound :=
  (checkCompound arrayUsesIndexOnChildren nodeCanUseIndexOnOwnField).

Ltac run H :=
  unfold bind, ret, fail, gets, modify, memoAt, curEnum, getTag,
    setTag, set_tagData in H; simpl in H.

Lemma append_empty_r (x : string) : x +:+ "" = x.
Proof.
  induction x as [|c x IH]; [done|].
  change (String c (x +:+ "") = String c x). by f_equal.
Qed.

Lemma append_assoc_string (x y z : string) : (x +:+ y) +:+ z = x +:+ y +:+ z.
Proof.
  induction x as [|c x IH]; [done|].
  change (String c ((x +:+ y) +:+ z) = String c (x +:+ y +:+ z)). by f_equal.
Qed.

(** *** States that differ in tags and in keys the reads have inserted *)

Lemma tagsAndReads_refl (K : Addr -> Prop) s : tagsAndReads K s s.
Proof. unfold tagsAndReads. split_and!; try done. apply zerosAdded_refl. Qed.

Lemma tagsAndReads_trans (K : Addr -> Prop) s1 s2 s3 :
  tagsAndReads K s1 s2 -> tagsAndReads K s2 s3 -> tagsAndReads K s1 s3.
Proof.
  intros (? & ? & Hn & ? & ? & ? & ?) (? & ? & Hn' & ? & ? & ? & ?).
  unfold tagsAndReads. split_and!; try congruence. by eapply zerosAdded_trans.
Qed.

Lemma tagsAndReads_mono (K K' : Addr -> Prop) s s' :
  (forall x, K x -> K' x) -> tagsAndReads K s s' -> tagsAndReads K' s s'.
Proof.
  intros HK (? & ? & Hn & ? & ? & ? & ?). unfold tagsAndReads. split_and!; try done.
  by eapply zerosAdded_mono.
Qed.

Lemma onlyTags_reads (K : Addr -> Prop) s s' : onlyTags s s' -> tagsAndReads K s s'.
Proof.
  intros (? & ? & Hn & ? & ? & ? & ?). unfold tagsAndReads. split_and!; try done.
  rewrite Hn. apply zerosAdded_refl.
Qed.

Lemma tagsAndReads_withTags (K : Addr -> Prop) s s' t :
  tagsAndReads K s s' -> tagsAndReads K s (withTags s' t).
Proof. done. Qed.

Lemma tagsAndReads_read (K : Addr -> Prop) s a :
  K a -> tagsAndReads K s (withIds s (zeroKey a (_nodeToId s))).
Proof.
  intros Ha. unfold tagsAndReads. simpl. split_and!; try done.
  by apply zerosAdded_zeroKey.
Qed.

(** When the keys that are read are there, only the tags differ. *)
Lemma tagsAndReads_exact (K : Addr -> Prop) s s' :
  tagsAndReads K s s' -> (forall x, K x -> is_Some (_nodeToId s !! x)) ->
  s' = withTags s (_tagData s').
Proof.
  intros (Hr & Hi & Hn & Hm & Hc & Hk & Hd) HK.
  apply (zerosAdded_same _ _ _ Hn) in HK.
  destruct s, s'. simpl in *. by subst.
Qed.

Lemma entryOf_reads (K : Addr -> Prop) s s' a :
  tagsAndReads K s s' -> entryOf s' a = entryOf s a.
Proof.
  intros (_ & _ & Hn & Hm & _). unfold entryOf.
  by rewrite Hm, (zerosAdded_default _ _ _ _ Hn).
Qed.

Lemma compoundColumn_reads (K : Addr -> Prop) s s' prefix u index pos :
  tagsAndReads K s s' -> compoundColumn s' prefix u index pos ->
  compoundColumn s prefix u index pos.
Proof.
  intros Hs (Hpos & He & Hp). pose proof Hs as (_ & Hi & _).
  unfold compoundColumn. rewrite <- Hi, <- (entryOf_reads K s s') by done. done.
Qed.

Lemma candidate_reads (K : Addr -> Prop) s s' prefix fieldName index u :
  tagsAndReads K s s' -> _tagData s' = _tagData s ->
  candidate s' prefix fieldName index u <-> candidate s prefix fieldName index u.
Proof.
  intros Hs Ht. unfold candidate. by rewrite Ht, (entryOf_reads K s s').
Qed.

Lemma entryOf_onlyTags s s' a : onlyTags s s' -> entryOf s' a = entryOf s a.
Proof. intros H. by apply (entryOf_reads (fun _ => True)), onlyTags_reads. Qed.

Lemma compoundColumn_onlyTags s s' prefix u index pos :
  onlyTags s s' -> compoundColumn s' prefix u index pos -> compoundColumn s prefix u index pos.
Proof. intros H. by apply (compoundColumn_reads (fun _ => True)), onlyTags_reads. Qed.

Lemma onlyTags_withTags s t : onlyTags s (withTags s t).
Proof. by unfold onlyTags. Qed.

(** *** The steps of the completer *)

(** The read of the entry of a node inserts the key of the node in
    [_nodeToId] when it is not there. *)
Lemma predOf_Ok l1 l2 a s p s' :
  predOf l1 l2 a s = Ok (p, s') <->
  s' = withIds s (zeroKey a (_nodeToId s)) /\ entryOf s a = Some p.
Proof.
  unfold predOf. rewrite (bind_run _ _ _ _ _ (nodeToId_run a s)).
  unfold entryOf, bind, memoAt, gets. simpl.
  destruct (_memo s !! _) as [soln|]; simpl; [destruct (pred soln)|];
    unfold ret, fail; split; try discriminate; try (by intros [_ ?]).
  - by intros [= <- <-].
  - by intros [-> [= <-]].
Qed.

Lemma predOf_present l1 l2 a s p s' :
  is_Some (_nodeToId s !! a) ->
  predOf l1 l2 a s = Ok (p, s') <-> s' = s /\ entryOf s a = Some p.
Proof. intros H. by rewrite predOf_Ok, zeroKey_present, withIds_same. Qed.

Lemma predOf_Err l1 l2 a s e :
  predOf l1 l2 a s = Err e -> e = VerifyFailed l1 \/ e = VerifyFailed l2.
Proof.
  unfold predOf. rewrite (bind_run _ _ _ _ _ (nodeToId_run a s)).
  unfold bind, memoAt, gets. simpl.
  destruct (_memo s !! _) as [soln|]; simpl; [destruct (pred soln)|];
    unfold ret, fail; intros [= <-]; auto.
Qed.

Lemma indexAt_Ok idx s e s' :
  indexAt idx s = Ok (e, s') <-> s' = s /\ _indices s !! idx = Some e.
Proof.
  unfold indexAt, bind, gets. simpl. destruct (_indices s !! idx); unfold ret, fail;
    split; try discriminate; try (by intros [_ ?]).
  - by intros [= <- <-].
  - by intros [-> [= <-]].
Qed.

Lemma indexAt_Err idx s e : indexAt idx s = Err e -> e = OutOfRange.
Proof.
  unfold indexAt, bind, gets. simpl. destruct (_indices s !! idx); unfold ret, fail;
    by intros [= <-].
Qed.

Lemma indexTagOf_Ok a s r s' :
  indexTagOf a s = Ok (r, s') <-> s' = s /\ _tagData s !! a = Some (IndexTag r.1 r.2).
Proof.
  unfold indexTagOf, bind, getTag, gets. simpl. destruct r as [i p].
  destruct (_tagData s !! a) as [[?|? ?]|]; unfold ret, fail; simpl;
    split; try discriminate; try (by intros [_ ?]).
  - by intros [= <- <- <-].
  - by intros [-> [= <- <-]].
Qed.

Lemma indexTagOf_Err a s e : indexTagOf a s = Err e -> e = BadCast.
Proof.
  unfold indexTagOf, bind, getTag, gets. simpl.
  destruct (_tagData s !! a) as [[?|? ?]|]; unfold ret, fail; by intros [= <-].
Qed.

Lemma setTag_Ok a t s : setTag a t s = Ok (tt, withTags s (<[a := t]> (_tagData s))).
Proof. done. Qed.

(** The scan for one key-pattern element takes the first candidate in
    the order of [unassigned] and stops; without a candidate it changes
    no tag.  It reads [_nodeToId] at nodes of [unassigned] only. *)
Lemma pickUnassigned_spec prefix fieldName index posInIdx unassigned : forall s b s',
  pickUnassigned prefix fieldName index posInIdx unassigned s = Ok (b, s') ->
  tagsAndReads (fun x => x ∈ addr <$> unassigned) s s' /\
  if b then
    exists j u p,
      unassigned !! j = Some u /\
      candidate s prefix fieldName index u /\
      entryOf s (addr u) = Some p /\ addr (expr p) = addr u /\ index ∈ notFirst p /\
      (forall k u', k < j -> unassigned !! k = Some u' ->
                    ~ candidate s prefix fieldName index u') /\
      _tagData s' = <[addr u := IndexTag index posInIdx]> (_tagData s)
  else
    _tagData s' = _tagData s /\
    forall u, u ∈ unassigned -> ~ candidate s prefix fieldName index u.
Proof.
  induction unassigned as [|u rest IH]; simpl; intros s b s' Hrun.
  - injection Hrun as <- <-. split; [apply tagsAndReads_refl|].
    split; [done|]. by intros u ?%elem_of_nil.
  - assert (Hskip : forall s1,
              tagsAndReads (fun x => x ∈ addr <$> u :: rest) s s1 ->
              _tagData s1 = _tagData s ->
              ~ candidate s prefix fieldName index u ->
              pickUnassigned prefix fieldName index posInIdx rest s1 = Ok (b, s') ->
              tagsAndReads (fun x => x ∈ addr <$> u :: rest) s s' /\
              if b
              then exists j u0 p,
                  (u :: rest) !! j = Some u0 /\
                  candidate s prefix fieldName index u0 /\
                  entryOf s (addr u0) = Some p /\ addr (expr p) = addr u0 /\
                  index ∈ notFirst p /\
                  (forall k u', k < j -> (u :: rest) !! k = Some u' ->
                                ~ candidate s prefix fieldName index u') /\
                  _tagData s' = <[addr u0 := IndexTag index posInIdx]> (_tagData s)
              else _tagData s' = _tagData s /\
                   forall u0, u0 ∈ u :: rest -> ~ candidate s prefix fieldName index u0).
    { intros s1 Hs1 Ht1 Hno Hrest. apply IH in Hrest as [Hs' Hrest]. split.
      { eapply tagsAndReads_trans; [exact Hs1|].
        eapply tagsAndReads_mono; [|exact Hs']. intros x Hx. rewrite fmap_cons. by right. }
      destruct b.
      - destruct Hrest as (j & u0 & p & Hj & Hc & He & Ha & Hin & Hfirst & Ht).
        exists (S j), u0, p.
        rewrite (candidate_reads _ s s1) in Hc by done.
        rewrite (entryOf_reads _ s s1) in He by done. rewrite Ht1 in Ht.
        split_and!; try done.
        intros [|k] u' Hk Hu'; simpl in Hu'; [by injection Hu' as <-|].
        rewrite <- (candidate_reads _ s s1) by done. apply (Hfirst k); [lia|done].
      - destruct Hrest as [Ht Hrest]. split; [congruence|].
        intros u0 [->|Hin]%elem_of_cons; [done|].
        rewrite <- (candidate_reads _ s s1) by done. auto. }
    destruct (String.eqb (prefix +:+ path (target u)) fieldName) eqn:Hpath; simpl in Hrun.
    2:{ apply (Hskip s); [apply tagsAndReads_refl|done| |done].
        intros [Hp _]. apply String.eqb_neq in Hpath. done. }
    apply String.eqb_eq in Hpath.
    apply bind_Ok in Hrun as (tag & s1 & Htag & Hrun). run Htag. injection Htag as <- <-.
    destruct (_tagData s !! addr u) eqn:Htag.
    { apply (Hskip s); [apply tagsAndReads_refl|done| |done].
      intros (_ & ? & _). congruence. }
    apply bind_Ok in Hrun as (p & s1 & [-> Hp]%predOf_Ok & Hrun).
    apply bind_Ok in Hrun as ([] & s1 & [Haddr ->]%verify_Ok & Hrun).
    apply bool_decide_eq_true in Haddr.
    assert (Hread : tagsAndReads (fun x => x ∈ addr <$> u :: rest) s
                      (withIds s (zeroKey (addr u) (_nodeToId s)))).
    { apply tagsAndReads_read. rewrite fmap_cons. by left. }
    case_bool_decide as Hin.
    + run Hrun. injection Hrun as <- <-. split; [done|].
      exists 0, u, p. split_and!; try done.
      * split_and!; eauto.
      * intros k u' Hk. lia.
    + apply (Hskip _ Hread); [done| |done].
      intros (_ & _ & p' & Hp' & Hin'). congruence.
Qed.

Lemma tagsGrow_refl Q t : tagsGrow Q t t.
Proof. intros x. by left. Qed.

Lemma tagsGrow_trans Q t1 t2 t3 : tagsGrow Q t1 t2 -> tagsGrow Q t2 t3 -> tagsGrow Q t1 t3.
Proof.
  intros H12 H23 x. destruct (H23 x) as [->|(Hn & tag & Ht & HQ)]; [apply H12|].
  destruct (H12 x) as [Heq|(_ & tag' & Ht' & _)]; [|congruence].
  right. split; [congruence|eauto].
Qed.

Lemma tagsGrow_mono (Q Q' : Addr -> TagData -> Prop) t t' :
  (forall x tag, Q x tag -> Q' x tag) -> tagsGrow Q t t' -> tagsGrow Q' t t'.
Proof.
  intros HQ H x. destruct (H x) as [?|(? & tag & ? & ?)]; [by left|].
  right. split; [done|]. exists tag. auto.
Qed.

Lemma tagsGrow_Some Q t t' x tag : tagsGrow Q t t' -> t !! x = Some tag -> t' !! x = Some tag.
Proof. intros H Hx. destruct (H x) as [->|[? _]]; congruence. Qed.

Lemma tagColumns_notin index pos picked t x :
  x ∉ (addr <$> picked) -> tagColumns index pos picked t !! x = t !! x.
Proof.
  revert pos t. induction picked as [|u rest IH]; intros pos t Hx; simpl; [done|].
  rewrite fmap_cons in Hx. apply not_elem_of_cons in Hx as [Hne Hx].
  rewrite IH by done. by rewrite lookup_insert_ne.
Qed.

Lemma tagColumns_lookup index pos picked t j u :
  NoDup (addr <$> picked) -> picked !! j = Some u ->
  tagColumns index pos picked t !! addr u = Some (IndexTag index (S pos + j)).
Proof.
  revert pos t j. induction picked as [|u' rest IH]; intros pos t j Hnd Hj; [done|].
  rewrite fmap_cons in Hnd. apply NoDup_cons in Hnd as [Hu' Hnd].
  destruct j as [|j]; simpl in *.
  - injection Hj as ->. rewrite tagColumns_notin by done.
    by rewrite lookup_insert_eq, Nat.add_0_r.
  - rewrite (IH _ _ j) by done. do 2 f_equal. lia.
Qed.

(** The loop over the key-pattern elements gives the next columns, one
    after the other, to the first candidates and stops at the first
    element that has no candidate.  It reads [_nodeToId] at nodes of
    [unassigned] only. *)
Lemma assignFields_spec prefix index it : forall posInIdx unassigned s u0 s',
  assignFields prefix index it posInIdx unassigned s = Ok (u0, s') ->
  tagsAndReads (fun x => x ∈ addr <$> unassigned) s s' /\
  exists picked,
    length picked <= length it /\
    _tagData s' = tagColumns index posInIdx picked (_tagData s) /\
    NoDup (addr <$> picked) /\
    (forall j u, picked !! j = Some u ->
       u ∈ unassigned /\ _tagData s !! addr u = None /\
       it !! j = Some (prefix +:+ path (target u)) /\
       exists p, entryOf s (addr u) = Some p /\ addr (expr p) = addr u /\
                 index ∈ notFirst p) /\
    (forall fieldName, it !! length picked = Some fieldName ->
       forall u, u ∈ unassigned -> ~ candidate s' prefix fieldName index u).
Proof.
  induction it as [|kpElt it IH]; intros posInIdx unassigned s u0 s' Hrun; simpl in Hrun.
  - injection Hrun as _ <-. split; [apply tagsAndReads_refl|].
    exists []. split_and!; try done. constructor.
  - apply bind_Ok in Hrun as (b & s1 & Hpick & Hrun).
    apply pickUnassigned_spec in Hpick as [Hs1 Hpick]. destruct b.
    + destruct Hpick as (j & u & p & Hj & Hcand & Hp & Haddr & Hin & _ & Ht1).
      apply IH in Hrun as (Hs' & picked & Hlen & Ht' & Hnd & Hpicked & Hstop).
      split; [by eapply tagsAndReads_trans|].
      exists (u :: picked). split_and!; try done.
      * simpl. lia.
      * simpl. by rewrite Ht', Ht1.
      * rewrite fmap_cons. apply NoDup_cons. split; [|done].
        intros (u' & Hu' & Hin')%list_elem_of_fmap.
        apply list_elem_of_lookup in Hin' as [k Hk].
        destruct (Hpicked k u' Hk) as (_ & Hnone & _).
        rewrite Ht1, <- Hu', lookup_insert_eq in Hnone. done.
      * intros [|k] u' Hk; simpl in Hk.
        -- injection Hk as <-. destruct Hcand as (Hpath & Htag & _).
           split_and!; [by eapply list_elem_of_lookup_2|done|by rewrite Hpath|eauto].
        -- destruct (Hpicked k u' Hk) as (Hin' & Hnone & Hit & Hp').
           rewrite (entryOf_reads _ s s1) in Hp' by done.
           rewrite Ht1 in Hnone. split_and!; try done.
           destruct (decide (addr u = addr u')) as [Heq|Hne].
           ++ rewrite Heq, lookup_insert_eq in Hnone. done.
           ++ by rewrite lookup_insert_ne in Hnone.
    + destruct Hpick as [Ht1 Hnone]. unfold ret in Hrun. injection Hrun as _ <-.
      split; [done|]. exists []. simpl. split_and!; try done.
      * lia.
      * constructor.
      * intros f [= <-] u Hu. rewrite (candidate_reads _ s s1) by done. by apply Hnone.
Qed.

Local Abbreviation completeAt := (completeAt nodeCanUseIndexOnOwnField).
Local Abbreviation completedAt := (completedAt nodeCanUseIndexOnOwnField).
Local Abbreviation completed :=
  (completed arrayUsesIndexOnChildren nodeCanUseIndexOnOwnField).
Local Abbreviation completes :=
  (completes arrayUsesIndexOnChildren nodeCanUseIndexOnOwnField).
Local Abbreviation visits := (visits arrayUsesIndexOnChildren).
Local Abbreviation enclosingPrefix := (enclosingPrefix arrayUsesIndexOnChildren).
Local Abbreviation unassignedOf := (unassignedOf nodeCanUseIndexOnOwnField).
Local Abbreviation assignedCompoundOf := (assignedCompoundOf nodeCanUseIndexOnOwnField).
Local Abbreviation ownFieldSlots := (ownFieldSlots nodeCanUseIndexOnOwnField).

(** The slots of the children of a node that are indexable on their own
    field. *)
Local Abbreviation ownSlots node a :=
  (fun x : Addr => exists i c, children node !! i = Some c /\
                               nodeCanUseIndexOnOwnField c = true /\ x = a ++ [i]).

Lemma checkCompound_unfold prefix node a :
  checkCompound prefix node a =
  (completeAt prefix node a;;;
   forChildren (fun i child _ =>
                  checkCompound (childPrefix arrayUsesIndexOnChildren prefix node)
                    child (a ++ [i]))
     (children node) 0 tt).
Proof. by destruct node. Qed.

Lemma isCompound_Ok idx s b s' :
  isCompound idx s = Ok (b, s') ->
  s' = s /\ exists e, _indices s !! idx = Some e /\ b = (1 <? length (keyPattern e)).
Proof.
  intros (e & s1 & [-> He]%indexAt_Ok & Hret)%bind_Ok.
  injection Hret as <- <-. eauto.
Qed.

(** Step 1 changes no tag and reads [_nodeToId] at the children that are
    indexable on their own field; its two lists are those of the spec,
    in sibling order. *)
Lemma partitionChildren_spec node a s parts s' :
  partitionChildren node a s = Ok (parts, s') ->
  (tagsAndReads (ownSlots node a) s s' /\ _tagData s' = _tagData s) /\
  parts.1 = assignedCompoundOf (_indices s) (_tagData s) node a /\
  parts.2 = unassignedOf (_tagData s) node a.
Proof.
  intros Hrun.
  pose proof (forChildren_inv _
    (fun i (parts : list NodePtr * list NodePtr) s1 =>
       (tagsAndReads (ownSlots node a) s s1 /\ _tagData s1 = _tagData s) /\
       parts.1 = assignedCompoundOf (_indices s) (_tagData s)
                   (MkExpr (matchType node) (path node) (take i (children node))) a /\
       parts.2 = unassignedOf (_tagData s)
                   (MkExpr (matchType node) (path node) (take i (children node))) a)
    _ _ _ _ _ Hrun) as Hinv. cbv beta in Hinv. rewrite firstn_all in Hinv.
  destruct node as [mt p cs]. apply Hinv; clear Hinv.
  - split; [split; [apply tagsAndReads_refl|done]|done].
  - intros i c [ac us] s1 [ac' us'] s2 Hc ((Hs1 & Ht1) & Hac & Hus) Hbody.
    unfold assignedCompoundOf, unassignedOf in *. simpl in *.
    rewrite !(overChildren_take_S _ _ _ _ Hc), <- Hac, <- Hus.
    destruct (nodeCanUseIndexOnOwnField c) eqn:Hown.
    2:{ injection Hbody as <- <- <-. simpl.
        destruct (_tagData s !! (a ++ [i])) as [[|]|]; by rewrite !app_nil_r. }
    apply bind_Ok in Hbody as (p' & s3 & [-> _]%predOf_Ok & Hbody).
    assert (Hread : tagsAndReads (ownSlots (MkExpr mt p cs) a) s
                      (withIds s1 (zeroKey (a ++ [i]) (_nodeToId s1)))).
    { eapply tagsAndReads_trans; [exact Hs1|]. apply tagsAndReads_read.
      by exists i, c. }
    apply bind_Ok in Hbody as (tag & s3 & Htag & Hbody). run Htag.
    injection Htag as <- <-. rewrite Ht1 in Hbody.
    destruct (_tagData s !! (a ++ [i])) as [t|] eqn:Htag.
    + apply bind_Ok in Hbody as ([index pos] & s3 & [-> Hit]%indexTagOf_Ok & Hbody).
      apply bind_Ok in Hbody as (b & s3 & [-> (e & He & ->)]%isCompound_Ok & Hbody).
      simpl in *. rewrite Ht1, Htag in Hit. injection Hit as ->.
      destruct Hs1 as (_ & Hix & _). rewrite Hix in He.
      unfold compoundIndex. rewrite He. rewrite app_nil_r.
      destruct (1 <? length (keyPattern e)) eqn:Hlen; injection Hbody as <- <- <-;
        simpl; rewrite ?app_nil_r; done.
    + injection Hbody as <- <- <-. simpl. by rewrite app_nil_r.
Qed.

Lemma elem_of_unassignedOf tags node a u :
  u ∈ unassignedOf tags node a ->
  exists i, children node !! i = Some (target u) /\ addr u = a ++ [i] /\
            nodeCanUseIndexOnOwnField (target u) = true /\ tags !! addr u = None.
Proof.
  intros (i & c & Hc & Hu)%elem_of_overChildren. simpl in Hu.
  destruct (nodeCanUseIndexOnOwnField c) eqn:Hown; [|by apply elem_of_nil in Hu].
  case_bool_decide as Htag; simpl in Hu; [|by apply elem_of_nil in Hu].
  apply list_elem_of_singleton in Hu as ->. by exists i.
Qed.

Lemma elem_of_assignedCompoundOf indices tags node a c :
  c ∈ assignedCompoundOf indices tags node a ->
  exists i index pos e,
    children node !! i = Some (target c) /\ addr c = a ++ [i] /\
    tags !! addr c = Some (IndexTag index pos) /\
    indices !! index = Some e /\ 1 < length (keyPattern e).
Proof.
  intros (i & ch & Hc & Hu)%elem_of_overChildren. simpl in Hu.
  destruct (tags !! (a ++ [i])) as [[|index pos]|] eqn:Htag;
    try (by apply elem_of_nil in Hu).
  destruct (nodeCanUseIndexOnOwnField ch); [|by apply elem_of_nil in Hu].
  unfold compoundIndex in Hu.
  destruct (indices !! index) as [e|] eqn:He; [|by apply elem_of_nil in Hu].
  destruct (1 <? length (keyPattern e)) eqn:Hlen; [|by apply elem_of_nil in Hu].
  apply list_elem_of_singleton in Hu as ->. apply Nat.ltb_lt in Hlen.
  by exists i, index, pos, e.
Qed.

Lemma withIds_withIds (s : PlanEnumerator) (m m' : gmap Addr nat) : withIds (withIds s m) m' = withIds s m'.
Proof. done. Qed.

(** Step 1 reads [_nodeToId] at every child that is indexable on its own
    field, and changes nothing else. *)
Lemma partitionChildren_reads node a s parts s' :
  partitionChildren node a s = Ok (parts, s') ->
  s' = withIds s
         (zeroKeys (overChildren (fun i c => if nodeCanUseIndexOnOwnField c
                                             then [a ++ [i]] else [])
                      (children node) 0) (_nodeToId s)).
Proof.
  intros Hrun.
  pose proof (forChildren_inv _
    (fun i (_ : list NodePtr * list NodePtr) s1 =>
       s1 = withIds s
              (zeroKeys (overChildren (fun i c => if nodeCanUseIndexOnOwnField c
                                                  then [a ++ [i]] else [])
                           (take i (children node)) 0) (_nodeToId s)))
    _ _ _ _ _ Hrun) as Hinv. cbv beta in Hinv. rewrite firstn_all in Hinv.
  apply Hinv; clear Hinv.
  - symmetry. apply withIds_same.
  - intros i c [ac us] s1 [ac' us'] s2 Hc -> Hbody.
    rewrite (overChildren_take_S _ _ _ _ Hc), zeroKeys_app.
    destruct (nodeCanUseIndexOnOwnField c); [|by injection Hbody as _ _ <-].
    apply bind_Ok in Hbody as (p' & s3 & [-> _]%predOf_Ok & Hbody).
    apply bind_Ok in Hbody as (tag & s3 & Htag & Hbody). run Htag.
    injection Htag as <- <-.
    destruct (_tagData s !! (a ++ [i])) as [t|].
    + apply bind_Ok in Hbody as ([index pos] & s3 & [-> _]%indexTagOf_Ok & Hbody).
      apply bind_Ok in Hbody as (b & s3 & [-> _]%isCompound_Ok & Hbody).
      by destruct b; injection Hbody as _ _ <-.
    + by injection Hbody as _ _ <-.
Qed.

Lemma ownFieldKeys_unfold node a :
  ownFieldKeys nodeCanUseIndexOnOwnField node a =
  (if decide (matchType node = AND)
   then overChildren (fun i c => if nodeCanUseIndexOnOwnField c then [a ++ [i]] else [])
          (children node) 0
   else []) ++
  overChildren (fun i c => ownFieldKeys nodeCanUseIndexOnOwnField c (a ++ [i]))
    (children node) 0.
Proof. by destruct node. Qed.

(** Both lists of step 1 hold children of the node that are indexable on
    their own field, the untagged ones in [unassigned] and tagged ones
    in [assignedCompound]. *)
Lemma partitionChildren_parts node a s parts s' :
  partitionChildren node a s = Ok (parts, s') ->
  (tagsAndReads (ownSlots node a) s s' /\ _tagData s' = _tagData s) /\
  (forall u, u ∈ parts.2 ->
     exists i, children node !! i = Some (target u) /\ addr u = a ++ [i] /\
               nodeCanUseIndexOnOwnField (target u) = true /\
               _tagData s !! addr u = None) /\
  (forall c, c ∈ parts.1 ->
     exists i index pos e,
       children node !! i = Some (target c) /\ addr c = a ++ [i] /\
       _tagData s !! addr c = Some (IndexTag index pos) /\
       _indices s !! index = Some e /\ 1 < length (keyPattern e)).
Proof.
  intros (Hs & -> & ->)%partitionChildren_spec. split; [done|]. split.
  - intros u. apply elem_of_unassignedOf.
  - intros c. apply elem_of_assignedCompoundOf.
Qed.

(** [unassignedOf] lists the untagged children that are indexable on
    their own field in sibling order: a child comes before every later
    sibling. *)
Lemma unassignedOf_order (tags : gmap Addr TagData) (a : Addr) cs : forall i0 j u,
  overChildren (fun i c =>
    if nodeCanUseIndexOnOwnField c && bool_decide (tags !! (a ++ [i]) = None)
    then [mkPtr (a ++ [i]) c] else []) cs i0 !! j = Some u ->
  exists i c,
    cs !! i = Some c /\ u = mkPtr (a ++ [i0 + i]) c /\
    nodeCanUseIndexOnOwnField c = true /\ tags !! (a ++ [i0 + i]) = None /\
    forall i' c', i' < i -> cs !! i' = Some c' ->
      nodeCanUseIndexOnOwnField c' = true -> tags !! (a ++ [i0 + i']) = None ->
      exists k, k < j /\
        overChildren (fun i c =>
          if nodeCanUseIndexOnOwnField c && bool_decide (tags !! (a ++ [i]) = None)
          then [mkPtr (a ++ [i]) c] else []) cs i0 !! k = Some (mkPtr (a ++ [i0 + i']) c').
Proof.
  induction cs as [|c0 cs IH]; intros i0 j u; simpl; [done|].
  assert (Hshift : forall n, i0 + S n = S i0 + n) by (intros; lia).
  destruct (nodeCanUseIndexOnOwnField c0 && bool_decide (tags !! (a ++ [i0]) = None))
    eqn:Hcond; simpl.
  - apply andb_true_iff in Hcond as [Hown Htag]. apply bool_decide_eq_true in Htag.
    destruct j as [|j]; simpl.
    + intros [= <-]. exists 0, c0. rewrite Nat.add_0_r. split_and!; try done.
      intros i' c' Hi'. lia.
    + intros (i & c & Hc & -> & Hownc & Htagc & Hbefore)%IH.
      exists (S i), c. rewrite Hshift. split_and!; try done.
      intros [|i'] c' Hi' Hc' Hown' Htag'; simpl in Hc'.
      * injection Hc' as <-. exists 0. rewrite Nat.add_0_r. split; [lia|done].
      * rewrite Hshift in Htag'.
        destruct (Hbefore i' c') as (k & Hk & Hlook); [lia|done..|].
        exists (S k). rewrite Hshift. split; [lia|done].
  - intros (i & c & Hc & -> & Hownc & Htagc & Hbefore)%IH.
    exists (S i), c. rewrite Hshift. split_and!; try done.
    intros [|i'] c' Hi' Hc' Hown' Htag'; simpl in Hc'.
    + injection Hc' as <-. rewrite Nat.add_0_r in Htag'.
      rewrite Hown', bool_decide_eq_true_2 in Hcond by done. done.
    + rewrite Hshift in Htag'.
      destruct (Hbefore i' c') as (k & Hk & Hlook); [lia|done..|].
      exists k. rewrite Hshift. done.
Qed.

(** The scan over the list of step 1 takes the first candidate in
    sibling order. *)
Lemma pickUnassigned_sibling prefix fieldName index posInIdx tags0 node a s s' :
  pickUnassigned prefix fieldName index posInIdx (unassignedOf tags0 node a) s
  = Ok (true, s') ->
  exists i c,
    children node !! i = Some c /\ nodeCanUseIndexOnOwnField c = true /\
    tags0 !! (a ++ [i]) = None /\
    candidate s prefix fieldName index (mkPtr (a ++ [i]) c) /\
    _tagData s' = <[a ++ [i] := IndexTag index posInIdx]> (_tagData s) /\
    forall i' c', i' < i -> children node !! i' = Some c' ->
      nodeCanUseIndexOnOwnField c' = true -> tags0 !! (a ++ [i']) = None ->
      ~ candidate s prefix fieldName index (mkPtr (a ++ [i']) c').
Proof.
  intros (_ & j & u & p & Hj & Hcand & _ & _ & _ & Hfirst & Ht)%pickUnassigned_spec.
  destruct (unassignedOf_order _ _ _ _ _ _ Hj)
    as (i & c & Hc & -> & Hown & Htag & Hbefore). simpl in *.
  exists i, c. split_and!; try done.
  intros i' c' Hi' Hc' Hown' Htag'.
  destruct (Hbefore i' c' Hi' Hc' Hown' Htag') as (k & Hk & Hlook).
  by apply (Hfirst k).
Qed.

(** An invariant of the steps of [assignFields] is an invariant of step
    2; at each step the child being completed is tagged and its index is
    in the catalog. *)
Lemma completeCompound_inv (J : PlanEnumerator -> Prop) prefix unassigned :
  forall assignedCompound,
    (forall c index pos e s u0 s',
        c ∈ assignedCompound ->
        _tagData s !! addr c = Some (IndexTag index pos) ->
        _indices s !! index = Some e ->
        J s ->
        assignFields prefix index (tail (keyPattern e)) 0 unassigned s = Ok (u0, s') ->
        J s') ->
    forall i s u0 s',
      completeCompound prefix i assignedCompound unassigned s = Ok (u0, s') ->
      J s -> J s'.
Proof.
  induction assignedCompound as [|c rest IH]; intros Hstep i s u0 s' Hrun HJ;
    simpl in Hrun.
  - by injection Hrun as _ <-.
  - assert (Hrest : forall c index pos e s u0 s',
               c ∈ rest ->
               _tagData s !! addr c = Some (IndexTag index pos) ->
               _indices s !! index = Some e -> J s ->
               assignFields prefix index (tail (keyPattern e)) 0 unassigned s
               = Ok (u0, s') -> J s').
    { intros c' ? ? ? ? ? ? Hin. apply Hstep. by right. }
    apply bind_Ok in Hrun as ([index pos] & s1 & [-> Htag]%indexTagOf_Ok & Hrun).
    apply bind_Ok in Hrun as (entry & s1 & [-> Hentry]%indexAt_Ok & Hrun).
    destruct (multikey entry); [by eapply IH|].
    apply bind_Ok in Hrun as (e & s1 & [-> He]%indexAt_Ok & Hrun).
    apply bind_Ok in Hrun as ([] & s1 & [_ ->]%verify_Ok & Hrun).
    apply bind_Ok in Hrun as (u1 & s1 & Hassign & Hrun).
    eapply IH; [exact Hrest | exact Hrun |].
    eapply (Hstep c); [by left | exact Htag | exact He | exact HJ | exact Hassign].
Qed.

Lemma tagColumns_grows (Q : Addr -> TagData -> Prop) index pos picked t :
  NoDup (addr <$> picked) ->
  (forall j u, picked !! j = Some u ->
               t !! addr u = None /\ Q (addr u) (IndexTag index (S pos + j))) ->
  tagsGrow Q t (tagColumns index pos picked t).
Proof.
  intros Hnd Hpicked x. destruct (decide (x ∈ addr <$> picked)) as [Hin|Hin].
  - right. apply list_elem_of_fmap in Hin as (u & -> & Hu).
    apply list_elem_of_lookup in Hu as [j Hj]. destruct (Hpicked j u Hj) as [Hnone HQ].
    split; [done|]. eexists. split; [by apply tagColumns_lookup|done].
  - left. by apply tagColumns_notin.
Qed.

Lemma ownSlots_ownFieldSlots node a x :
  matchType node = AND -> ownSlots node a x -> ownFieldSlots node a x.
Proof.
  intros Hand (i & c & Hc & Hown & ->). exists node, a, i, c.
  split_and!; try done. constructor.
Qed.

Lemma ownFieldSlots_child node a i c x :
  children node !! i = Some c -> ownFieldSlots c (a ++ [i]) x -> ownFieldSlots node a x.
Proof.
  intros Hc (n & a' & j & u & Hat & ? & ? & ? & ->). exists n, a', j, u.
  split_and!; try done. by eapply nodeAt_child.
Qed.

(** Every tag written at a node is one of [completedAt]; the reads are
    at the children that are indexable on their own field. *)
Lemma completeAt_grows prefix node a s u0 s' :
  completeAt prefix node a s = Ok (u0, s') ->
  tagsAndReads (ownFieldSlots node a) s s' /\
  tagsGrow (completedAt s prefix node a) (_tagData s) (_tagData s').
Proof.
  unfold completeAt. case_decide as Hand.
  2:{ intros [= _ <-]. split; [apply tagsAndReads_refl | apply tagsGrow_refl]. }
  intros ([ac us] & s1 & Hpart & Hrun)%bind_Ok.
  apply partitionChildren_parts in Hpart as ((Hs1 & Ht1) & Hus & _). simpl in *.
  apply (completeCompound_inv
           (fun s1 => tagsAndReads (ownFieldSlots node a) s s1 /\
                      tagsGrow (completedAt s prefix node a) (_tagData s) (_tagData s1))
           prefix us ac) with (i := 0) (s := s1) (u0 := u0); [|done|].
  2:{ split; [|rewrite Ht1; apply tagsGrow_refl].
      eapply tagsAndReads_mono; [|exact Hs1]. intros x. by apply ownSlots_ownFieldSlots. }
  intros c index pos e s2 u1 s3 _ _ He [Hs2 Hgrow] Hassign.
  apply assignFields_spec in Hassign as (Hs3 & picked & _ & Ht3 & Hnd & Hpicked & _).
  split.
  { eapply tagsAndReads_trans; [exact Hs2|]. eapply tagsAndReads_mono; [|exact Hs3].
    intros x (u & -> & Hu)%list_elem_of_fmap.
    destruct (Hus u Hu) as (i & Hchild & Hau & Hown & _).
    apply ownSlots_ownFieldSlots; [done|]. by exists i, (target u). }
  eapply tagsGrow_trans; [exact Hgrow|]. rewrite Ht3.
  apply tagColumns_grows; [done|].
  intros j u Hj. destruct (Hpicked j u Hj) as (Hin & Hnone & Hit & p & Hp & Haddr & Hnf).
  split; [done|].
  destruct (Hus u Hin) as (i & Hchild & Hau & Hown & _).
  exists i, (target u), index, (S j). split_and!; try done.
  unfold compoundColumn. simpl. split_and!; [lia| |].
  - exists e. pose proof Hs2 as (_ & <- & _). split; [done|].
    by rewrite lookup_tail in Hit.
  - exists p. by rewrite <- (entryOf_reads _ s s2 _ Hs2).
Qed.

Lemma visits_prefix prefix node a prefix' n a' :
  visits prefix node a prefix' n a' -> a `prefix_of` a'.
Proof.
  induction 1 as [|prefix n a i c prefix' n' a' Hc _ IH]; [done|].
  etrans; [|exact IH]. by apply prefix_app_r.
Qed.

Lemma completed_under s prefix node a x tag :
  completed s prefix node a x tag -> under a x.
Proof.
  intros (prefix' & n & a' & [l ->]%visits_prefix & (i & u & index & pos & _ & _ & _ & -> & _)).
  exists l, i. by rewrite <- app_assoc.
Qed.

(** Every tag the completer writes is one of [completed]; the reads are
    at the children of conjunctions that are indexable on their own
    field. *)
Lemma checkCompound_grows node : forall prefix a s u0 s',
  checkCompound prefix node a s = Ok (u0, s') ->
  tagsAndReads (ownFieldSlots node a) s s' /\
  tagsGrow (completed s prefix node a) (_tagData s) (_tagData s').
Proof.
  induction node as [mt p cs IH] using MatchExpression_ind.
  intros prefix a s u0 s'. rewrite checkCompound_unfold.
  intros (u1 & s1 & Hat & Hloop)%bind_Ok. simpl in Hloop.
  apply completeAt_grows in Hat as [Hs1 Hgrow1].
  apply (forChildren_inv _
           (fun _ _ s2 => tagsAndReads (ownFieldSlots (MkExpr mt p cs) a) s s2 /\
              tagsGrow (completed s prefix (MkExpr mt p cs) a) (_tagData s) (_tagData s2))
           _ _ _ _ _ Hloop).
  - split; [done|]. eapply tagsGrow_mono; [|exact Hgrow1].
    intros x tag Hat. exists prefix, (MkExpr mt p cs), a. split; [constructor|done].
  - intros i c [] s2 [] s3 Hc [Hs2 Hgrow2] Hbody.
    rewrite Forall_forall in IH.
    apply IH in Hbody as [Hs3 Hgrow3]; [|by eapply list_elem_of_lookup_2].
    split.
    { eapply tagsAndReads_trans; [exact Hs2|]. eapply tagsAndReads_mono; [|exact Hs3].
      intros x. by apply ownFieldSlots_child. }
    eapply tagsGrow_trans; [exact Hgrow2|].
    eapply tagsGrow_mono; [|exact Hgrow3].
    intros x tag (prefix' & n & a' & Hv & i' & u & index & pos & ? & ? & ? & ? & ? & Hcol).
    exists prefix', n, a'. split; [by eapply visits_child|].
    exists i', u, index, pos. split_and!; try done.
    by eapply compoundColumn_reads.
Qed.

(** The prefix with which the completer visits a node is the prefix of
    the first call followed by the enclosing array-scoped prefix of the
    node. *)
Lemma visits_enclosing prefix node a prefix' n a' :
  visits prefix node a prefix' n a' ->
  exists l, a' = a ++ l /\ nodeAt node a n (a ++ l) /\
            prefix' = prefix +:+ enclosingPrefix node l.
Proof.
  induction 1 as [prefix n a|prefix n a i c prefix' n' a' Hc Hv (l & -> & Hat & ->)].
  - exists []. rewrite app_nil_r. split_and!; [done|constructor|].
    unfold enclosingPrefix. simpl. by rewrite append_empty_r.
  - exists (i :: l). rewrite <- app_assoc in *. simpl in *.
    split_and!; [done|by eapply nodeAt_child|].
    unfold enclosingPrefix, childPrefix. simpl. rewrite Hc.
    destruct (arrayUsesIndexOnChildren n) eqn:Harr; simpl.
    + destruct (String.eqb (path n) "") eqn:Hpath; simpl.
      * apply String.eqb_eq in Hpath. rewrite filter_cons_False; [done|].
        by intros [_ ?].
      * apply String.eqb_neq in Hpath. rewrite filter_cons_True by done. simpl.
        by rewrite !append_assoc_string.
    + rewrite filter_cons_False; [done|]. intros [? _]. congruence.
Qed.

(** A tag the completer writes is one the spec describes. *)
Lemma completed_completes s prefix node a x tag :
  completed s prefix node a x tag -> completes s prefix node a x tag.
Proof.
  intros (prefix' & n & a' & (l & -> & Hat & ->)%visits_enclosing &
          (i & u & index & pos & Hand & Hc & Hown & -> & -> & Hcol)).
  exists l, n, i, u, index, pos. rewrite <- app_assoc in *. split_and!; done.
Qed.

Lemma tagColumns_downclosed a index picked t ic :
  downclosed a t ->
  t !! (a ++ [ic]) = Some (IndexTag index 0) ->
  NoDup (addr <$> picked) ->
  (forall u, u ∈ picked -> (exists i, addr u = a ++ [i]) /\ t !! addr u = None) ->
  downclosed a (tagColumns index 0 picked t).
Proof.
  intros Hdown Hzero Hnd Hpicked index' pos i Hlook pos' Hlt.
  assert (Hold : forall x tag, t !! x = Some tag ->
                               tagColumns index 0 picked t !! x = Some tag).
  { intros x tag Hx. rewrite tagColumns_notin; [done|].
    intros (u & -> & Hu)%list_elem_of_fmap. destruct (Hpicked u Hu) as [_ Hnone].
    congruence. }
  destruct (decide ((a ++ [i]) ∈ addr <$> picked)) as [Hin|Hin].
  - apply list_elem_of_fmap in Hin as (u & Hau & Hu).
    apply list_elem_of_lookup in Hu as [j Hj].
    rewrite Hau, (tagColumns_lookup _ _ _ _ j u) in Hlook by done.
    injection Hlook as <- <-. destruct pos' as [|j'].
    + exists ic. by apply Hold.
    + destruct (picked !! j') as [u'|] eqn:Hj'.
      2:{ apply lookup_ge_None in Hj'. apply lookup_lt_Some in Hj. lia. }
      destruct (Hpicked u' (list_elem_of_lookup_2 _ _ _ Hj')) as [[i' Hau'] _].
      exists i'. rewrite <- Hau'. by rewrite (tagColumns_lookup _ _ _ _ j' u').
  - rewrite tagColumns_notin in Hlook by done.
    destruct (Hdown _ _ _ Hlook pos' Hlt) as [j Hj]. exists j. by apply Hold.
Qed.

(** At a node whose children carry first-column tags only, the positions
    of each index among the children form a prefix after the completion. *)
Lemma completeAt_downclosed prefix node a s u0 s' :
  completeAt prefix node a s = Ok (u0, s') ->
  (forall i index pos, _tagData s !! (a ++ [i]) = Some (IndexTag index pos) -> pos = 0) ->
  downclosed a (_tagData s').
Proof.
  intros Hrun Hzero.
  assert (Hdown0 : downclosed a (_tagData s)).
  { intros index pos i Hlook pos' Hlt. apply Hzero in Hlook. lia. }
  revert Hrun. unfold completeAt. case_decide as Hand; [|by intros [= _ <-]].
  intros ([ac us] & s1 & Hpart & Hrun)%bind_Ok.
  apply partitionChildren_parts in Hpart as ((_ & Ht0) & Hus & Hac). simpl in *.
  apply (completeCompound_inv
           (fun s1 => tagsGrow (fun _ _ => True) (_tagData s) (_tagData s1) /\
                      downclosed a (_tagData s1))
           prefix us ac) with (i := 0) (s := s1) (u0 := u0); [|done|].
  2:{ rewrite Ht0. split; [apply tagsGrow_refl | done]. }
  clear dependent s1.
  intros c index pos e s1 u1 s2 Hc Htag He [Hgrow Hdown] Hassign.
  apply assignFields_spec in Hassign as (_ & picked & _ & -> & Hnd & Hpicked & _).
  destruct (Hac c Hc) as (ic & index0 & pos0 & _ & _ & Hac' & Htag0 & _).
  pose proof (Hzero ic index0 pos0) as Hpos0. rewrite <- Hac' in Hpos0.
  specialize (Hpos0 Htag0). subst pos0.
  pose proof (tagsGrow_Some _ _ _ _ _ Hgrow Htag0) as Htag1.
  rewrite Htag in Htag1. injection Htag1 as -> ->.
  split.
  - eapply tagsGrow_trans; [exact Hgrow|]. apply tagColumns_grows; [done|].
    intros j u Hj. by destruct (Hpicked j u Hj) as (_ & ? & _).
  - apply (tagColumns_downclosed a index0 picked _ ic); try done.
    + by rewrite <- Hac'.
    + intros u [j Hj]%list_elem_of_lookup.
      destruct (Hpicked j u Hj) as (Hin & Hnone & _).
      destruct (Hus u Hin) as (i & _ & Hau & _). eauto.
Qed.

Lemma downclosed_ext a t t' :
  (forall k, t' !! (a ++ [k]) = t !! (a ++ [k])) -> downclosed a t -> downclosed a t'.
Proof.
  intros Heq Hdown index pos i Hlook pos' Hlt. rewrite Heq in Hlook.
  destruct (Hdown _ _ _ Hlook pos' Hlt) as [j Hj]. exists j. by rewrite Heq.
Qed.

Lemma under_child a i x : under (a ++ [i]) x -> under a x.
Proof. intros (l & k & ->). exists (i :: l), k. by rewrite <- !app_assoc. Qed.

Lemma under_prefix a x : under a x -> a `prefix_of` x.
Proof. intros (l & k & ->). by eexists. Qed.

Lemma not_under_slot a i k : ~ under (a ++ [i]) (a ++ [k]).
Proof.
  intros (l & k' & H). rewrite <- !app_assoc in H. apply app_inv_head in H.
  apply (f_equal length) in H. simpl in H. rewrite length_app in H. simpl in H. lia.
Qed.

Lemma under_other a i j x : i <> j -> under (a ++ [i]) x -> ~ under (a ++ [j]) x.
Proof.
  intros Hij Hi%under_prefix Hj%under_prefix. by apply (prefix_snoc_ne a x i j).
Qed.

Lemma prefix_slot_under a a' k : a `prefix_of` a' -> under a (a' ++ [k]).
Proof. intros [l ->]. exists l, k. by rewrite <- app_assoc. Qed.

(** The completer changes slots strictly below its node only. *)
Lemma checkCompound_frame node prefix a s u0 s' x :
  checkCompound prefix node a s = Ok (u0, s') ->
  ~ under a x -> _tagData s' !! x = _tagData s !! x.
Proof.
  intros [_ Hgrow]%checkCompound_grows Hx.
  destruct (Hgrow x) as [?|(_ & tag & _ & Hc)]; [done|].
  by apply completed_under in Hc.
Qed.

Lemma completeAt_frame node prefix a s u0 s' x :
  completeAt prefix node a s = Ok (u0, s') ->
  (forall i, x <> a ++ [i]) -> _tagData s' !! x = _tagData s !! x.
Proof.
  intros [_ Hgrow]%completeAt_grows Hx.
  destruct (Hgrow x) as [?|(_ & tag & _ & (i & u & index & pos & _ & _ & _ & -> & _))];
    [done|]. by destruct (Hx i).
Qed.

(** From a state in which every tag below the node is a first-column
    tag, the positions of each index among the children of every node
    the completer visits form a prefix when it returns. *)
Lemma checkCompound_downclosed node : forall prefix a s u0 s',
  checkCompound prefix node a s = Ok (u0, s') ->
  (forall x index pos, under a x -> _tagData s !! x = Some (IndexTag index pos) -> pos = 0) ->
  forall prefix' n a', visits prefix node a prefix' n a' -> downclosed a' (_tagData s').
Proof.
  induction node as [mt p cs IH] using MatchExpression_ind.
  intros prefix a s u0 s' Hrun Hzero. rewrite checkCompound_unfold in Hrun.
  apply bind_Ok in Hrun as (u1 & s1 & Hat & Hloop). simpl in Hloop.
  assert (Hdown1 : downclosed a (_tagData s1)).
  { eapply completeAt_downclosed; [exact Hat|]. intros i index pos. apply Hzero.
    exists [], i. done. }
  set (node := MkExpr mt p cs) in *.
  pose (Inv := fun (i : nat) (_ : unit) (s2 : PlanEnumerator) =>
         (forall x, (forall j, j < i -> ~ under (a ++ [j]) x) ->
                    _tagData s2 !! x = _tagData s1 !! x) /\
         (forall j c, cs !! j = Some c -> j < i ->
            forall prefix' n a',
              visits (childPrefix arrayUsesIndexOnChildren prefix node) c (a ++ [j])
                prefix' n a' ->
              downclosed a' (_tagData s2))).
  assert (Hinv : Inv (length cs) u0 s').
  { apply (forChildren_inv _ Inv _ _ _ _ _ Hloop).
    - split; [done|]. intros j c _ Hj. lia.
    - intros i c [] s2 [] s3 Hc [Hframe Hdown] Hbody. split.
      + intros x Hx. rewrite (checkCompound_frame _ _ _ _ _ _ x Hbody).
        * apply Hframe. intros j Hj. apply Hx. lia.
        * apply Hx. lia.
      + intros j c' Hc' Hj prefix' n a' Hv.
        destruct (decide (j = i)) as [->|Hne].
        * assert (c' = c) as -> by congruence.
          rewrite Forall_forall in IH.
          eapply (IH c (list_elem_of_lookup_2 _ _ _ Hc)); [exact Hbody| |exact Hv].
          intros x index pos Hx. rewrite Hframe.
          -- rewrite (completeAt_frame _ _ _ _ _ _ x Hat).
             ++ apply Hzero. by apply under_child in Hx.
             ++ intros k ->. by apply not_under_slot in Hx.
          -- intros j' Hj'. apply (under_other a i j'); [lia|done].
        * eapply downclosed_ext; [|eapply (Hdown j c'); [done|lia|exact Hv]].
          intros k. eapply checkCompound_frame; [exact Hbody|].
          apply (under_other a j i); [done|].
          apply prefix_slot_under. by eapply visits_prefix. }
  destruct Hinv as [Hframe Hdown].
  intros prefix' n a' Hv. inversion Hv as [|? ? ? i c ? ? ? Hc Hv']; subst.
  - eapply downclosed_ext; [|exact Hdown1]. intros k. apply Hframe.
    intros j _. apply not_under_slot.
  - eapply (Hdown i c); [done| |exact Hv']. by eapply lookup_lt_Some.
Qed.

(** The completer never fails the way the tagger does. *)
Lemma pickUnassigned_Err prefix fieldName index posInIdx unassigned : forall s e,
  pickUnassigned prefix fieldName index posInIdx unassigned s = Err e ->
  taggerError e = false.
Proof.
  induction unassigned as [|u rest IH]; intros s e; simpl; [done|].
  destruct (negb _); [by apply IH|].
  intros [Htag | (tag & s1 & Htag & Hrun)]%bind_Err; [by run Htag|].
  run Htag. injection Htag as <- <-. destruct (_tagData s !! addr u); [by eapply IH|].
  apply bind_Err in Hrun as [[-> | ->]%predOf_Err | (p & s1 & [-> _]%predOf_Ok & Hrun)];
    [done..|].
  apply bind_Err in Hrun as [Hv | ([] & s1 & [_ ->]%verify_Ok & Hrun)].
  - unfold verify in Hv. case_bool_decide; [done|]. by injection Hv as <-.
  - case_bool_decide; [by run Hrun | by eapply IH].
Qed.

Lemma assignFields_Err prefix index it : forall posInIdx unassigned s e,
  assignFields prefix index it posInIdx unassigned s = Err e -> taggerError e = false.
Proof.
  induction it as [|kpElt it IH]; intros posInIdx unassigned s e; simpl; [done|].
  intros [Hpick | (b & s1 & _ & Hrun)]%bind_Err; [by eapply pickUnassigned_Err|].
  destruct b; [by eapply IH | done].
Qed.

Lemma completeCompound_Err prefix unassigned assignedCompound : forall i s e,
  completeCompound prefix i assignedCompound unassigned s = Err e -> taggerError e = false.
Proof.
  induction assignedCompound as [|c rest IH]; intros i s e; simpl; [done|].
  intros [->%indexTagOf_Err | (tag & s2 & _ & Hrun)]%bind_Err; [done|].
  apply bind_Err in Hrun as [->%indexAt_Err | (entry & s1 & _ & Hrun)]; [done|].
  destruct (multikey entry); [by eapply IH|].
  apply bind_Err in Hrun as [->%indexAt_Err | (e' & s3 & _ & Hrun)]; [done|].
  apply bind_Err in Hrun as [Hv | ([] & s4 & _ & Hrun)].
  { unfold verify in Hv. case_bool_decide; [done|]. by injection Hv as <-. }
  apply bind_Err in Hrun as [Ha | (u1 & s5 & _ & Hrun)]; [by eapply assignFields_Err|].
  by eapply IH.
Qed.

Lemma completeAt_Err prefix node a s e :
  completeAt prefix node a s = Err e -> taggerError e = false.
Proof.
  unfold completeAt. case_decide; [|done].
  intros [Hpart | (parts & s1 & _ & Hrun)]%bind_Err; [|by eapply completeCompound_Err].
  apply forChildren_Err in Hpart as (j & c & [ac us] & s1 & _ & Hb). simpl in Hb.
  destruct (nodeCanUseIndexOnOwnField c); [|done].
  apply bind_Err in Hb as [[-> | ->]%predOf_Err | (p & s2 & _ & Hb)]; [done..|].
  apply bind_Err in Hb as [Htag | (tag & s3 & _ & Hb)]; [by run Htag|].
  destruct tag; [|done].
  apply bind_Err in Hb as [->%indexTagOf_Err | (tag' & s4 & _ & Hb)]; [done|].
  apply bind_Err in Hb as [Hc | (b & s5 & _ & Hb)]; [|by destruct b].
  apply bind_Err in Hc as [->%indexAt_Err | (? & ? & _ & ?)]; done.
Qed.

Lemma checkCompound_Err node : forall prefix a s e,
  checkCompound prefix node a s = Err e -> taggerError e = false.
Proof.
  induction node as [mt p cs IH] using MatchExpression_ind.
  intros prefix a s e. rewrite checkCompound_unfold.
  intros [Hat | (u & s1 & _ & Hloop)]%bind_Err; [by eapply completeAt_Err|].
  apply forChildren_Err in Hloop as (j & c & [] & s2 & Hc & Hb).
  rewrite Forall_forall in IH. eapply IH; [|exact Hb]. by eapply list_elem_of_lookup_2.
Qed.

(** *** The completer on well-formed inputs *)

Lemma leafEntry_entryOf s x :
  leafEntry s x -> exists p, entryOf s x = Some p /\ addr (expr p) = x.
Proof.
  intros (id & soln & p & Hid & _ & Hsoln & Hp & Hx). exists p. split; [|done].
  unfold entryOf. rewrite Hid. simpl. by rewrite Hsoln.
Qed.

Lemma leafEntry_key s x : leafEntry s x -> is_Some (_nodeToId s !! x).
Proof. intros (id & _ & _ & Hid & _). by exists id. Qed.

Lemma leafEntry_reads (K : Addr -> Prop) s s' x :
  tagsAndReads K s s' -> leafEntry s x -> leafEntry s' x.
Proof.
  intros (_ & _ & Hn & Hm & _ & Hc & _) (id & soln & p & Hid & Hlt & Hsoln & Hp & Hx).
  exists id, soln, p. rewrite Hm, Hc. split_and!; try done.
  by eapply zerosAdded_Some.
Qed.

Lemma leafEntry_onlyTags s s' x : onlyTags s s' -> leafEntry s x -> leafEntry s' x.
Proof. intros H. by apply (leafEntry_reads (fun _ => True)), onlyTags_reads. Qed.

Lemma indexTags_grow n (Q : Addr -> TagData -> Prop) t t' :
  indexTags n t -> tagsGrow Q t t' ->
  (forall x tag, Q x tag -> exists index pos, tag = IndexTag index pos /\ index < n) ->
  indexTags n t'.
Proof.
  intros Ht Hgrow HQ x tag Hx.
  destruct (Hgrow x) as [Heq | (_ & tag' & Hx' & Hq)].
  - rewrite Heq in Hx. by eapply Ht.
  - rewrite Hx in Hx'. injection Hx' as <-. by eapply HQ.
Qed.

Lemma oneTagged_below tags tags' node a :
  (forall x, under a x -> tags' !! x = tags !! x) ->
  oneTagged tags node a -> oneTagged tags' node a.
Proof.
  intros Heq Hone n' a' k1 k2 Hat Hand H1 H2.
  pose proof (nodeAt_prefix _ _ _ _ Hat) as Hpre.
  rewrite Heq in H1, H2 by by apply prefix_slot_under.
  by eapply Hone.
Qed.

Lemma oneTagged_child tags node a i c :
  children node !! i = Some c -> oneTagged tags node a -> oneTagged tags c (a ++ [i]).
Proof.
  intros Hc Hone n' a' k1 k2 Hat. apply Hone. by eapply nodeAt_child.
Qed.

Lemma pickUnassigned_total prefix fieldName index posInIdx unassigned s :
  (forall u, u ∈ unassigned -> leafEntry s (addr u)) ->
  exists b s', pickUnassigned prefix fieldName index posInIdx unassigned s = Ok (b, s').
Proof.
  induction unassigned as [|u rest IH]; intros Hleaf; simpl; [by eexists _, _|].
  assert (Hrest : forall u', u' ∈ rest -> leafEntry s (addr u'))
    by (intros u' Hu'; apply Hleaf; by right).
  destruct (negb _); [by apply IH|].
  rewrite (bind_run (getTag (addr u)) _ s (_tagData s !! addr u) s eq_refl).
  destruct (_tagData s !! addr u); [by apply IH|].
  destruct (leafEntry_entryOf s (addr u)) as (p & Hp & Hx); [apply Hleaf; by left|].
  rewrite (bind_run _ _ _ _ _
             (proj2 (predOf_present 194 195 _ s p s
                       (leafEntry_key _ _ (Hleaf u (list_elem_of_here _ _))))
                    (conj eq_refl Hp))).
  rewrite bool_decide_eq_true_2 by done. unfold verify.
  rewrite (bind_run (ret tt) _ s tt s eq_refl).
  case_bool_decide; [|by apply IH].
  rewrite (bind_run _ _ _ _ _ (setTag_Ok _ _ s)). by eexists _, _.
Qed.

Lemma assignFields_total prefix index it : forall posInIdx unassigned s,
  (forall u, u ∈ unassigned -> leafEntry s (addr u)) ->
  exists s', assignFields prefix index it posInIdx unassigned s = Ok (tt, s').
Proof.
  induction it as [|kpElt it IH]; intros posInIdx unassigned s Hleaf; simpl;
    [by eexists|].
  destruct (pickUnassigned_total prefix kpElt index (S posInIdx) unassigned s Hleaf)
    as (b & s1 & Hpick).
  rewrite (bind_run _ _ _ _ _ Hpick). destruct b; [|by eexists].
  apply pickUnassigned_spec in Hpick as [Hs1 _].
  apply IH. intros u' Hu'. eapply leafEntry_reads; [exact Hs1|].
  by apply Hleaf.
Qed.

Lemma completeCompound_total prefix unassigned assignedCompound : forall i s,
  i + length assignedCompound <= length (_indices s) ->
  (forall c, c ∈ assignedCompound ->
     exists index pos e, _tagData s !! addr c = Some (IndexTag index pos) /\
                         _indices s !! index = Some e /\ 1 < length (keyPattern e)) ->
  (forall u, u ∈ unassigned -> leafEntry s (addr u)) ->
  exists s', completeCompound prefix i assignedCompound unassigned s = Ok (tt, s').
Proof.
  induction assignedCompound as [|child rest IH]; intros i s Hlen Htags Hleaf; simpl;
    [by eexists|].
  simpl in Hlen.
  assert (Hrest : forall c, c ∈ rest ->
            exists index pos e, _tagData s !! addr c = Some (IndexTag index pos) /\
                                _indices s !! index = Some e /\
                                1 < length (keyPattern e))
    by (intros c Hc; apply Htags; by right).
  destruct (Htags child) as (index & pos & e & Htag & He & Hkp); [by left|].
  rewrite (bind_run _ _ _ _ _
             (proj2 (indexTagOf_Ok (addr child) s (index, pos) s) (conj eq_refl Htag))).
  cbn [fst].
  destruct (lookup_lt_is_Some_2 (_indices s) i) as [ei Hei]; [lia|].
  rewrite (bind_run _ _ _ _ _ (proj2 (indexAt_Ok i s ei s) (conj eq_refl Hei))).
  destruct (multikey ei); [apply IH; [lia|done..]|].
  rewrite (bind_run _ _ _ _ _ (proj2 (indexAt_Ok index s e s) (conj eq_refl He))).
  rewrite bool_decide_eq_true_2 by (destruct (keyPattern e) as [|? [|? ?]]; simpl in *;
                                    [lia..|done]).
  unfold verify. rewrite (bind_run (ret tt) _ s tt s eq_refl).
  destruct (assignFields_total prefix index (tail (keyPattern e)) 0 unassigned s Hleaf)
    as (s1 & Hassign).
  rewrite (bind_run _ _ _ _ _ Hassign).
  apply assignFields_spec in Hassign as (Hs1 & picked & _ & Ht1 & Hnd & Hpicked & _).
  pose proof Hs1 as (_ & Hix & _).
  apply IH.
  - rewrite Hix. lia.
  - intros c Hc. destruct (Hrest c Hc) as (index' & pos' & e' & Htag' & He' & Hkp').
    exists index', pos', e'. rewrite Hix, Ht1. split_and!; try done.
    eapply (tagsGrow_Some (fun _ _ => True)); [|exact Htag'].
    apply tagColumns_grows; [done|]. intros j u Hu.
    destruct (Hpicked j u Hu) as (_ & Hnone & _). done.
  - intros u Hu. eapply leafEntry_reads; [exact Hs1|]. by apply Hleaf.
Qed.

Lemma isCompound_run idx s e :
  _indices s !! idx = Some e -> isCompound idx s = Ok (1 <? length (keyPattern e), s).
Proof.
  intros He. unfold isCompound.
  by rewrite (bind_run _ _ _ _ _ (proj2 (indexAt_Ok idx s e s) (conj eq_refl He))).
Qed.

Lemma partitionChildren_total node a s :
  (forall i c, children node !! i = Some c -> nodeCanUseIndexOnOwnField c = true ->
               leafEntry s (a ++ [i])) ->
  indexTags (length (_indices s)) (_tagData s) ->
  exists parts, partitionChildren node a s = Ok (parts, s) /\
                NoDup (addr <$> parts.1).
Proof.
  intros Hleaf Htags. unfold partitionChildren.
  edestruct (forChildren_total (A := list NodePtr * list NodePtr))
    with (I := fun (i : nat) (parts : list NodePtr * list NodePtr) s1 =>
                 s1 = s /\ NoDup (addr <$> parts.1) /\
                 forall c, c ∈ parts.1 -> exists k, k < i /\ addr c = a ++ [k])
    as (parts & s1 & Hrun & -> & Hnd & _); [| |exists parts; split; [exact Hrun|exact Hnd]].
  { simpl. split_and!; [done|constructor|]. by intros c ?%elem_of_nil. }
  intros i c [ac us] s1 Hc (-> & Hnd & Hbelow). simpl in *.
  assert (Hstep : forall c', c' ∈ ac -> exists k, k < S i /\ addr c' = a ++ [k]).
  { intros c' Hc'. destruct (Hbelow c' Hc') as (k & Hk & Hx). exists k. split; [lia|done]. }
  destruct (nodeCanUseIndexOnOwnField c) eqn:Hown; [|by eexists _, _].
  destruct (leafEntry_entryOf s (a ++ [i])) as (p & Hp & Hx); [by eapply Hleaf|].
  rewrite (bind_run _ _ _ _ _
             (proj2 (predOf_present 131 132 _ s p s
                       (leafEntry_key _ _ (Hleaf i c Hc Hown)))
                    (conj eq_refl Hp))).
  rewrite (bind_run (getTag (a ++ [i])) _ s (_tagData s !! (a ++ [i])) s eq_refl).
  destruct (_tagData s !! (a ++ [i])) as [tag|] eqn:Htag; [|by eexists _, _].
  destruct (Htags _ _ Htag) as (index & pos & -> & Hlt).
  rewrite (bind_run _ _ _ _ _
             (proj2 (indexTagOf_Ok (a ++ [i]) s (index, pos) s) (conj eq_refl Htag))).
  cbn [fst]. destruct (lookup_lt_is_Some_2 (_indices s) index Hlt) as [e He].
  rewrite (bind_run _ _ _ _ _ (isCompound_run index s e He)).
  destruct (1 <? length (keyPattern e)); [|by eexists _, _].
  eexists _, _. split; [done|]. simpl. split_and!; [done| |].
  - rewrite fmap_app. simpl. apply NoDup_app. split_and!; [done| |apply NoDup_singleton].
    intros x Hx' ->%list_elem_of_singleton.
    apply list_elem_of_fmap in Hx' as (c' & Hc'x & Hc').
    destruct (Hbelow c' Hc') as (k & Hk & Hk'). rewrite Hk' in Hc'x.
    apply app_inv_head in Hc'x. injection Hc'x as ->. lia.
  - intros c' [Hc'| ->%list_elem_of_singleton]%elem_of_app; [by apply Hstep|].
    exists i. split; [lia|done].
Qed.

Lemma completeAt_total prefix node a s :
  (forall i c, children node !! i = Some c -> nodeCanUseIndexOnOwnField c = true ->
               leafEntry s (a ++ [i])) ->
  indexTags (length (_indices s)) (_tagData s) ->
  (matchType node = AND ->
   forall k1 k2, is_Some (_tagData s !! (a ++ [k1])) ->
                 is_Some (_tagData s !! (a ++ [k2])) -> k1 = k2) ->
  exists s', completeAt prefix node a s = Ok (tt, s').
Proof.
  intros Hleaf Htags Hone. unfold completeAt.
  case_decide as Hand; [|by eexists].
  destruct (partitionChildren_total node a s Hleaf Htags) as ([ac us] & Hpart & Hnd).
  rewrite (bind_run _ _ _ _ _ Hpart). simpl in *.
  apply partitionChildren_parts in Hpart as (_ & Hus & Hac). simpl in *.
  apply completeCompound_total.
  - destruct ac as [|c1 [|c2 rest]]; simpl; [lia| |].
    + destruct (Hac c1) as (i & index & pos & e & _ & _ & _ & He & _); [by left|].
      apply lookup_lt_Some in He. lia.
    + exfalso.
      destruct (Hac c1) as (i1 & ? & ? & ? & _ & Hx1 & Ht1 & _); [by left|].
      destruct (Hac c2) as (i2 & ? & ? & ? & _ & Hx2 & Ht2 & _); [right; by left|].
      rewrite Hx1 in Ht1. rewrite Hx2 in Ht2.
      assert (i1 = i2) as -> by (by eapply (Hone Hand)).
      simpl in Hnd. apply NoDup_cons in Hnd as [Hnotin _]. apply Hnotin.
      rewrite Hx1, Hx2. by left.
  - intros c Hc. destruct (Hac c Hc) as (i & index & pos & e & _ & _ & Ht & He & Hkp).
    by exists index, pos, e.
  - intros u Hu. destruct (Hus u Hu) as (i & Hi & -> & Hown & _). by eapply Hleaf.
Qed.

(** The completer ends when every node that is indexable on its own
    field has its predicate entry, every tag is an [IndexTag] of an index
    of the catalog, and every conjunction has at most one tagged child. *)
Theorem checkCompound_total node : forall prefix a s,
  leafEntries nodeCanUseIndexOnOwnField s node a ->
  indexTags (length (_indices s)) (_tagData s) ->
  oneTagged (_tagData s) node a ->
  exists s', checkCompound prefix node a s = Ok (tt, s').
Proof.
  induction node as [mt p cs IH] using MatchExpression_ind.
  intros prefix a s Hleaf Htags Hone. rewrite checkCompound_unfold.
  assert (Hcomp : forall s0 prefix' n' a' x tag,
             tagsAndReads (fun _ => True) s s0 -> completed s0 prefix' n' a' x tag ->
             exists index pos, tag = IndexTag index pos /\ index < length (_indices s)).
  { intros s0 prefix' n' a' x tag (_ & Hix & _)
      (? & ? & ? & _ & (? & ? & index & pos & _ & _ & _ & _ & -> & _ & (e & He & _) & _)).
    exists index, pos. split; [done|]. rewrite <- Hix. by eapply lookup_lt_Some. }
  destruct (completeAt_total prefix (MkExpr mt p cs) a s) as (s1 & Hat); [|done|..].
  { intros i c Hc Hown. apply (Hleaf c (a ++ [i])); [|done].
    eapply nodeAt_child; [exact Hc|constructor]. }
  { intros Hand k1 k2. apply (Hone (MkExpr mt p cs) a); [constructor|done]. }
  rewrite (bind_run _ _ _ _ _ Hat).
  pose proof (completeAt_grows _ _ _ _ _ _ Hat) as [Hs1 Hgrow1].
  apply (tagsAndReads_mono _ (fun _ => True)) in Hs1; [|done].
  edestruct (forChildren_total (A := unit))
    with (I := fun (i : nat) (_ : unit) (si : PlanEnumerator) =>
                 tagsAndReads (fun _ => True) s si /\
                 indexTags (length (_indices s)) (_tagData si) /\
                 forall j c, i <= j -> cs !! j = Some c ->
                             oneTagged (_tagData si) c (a ++ [j]))
    as ([] & s' & Hrun & _); [| |by exists s'].
  - split_and!; [done| |].
    + eapply indexTags_grow; [exact Htags|exact Hgrow1|].
      intros x tag Hq. eapply (Hcomp s prefix (MkExpr mt p cs) a x tag).
      * apply tagsAndReads_refl.
      * eexists _, _, _. split; [constructor|exact Hq].
    + intros j c _ Hc.
      eapply oneTagged_below; [|exact (oneTagged_child _ (MkExpr mt p cs) a j c Hc Hone)].
      intros x [l [k ->]]. eapply completeAt_frame; [exact Hat|].
      intros i Heq. rewrite <- app_assoc in Heq. apply app_inv_head in Heq.
      simpl in Heq. destruct l; simpl in Heq; [by injection Heq|].
      injection Heq as _ Heq. by destruct l.
  - simpl. intros i c [] si Hc (Hsi & Hti & Honei).
    rewrite Forall_forall in IH.
    pose proof (list_elem_of_lookup_2 _ _ _ Hc) as Hin.
    destruct (IH c Hin (childPrefix arrayUsesIndexOnChildren prefix (MkExpr mt p cs))
                (a ++ [i]) si) as (s2 & Hrun).
    + intros n' x Hat' Hown. eapply leafEntry_reads; [exact Hsi|].
      apply (Hleaf n' x); [|done]. by eapply nodeAt_child.
    + destruct Hsi as (_ & -> & _). done.
    + by apply (Honei i c).
    + exists tt, s2. split; [done|].
      pose proof (checkCompound_grows _ _ _ _ _ _ Hrun) as [Hs2 Hgrow2].
      apply (tagsAndReads_mono _ (fun _ => True)) in Hs2; [|done].
      split_and!.
      * by eapply tagsAndReads_trans.
      * eapply indexTags_grow; [exact Hti|exact Hgrow2|].
        intros x tag Hq. eapply Hcomp; [exact Hsi|exact Hq].
      * intros j c' Hj Hc'. eapply oneTagged_below; [|apply (Honei j c'); [lia|done]].
        intros x Hx. eapply checkCompound_frame; [exact Hrun|].
        intros Hx'. eapply (under_other a i j); [lia|exact Hx'|exact Hx].
Qed.

End Completer.

(** ** The public operations *)

Section Public.

Variable isLogical : MatchExpression -> bool.
Variable arrayUsesIndexOnChildren : MatchExpression -> bool.
Variable nodeCanUseIndexOnOwnField : MatchExpression -> bool.
Variable kNoIndex : N.
Variable tagForSort : Clone -> Clone.
Variable sortUsingTags : Clone -> Clone.

Local Abbreviation prepMemo :=
  (prepMemo isLogical arrayUsesIndexOnChildren nodeCanUseIndexOnOwnField kNoIndex).
Local Abbreviation checkCompound :=
  (checkCompound arrayUsesIndexOnChildren nodeCanUseIndexOnOwnField).
Local Abbreviation init :=
  (init isLogical arrayUsesIndexOnChildren nodeCanUseIndexOnOwnField kNoIndex).
Local Abbreviation getNext := (getNext tagForSort sortUsingTags).

(** [init] is the builder, the reset of the tags and, for an indexable
    root, the tagger and the completer. *)
Lemma init_run fuel s :
  init fuel s =
  match prepMemo (_root s) [] (beforeBuild s) with
  | Err e => Err e
  | Ok (indexed, s1) =>
      if indexed then
        (tagMemo fuel (default 0 (_nodeToId s1 !! []));;;
         checkCompound "" (_root s) []) (afterBuild s1 true)
      else Ok (tt, afterBuild s1 false)
  end.
Proof.
  unfold init, bind, set_inOrderCount, set_done, modify, gets, resetTag, set_tagData.
  simpl.
  change (mkEnum (_root s) (_indices s) (_nodeToId s) (_memo s) (_curEnum s) 0 false
            (_tagData s)) with (beforeBuild s).
  destruct (prepMemo (_root s) [] (beforeBuild s)) as [[indexed s1]|e] eqn:Hbuild;
    [|done].
  pose proof (prepMemo_builtOver _ _ _ _ _ _ _ _ _ Hbuild) as (Hroot & _).
  simpl in Hroot. simpl.
  destruct indexed; simpl; unfold afterBuild; simpl; rewrite ?Hroot; try done.
  destruct (prepMemo_key _ _ _ _ _ _ _ _ _ Hbuild) as [id Hid];
    [by eapply prepMemo_classified|].
  unfold nodeToId. simpl. by rewrite Hid.
Qed.

Lemma afterBuild_untagged s indexed x : _tagData (afterBuild s indexed) !! x = None.
Proof.
  unfold afterBuild. simpl. apply map_lookup_filter_None. right.
  intros t _ Hx. apply Hx. simpl. apply prefix_nil.
Qed.

(** [init] returns: on a well-formed tree whose tags are relevance tags
    over the catalog, with fuel for every node, none of its steps fails. *)
Theorem init_total (fuel : nat) (root : MatchExpression) (tags : gmap Addr TagData)
    (indices : list IndexEntry) :
  wfTree isLogical arrayUsesIndexOnChildren nodeCanUseIndexOnOwnField root = true ->
  relevanceTags (length indices) tags ->
  treeSize root <= fuel ->
  exists s, init fuel (newPlanEnumerator root tags indices) = Ok (tt, s).
Proof.
  intros Hwf Htags Hfuel. rewrite init_run. simpl.
  change (beforeBuild (newPlanEnumerator root tags indices))
    with (newPlanEnumerator root tags indices).
  destruct (prepMemo_total isLogical arrayUsesIndexOnChildren nodeCanUseIndexOnOwnField
              kNoIndex (length indices) root [] (newPlanEnumerator root tags indices))
    as (indexed & s1 & Hbuild & _ & Hfirst); [done|done| |].
  { intros id soln p Hid. simpl in Hid. by rewrite lookup_empty in Hid. }
  rewrite Hbuild. destruct indexed; [|by eexists].
  pose proof (prepMemo_leafEntries _ _ _ _ _ _ _ _ _ Hwf Hbuild) as Hleaf.
  destruct (prepMemo_built _ _ _ _ _ _ _ _ Hbuild) as (id & Hid & Hsid & Hbuilt).
  pose proof (prepMemo_builtOver _ _ _ _ _ _ _ _ _ Hbuild) as (_ & Hix & _ & Hcnt & _).
  simpl in Hcnt, Hix.
  pose proof (memoOrder_size isLogical arrayUsesIndexOnChildren
                nodeCanUseIndexOnOwnField root []) as Hsize.
  destruct (tagMemo_built _ _ _ _ _ Hbuilt fuel (afterBuild s1 true))
    as (s2 & Hrun & Hs2 & _ & Hone); [lia|done|done| |].
  { intros x _. apply afterBuild_untagged. }
  rewrite Hid. simpl. rewrite (bind_run _ _ _ _ _ Hrun).
  pose proof (tagMemo_grows _ _ _ _ _ Hrun) as [_ Hgrow].
  assert (Hindices : _indices s2 = indices).
  { destruct Hs2 as (_ & -> & _). simpl. done. }
  apply checkCompound_total; [|rewrite Hindices|done].
  - intros n' x Hat Hown. eapply leafEntry_onlyTags; [exact Hs2|].
    destruct (Hleaf n' x Hat Hown) as (id' & soln & p & ? & ? & ? & ? & ?).
    by exists id', soln, p.
  - eapply indexTags_grow; [|exact Hgrow|].
    + intros x tag Hx. by rewrite afterBuild_untagged in Hx.
    + intros x tag (id' & soln & p & index & Hm & Hp & _ & _ & Hin & ->).
      exists index, 0. split; [done|]. simpl in Hm.
      pose proof (Hfirst id' soln p Hm Hp) as Hall. rewrite Forall_forall in Hall.
      by apply Hall.
Qed.

End Public.

(** * The claims of the specification *)

Section BuilderClaims.

Variable isLogical : MatchExpression -> bool.
Variable arrayUsesIndexOnChildren : MatchExpression -> bool.
Variable nodeCanUseIndexOnOwnField : MatchExpression -> bool.
Variable kNoIndex : N.

Local Abbreviation prepMemo :=
  (prepMemo isLogical arrayUsesIndexOnChildren nodeCanUseIndexOnOwnField kNoIndex).
Local Abbreviation memoOrder :=
  (memoOrder isLogical arrayUsesIndexOnChildren nodeCanUseIndexOnOwnField).
Local Abbreviation classified :=
  (classified isLogical arrayUsesIndexOnChildren nodeCanUseIndexOnOwnField).
Local Abbreviation orphans :=
  (orphans isLogical arrayUsesIndexOnChildren nodeCanUseIndexOnOwnField).
Local Abbreviation childBuilds :=
  (childBuilds isLogical arrayUsesIndexOnChildren nodeCanUseIndexOnOwnField kNoIndex).
Local Abbreviation indexable :=
  (indexable isLogical arrayUsesIndexOnChildren nodeCanUseIndexOnOwnField).
Local Abbreviation wfTree :=
  (wfTree isLogical arrayUsesIndexOnChildren nodeCanUseIndexOnOwnField).

Ltac run H :=
  unfold bind, ret, fail, gets, modify, postIncrement, set_nodeToId, set_memo,
    set_curEnum, set_inOrderCount, set_done, nodeToId, memoAt, curEnum, getTag,
    setTag, set_tagData in H; simpl in H.

Ltac run_goal :=
  unfold bind, ret, fail, gets, modify, postIncrement, set_nodeToId, set_memo,
    set_curEnum, set_inOrderCount, set_done, nodeToId, memoAt, curEnum, getTag,
    setTag, set_tagData, verify; simpl.

(** C2, as amended.  A generic logical node without children gets a memo
    entry without options or subnodes.  The build of an empty conjunction
    returns false; the build of an empty disjunction returns true, since
    none of its children is not indexable. *)
Theorem C2_empty_logical_node (node : MatchExpression) (a : Addr) (s : PlanEnumerator) :
  arrayUsesIndexOnChildren node = false ->
  nodeCanUseIndexOnOwnField node = false ->
  isLogical node = true ->
  children node = [] ->
  (matchType node = AND ->
   exists s', prepMemo node a s = Ok (false, s') /\
              _nodeToId s' !! a = Some (_inOrderCount s) /\
              _memo s' !! _inOrderCount s = Some (andSoln (mkAnd []))) /\
  (matchType node = OR ->
   exists s', prepMemo node a s = Ok (true, s') /\
              _nodeToId s' !! a = Some (_inOrderCount s) /\
              _memo s' !! _inOrderCount s = Some (orSoln (mkOr []))).
Proof.
  intros Harr Hown Hlog Hcs. rewrite prepMemo_unfold, Harr, Hown, Hlog, Hcs.
  split; intros Hmt; rewrite Hmt; simpl; run_goal; rewrite lookup_insert_eq; simpl.
  - assert ((if decide (kNoIndex <> kNoIndex /\ 0%N <> kNoIndex)
             then swapAt 0 (N.to_nat kNoIndex) [] else []) = @nil (list nat)) as ->
      by (by case_decide).
    eexists. split; [reflexivity|]. simpl. by rewrite !lookup_insert_eq.
  - eexists. split; [reflexivity|]. simpl. by rewrite !lookup_insert_eq.
Qed.

(** C9.  The build of a conjunction returns on a well-formed tree with
    relevance tags.  It collects one option for each indexable child, in
    child order.  When none of them is a predicate over a geo-nearest
    node, the options of the entry it makes are those collected, in that
    order; otherwise they are those collected with the last such option
    and the option at position 0 exchanged, so that no option is lost
    and the option at position 0 of the entry is a geo-nearest one.  The
    child count fits below the sentinel [kNoIndex]. *)
Theorem C9_geoNear_option_first (node : MatchExpression) (a : Addr)
    (s : PlanEnumerator) :
  arrayUsesIndexOnChildren node = false ->
  nodeCanUseIndexOnOwnField node = false ->
  isLogical node = true ->
  matchType node <> OR ->
  (N.of_nat (numChildren node) <= kNoIndex)%N ->
  (forall n, wfTree node = true ->
             relevanceTags n (_tagData s) -> validFirst n (_memo s) ->
             exists b s', prepMemo node a s = Ok (b, s')) /\
  (forall b s',
      prepMemo node a s = Ok (b, s') ->
      exists bs opts id an,
        bs = overChildren (fun i c => [indexable (_tagData s) c (a ++ [i])])
               (children node) 0 /\
        opts = optionsOf (_nodeToId s') a 0 bs /\
        _nodeToId s' !! a = Some id /\ _memo s' !! id = Some (andSoln an) /\
        ((forall k cid, opts !! k = Some [cid] -> isGeoNear (_memo s') cid = false) ->
         and_subnodes an = opts) /\
        (forall k, lastGeo (_memo s') opts k -> exchanged 0 k opts (and_subnodes an)) /\
        (forall k cid,
           and_subnodes an !! k = Some [cid] -> isGeoNear (_memo s') cid = true ->
           exists cid0, and_subnodes an !! 0 = Some [cid0] /\
                        isGeoNear (_memo s') cid0 = true)).
Proof.
  intros Harr Hown Hlog Hmt Hfit. split.
  { intros n Hwf Htags Hfirst.
    destruct (prepMemo_total isLogical arrayUsesIndexOnChildren
                nodeCanUseIndexOnOwnField kNoIndex n node a s Hwf Htags Hfirst)
      as (b & s' & Hrun & _). by exists b, s'. }
  intros b s'. rewrite prepMemo_unfold, Harr, Hown, Hlog.
  destruct (decide (matchType node = OR)); [done|].
  intros ([collected g] & s1 & Hloop & Htail)%bind_Ok.
  destruct (andLoop_geo _ _ _ _ _ _ _ _ _ _ _ _ _ Hloop) as [Hopts Hgeo].
  { intros k o Hk. done. }
  { left. split; [done|]. intros k cid Hk. done. }
  apply andLoop_spec in Hloop as (bs & Hcb & Hcoll). simpl in Hcoll.
  assert (length collected <= numChildren node) as Hlen.
  { rewrite Hcoll, optionsOf_length. apply childBuilds_length in Hcb.
    unfold numChildren. rewrite <- Hcb. apply length_filter. }
  run Htail. rewrite lookup_insert_eq in Htail. simpl in Htail.
  unfold verify in Htail. case_bool_decide; [|discriminate]. run Htail.
  injection Htail as _ <-. simpl.
  assert (Hsame : optionsOf (<[a := _inOrderCount s1]> (_nodeToId s1)) a 0 bs = collected).
  { rewrite Hcoll. apply optionsOf_before. intros j _.
    rewrite lookup_insert_ne; [done|]. by apply not_eq_sym, snoc_ne. }
  exists bs, collected. eexists _, _.
  split; [|split; [by rewrite Hsame|]].
  { eapply childBuilds_indexable; [|exact Hcb].
    apply Forall_forall. intros c _ a' s0 b0 s0'. apply prepMemo_indexable. }
  split_and!; [by rewrite lookup_insert_eq..| | |]; simpl.
  all: assert (Hagree : forall cid, cid < _inOrderCount s1 ->
             isGeoNear (<[_inOrderCount s1 := andSoln (mkAnd
                (if decide (kNoIndex <> g /\ 0%N <> g)
                 then swapAt 0 (N.to_nat g) collected else collected))]> (_memo s1)) cid
             = isGeoNear (_memo s1) cid)
    by (intros cid Hcid; apply isGeoNear_agree; by rewrite lookup_insert_ne by lia).
  - intros Hno. destruct Hgeo as [[-> _] | (kg & -> & (cidg & Hkg & Hgeog) & _)].
    + case_decide as Hd; [by destruct Hd|done].
    + exfalso. destruct (Hopts kg _ Hkg) as (cid' & [= <-] & Hlt).
      specialize (Hno kg cidg Hkg). rewrite Hagree in Hno by done. congruence.
  - intros k Hlast.
    apply (lastGeo_agree _ (_memo s1) _ _ (_inOrderCount s1) Hopts) in Hlast.
    2:{ intros cid Hcid. by rewrite lookup_insert_ne by lia. }
    destruct Hgeo as [[-> Hno] | (kg & -> & Hlastg)].
    { destruct Hlast as [(cid & Hk & Hgeok) _]. rewrite (Hno k cid Hk) in Hgeok. done. }
    assert (k = kg) as -> by (by eapply lastGeo_unique).
    destruct Hlastg as [(cidg & Hkg & _) _].
    pose proof (lookup_lt_Some _ _ _ Hkg) as Hkglt.
    case_decide as Hswap.
    + rewrite Nat2N.id. apply swapAt_exchanged; lia.
    + assert (kg = 0) as ->; [|apply exchanged_same].
      destruct (decide (kg = 0)) as [|Hne]; [done|].
      exfalso. apply Hswap. split; lia.
  - intros k cid Hk Hgeok.
    assert ([cid] ∈ collected) as Hin.
    { case_decide; [by eapply swapAt_elem | by eapply list_elem_of_lookup_2]. }
    apply list_elem_of_lookup in Hin as [k' Hk'].
    destruct (Hopts k' _ Hk') as (cid' & [= <-] & Hlt).
    rewrite Hagree in Hgeok by done.
    destruct Hgeo as [[-> Hno] | (kg & -> & (cidg & Hkg & Hgeog) & _)].
    { rewrite (Hno k' cid Hk') in Hgeok. done. }
    destruct (Hopts kg _ Hkg) as (cid'' & [= <-] & Hltg).
    pose proof (lookup_lt_Some _ _ _ Hkg) as Hkglt.
    exists cidg. rewrite Hagree by done. split; [|done].
    case_decide as Hswap.
    + rewrite Nat2N.id.
      destruct (collected !! 0) as [x|] eqn:H0; [|apply lookup_ge_None in H0; lia].
      by destruct (swapAt_lookup 0 kg collected x [cidg] H0 Hkg) as [-> _].
    + destruct (decide (kg = 0)) as [->|Hne]; [done|].
      exfalso. apply Hswap. split; lia.
Qed.

(** C5, as amended.  The build of a disjunction returns on a well-formed
    tree with relevance tags.  It builds every child in order, whatever
    the builds before it returned; its entry has one subnode for each
    child, in child order, which is what [_nodeToId] holds for the child
    after the build: for a child the builder gives a memo entry the id
    of that child, lower than the id of the disjunction, and for a child
    it gives none what [_nodeToId] held for it before the build, or 0;
    the build returns true exactly when every child is indexable. *)
Theorem C5_disjunction_entry (node : MatchExpression) (a : Addr)
    (s : PlanEnumerator) :
  arrayUsesIndexOnChildren node = false ->
  nodeCanUseIndexOnOwnField node = false ->
  isLogical node = true ->
  matchType node = OR ->
  (forall n, wfTree node = true ->
             relevanceTags n (_tagData s) -> validFirst n (_memo s) ->
             exists b s', prepMemo node a s = Ok (b, s')) /\
  (forall b s',
      prepMemo node a s = Ok (b, s') ->
      exists bs s1 myID o,
        childBuilds a 0 (children node) s bs s1 /\
        bs = overChildren (fun i c => [indexable (_tagData s) c (a ++ [i])])
               (children node) 0 /\
        length bs = numChildren node /\
        b = forallb id bs /\
        _nodeToId s' !! a = Some myID /\
        _memo s' !! myID = Some (orSoln o) /\
        length (or_subnodes o) = numChildren node /\
        (forall i cid, or_subnodes o !! i = Some cid ->
                       _nodeToId s' !! (a ++ [i]) = Some cid) /\
        (forall i c,
          children node !! i = Some c -> classified c = true ->
          exists cid, or_subnodes o !! i = Some cid /\
                      _nodeToId s' !! (a ++ [i]) = Some cid /\ cid < myID) /\
        (forall i c,
          children node !! i = Some c -> classified c = false ->
          or_subnodes o !! i = Some (default 0 (_nodeToId s !! (a ++ [i]))))).
Proof.
  intros Harr Hown Hlog Hmt. split.
  { intros n Hwf Htags Hfirst.
    destruct (prepMemo_total isLogical arrayUsesIndexOnChildren
                nodeCanUseIndexOnOwnField kNoIndex n node a s Hwf Htags Hfirst)
      as (b & s' & Hrun & _). by exists b, s'. }
  intros b s'. rewrite prepMemo_unfold, Harr, Hown, Hlog.
  destruct (decide (matchType node = OR)); [|done].
  intros (indexed & s1 & Hloop & Htail)%bind_Ok.
  apply orLoop_spec in Hloop as (bs & Hcb & ->). simpl in Htail.
  run Htail. rewrite lookup_insert_eq in Htail. simpl in Htail.
  match type of Htail with
  | match ?m ?s with _ => _ end = _ => destruct (m s) as [[subs s2]|] eqn:Hsubs
  end; [|discriminate].
  apply orSubnodes_spec in Hsubs as [-> ->]. simpl in Htail.
  injection Htail as <- <-. simpl.
  assert (Hsub : forall i, i < length (children node) ->
            map (fun j => default 0 (<[a := _inOrderCount s1]> (_nodeToId s1) !! (a ++ [j])))
              (seq 0 (length (children node))) !! i
            = Some (default 0 (_nodeToId s1 !! (a ++ [i])))).
  { intros i Hi. rewrite list_lookup_fmap, lookup_seq_lt by done. simpl.
    by rewrite lookup_insert_ne by (by apply not_eq_sym, snoc_ne). }
  assert (Hkey : forall i, i < length (children node) ->
            zeroKeys (childSlots a 0 (length (children node)))
              (<[a := _inOrderCount s1]> (_nodeToId s1)) !! (a ++ [i])
            = Some (default 0 (_nodeToId s1 !! (a ++ [i])))).
  { intros i Hi. rewrite zeroKeys_lookup_in.
    - by rewrite lookup_insert_ne by (by apply not_eq_sym, snoc_ne).
    - apply list_elem_of_fmap. exists i. split; [done|]. apply elem_of_seq. lia. }
  eexists bs, s1, _, _. split_and!; [done| |by eapply childBuilds_length|done| | | | | |].
  - eapply childBuilds_indexable; [|exact Hcb].
    apply Forall_forall. intros c _ a' s0 b0 s0'. apply prepMemo_indexable.
  - apply zeroKeys_lookup_Some, lookup_insert_eq.
  - by rewrite lookup_insert_eq.
  - simpl. by rewrite length_map, length_seq.
  - simpl. intros i cid Hi.
    assert (i < length (children node)) as Hlt.
    { apply lookup_lt_Some in Hi. by rewrite length_map, length_seq in Hi. }
    rewrite Hsub in Hi by done. rewrite Hkey by done. done.
  - intros i c Hc Hcl. simpl. pose proof (lookup_lt_Some _ _ _ Hc) as Hlt.
    destruct (childBuilds_lookup _ _ _ _ _ _ _ _ _ _ _ _ Hcb Hc)
      as (bi & si & si' & _ & Hrun & _ & Hkeep). simpl in *.
    destruct (prepMemo_ownId _ _ _ _ _ _ _ _ _ Hrun Hcl) as (cid & Hcid & Hs & _).
    destruct Hkeep as (Hkn & _ & Hkc).
    assert (_nodeToId s1 !! (a ++ [i]) = Some cid) as Hlook by (by rewrite Hkn).
    exists cid. rewrite Hsub, Hkey, Hlook by done. split_and!; [done..|lia].
  - intros i c Hc Hcl. simpl. pose proof (lookup_lt_Some _ _ _ Hc) as Hlt.
    rewrite Hsub by done.
    by rewrite (childBuilds_unclassified _ _ _ _ _ _ _ _ _ _ _ Hcb Hc Hcl).
Qed.

(** C3, as amended.  The build pass from a new enumerator returns on a
    well-formed input.  After it, the nodes that have a memo entry are
    the nodes of [memoOrder]: those the builder reaches through
    array-scoped and generic logical nodes and puts in one of its three
    kinds.  The id of each is its place in that order, which is the
    order in which the builder finalizes them, so that no two of them
    share an id; the keys of the memo are the range below their count.
    The other keys of [_nodeToId] are the children of disjunctions that
    got no entry, each with the value 0.  Every member of an option is a
    lower id; every subnode of a disjunction is what [_nodeToId] holds
    for the child, a lower id when the child has a memo entry. *)
Theorem C3_memo_ids (root : MatchExpression) (tags : gmap Addr TagData)
    (indices : list IndexEntry) :
  (wfTree root = true -> relevanceTags (length indices) tags ->
   exists b s, prepMemo root [] (newPlanEnumerator root tags indices) = Ok (b, s)) /\
  (forall b s,
      prepMemo root [] (newPlanEnumerator root tags indices) = Ok (b, s) ->
      NoDup (memoOrder root []) /\
      _inOrderCount s = length (memoOrder root []) /\
      (forall x k, memoOrder root [] !! k = Some x -> _nodeToId s !! x = Some k) /\
      (forall x k, _nodeToId s !! x = Some k ->
                   memoOrder root [] !! k = Some x \/
                   (x ∈ orphans root [] /\ (x ∉ memoOrder root []) /\ k = 0)) /\
      (forall x, x ∈ orphans root [] -> _nodeToId s !! x = Some 0) /\
      (forall k, is_Some (_memo s !! k) <-> k < length (memoOrder root [])) /\
      (forall x k soln,
          memoOrder root [] !! k = Some x -> _memo s !! k = Some soln ->
          refsLower (_nodeToId s) (memoOrder root []) x k soln)).
Proof.
  split.
  { intros Hwf Htags.
    destruct (prepMemo_total isLogical arrayUsesIndexOnChildren
                nodeCanUseIndexOnOwnField kNoIndex (length indices) root []
                (newPlanEnumerator root tags indices) Hwf Htags)
      as (b & s & Hrun & _); [|by exists b, s].
    intros k soln p Hk. simpl in Hk. by rewrite lookup_empty in Hk. }
  intros b s Hrun.
  pose proof (memoOrder_NoDup isLogical arrayUsesIndexOnChildren
                nodeCanUseIndexOnOwnField root []) as Hnd.
  pose proof (prepMemo_builtOver _ _ _ _ _ _ _ _ _ Hrun)
    as (_ & _ & _ & Hcnt & Hn & Hm & Hsome & _). simpl in *.
  assert (Hids : forall x k, memoOrder root [] !! k = Some x -> _nodeToId s !! x = Some k).
  { intros x k Hk. by rewrite Hn, (assignIds_lookup _ _ _ k) by done. }
  split_and!; try done.
  - intros x k. rewrite Hn.
    intros [(j & Hj & ->) | [Hnotin Hz]]%assignIds_lookup_Some; [by left|right|done].
    destruct (decide (x ∈ orphans root [])) as [Hin|Hnin].
    + rewrite zeroKeys_lookup_in in Hz by done. rewrite lookup_empty in Hz.
      simpl in Hz. injection Hz as <-. done.
    + rewrite zeroKeys_lookup_notin in Hz by done. by rewrite lookup_empty in Hz.
  - intros x Hx. rewrite Hn, assignIds_notin.
    + by rewrite zeroKeys_lookup_in, lookup_empty.
    + by apply orphans_memoOrder.
  - intros k. split.
    + intros Hk. destruct (decide (k < length (memoOrder root []))); [done|].
      rewrite Hm in Hk by lia. by destruct Hk.
    + intros Hk. apply Hsome. lia.
  - intros x k soln Hk Hsoln.
    eapply (prepMemo_refs _ _ _ _ _ _ _ _ _ Hrun); [|by apply Hids|done].
    by eapply list_elem_of_lookup_2.
Qed.

End BuilderClaims.

Section TaggerClaims.

(** C6.  On the entry the build has left for an indexable node, with the
    tree below the node untagged and fuel above the id, the tagger
    returns.  A call of the tagger on a predicate entry finds the node of
    the entry untagged and gives it the tag of the index the cursor
    selects in [first], at position 0, or leaves the state alone when
    [first] is empty.  When the tagger returns, the node of every
    predicate entry it has reached with a non-empty [first] list carries
    that tag, no slot has been overwritten, and every tag that is new has
    position 0 and an index of the [first] list of the entry of its
    node. *)
Theorem C6_tagger_tags (fuel id : nat) (s : PlanEnumerator) :
  (forall node a,
      built (_memo s) (_curEnum s) node a id -> id < fuel ->
      (forall x, a `prefix_of` x -> _tagData s !! x = None) ->
      exists s', tagMemo fuel id s = Ok (tt, s')) /\
  (forall u s',
      tagMemo fuel id s = Ok (u, s') ->
      (forall soln p,
          _memo s !! id = Some soln -> pred soln = Some p ->
          _tagData s !! addr (expr p) = None /\
          match first p !! default 0 (_curEnum s !! id) with
          | Some index =>
              s' = withTags s (<[addr (expr p) := IndexTag index 0]> (_tagData s))
          | None => first p = [] /\ s' = s
          end) /\
      (forall id' soln p index,
          reaches s id id' -> _memo s !! id' = Some soln -> pred soln = Some p ->
          first p !! default 0 (_curEnum s !! id') = Some index ->
          _tagData s' !! addr (expr p) = Some (IndexTag index 0)) /\
      onlyTags s s' /\
      tagsGrow (taggedFirst s) (_tagData s) (_tagData s')).
Proof.
  split.
  { intros node a Hbuilt Hfuel Hnone.
    destruct (tagMemo_built _ _ _ _ _ Hbuilt fuel s Hfuel eq_refl eq_refl Hnone)
      as (s' & Hrun & _). by exists s'. }
  intros u s' Hrun. split_and!.
  - intros soln p Hm Hp. by eapply tagMemo_pred.
  - intros id' soln p index Hreach Hm Hp Hix. by eapply tagMemo_reaches.
  - by eapply tagMemo_grows.
  - by eapply tagMemo_grows.
Qed.

End TaggerClaims.

Section CompleterClaims.

Variable arrayUsesIndexOnChildren : MatchExpression -> bool.
Variable nodeCanUseIndexOnOwnField : MatchExpression -> bool.

Local Abbreviation partitionChildren := (partitionChildren nodeCanUseIndexOnOwnField).
Local Abbreviation checkCompound :=
  (checkCompound arrayUsesIndexOnChildren nodeCanUseIndexOnOwnField).
Local Abbreviation completes :=
  (completes arrayUsesIndexOnChildren nodeCanUseIndexOnOwnField).
Local Abbreviation unassignedOf := (unassignedOf nodeCanUseIndexOnOwnField).
Local Abbreviation assignedCompoundOf := (assignedCompoundOf nodeCanUseIndexOnOwnField).
Local Abbreviation ownFieldSlots := (ownFieldSlots nodeCanUseIndexOnOwnField).


End CompleterClaims.

Section PublicClaims.

Variable isLogical : MatchExpression -> bool.
Variable arrayUsesIndexOnChildren : MatchExpression -> bool.
Variable nodeCanUseIndexOnOwnField : MatchExpression -> bool.
Variable kNoIndex : N.
Variable tagForSort : Clone -> Clone.
Variable sortUsingTags : Clone -> Clone.

Local Abbreviation prepMemo :=
  (prepMemo isLogical arrayUsesIndexOnChildren nodeCanUseIndexOnOwnField kNoIndex).
Local Abbreviation checkCompound :=
  (checkCompound arrayUsesIndexOnChildren nodeCanUseIndexOnOwnField).
Local Abbreviation init :=
  (init isLogical arrayUsesIndexOnChildren nodeCanUseIndexOnOwnField kNoIndex).
Local Abbreviation getNext := (getNext tagForSort sortUsingTags).
Local Abbreviation getNextTimes := (getNextTimes tagForSort sortUsingTags).
Local Abbreviation visits := (visits arrayUsesIndexOnChildren).
Local Abbreviation indexable :=
  (indexable isLogical arrayUsesIndexOnChildren nodeCanUseIndexOnOwnField).
Local Abbreviation wfTree :=
  (wfTree isLogical arrayUsesIndexOnChildren nodeCanUseIndexOnOwnField).

Lemma getNext_done s : _done s = true -> getNext s = Ok ((false, None), s).
Proof. intros Hd. unfold getNext, bind, gets. simpl. by rewrite Hd. Qed.

Lemma getNextTimes_done n s :
  _done s = true -> getNextTimes n s = Ok (replicate n false, s).
Proof.
  intros Hd. induction n as [|n IH]; simpl; [done|].
  unfold bind. rewrite (getNext_done s Hd), IH. done.
Qed.

(** After [init] has returned, the first call of [getNext] returns what
    the build of the root returned, and sets [_done]. *)
Lemma init_getNext (fuel : nat) (root : MatchExpression)
    (tags : gmap Addr TagData) (indices : list IndexEntry) (s : PlanEnumerator) :
  init fuel (newPlanEnumerator root tags indices) = Ok (tt, s) ->
  exists s1 out s',
    prepMemo root [] (newPlanEnumerator root tags indices)
    = Ok (indexable tags root [], s1) /\
    getNext s = Ok ((indexable tags root [], out), s') /\
    out = (if indexable tags root []
           then Some (sortUsingTags (tagForSort (root, _tagData s)))
           else None) /\
    forall n, getNextTimes n s' = Ok (replicate n false, s').
Proof.
  rewrite init_run. simpl.
  change (beforeBuild (newPlanEnumerator root tags indices))
    with (newPlanEnumerator root tags indices).
  destruct (prepMemo root [] _) as [[indexed s1]|e] eqn:Hbuild; [|done].
  pose proof (prepMemo_builtOver _ _ _ _ _ _ _ _ _ Hbuild) as (Hroot & _).
  pose proof (prepMemo_indexable _ _ _ _ _ _ _ _ _ Hbuild) as Hix.
  simpl in Hroot, Hix. rewrite <- Hix. destruct indexed.
  - intros (u1 & s2 & [Hs2 _]%tagMemo_grows & [Hs _]%checkCompound_grows)%bind_Ok.
    pose proof (tagsAndReads_trans _ _ _ _ (onlyTags_reads _ _ _ Hs2) Hs)
      as (Hr & _ & _ & _ & _ & _ & Hd).
    simpl in Hr, Hd. rewrite Hroot in Hr.
    exists s1. eexists _, _. split_and!; [done| |done|].
    + unfold getNext, bind, gets. simpl. rewrite Hd, Hr. simpl. reflexivity.
    + intros n. by apply getNextTimes_done.
  - intros [= <-]. exists s1, None, (afterBuild s1 false).
    split_and!; [done| |done|].
    + by apply getNext_done.
    + intros n. by apply getNextTimes_done.
Qed.

(** After [init] has returned for an indexable root, the root has its
    id, every tag is an [IndexTag], and the node of every predicate
    entry that is reached from the entry of the root under the cursor
    and has a non-empty [first] list carries the index the cursor
    selects there, at position 0.  For a root that is not indexable, no
    node is tagged. *)
Lemma init_tagged (fuel : nat) (root : MatchExpression)
    (tags : gmap Addr TagData) (indices : list IndexEntry) (s : PlanEnumerator) :
  init fuel (newPlanEnumerator root tags indices) = Ok (tt, s) ->
  (indexable tags root [] = true ->
   exists rootId,
     _nodeToId s !! [] = Some rootId /\
     (forall x tag, _tagData s !! x = Some tag ->
                    exists index pos, tag = IndexTag index pos) /\
     (forall id soln p index,
         reaches s rootId id -> _memo s !! id = Some soln -> pred soln = Some p ->
         first p !! default 0 (_curEnum s !! id) = Some index ->
         _tagData s !! addr (expr p) = Some (IndexTag index 0))) /\
  (indexable tags root [] = false -> forall x, _tagData s !! x = None).
Proof.
  rewrite init_run. simpl.
  change (beforeBuild (newPlanEnumerator root tags indices))
    with (newPlanEnumerator root tags indices).
  destruct (prepMemo root [] _) as [[indexed s1]|e] eqn:Hbuild; [|done].
  pose proof (prepMemo_indexable _ _ _ _ _ _ _ _ _ Hbuild) as Hix.
  simpl in Hix. rewrite <- Hix. destruct indexed.
  - intros (u1 & s2 & Htag & Hcheck)%bind_Ok. split; [intros _|done].
    pose proof (tagMemo_grows _ _ _ _ _ Htag) as [Hs2 Hgrow2].
    pose proof (checkCompound_grows _ _ _ _ _ _ _ _ Hcheck) as [Hs Hgrow].
    destruct (prepMemo_key _ _ _ _ _ _ _ _ _ Hbuild) as [rootId Hid];
      [by eapply prepMemo_classified|].
    rewrite Hid in Htag. simpl in Htag.
    pose proof Hs2 as (_ & _ & Hn2 & Hm2 & Hc2 & _).
    pose proof Hs as (_ & _ & Hn & Hm & Hc & _). simpl in Hn2, Hm2, Hc2.
    exists rootId. split_and!.
    + eapply zerosAdded_Some; [exact Hn|]. by rewrite Hn2.
    + intros x tag Hx.
      destruct (Hgrow x) as [Heq | (_ & tag' & Hx' & Hq)].
      * rewrite Heq in Hx.
        destruct (Hgrow2 x) as [Heq2 | (_ & tag' & Hx' & Hq)].
        -- by rewrite Heq2, afterBuild_untagged in Hx.
        -- rewrite Hx in Hx'. injection Hx' as <-.
           destruct Hq as (? & ? & ? & index & _ & _ & _ & _ & _ & ->). eauto.
      * rewrite Hx in Hx'. injection Hx' as <-.
        destruct Hq as (? & ? & ? & _ & (? & ? & index & pos & _ & _ & _ & _ & -> & _)).
        eauto.
    + intros id soln p index Hreach Hsoln Hp Hfirst.
      eapply (tagsGrow_Some _ _ _ _ _ Hgrow).
      eapply (tagMemo_reaches _ _ _ _ _ id soln p index Htag).
      * eapply reaches_agree; [| |exact Hreach]; simpl; congruence.
      * simpl. by rewrite <- Hm2, <- Hm.
      * done.
      * simpl. by rewrite <- Hc2, <- Hc.
  - intros [= <-]. split; [done|]. intros _ x. apply afterBuild_untagged.
Qed.

(** C4.  On every well-formed input (the kinds and arities of the tree
    are consistent, the tags are relevance tags over the catalog), with
    fuel for every node, [init] returns; the first call of [getNext]
    after it returns whether the root is indexable, which is what the
    build of the root returned: true, with the post-processed clone of
    the tagged tree, when it is, and false otherwise; every call after
    the first returns false.  The tags of the clone are those [init]
    left: every one is an [IndexTag], and the node of every predicate
    entry reached from the entry of the root under the cursor with a
    non-empty [first] list carries the index the cursor selects there,
    at position 0; for a root that is not indexable no node is tagged. *)
Theorem C4_getNext_once (fuel : nat) (root : MatchExpression)
    (tags : gmap Addr TagData) (indices : list IndexEntry) :
  wfTree root = true ->
  relevanceTags (length indices) tags ->
  treeSize root <= fuel ->
  exists s s1 out s',
    init fuel (newPlanEnumerator root tags indices) = Ok (tt, s) /\
    prepMemo root [] (newPlanEnumerator root tags indices)
    = Ok (indexable tags root [], s1) /\
    getNext s = Ok ((indexable tags root [], out), s') /\
    out = (if indexable tags root []
           then Some (sortUsingTags (tagForSort (root, _tagData s)))
           else None) /\
    (forall n, getNextTimes n s' = Ok (replicate n false, s')) /\
    (indexable tags root [] = true ->
     exists rootId,
       _nodeToId s !! [] = Some rootId /\
       (forall x tag, _tagData s !! x = Some tag ->
                      exists index pos, tag = IndexTag index pos) /\
       (forall id soln p index,
           reaches s rootId id -> _memo s !! id = Some soln -> pred soln = Some p ->
           first p !! default 0 (_curEnum s !! id) = Some index ->
           _tagData s !! addr (expr p) = Some (IndexTag index 0))) /\
    (indexable tags root [] = false -> forall x, _tagData s !! x = None).
Proof.
  intros Hwf Htags Hfuel.
  destruct (init_total isLogical arrayUsesIndexOnChildren nodeCanUseIndexOnOwnField
              kNoIndex fuel root tags indices Hwf Htags Hfuel) as [s Hinit].
  destruct (init_getNext fuel root tags indices s Hinit)
    as (s1 & out & s' & Hbuild & Hnext & Hout & Hrest).
  destruct (init_tagged fuel root tags indices s Hinit) as [Htagged Hnone].
  by exists s, s1, out, s'.
Qed.

(** C8.  [init] returns on a well-formed input, with fuel for every
    node.  After [init], at every node the completer has visited the
    positions of each index among the tags of the children are closed
    downwards, that is, they form a prefix of the key columns.  The loop
    over the key-pattern elements of an index gives the next columns to
    the nodes it picks, one each and in order, and ends at the first
    element that has no candidate; besides the tags it changes
    [_nodeToId] only, where its reads at nodes of [unassigned] insert a
    key of value 0, and nothing but the tags when those keys are
    there. *)
Theorem C8_compound_contiguous (fuel : nat) (root : MatchExpression)
    (tags : gmap Addr TagData) (indices : list IndexEntry) :
  (wfTree root = true -> relevanceTags (length indices) tags -> treeSize root <= fuel ->
   exists s, init fuel (newPlanEnumerator root tags indices) = Ok (tt, s)) /\
  (forall s prefix n a,
      init fuel (newPlanEnumerator root tags indices) = Ok (tt, s) ->
      visits "" root [] prefix n a -> downclosed a (_tagData s)) /\
  (forall prefix index it posInIdx unassigned s0 u0 s1,
      assignFields prefix index it posInIdx unassigned s0 = Ok (u0, s1) ->
      exists picked,
        length picked <= length it /\
        _tagData s1 = tagColumns index posInIdx picked (_tagData s0) /\
        tagsAndReads (fun x => x ∈ addr <$> unassigned) s0 s1 /\
        ((forall w, w ∈ unassigned -> is_Some (_nodeToId s0 !! addr w)) ->
         s1 = withTags s0 (tagColumns index posInIdx picked (_tagData s0))) /\
        NoDup (addr <$> picked) /\
        (forall j w, picked !! j = Some w ->
           w ∈ unassigned /\ _tagData s0 !! addr w = None /\
           it !! j = Some (prefix +:+ path (target w))) /\
        (forall fieldName, it !! length picked = Some fieldName ->
           forall w, w ∈ unassigned -> ~ candidate s1 prefix fieldName index w)).
Proof.
  split_and!.
  - apply init_total.
  - intros s prefix n a. rewrite init_run. simpl.
    destruct (prepMemo root [] _) as [[indexed s1]|e] eqn:Hbuild; [|done].
    destruct indexed.
    + intros (u1 & s2 & [Hs2 Hgrow]%tagMemo_grows & Hcheck)%bind_Ok.
      revert prefix n a. eapply checkCompound_downclosed; [exact Hcheck|].
      intros x index pos _ Hx.
      destruct (Hgrow x) as [Heq|(_ & tag & Htag & (? & ? & ? & ? & ? & ? & ? & ? & ? & ->))].
      * rewrite Heq, afterBuild_untagged in Hx. done.
      * rewrite Hx in Htag. by injection Htag as _ ->.
    + intros [= <-] _ index pos i Hx.
      by rewrite afterBuild_untagged in Hx.
  - intros prefix index it posInIdx unassigned s0 u0 s1 Hrun.
    apply assignFields_spec in Hrun as (Hs1 & picked & Hlen & Ht & Hnd & Hpicked & Hstop).
    exists picked. split_and!; try done.
    + intros Hkeys. rewrite <- Ht. apply (tagsAndReads_exact _ _ _ Hs1).
      intros x (w & -> & Hw)%list_elem_of_fmap. by apply Hkeys.
    + intros j w Hj. destruct (Hpicked j w Hj) as (? & ? & ? & _). done.
Qed.

(** C10.  With fuel for every node of the tree, [init] never fails in
    the tagger: none of its [verify]s fails, the one of line 373 that the
    node of a predicate entry is untagged among them, and the fuel does
    not run out.  After a build pass that found the root indexable and
    the reset of the tags, the tagger returns. *)
Theorem C10_tagger_asserts_hold (fuel : nat) (root : MatchExpression)
    (tags : gmap Addr TagData) (indices : list IndexEntry) :
  treeSize root <= fuel ->
  (forall e, init fuel (newPlanEnumerator root tags indices) = Err e ->
             taggerError e = false) /\
  (forall s1,
      prepMemo root [] (newPlanEnumerator root tags indices) = Ok (true, s1) ->
      exists s2, tagMemo fuel (default 0 (_nodeToId s1 !! [])) (afterBuild s1 true)
                 = Ok (tt, s2)).
Proof.
  intros Hfuel.
  assert (Htag : forall s1,
    prepMemo root [] (newPlanEnumerator root tags indices) = Ok (true, s1) ->
    exists s2, tagMemo fuel (default 0 (_nodeToId s1 !! [])) (afterBuild s1 true)
               = Ok (tt, s2)).
  { intros s1 Hbuild.
    destruct (prepMemo_built _ _ _ _ _ _ _ _ Hbuild) as (id & Hid & Hsid & Hbuilt).
    pose proof (prepMemo_builtOver _ _ _ _ _ _ _ _ _ Hbuild) as (_ & _ & _ & Hcnt & _).
    simpl in Hcnt.
    pose proof (memoOrder_size isLogical arrayUsesIndexOnChildren
                  nodeCanUseIndexOnOwnField root []) as Hsize.
    destruct (tagMemo_built _ _ _ _ _ Hbuilt fuel (afterBuild s1 true))
      as (s2 & Hrun & _); [lia|done|done| |].
    - intros x _. apply afterBuild_untagged.
    - exists s2. by rewrite Hid. }
  split; [|done].
  intros e. rewrite init_run. simpl.
  change (beforeBuild (newPlanEnumerator root tags indices))
    with (newPlanEnumerator root tags indices).
  destruct (prepMemo root [] _) as [[indexed s1]|e'] eqn:Hbuild.
  - destruct indexed; [|done].
    destruct (Htag s1 eq_refl) as [s2 Hrun].
    intros [Herr | ([] & s2' & _ & Herr)]%bind_Err; [congruence|].
    by eapply checkCompound_Err.
  - intros [= <-]. by apply prepMemo_Err in Hbuild as [-> | ->].
Qed.

End PublicClaims.

(** * Worked examples *)

Section Worked.

Import Sample Examples.

(** C1.  The completer reads the multikey flag of the catalog entry at
    its loop counter, not of the index the child is tagged with: it skips
    the child whenever the entry at the loop counter is multikey.  With
    the children tagged for index 1: when index 1 is multikey and index 0
    is not, the sibling is completed at position 1 all the same; when
    index 0 is multikey and index 1 is not, the completion is skipped. *)
Theorem C1_multikey_read_at_loop_counter :
  (forall prefix i child rest unassigned s index pos e,
      _tagData s !! addr child = Some (IndexTag index pos) ->
      _indices s !! i = Some e -> multikey e = true ->
      completeCompound prefix i (child :: rest) unassigned s
      = completeCompound prefix (S i) rest unassigned s) /\
  (exists s, Sample.init 3 (newPlanEnumerator andCD tagsCD (catalogCD false true))
             = Ok (tt, s) /\
             multikey <$> _indices s !! 1 = Some true /\
             _tagData s !! [0] = Some (IndexTag 1 0) /\
             _tagData s !! [1] = Some (IndexTag 1 1)) /\
  (exists s, Sample.init 3 (newPlanEnumerator andCD tagsCD (catalogCD true false))
             = Ok (tt, s) /\
             multikey <$> _indices s !! 1 = Some false /\
             _tagData s !! [0] = Some (IndexTag 1 0) /\
             _tagData s !! [1] = None).
Proof.
  split.
  { intros prefix i child rest unassigned s index pos e Htag He Hmk. simpl.
    rewrite (bind_run _ _ _ _ _
               (proj2 (indexTagOf_Ok (addr child) s (index, pos) s) (conj eq_refl Htag))).
    rewrite (bind_run _ _ _ _ _ (proj2 (indexAt_Ok i s e s) (conj eq_refl He))).
    by rewrite Hmk. }
  split; eexists; (split; [vm_compute; reflexivity|]); by vm_compute.
Qed.

(** C2 as stated fails for the disjunction without children: its build
    returns true, not false. *)
Lemma C2_empty_disjunction_is_indexable :
  (exists s', Sample.prepMemo emptyOr [] (newPlanEnumerator emptyOr ∅ []) = Ok (true, s') /\
              _memo s' !! 0 = Some (orSoln (mkOr []))) /\
  ~ (exists s', Sample.prepMemo emptyOr [] (newPlanEnumerator emptyOr ∅ [])
                = Ok (false, s')).
Proof.
  split.
  - eexists. split; [vm_compute; reflexivity | by vm_compute].
  - intros [s' Hrun]. vm_compute in Hrun. discriminate.
Qed.

(** C2 on the conjunction without children. *)
Lemma C2_witness :
  exists s', Sample.prepMemo emptyAnd [] (newPlanEnumerator emptyAnd ∅ []) = Ok (false, s') /\
             _nodeToId s' !! [] = Some 0 /\
             _memo s' !! 0 = Some (andSoln (mkAnd [])).
Proof.
  destruct (C2_empty_logical_node isLogical arrayUsesIndexOnChildren
              nodeCanUseIndexOnOwnField kNoIndex emptyAnd []
              (newPlanEnumerator emptyAnd ∅ []) eq_refl eq_refl eq_refl eq_refl)
    as [Hand _].
  exact (Hand eq_refl).
Defined.

(** C3 as stated fails for the disjunction of a size test.  The size test
    is reachable from the root and gets no memo entry; the read of its
    id by the disjunction leaves it in [_nodeToId] with the value 0,
    which is the id of the disjunction: two nodes share the one id there
    is, and the entry with the id 0 lists 0 as its subnode, a reference
    that is not to a lower id. *)
Lemma C3_unclassified_child_shares_id :
  exists s, Sample.prepMemo orSize [] (newPlanEnumerator orSize ∅ []) = Ok (false, s) /\
            children orSize !! 0 = Some (leaf SIZE "b") /\
            _nodeToId s !! [0] = Some 0 /\
            _nodeToId s !! [] = Some 0 /\
            _inOrderCount s = 1 /\
            _memo s !! 0 = Some (orSoln (mkOr [0])).
Proof.
  eexists. split; [vm_compute; reflexivity|]. by vm_compute.
Qed.

(** C3 on the conjunction of two comparisons: the children get the ids
    0 and 1 and the conjunction the id 2, and [_nodeToId] has no other
    key. *)
Lemma C3_witness :
  exists b s,
    Sample.prepMemo andAB [] enumAB = Ok (b, s) /\
    _inOrderCount s = 3 /\
    (forall x k, [[0]; [1]; []] !! k = Some x -> _nodeToId s !! x = Some k) /\
    (forall x k, _nodeToId s !! x = Some k -> [[0]; [1]; []] !! k = Some x) /\
    (forall k, is_Some (_memo s !! k) <-> k < 3) /\
    (forall x k soln,
        [[0]; [1]; []] !! k = Some x -> _memo s !! k = Some soln ->
        refsLower (_nodeToId s) [[0]; [1]; []] x k soln).
Proof.
  destruct (C3_memo_ids isLogical arrayUsesIndexOnChildren nodeCanUseIndexOnOwnField
              kNoIndex andAB tagsAB catalogAB) as [Hret Hprops].
  destruct Hret as (b & s & Hrun);
    [reflexivity | apply map_Forall_to_list; vm_compute; repeat constructor |].
  destruct (Hprops b s Hrun) as (_ & Hcount & Hids & Hkeys & _ & Hmemo & Hrefs).
  exists b, s. split; [exact Hrun|].
  assert (Examples.memoOrder andAB [] = [[0]; [1]; []]) as Horder by reflexivity.
  assert (orphans isLogical arrayUsesIndexOnChildren nodeCanUseIndexOnOwnField andAB []
          = []) as Horphans by reflexivity.
  unfold Examples.memoOrder in Horder.
  rewrite Horder in Hcount, Hids, Hkeys, Hmemo, Hrefs. rewrite Horphans in Hkeys.
  split_and!; try assumption.
  intros x k Hk. destruct (Hkeys x k Hk) as [?|[Hin _]]; [assumption|].
  by apply elem_of_nil in Hin.
Defined.

(** C4 on the conjunction of two comparisons, which is indexable: the
    tree that [getNext] yields has the first child tagged with index 0
    at position 0 and the second at position 1. *)
Lemma C4_witness :
  exists s out s',
    Sample.init 3 (newPlanEnumerator andAB tagsAB catalogAB) = Ok (tt, s) /\
    Examples.indexable tagsAB andAB [] = true /\
    Sample.getNext s = Ok ((true, out), s') /\
    out = Some (andAB, <[[0] := IndexTag 0 0]> (<[[1] := IndexTag 0 1]> ∅)) /\
    forall n, getNextTimes id id n s' = Ok (replicate n false, s').
Proof.
  destruct (C4_getNext_once isLogical arrayUsesIndexOnChildren
              nodeCanUseIndexOnOwnField kNoIndex id id 3 andAB tagsAB catalogAB)
    as (s & s1 & out & s' & Hinit & Hbuild & Hnext & Hout & Hrest & _).
  - reflexivity.
  - apply map_Forall_to_list. vm_compute. repeat constructor.
  - vm_compute. lia.
  - exists s, out, s'.
    split_and!; [exact Hinit|reflexivity|exact Hnext| |exact Hrest].
    rewrite Hout. vm_compute in Hinit. injection Hinit as <-. vm_compute. reflexivity.
Defined.

(** C5 as stated fails for the disjunction of a comparison and a size
    test.  The size test gets no memo entry: the build makes two
    entries, for the comparison and for the disjunction.  The subnode
    listed for the size test is 0, what the read of its id leaves in
    [_nodeToId], and 0 is the id of its sibling, whose entry it is. *)
Lemma C5_subnode_of_child_without_entry :
  exists s p, Sample.prepMemo orASize [] (newPlanEnumerator orASize tagsA catalogA)
              = Ok (false, s) /\
              _inOrderCount s = 2 /\
              _nodeToId s !! [] = Some 1 /\
              _memo s !! 1 = Some (orSoln (mkOr [0; 0])) /\
              _nodeToId s !! [0] = Some 0 /\
              _nodeToId s !! [1] = Some 0 /\
              _memo s !! 0 = Some (predSoln p) /\ addr (expr p) = [0].
Proof.
  eexists _, _. split; [vm_compute; reflexivity|]. by vm_compute.
Qed.

(** C5 on the disjunction of two comparisons. *)
Lemma C5_witness :
  exists b s' myID o,
    Sample.prepMemo orAB [] (newPlanEnumerator orAB tagsOrAB catalogOrAB) = Ok (b, s') /\
    _nodeToId s' !! [] = Some myID /\
    _memo s' !! myID = Some (orSoln o) /\
    length (or_subnodes o) = 2 /\
    (forall i cid, or_subnodes o !! i = Some cid ->
                   _nodeToId s' !! ([] ++ [i]) = Some cid) /\
    forall i c,
      children orAB !! i = Some c ->
      classified isLogical arrayUsesIndexOnChildren nodeCanUseIndexOnOwnField c = true ->
      exists cid, or_subnodes o !! i = Some cid /\
                  _nodeToId s' !! ([] ++ [i]) = Some cid /\ cid < myID.
Proof.
  destruct (C5_disjunction_entry isLogical arrayUsesIndexOnChildren
              nodeCanUseIndexOnOwnField kNoIndex orAB []
              (newPlanEnumerator orAB tagsOrAB catalogOrAB)
              eq_refl eq_refl eq_refl eq_refl) as [Hret Hprops].
  destruct (Hret (length catalogOrAB)) as (b & s' & Hrun);
    [reflexivity | apply map_Forall_to_list; vm_compute; repeat constructor | |].
  { intros k soln p Hk. simpl in Hk. by rewrite lookup_empty in Hk. }
  destruct (Hprops b s' Hrun)
    as (bs & s1 & myID & o & _ & _ & _ & _ & Hid & Hmemo & Hlen & Hall & Hsub & _).
  exists b, s', myID, o.
  split_and!; [exact Hrun|exact Hid|exact Hmemo|exact Hlen|exact Hall|exact Hsub].
Defined.

(** C6 on the memo of the conjunction of two comparisons: the tagger
    reaches the first child and tags it with index 0 at position 0. *)
Lemma C6_witness :
  tagMemo 3 2 builtAB = Ok (tt, taggedAB) /\
  _tagData taggedAB !! [0] = Some (IndexTag 0 0) /\
  onlyTags builtAB taggedAB /\
  tagsGrow (taggedFirst builtAB) (_tagData builtAB) (_tagData taggedAB).
Proof.
  assert (tagMemo 3 2 builtAB = Ok (tt, taggedAB)) as Hrun by (vm_compute; reflexivity).
  destruct (C6_tagger_tags 3 2 builtAB) as [_ Hprops].
  destruct (Hprops tt taggedAB Hrun) as (_ & _ & Honly & Hgrow).
  split_and!; [exact Hrun|vm_compute; reflexivity|exact Honly|exact Hgrow].
Defined.


(** C8 on the conjunction of two comparisons: the positions 0 and 1 of
    the compound index are both taken. *)
Lemma C8_witness :
  exists s,
    Sample.init 3 enumAB = Ok (tt, s) /\
    _tagData s !! [1] = Some (IndexTag 0 1) /\
    downclosed [] (_tagData s).
Proof.
  destruct (C8_compound_contiguous isLogical arrayUsesIndexOnChildren
              nodeCanUseIndexOnOwnField kNoIndex 3 andAB tagsAB catalogAB)
    as (Hret & Hdown & _).
  destruct Hret as (s & Hinit);
    [reflexivity | apply map_Forall_to_list; vm_compute; repeat constructor
    | vm_compute; lia |].
  exists s. split_and!; [exact Hinit| |].
  - vm_compute in Hinit. injection Hinit as <-. vm_compute. reflexivity.
  - apply (Hdown s "" andAB [] Hinit). constructor.
Defined.

(** C9 on a conjunction whose third child is a geo-nearest leaf: its
    option and the first option change places, and the second stays. *)
Lemma C9_witness :
  exists b s' myID an,
    Sample.prepMemo andABGeo [] (newPlanEnumerator andABGeo tagsABGeo catalogABGeo)
    = Ok (b, s') /\
    _nodeToId s' !! [] = Some myID /\
    _memo s' !! myID = Some (andSoln an) /\
    exchanged 0 2 [[0]; [1]; [2]] (and_subnodes an) /\
    and_subnodes an = [[2]; [1]; [0]] /\
    isGeoNear (_memo s') 2 = true.
Proof.
  assert (Hfit : (N.of_nat (numChildren andABGeo) <= kNoIndex)%N)
    by (vm_compute; discriminate).
  destruct (C9_geoNear_option_first isLogical arrayUsesIndexOnChildren
              nodeCanUseIndexOnOwnField kNoIndex andABGeo []
              (newPlanEnumerator andABGeo tagsABGeo catalogABGeo)
              eq_refl eq_refl eq_refl ltac:(discriminate) Hfit) as [_ Hprops].
  eexists _, _.
  match goal with
  | |- exists myID an, _ = Ok (?b, ?s') /\ _ =>
      destruct (Hprops b s')
        as (bs & opts & myID & an & Hbs & Hopts & Hid & Hmemo & _ & Hlast & _)
  end.
  - vm_compute. reflexivity.
  - exists myID, an. vm_compute in Hbs. subst bs. vm_compute in Hopts. subst opts.
    specialize (Hlast 2).
    vm_compute in Hid. injection Hid as <-.
    vm_compute in Hmemo. injection Hmemo as <-.
    split_and!; try (vm_compute; reflexivity).
    apply Hlast. split.
    + exists 2. split; vm_compute; reflexivity.
    + intros k' cid' Hlt Hk'. apply lookup_lt_Some in Hk'. simpl in Hk'. lia.
Defined.

(** C10 on the conjunction of two comparisons. *)
Lemma C10_witness :
  (forall e, Sample.init 3 enumAB = Err e -> taggerError e = false) /\
  (forall s1,
      Sample.prepMemo andAB [] enumAB = Ok (true, s1) ->
      exists s2, tagMemo 3 (default 0 (_nodeToId s1 !! [])) (afterBuild s1 true)
                 = Ok (tt, s2)).
Proof.
  apply (C10_tagger_asserts_hold isLogical arrayUsesIndexOnChildren
           nodeCanUseIndexOnOwnField kNoIndex 3 andAB tagsAB catalogAB).
  vm_compute. lia.
Defined.

End Worked.

(** * Further properties of the enumerator *)

Ltac run H :=
  unfold bind, ret, fail, gets, modify, postIncrement, set_nodeToId, set_memo,
    set_curEnum, set_inOrderCount, set_done, nodeToId, memoAt, curEnum, getTag,
    setTag, set_tagData in H; simpl in H.

Ltac run_goal :=
  unfold bind, ret, fail, gets, modify, postIncrement, set_nodeToId, set_memo,
    set_curEnum, set_inOrderCount, set_done, nodeToId, memoAt, curEnum, getTag,
    setTag, set_tagData; simpl.

Section BuilderInvariants.

Variable isLogical : MatchExpression -> bool.
Variable arrayUsesIndexOnChildren : MatchExpression -> bool.
Variable nodeCanUseIndexOnOwnField : MatchExpression -> bool.
Variable kNoIndex : N.

Local Abbreviation prepMemo :=
  (prepMemo isLogical arrayUsesIndexOnChildren nodeCanUseIndexOnOwnField kNoIndex).
Local Abbreviation arrayLoop :=
  (arrayLoop isLogical arrayUsesIndexOnChildren nodeCanUseIndexOnOwnField kNoIndex).
Local Abbreviation orLoop :=
  (orLoop isLogical arrayUsesIndexOnChildren nodeCanUseIndexOnOwnField kNoIndex).
Local Abbreviation andLoop :=
  (andLoop isLogical arrayUsesIndexOnChildren nodeCanUseIndexOnOwnField kNoIndex).
Local Abbreviation indexable :=
  (indexable isLogical arrayUsesIndexOnChildren nodeCanUseIndexOnOwnField).
Local Abbreviation wfTree :=
  (wfTree isLogical arrayUsesIndexOnChildren nodeCanUseIndexOnOwnField).
Local Abbreviation memoOrder :=
  (memoOrder isLogical arrayUsesIndexOnChildren nodeCanUseIndexOnOwnField).
Local Abbreviation childBuilds :=
  (childBuilds isLogical arrayUsesIndexOnChildren nodeCanUseIndexOnOwnField kNoIndex).

(** A property of the state that the last writes of the builder at a
    node keep is kept by the whole build. *)
Lemma prepMemo_preserves (J : PlanEnumerator -> Prop) :
  (forall a node s s', J s -> finishes a node s s' -> J s') ->
  forall node a s b s', prepMemo node a s = Ok (b, s') -> J s -> J s'.
Proof.
  intros Hstep. induction node as [mt p cs IH] using MatchExpression_ind.
  intros a s b s' Hrun HJ. rewrite Forall_forall in IH.
  assert (Hloop : forall {A} (body : nat -> MatchExpression -> A -> M A) acc r s1,
             (forall i c acc s acc' s',
                 body i c acc s = Ok (acc', s') ->
                 exists b, prepMemo c (a ++ [i]) s = Ok (b, s')) ->
             forChildren body cs 0 acc s = Ok (r, s1) -> J s1).
  { intros A body acc r s1 Hbody Hloop.
    apply (forChildren_inv body (fun _ _ s2 => J s2) cs acc s r s1 Hloop HJ).
    intros i c acc1 t1 acc2 t2 Hc HJ1 Hb. apply Hbody in Hb as [b' Hb].
    eapply IH; [by eapply list_elem_of_lookup_2|exact Hb|exact HJ1]. }
  rewrite prepMemo_unfold in Hrun. simpl in Hrun.
  destruct (arrayUsesIndexOnChildren _); [|destruct (nodeCanUseIndexOnOwnField _);
    [|destruct (isLogical _); [destruct (decide (mt = OR))|]]].
  - apply bind_Ok in Hrun as (subnodes & s1 & Hl & Htail).
    apply Hloop in Hl; [|apply arrayLoop_body].
    run Htail. rewrite lookup_insert_eq in Htail. simpl in Htail.
    injection Htail as <- <-. eapply (Hstep a (MkExpr mt p cs)); [exact Hl|]. apply finishes_choice.
  - run Hrun. rewrite lookup_insert_eq in Hrun. simpl in Hrun.
    destruct (_tagData s !! a) as [[f nf|]|] eqn:Htag; simpl in Hrun;
      [|discriminate|]; injection Hrun as <- <-; (eapply (Hstep a (MkExpr mt p cs)); [exact HJ|]).
    + by apply finishes_tagged.
    + by apply finishes_untagged.
  - apply bind_Ok in Hrun as (indexed & s1 & Hl & Htail).
    apply Hloop in Hl; [|apply orLoop_body].
    run Htail. rewrite lookup_insert_eq in Htail. simpl in Htail.
    match type of Htail with
    | match ?m ?st with _ => _ end = _ => destruct (m st) as [[subs s2]|] eqn:Hsubs
    end; [|discriminate].
    apply orSubnodes_spec in Hsubs as [-> ->]. simpl in Htail. injection Htail as <- <-.
    eapply (Hstep a (MkExpr mt p cs)); [exact Hl|].
    apply (finishes_all a _ s1 _ (childSlots a 0 (length cs))). apply childSlots_slot.
  - apply bind_Ok in Hrun as ([subnodes g] & s1 & Hl & Htail).
    apply Hloop in Hl; [|intros i c acc; apply andLoop_body].
    run Htail. rewrite lookup_insert_eq in Htail. simpl in Htail.
    unfold verify in Htail. case_bool_decide; [|discriminate]. run Htail.
    injection Htail as <- <-. eapply (Hstep a (MkExpr mt p cs)); [exact Hl|]. apply finishes_choice.
  - run Hrun. by injection Hrun as <- <-.
Qed.

Lemma prepMemo_oneKind node a s b s' :
  prepMemo node a s = Ok (b, s') ->
  (forall id soln, _memo s !! id = Some soln -> oneKind soln) ->
  forall id soln, _memo s' !! id = Some soln -> oneKind soln.
Proof.
  apply (prepMemo_preserves
           (fun s => forall id soln, _memo s !! id = Some soln -> oneKind soln)).
  clear. intros a node s s' HJ Hfin id soln.
  destruct Hfin; simpl; (destruct (decide (_inOrderCount s = id)) as [<-|Hne];
    [rewrite lookup_insert_eq; intros [= <-]
    |rewrite lookup_insert_ne by done; apply HJ]).
  - right. left. by eexists.
  - left. by eexists.
  - left. by eexists.
  - right. right. by eexists.
Qed.

Lemma prepMemo_cursorsZero node a s b s' :
  prepMemo node a s = Ok (b, s') -> cursorsZero (_curEnum s) -> cursorsZero (_curEnum s').
Proof.
  apply (prepMemo_preserves (fun s => cursorsZero (_curEnum s))).
  clear. intros a node s s' HJ Hfin id.
  destruct Hfin; simpl; try apply HJ;
    (destruct (decide (_inOrderCount s = id)) as [<-|Hne];
     [by rewrite lookup_insert_eq | rewrite lookup_insert_ne by done; apply HJ]).
Qed.

Lemma prepMemo_fromTags tags0 node a s b s' :
  prepMemo node a s = Ok (b, s') -> fromTags tags0 s -> fromTags tags0 s'.
Proof.
  apply (prepMemo_preserves (fromTags tags0)).
  clear. intros a node s s' [Ht Hm] Hfin.
  assert (Hold : forall soln0 id soln p,
             pred soln0 = None ->
             <[_inOrderCount s := soln0]> (_memo s) !! id = Some soln ->
             pred soln = Some p ->
             (first p = firstOf (tags0 !! addr (expr p)) \/ first p = []) /\
             (notFirst p = notFirstOf (tags0 !! addr (expr p)) \/ notFirst p = [])).
  { intros soln0 id soln p Hnone Hid Hp.
    destruct (decide (_inOrderCount s = id)) as [<-|Hne].
    - rewrite lookup_insert_eq in Hid. injection Hid as <-. congruence.
    - rewrite lookup_insert_ne in Hid by done. by eapply Hm. }
  destruct Hfin as [s subnodes|s Htag|s f nf Htag|s subnodes]; split; simpl.
  - exact Ht.
  - intros id soln p. by apply (Hold (andSoln (mkAnd subnodes))).
  - exact Ht.
  - intros id soln p Hid Hp. destruct (decide (_inOrderCount s = id)) as [<-|Hne].
    + rewrite lookup_insert_eq in Hid. injection Hid as <-. injection Hp as <-.
      simpl. split; by right.
    + rewrite lookup_insert_ne in Hid by done. by eapply Hm.
  - intros x. destruct (decide (a = x)) as [<-|Hne].
    + right. by rewrite lookup_insert_eq.
    + rewrite lookup_insert_ne by done. apply Ht.
  - intros id soln p Hid Hp. destruct (decide (_inOrderCount s = id)) as [<-|Hne].
    + rewrite lookup_insert_eq in Hid. injection Hid as <-. injection Hp as <-.
      simpl. destruct (Ht a) as [Heq|Heq]; rewrite Htag in Heq.
      * rewrite <- Heq. simpl. split; by left.
      * injection Heq as -> ->. split; by right.
    + rewrite lookup_insert_ne in Hid by done. by eapply Hm.
  - exact Ht.
  - intros id soln p. by apply (Hold (orSoln (mkOr subnodes))).
Qed.

(** On a well-formed tree the build returns, and keeps a property of the
    state that its last writes at a node keep and that rules out an
    [IndexTag] on the tree. *)
Lemma prepMemo_returns (J : PlanEnumerator -> Prop) :
  (forall a node s s', J s -> finishes a node s s' -> J s') ->
  (forall s a index pos, J s -> _tagData s !! a <> Some (IndexTag index pos)) ->
  forall node a s, wfTree node = true -> J s ->
                   exists b s', prepMemo node a s = Ok (b, s') /\ J s'.
Proof.
  intros Hstep Hnotag. induction node as [mt p cs IH] using MatchExpression_ind.
  intros a s Hwf HJ.
  apply wfTree_unfold in Hwf as [Hnode Hcs]. simpl in Hcs.
  assert (Hchild : forall i c s1,
             cs !! i = Some c -> J s1 ->
             exists b s2, prepMemo c (a ++ [i]) s1 = Ok (b, s2) /\ J s2).
  { intros i c s1 Hc HJ1. rewrite Forall_forall in IH, Hcs.
    pose proof (list_elem_of_lookup_2 _ _ _ Hc) as Hin. by apply IH; [|apply Hcs|]. }
  apply wfNode_cases in Hnode. rename Hnode into Hkind. simpl in Hkind.
  rewrite prepMemo_unfold. simpl.
  destruct (arrayUsesIndexOnChildren _); [|destruct (nodeCanUseIndexOnOwnField _);
    [|destruct (isLogical _); [destruct (decide (mt = OR)) as [->|Hne]|]]];
    simpl in Hkind.
  - unfold arrayLoop.
    edestruct (forChildren_total (A := list (list nat)))
      with (I := fun (_ : nat) (_ : list (list nat)) s1 => J s1)
      as (subnodes & s1 & Hloop & HJ1); [| |erewrite (bind_run _ _ _ _ _ Hloop)].
    { exact HJ. }
    { intros i c acc s1 Hc HI. destruct (Hchild i c s1 Hc HI) as (b & s2 & Hrun & HI2).
      rewrite (bind_run _ _ _ _ _ Hrun).
      destruct b; [rewrite (childRead _ _ _ _ _ _ _ _ _ Hrun)|]; run_goal; eauto. }
    run_goal. rewrite lookup_insert_eq. simpl. eexists _, _. split; [done|].
    eapply (Hstep a (MkExpr mt p cs)); [exact HJ1|]. apply finishes_choice.
  - run_goal. rewrite lookup_insert_eq. simpl.
    destruct (_tagData s !! a) as [[f nf|index pos]|] eqn:Htag; simpl.
    + eexists _, _. split; [done|].
      eapply (Hstep a (MkExpr mt p cs)); [exact HJ|]. by apply finishes_tagged.
    + by destruct (Hnotag s a index pos HJ).
    + eexists _, _. split; [done|].
      eapply (Hstep a (MkExpr mt p cs)); [exact HJ|]. by apply finishes_untagged.
  - unfold orLoop.
    edestruct (forChildren_total (A := bool))
      with (I := fun (_ : nat) (_ : bool) s1 => J s1)
      as (indexed & s1 & Hloop & HJ1); [| |erewrite (bind_run _ _ _ _ _ Hloop)].
    { exact HJ. }
    { intros i c acc s1 Hc HI. destruct (Hchild i c s1 Hc HI) as (b & s2 & Hrun & HI2).
      rewrite (bind_run _ _ _ _ _ Hrun). run_goal. eauto. }
    run_goal. rewrite lookup_insert_eq. simpl. rewrite orSubnodes_run.
    simpl. eexists _, _. split; [done|].
    eapply (Hstep a (MkExpr OR p cs)); [exact HJ1|].
    apply (finishes_all a _ s1 _ (childSlots a 0 (length cs))). apply childSlots_slot.
  - assert (mt = AND) as -> by (by destruct Hkind). unfold andLoop.
    edestruct (forChildren_total (A := list (list nat) * N))
      with (I := fun (_ : nat) (_ : list (list nat) * N) s1 => J s1)
      as ([subnodes g] & s1 & Hloop & HJ1); [| |erewrite (bind_run _ _ _ _ _ Hloop)].
    { exact HJ. }
    { intros i c [acc g] s1 Hc HI.
      destruct (Hchild i c s1 Hc HI) as (b & s2 & Hrun & HI2).
      rewrite (bind_run _ _ _ _ _ Hrun).
      destruct b; [rewrite (childRead _ _ _ _ _ _ _ _ _ Hrun)|]; run_goal; [|eauto].
      destruct (_memo s2 !! _) as [[[p'|] ? ?]|]; [case_decide|..]; eauto. }
    run_goal. rewrite lookup_insert_eq. simpl. eexists _, _. split; [done|].
    eapply (Hstep a (MkExpr AND p cs)); [exact HJ1|]. apply finishes_choice.
  - run_goal. eauto.
Qed.

Lemma noEmptyOr_unfold node :
  noEmptyOr node = true <->
  ~ (matchType node = OR /\ children node = []) /\
  Forall (fun c => noEmptyOr c = true) (children node).
Proof.
  destruct node as [mt p cs]. simpl.
  rewrite andb_true_iff, negb_true_iff, andb_false_iff, forallb_forall, Forall_forall,
    !bool_decide_eq_false.
  split; intros [Hn Hcs]; split.
  - intros [? ?]. by destruct Hn.
  - intros c Hc. apply Hcs. by apply list_elem_of_In.
  - destruct (decide (mt = OR)); [right; intros ?; by apply Hn|by left].
  - intros c Hc. apply Hcs. by apply list_elem_of_In.
Qed.

Lemma kids_all_false (f : nat -> MatchExpression -> list bool) cs : forall i0,
  (forall j c, cs !! j = Some c -> f (i0 + j) c = [false]) ->
  existsb id (overChildren f cs i0) = false /\
  (cs <> [] -> forallb id (overChildren f cs i0) = false).
Proof.
  induction cs as [|c cs IH]; intros i0 Hf; simpl; [done|].
  pose proof (Hf 0 c eq_refl) as H0. rewrite Nat.add_0_r in H0. rewrite H0. simpl.
  split; [|done]. apply IH. intros j c' Hc'.
  replace (S i0 + j) with (i0 + S j) by lia. by apply Hf.
Qed.

(** Without a tag on the tree nothing is indexable, unless a disjunction
    has no children. *)
Lemma indexable_untagged tags node : forall a,
  untagged tags -> noEmptyOr node = true -> indexable tags node a = false.
Proof.
  induction node as [mt p cs IH] using MatchExpression_ind. intros a Hnone Hno.
  apply noEmptyOr_unfold in Hno as [Hor Hcs]. simpl in Hor, Hcs.
  rewrite Forall_forall in IH, Hcs.
  destruct (kids_all_false (fun i c => [indexable tags c (a ++ [i])]) cs 0)
    as [Hex Hall].
  { intros j c Hc. simpl. f_equal.
    pose proof (list_elem_of_lookup_2 _ _ _ Hc) as Hin. by apply IH; [| |apply Hcs]. }
  rewrite indexable_unfold. simpl.
  destruct (arrayUsesIndexOnChildren _); [done|].
  destruct (nodeCanUseIndexOnOwnField _); [by rewrite Hnone|].
  destruct (isLogical _); [|done].
  destruct (decide (mt = OR)) as [->|]; [|done]. apply Hall. intros ->. by apply Hor.
Qed.

(** X1.  What the build of a node returns is decided by the tree below
    the node and the tags on it alone, whatever the memo and the catalog
    hold: it is the rule that a node indexable on its own field counts
    when the [first] list of its tag is non-empty, an array-scoped node or
    a conjunction when some child counts, a disjunction when every child
    does, and any other node never. *)
Theorem X1_build_result (node : MatchExpression) (a : Addr) (s : PlanEnumerator)
    (b : bool) (s' : PlanEnumerator) :
  prepMemo node a s = Ok (b, s') ->
  b = indexable (_tagData s) node a /\
  b = (let kids := overChildren (fun i c => [indexable (_tagData s) c (a ++ [i])])
                     (children node) 0 in
       if arrayUsesIndexOnChildren node then existsb id kids
       else if nodeCanUseIndexOnOwnField node then
              negb (bool_decide (firstOf (_tagData s !! a) = []))
            else if isLogical node then
                   if decide (matchType node = OR) then forallb id kids
                   else existsb id kids
                 else false).
Proof.
  intros Hrun. pose proof (prepMemo_indexable _ _ _ _ _ _ _ _ _ Hrun) as Hb.
  split; [exact Hb|]. rewrite Hb, indexable_unfold. simpl.
  destruct (arrayUsesIndexOnChildren node); [done|].
  destruct (nodeCanUseIndexOnOwnField node); [|done].
  destruct (_tagData s !! a) as [[f nf|]|]; simpl; try done.
Qed.

(** X2.  The build fails in two ways only: at the [verify] of line 357,
    and by reading an [IndexTag] as a relevance tag.  It does fail the
    second way on a node indexable on its own field that carries an
    [IndexTag], and it never returns on a generic logical node that is
    neither a conjunction nor a disjunction. *)
Theorem X2_build_failures (node : MatchExpression) (a : Addr) (s : PlanEnumerator) :
  (forall e, prepMemo node a s = Err e -> e = BadCast \/ e = VerifyFailed 357) /\
  (arrayUsesIndexOnChildren node = false -> nodeCanUseIndexOnOwnField node = true ->
   forall index pos, _tagData s !! a = Some (IndexTag index pos) ->
                     prepMemo node a s = Err BadCast) /\
  (arrayUsesIndexOnChildren node = false -> nodeCanUseIndexOnOwnField node = false ->
   isLogical node = true -> matchType node <> OR -> matchType node <> AND ->
   exists e, prepMemo node a s = Err e).
Proof.
  split_and!.
  - intros e. apply prepMemo_Err.
  - intros Harr Hown index pos Htag. rewrite prepMemo_unfold, Harr, Hown.
    run_goal. rewrite lookup_insert_eq. simpl. by rewrite Htag.
  - intros Harr Hown Hlog Hor Hand.
    destruct (prepMemo node a s) as [[b s']|e] eqn:Hrun; [exfalso|by exists e].
    rewrite prepMemo_unfold, Harr, Hown, Hlog in Hrun.
    destruct (decide (matchType node = OR)); [done|].
    apply bind_Ok in Hrun as ([subnodes g] & s1 & _ & Htail).
    run Htail. rewrite lookup_insert_eq in Htail. simpl in Htail.
    unfold verify in Htail. by case_bool_decide.
Qed.

Lemma swapAt_elem_iff {A} i j (v : list A) x : x ∈ swapAt i j v <-> x ∈ v.
Proof.
  split.
  - intros [k Hk]%list_elem_of_lookup. by eapply swapAt_elem.
  - intros [k Hk]%list_elem_of_lookup. unfold swapAt.
    destruct (v !! i) as [xi|] eqn:Hi; [|by eapply list_elem_of_lookup_2].
    destruct (v !! j) as [xj|] eqn:Hj; [|by eapply list_elem_of_lookup_2].
    pose proof (lookup_lt_Some _ _ _ Hi). pose proof (lookup_lt_Some _ _ _ Hj).
    destruct (decide (k = j)) as [->|Hkj].
    + assert (x = xj) as -> by congruence.
      destruct (decide (i = j)) as [->|Hij].
      * assert (xi = xj) as -> by congruence.
        apply (list_elem_of_lookup_2 _ j).
        by rewrite list_lookup_insert_eq by (by rewrite length_insert).
      * apply (list_elem_of_lookup_2 _ i).
        by rewrite list_lookup_insert_ne, list_lookup_insert_eq by done.
    + destruct (decide (k = i)) as [->|Hki].
      * assert (x = xi) as -> by congruence.
        apply (list_elem_of_lookup_2 _ j).
        by rewrite list_lookup_insert_eq by (by rewrite length_insert).
      * apply (list_elem_of_lookup_2 _ k).
        by rewrite !list_lookup_insert_ne by done.
Qed.

Lemma optionsOf_elem m a i bs j :
  bs !! j = Some true -> [default 0 (m !! (a ++ [i + j]))] ∈ optionsOf m a i bs.
Proof.
  revert i j. induction bs as [|b bs IH]; intros i j Hj; [done|].
  destruct j as [|j]; simpl in *.
  - injection Hj as ->. rewrite Nat.add_0_r. by left.
  - apply elem_of_app. right. replace (i + S j) with (S i + j) by lia. by apply IH.
Qed.

Lemma overChildren_singleton_lookup {B} (f : nat -> MatchExpression -> B) cs : forall i0 j,
  overChildren (fun i c => [f i c]) cs i0 !! j = f (i0 + j) <$> cs !! j.
Proof.
  induction cs as [|c cs IH]; intros i0 j; simpl; [done|].
  destruct j as [|j]; simpl; [by rewrite Nat.add_0_r|].
  rewrite IH. by replace (S i0 + j) with (i0 + S j) by lia.
Qed.

(** X10.  The entry of an array-scoped node or a conjunction holds one
    option for each indexable child and no other: an option is the
    one-member list of the memo id of a child that is indexable, so the
    options are as many as the indexable children, and the build returns
    true exactly when there is one. *)
Theorem X10_choice_options (node : MatchExpression) (a : Addr) (s : PlanEnumerator)
    (b : bool) (s' : PlanEnumerator) :
  arrayUsesIndexOnChildren node = true \/
  (nodeCanUseIndexOnOwnField node = false /\ isLogical node = true /\
   matchType node <> OR) ->
  prepMemo node a s = Ok (b, s') ->
  exists id an,
    _nodeToId s' !! a = Some id /\ _memo s' !! id = Some (andSoln an) /\
    (forall o, o ∈ and_subnodes an <->
               exists i c cid,
                 children node !! i = Some c /\
                 indexable (_tagData s) c (a ++ [i]) = true /\
                 _nodeToId s' !! (a ++ [i]) = Some cid /\ cid < id /\ o = [cid]) /\
    length (and_subnodes an)
    = length (filter (fun b => b = true)
                (overChildren (fun i c => [indexable (_tagData s) c (a ++ [i])])
                   (children node) 0)) /\
    (b = true <-> and_subnodes an <> []).
Proof.
  intros Hkind Hrun.
  assert (exists bs s1 collected opts,
             childBuilds a 0 (children node) s bs s1 /\
             collected = optionsOf (_nodeToId s1) a 0 bs /\
             (forall o, o ∈ opts <-> o ∈ collected) /\
             length opts = length collected /\
             b = (0 <? length opts) /\
             _nodeToId s' = <[a := _inOrderCount s1]> (_nodeToId s1) /\
             _memo s' !! _inOrderCount s1 = Some (andSoln (mkAnd opts)))
    as (bs & s1 & collected & opts & Hcb & Hcoll & Hiff & Hlen & Hb & Hn & Hm).
  { rewrite prepMemo_unfold in Hrun.
    destruct (arrayUsesIndexOnChildren node).
    - apply bind_Ok in Hrun as (subnodes & s1 & Hloop & Htail).
      apply arrayLoop_spec in Hloop as (bs & Hcb & ->). simpl in Htail.
      run Htail. rewrite lookup_insert_eq in Htail. simpl in Htail.
      injection Htail as <- <-. simpl. eexists bs, s1, _, _.
      split_and!; try done. by rewrite lookup_insert_eq.
    - destruct Hkind as [|(Hown & Hlog & Hor)]; [done|]. rewrite Hown, Hlog in Hrun.
      destruct (decide (matchType node = OR)); [done|].
      apply bind_Ok in Hrun as ([subnodes g] & s1 & Hloop & Htail).
      apply andLoop_spec in Hloop as (bs & Hcb & ->). simpl in Htail.
      run Htail. rewrite lookup_insert_eq in Htail. simpl in Htail.
      unfold verify in Htail. case_bool_decide; [|discriminate]. run Htail.
      injection Htail as <- <-. simpl. eexists bs, s1, _, _.
      split_and!; [exact Hcb|reflexivity| | |reflexivity|reflexivity|
                   by rewrite lookup_insert_eq].
      + intros o. case_decide; [apply swapAt_elem_iff|done].
      + case_decide; [apply swapAt_length|done]. }
  pose proof (childBuilds_indexable isLogical arrayUsesIndexOnChildren
                nodeCanUseIndexOnOwnField kNoIndex a 0 (children node) s bs s1) as Hbs.
  rewrite <- Hbs; [|apply Forall_forall; intros c _ a' s0 b0 s0'; apply prepMemo_indexable
                   |exact Hcb].
  assert (Hchild : forall j,
             bs !! j = Some true ->
             exists c cid,
               children node !! j = Some c /\
               indexable (_tagData s) c (a ++ [j]) = true /\
               _nodeToId s1 !! (a ++ [j]) = Some cid /\ cid < _inOrderCount s1).
  { intros j Hj.
    destruct (childBuilds_ownId _ _ _ _ _ _ _ _ _ _ _ Hcb Hj) as (cid & Hcid & Hlt).
    pose proof Hj as Hj'. rewrite Hbs in Hj'; [|
      apply Forall_forall; intros c _ a' s0 b0 s0'; apply prepMemo_indexable|exact Hcb].
    rewrite overChildren_singleton_lookup in Hj'. simpl in Hj'.
    destruct (children node !! j) as [c|]; [|done]. injection Hj' as Hj'.
    exists c, cid. done. }
  exists (_inOrderCount s1), (mkAnd opts). simpl.
  split_and!; [by rewrite Hn, lookup_insert_eq|exact Hm| | |].
  - intros o. rewrite Hiff, Hcoll. split.
    + intros [k Hk]%list_elem_of_lookup.
      apply optionsOf_lookup in Hk as (j & Hj & ->). simpl.
      destruct (Hchild j Hj) as (c & cid & Hc & Hix & Hcid & Hlt).
      exists j, c, cid. rewrite Hn, lookup_insert_ne by (by apply not_eq_sym, snoc_ne).
      split_and!; try done. by rewrite Hcid.
    + intros (i & c & cid & Hc & Hix & Hcid & Hlt & ->).
      rewrite Hn, lookup_insert_ne in Hcid by (by apply not_eq_sym, snoc_ne).
      assert (bs !! i = Some true) as Hi.
      { rewrite Hbs; [|apply Forall_forall; intros c' _ a' s0 b0 s0';
                        apply prepMemo_indexable|exact Hcb].
        rewrite overChildren_singleton_lookup, Hc. simpl. by rewrite Hix. }
      pose proof (optionsOf_elem (_nodeToId s1) a 0 bs i Hi) as Hin.
      simpl in Hin. by rewrite Hcid in Hin.
  - by rewrite Hlen, Hcoll, optionsOf_length.
  - rewrite Hb. destruct opts; simpl; split; done.
Qed.

(** The builds of the children from [i] on leave the tags of the other
    nodes alone. *)
Lemma childBuilds_tags_other a i cs s bs s' y :
  childBuilds a i cs s bs s' ->
  (forall k, i <= k -> ~ (a ++ [k]) `prefix_of` y) ->
  _tagData s' !! y = _tagData s !! y.
Proof.
  induction 1 as [|i c cs s b s1 bs s2 Hc Hcb IH]; intros Hy; [done|].
  rewrite IH by (intros k Hk; apply Hy; lia).
  apply prepMemo_builtOver in Hc as (_ & _ & _ & _ & _ & _ & _ & _ & Ht).
  apply Ht. apply Hy. lia.
Qed.

(** The build of one child in a loop over the children, with the tags
    below the child as they were before the loop and as they are after
    it. *)
Lemma childBuilds_lookup_tags a i0 cs s bs s' j c :
  childBuilds a i0 cs s bs s' ->
  cs !! j = Some c ->
  exists b s1 s2,
    prepMemo c (a ++ [i0 + j]) s1 = Ok (b, s2) /\
    (forall y, (a ++ [i0 + j]) `prefix_of` y -> _tagData s1 !! y = _tagData s !! y) /\
    (forall y, (a ++ [i0 + j]) `prefix_of` y -> _tagData s' !! y = _tagData s2 !! y) /\
    keeps (a ++ [i0 + j]) s2 s'.
Proof.
  intros Hcb. revert j. induction Hcb as [|i c' cs s b s1 bs s2 Hc Hcb IH]; intros j Hj.
  - done.
  - destruct j as [|j]; simpl in Hj.
    + injection Hj as ->. exists b, s, s1. rewrite Nat.add_0_r. split_and!; try done.
      * intros y Hy. eapply childBuilds_tags_other; [exact Hcb|].
        intros k Hk Hp. eapply (prefix_snoc_ne a y i k); [lia|done..].
      * apply childBuilds_builtOver in Hcb. eapply builtOver_keeps; [exact Hcb| |].
        -- intros x (k & c' & _ & Hx)%elem_of_overChildren Hp.
           apply memoOrder_prefix in Hx.
           eapply (prefix_snoc_ne a x i (S i + k)); [lia|done..].
        -- intros x (k & c' & _ & Hx)%elem_of_overChildren Hp.
           apply orphans_prefix in Hx.
           eapply (prefix_snoc_ne a x i (S i + k)); [lia|done..].
    + destruct (IH j Hj) as (b' & s1' & s2' & Hrun & Hbefore & Hafter & Hk).
      replace (S i + j) with (i + S j) in * by lia.
      exists b', s1', s2'. split_and!; try done.
      intros y Hy. rewrite Hbefore by done.
      apply prepMemo_builtOver in Hc as (_ & _ & _ & _ & _ & _ & _ & _ & Ht).
      apply Ht. intros Hp. eapply (prefix_snoc_ne a y i (i + S j)); [lia|done..].
Qed.

(** The last writes of the build of a node that has a loop over its
    children. *)
Lemma prepMemo_inner_finishes node a s b s' :
  prepMemo node a s = Ok (b, s') ->
  arrayUsesIndexOnChildren node = true \/
  (nodeCanUseIndexOnOwnField node = false /\ isLogical node = true) ->
  exists bs s1, childBuilds a 0 (children node) s bs s1 /\ finishes a node s1 s'.
Proof.
  rewrite prepMemo_unfold. intros Hrun Hkind.
  destruct (arrayUsesIndexOnChildren node).
  - apply bind_Ok in Hrun as (subnodes & s1 & Hloop & Htail).
    apply arrayLoop_spec in Hloop as (bs & Hcb & _). exists bs, s1.
    run Htail. rewrite lookup_insert_eq in Htail. simpl in Htail.
    injection Htail as <- <-. split; [done|]. apply finishes_choice.
  - destruct Hkind as [|[Hown Hlog]]; [done|]. rewrite Hown, Hlog in Hrun.
    destruct (decide (matchType node = OR)).
    + apply bind_Ok in Hrun as (indexed & s1 & Hloop & Htail).
      apply orLoop_spec in Hloop as (bs & Hcb & _). exists bs, s1.
      run Htail. rewrite lookup_insert_eq in Htail. simpl in Htail.
      match type of Htail with
      | match ?m ?st with _ => _ end = _ => destruct (m st) as [[subs s2]|] eqn:Hsubs
      end; [|discriminate].
      apply orSubnodes_spec in Hsubs as [-> ->]. simpl in Htail. injection Htail as <- <-.
      split; [done|].
      apply (finishes_all a _ s1 _ (childSlots a 0 (length (children node)))).
      apply childSlots_slot.
    + apply bind_Ok in Hrun as ([subnodes g] & s1 & Hloop & Htail).
      apply andLoop_spec in Hloop as (bs & Hcb & _). exists bs, s1.
      run Htail. rewrite lookup_insert_eq in Htail. simpl in Htail.
      unfold verify in Htail. case_bool_decide; [|discriminate]. run Htail.
      injection Htail as <- <-. split; [done|]. apply finishes_choice.
Qed.

Lemma finishes_other a node s s' :
  finishes a node s s' ->
  (forall x, x <> a ->
     _tagData s' !! x = _tagData s !! x /\
     forall k, _nodeToId s !! x = Some k -> _nodeToId s' !! x = Some k) /\
  (forall k, k < _inOrderCount s -> _memo s' !! k = _memo s !! k) /\
  _inOrderCount s' = S (_inOrderCount s).
Proof.
  intros Hfin. destruct Hfin; simpl; split_and!; try done;
    try (intros k Hk; rewrite lookup_insert_ne; [done|lia]);
    intros x Hx; rewrite ?lookup_insert_ne by done; (split; [done|]);
    intros k Hk; try apply zeroKeys_lookup_Some; by rewrite ?lookup_insert_ne by done.
Qed.

(** The build moves the lists of the relevance tag of every node that is
    indexable on its own field into the predicate entry of the node. *)
Lemma prepMemo_moved node : forall a s b s',
  wfTree node = true -> prepMemo node a s = Ok (b, s') ->
  forall n' x,
    nodeAt node a n' x -> nodeCanUseIndexOnOwnField n' = true ->
    exists id,
      _nodeToId s' !! x = Some id /\ id < _inOrderCount s' /\
      _memo s' !! id
      = Some (predSoln (mkPred (firstOf (_tagData s !! x)) (notFirstOf (_tagData s !! x))
                          (mkPtr x n'))) /\
      _tagData s' !! x = emptied (_tagData s !! x) /\
      forall index pos, _tagData s !! x <> Some (IndexTag index pos).
Proof.
  induction node as [mt p cs IH] using MatchExpression_ind. intros a s b s' Hwf Hrun.
  apply wfTree_unfold in Hwf as [Hnode Hcs]. simpl in Hcs.
  apply wfNode_cases in Hnode. rename Hnode into Hkind. simpl in Hkind.
  assert (Hbelow : forall bs s1,
             childBuilds a 0 cs s bs s1 -> finishes a (MkExpr mt p cs) s1 s' ->
             forall i c n' x, cs !! i = Some c -> nodeAt c (a ++ [i]) n' x ->
                              nodeCanUseIndexOnOwnField n' = true ->
             exists id,
               _nodeToId s' !! x = Some id /\ id < _inOrderCount s' /\
               _memo s' !! id
               = Some (predSoln (mkPred (firstOf (_tagData s !! x))
                                   (notFirstOf (_tagData s !! x)) (mkPtr x n'))) /\
               _tagData s' !! x = emptied (_tagData s !! x) /\
               forall index pos, _tagData s !! x <> Some (IndexTag index pos)).
  { intros bs s1 Hcb Hfin i c n' x Hi Hat Hown.
    destruct (childBuilds_lookup_tags _ _ _ _ _ _ _ _ Hcb Hi)
      as (b' & t1 & t2 & Hb & Hbefore & Hafter & Hkeep).
    simpl in Hb, Hbefore, Hafter, Hkeep. rewrite Forall_forall in IH, Hcs.
    pose proof (list_elem_of_lookup_2 _ _ _ Hi) as Hin.
    destruct (IH c Hin _ _ _ _ (Hcs c Hin) Hb n' x Hat Hown)
      as (id & Hid & Hlt & Hm & Ht & Hno).
    pose proof (nodeAt_prefix _ _ _ _ Hat) as Hpre.
    rewrite Hbefore in Hm, Ht, Hno by done.
    destruct Hkeep as (Hkn & Hkm & Hkc).
    apply finishes_other in Hfin as (Hother & Hmemo & Hcount).
    assert (x <> a) as Hne.
    { intros ->. apply prefix_length in Hpre. rewrite length_app in Hpre.
      simpl in Hpre. lia. }
    destruct (Hother x Hne) as [Htx Hnx].
    exists id. split_and!.
    - apply Hnx. by rewrite Hkn.
    - lia.
    - rewrite Hmemo by lia. by rewrite (proj1 (Hkm id Hlt)).
    - by rewrite Htx, Hafter.
    - exact Hno. }
  intros n' x Hat Hown.
  destruct (arrayUsesIndexOnChildren (MkExpr mt p cs)) eqn:Harr.
  - destruct (prepMemo_inner_finishes _ _ _ _ _ Hrun) as (bs & s1 & Hcb & Hfin);
      [by left|].
    inversion Hat as [|? ? i c ? ? Hi Hat']; subst; [congruence|].
    by eapply Hbelow.
  - destruct (nodeCanUseIndexOnOwnField (MkExpr mt p cs)) eqn:Hnode.
    + simpl in Hkind. subst cs.
      inversion Hat as [|? ? i c ? ? Hi Hat']; subst; [|done].
      rewrite prepMemo_unfold, Harr, Hnode in Hrun. run Hrun.
      rewrite lookup_insert_eq in Hrun. simpl in Hrun.
      destruct (_tagData s !! x) as [[f nf|]|] eqn:Htag; simpl in Hrun;
        [|discriminate|]; injection Hrun as <- <-;
        eexists; simpl; split_and!;
        try apply lookup_insert_eq; try done; lia.
    + destruct (isLogical (MkExpr mt p cs)) eqn:Hlog; simpl in Hkind.
      * destruct (prepMemo_inner_finishes _ _ _ _ _ Hrun) as (bs & s1 & Hcb & Hfin);
          [by right|].
        inversion Hat as [|? ? i c ? ? Hi Hat']; subst; [congruence|].
        by eapply Hbelow.
      * subst cs. inversion Hat as [|? ? i c ? ? Hi Hat']; subst; [congruence|done].
Qed.

(** X11.  The build pass moves the relevance tags into the memo: every
    node of a well-formed tree that is indexable on its own field gets a
    predicate entry that holds the [first] and [notFirst] lists of the
    relevance tag the node came with (empty lists without one) and points
    at the node, and the tag left on the node holds empty lists. *)
Theorem X11_relevance_tags_moved (root : MatchExpression) (tags : gmap Addr TagData)
    (indices : list IndexEntry) (b : bool) (s : PlanEnumerator)
    (n' : MatchExpression) (x : Addr) :
  wfTree root = true ->
  prepMemo root [] (newPlanEnumerator root tags indices) = Ok (b, s) ->
  nodeAt root [] n' x -> nodeCanUseIndexOnOwnField n' = true ->
  exists id f nf,
    match tags !! x with
    | Some tag => tag = RelevantTag f nf /\ _tagData s !! x = Some (RelevantTag [] [])
    | None => f = [] /\ nf = [] /\ _tagData s !! x = None
    end /\
    _nodeToId s !! x = Some id /\
    _memo s !! id = Some (predSoln (mkPred f nf (mkPtr x n'))).
Proof.
  intros Hwf Hrun Hat Hown.
  destruct (prepMemo_moved _ _ _ _ _ Hwf Hrun n' x Hat Hown)
    as (id & Hid & _ & Hm & Ht & Hno).
  simpl in Hm, Ht, Hno.
  exists id, (firstOf (tags !! x)), (notFirstOf (tags !! x)).
  split_and!; [|done..].
  destruct (tags !! x) as [[f nf|index pos]|] eqn:Htag; simpl in *; [done| |done].
  by destruct (Hno index pos).
Qed.

End BuilderInvariants.

Section CompleterExtras.

Variable arrayUsesIndexOnChildren : MatchExpression -> bool.
Variable nodeCanUseIndexOnOwnField : MatchExpression -> bool.

Local Abbreviation partitionChildren := (partitionChildren nodeCanUseIndexOnOwnField).
Local Abbreviation checkCompound :=
  (checkCompound arrayUsesIndexOnChildren nodeCanUseIndexOnOwnField).
Local Abbreviation completeAt := (completeAt nodeCanUseIndexOnOwnField).

(** No child is twice in [assignedCompound]. *)
Lemma partitionChildren_NoDup node a s parts s' :
  partitionChildren node a s = Ok (parts, s') -> NoDup (addr <$> parts.1).
Proof.
  intros Hrun.
  apply (forChildren_inv _
    (fun i (parts : list NodePtr * list NodePtr) _ =>
       NoDup (addr <$> parts.1) /\
       forall c, c ∈ parts.1 -> exists k, k < i /\ addr c = a ++ [k])
    _ _ _ _ _ Hrun).
  - simpl. split; [constructor|]. by intros c ?%elem_of_nil.
  - intros i c [ac us] s1 [ac' us'] s2 Hc [Hnd Hbelow] Hbody. simpl in *.
    assert (Hstep : forall c', c' ∈ ac -> exists k, k < S i /\ addr c' = a ++ [k]).
    { intros c' Hc'. destruct (Hbelow c' Hc') as (k & Hk & Hx). exists k.
      split; [lia|done]. }
    destruct (nodeCanUseIndexOnOwnField c); [|by injection Hbody as <- <- <-].
    apply bind_Ok in Hbody as (p & s3 & _ & Hbody).
    apply bind_Ok in Hbody as (tag & s4 & _ & Hbody).
    destruct tag; [|by injection Hbody as <- <- <-].
    apply bind_Ok in Hbody as (childTag & s5 & _ & Hbody).
    apply bind_Ok in Hbody as (b & s6 & _ & Hbody).
    destruct b; injection Hbody as <- <- <-; [|done]. simpl. split.
    + rewrite fmap_app. simpl. apply NoDup_app. split_and!; [done| |apply NoDup_singleton].
      intros x Hx ->%list_elem_of_singleton.
      apply list_elem_of_fmap in Hx as (c' & Hc'x & Hc').
      destruct (Hbelow c' Hc') as (k & Hk & Hk'). rewrite Hk' in Hc'x.
      apply app_inv_head in Hc'x. injection Hc'x as ->. lia.
    + intros c' [Hc'| ->%list_elem_of_singleton]%elem_of_app; [by apply Hstep|].
      exists i. split; [lia|done].
Qed.

(** X6.  With a catalog in which no key pattern has more than one field,
    the completer changes no tag and nothing else but [_nodeToId], where
    its reads insert a key of value 0 for every child of a conjunction
    that is indexable on its own field and has none; when those keys
    are there, it leaves the whole state unchanged. *)
Theorem X6_no_compound_index (node : MatchExpression) :
  forall (prefix : string) (a : Addr) (s : PlanEnumerator) (u : unit)
         (s' : PlanEnumerator),
    Forall (fun e => length (keyPattern e) <= 1) (_indices s) ->
    checkCompound prefix node a s = Ok (u, s') ->
    s' = withIds s (zeroKeys (ownFieldKeys nodeCanUseIndexOnOwnField node a)
                      (_nodeToId s)) /\
    ((forall x, x ∈ ownFieldKeys nodeCanUseIndexOnOwnField node a ->
                is_Some (_nodeToId s !! x)) -> s' = s).
Proof.
  assert (Hexact : forall node prefix a s u s',
    Forall (fun e => length (keyPattern e) <= 1) (_indices s) ->
    checkCompound prefix node a s = Ok (u, s') ->
    s' = withIds s (zeroKeys (ownFieldKeys nodeCanUseIndexOnOwnField node a)
                      (_nodeToId s))).
  { clear node. induction node as [mt p cs IH] using MatchExpression_ind.
    intros prefix a s u s' Hsingle. rewrite checkCompound_unfold, ownFieldKeys_unfold.
    intros (u1 & s1 & Hat & Hloop)%bind_Ok. simpl in Hloop. simpl.
    rewrite zeroKeys_app.
    assert (s1 = withIds s
              (zeroKeys (if decide (mt = AND)
                         then overChildren
                                (fun i c => if nodeCanUseIndexOnOwnField c
                                            then [a ++ [i]] else []) cs 0
                         else []) (_nodeToId s))) as ->.
    { unfold completeAt in Hat. simpl in Hat.
      case_decide; [|injection Hat as _ <-; symmetry; apply withIds_same].
      apply bind_Ok in Hat as ([ac us] & s2 & Hpart & Hrun).
      pose proof (partitionChildren_reads _ _ _ _ _ _ Hpart) as ->.
      apply partitionChildren_parts in Hpart as (_ & _ & Hac). simpl in *.
      destruct ac as [|c ac]; [by injection Hrun as _ <-|]. exfalso.
      destruct (Hac c) as (i & index & pos & e & _ & _ & _ & He & Hlen); [by left|].
      rewrite Forall_forall in Hsingle.
      pose proof (Hsingle e (list_elem_of_lookup_2 _ _ _ He)). lia. }
    set (m1 := zeroKeys _ (_nodeToId s)) in *.
    pose proof (forChildren_inv _
      (fun i _ s2 => s2 = withIds s
         (zeroKeys (overChildren
                      (fun i c => ownFieldKeys nodeCanUseIndexOnOwnField c (a ++ [i]))
                      (take i cs) 0) m1))
      _ _ _ _ _ Hloop) as Hinv. cbv beta in Hinv. rewrite firstn_all in Hinv.
    apply Hinv; clear Hinv; [done|].
    intros i c [] s2 [] s3 Hc -> Hbody. rewrite Forall_forall in IH.
    rewrite (overChildren_take_S _ _ _ _ Hc), zeroKeys_app.
    by rewrite (IH c (list_elem_of_lookup_2 _ _ _ Hc) _ _ (withIds s _) _ _ Hsingle Hbody). }
  intros prefix a s u s' Hsingle Hrun.
  pose proof (Hexact node prefix a s u s' Hsingle Hrun) as ->.
  split; [done|]. intros Hkeys. by rewrite zeroKeys_present, withIds_same.
Qed.

(** When every conjunction has at most one tagged child, the completer
    reads the multikey flag of the first entry of the catalog only: it
    changes no tag when that entry is multikey. *)
Lemma checkCompound_multikey_first node : forall prefix a s u s' e,
  _indices s !! 0 = Some e -> multikey e = true ->
  oneTagged (_tagData s) node a ->
  checkCompound prefix node a s = Ok (u, s') -> _tagData s' = _tagData s.
Proof.
  induction node as [mt p cs IH] using MatchExpression_ind.
  intros prefix a s u s' e He Hmk Hone. rewrite checkCompound_unfold.
  intros (u1 & s1 & Hat & Hloop)%bind_Ok. simpl in Hloop.
  pose proof (completeAt_grows _ _ _ _ _ _ _ Hat) as [(_ & Hix1 & _) _].
  assert (_tagData s1 = _tagData s) as Ht1.
  { unfold completeAt in Hat. case_decide as Hand; [|by injection Hat as _ <-].
    apply bind_Ok in Hat as ([ac us] & s2 & Hpart & Hrun).
    pose proof (partitionChildren_NoDup _ _ _ _ _ Hpart) as Hnd.
    apply partitionChildren_parts in Hpart as (((_ & Hix2 & _) & Ht2) & _ & Hac).
    simpl in *.
    destruct ac as [|c1 [|c2 ac]]; [by injection Hrun as _ <-| |exfalso].
    - simpl in Hrun.
      apply bind_Ok in Hrun as (childTag & s3 & [-> _]%indexTagOf_Ok & Hrun).
      apply bind_Ok in Hrun as (entry & s4 & [-> Hentry]%indexAt_Ok & Hrun).
      rewrite Hix2, He in Hentry. injection Hentry as <-. rewrite Hmk in Hrun.
      by injection Hrun as _ <-.
    - destruct (Hac c1) as (i1 & ? & ? & ? & _ & Hx1 & Ht1 & _); [by left|].
      destruct (Hac c2) as (i2 & ? & ? & ? & _ & Hx2 & Ht2' & _); [right; by left|].
      rewrite Hx1 in Ht1. rewrite Hx2 in Ht2'.
      assert (i1 = i2) as ->.
      { apply (Hone (MkExpr mt p cs) a i1 i2); [constructor|done|by eexists..]. }
      simpl in Hnd. apply NoDup_cons in Hnd as [Hnotin _]. apply Hnotin.
      rewrite Hx1, Hx2. by left. }
  apply (forChildren_inv _
           (fun _ _ s2 => _tagData s2 = _tagData s /\ _indices s2 = _indices s)
           _ _ _ _ _ Hloop); [done|].
  intros i c [] s2 [] s3 Hc [Ht2 Hix2] Hbody. rewrite Forall_forall in IH.
  pose proof (checkCompound_grows _ _ _ _ _ _ _ _ Hbody) as [(_ & Hix3 & _) _].
  split; [|congruence]. rewrite <- Ht2.
  eapply (IH c); [by eapply list_elem_of_lookup_2| |exact Hmk| |exact Hbody].
  - by rewrite Hix2.
  - rewrite Ht2. by eapply (oneTagged_child _ (MkExpr mt p cs)).
Qed.

(** The tags the completer writes at a conjunction carry the index of a
    child that was tagged before. *)
Lemma completeAt_extends prefix node a s u s' :
  completeAt prefix node a s = Ok (u, s') ->
  tagsGrow (extends (_tagData s) a) (_tagData s) (_tagData s').
Proof.
  unfold completeAt. case_decide as Hand; [|intros [= _ <-]; apply tagsGrow_refl].
  intros ([ac us] & s1 & Hpart & Hrun)%bind_Ok.
  apply partitionChildren_parts in Hpart as ((_ & Ht0) & Hus & Hac). simpl in *.
  apply (completeCompound_inv
           (fun s1 => tagsGrow (extends (_tagData s) a) (_tagData s) (_tagData s1))
           prefix us ac) with (i := 0) (s := s1) (u0 := u);
    [|done|rewrite Ht0; apply tagsGrow_refl].
  clear dependent s1.
  intros c index pos e s1 u1 s2 Hc Htag _ Hgrow Hassign.
  apply assignFields_spec in Hassign as (_ & picked & _ & -> & Hnd & Hpicked & _).
  eapply tagsGrow_trans; [exact Hgrow|].
  apply tagColumns_grows; [done|].
  intros j w Hj. destruct (Hpicked j w Hj) as (Hin & Hnone & _).
  split; [done|].
  destruct (Hus w Hin) as (k' & _ & Hw & _).
  destruct (Hac c Hc) as (k & index0 & pos0 & _ & _ & Hck & Htag0 & _).
  pose proof (tagsGrow_Some _ _ _ _ _ Hgrow Htag0) as Htag1.
  rewrite Htag in Htag1. injection Htag1 as -> ->.
  exists k, k', index0, (1 + j), pos0. by rewrite <- Hck.
Qed.

Lemma oneIndex_below tags tags' node a :
  (forall x, under a x -> tags' !! x = tags !! x) ->
  oneIndex tags node a -> oneIndex tags' node a.
Proof.
  intros Heq Hone n' a' k1 k2 i1 p1 i2 p2 Hat Hand H1 H2.
  pose proof (nodeAt_prefix _ _ _ _ Hat) as Hpre.
  rewrite Heq in H1, H2 by by apply prefix_slot_under.
  by eapply Hone.
Qed.

(** When every conjunction has at most one tagged child before the
    completer, the tagged children of every conjunction carry one index
    after it. *)
Lemma checkCompound_oneIndex node : forall prefix a s u s',
  checkCompound prefix node a s = Ok (u, s') ->
  oneTagged (_tagData s) node a -> oneIndex (_tagData s') node a.
Proof.
  induction node as [mt p cs IH] using MatchExpression_ind.
  intros prefix a s u s' Hrun Hone. rewrite checkCompound_unfold in Hrun.
  apply bind_Ok in Hrun as (u1 & s1 & Hat & Hloop). simpl in Hloop.
  assert (Hhere : forall k1 k2 i1 p1 i2 p2,
             mt = AND ->
             _tagData s1 !! (a ++ [k1]) = Some (IndexTag i1 p1) ->
             _tagData s1 !! (a ++ [k2]) = Some (IndexTag i2 p2) -> i1 = i2).
  { intros k1 k2 i1 p1 i2 p2 Hand H1 H2.
    pose proof (completeAt_extends _ _ _ _ _ _ Hat) as Hgrow.
    assert (Hsrc : forall k i q,
               _tagData s1 !! (a ++ [k]) = Some (IndexTag i q) ->
               exists k0 q0, _tagData s !! (a ++ [k0]) = Some (IndexTag i q0)).
    { intros k i q Hk. destruct (Hgrow (a ++ [k])) as [Heq|(_ & tag & Htag & Hext)].
      - rewrite Heq in Hk. eauto.
      - rewrite Hk in Htag. injection Htag as <-.
        destruct Hext as (k0 & _ & index & pos & pos' & Hk0 & _ & [= -> ->]). eauto. }
    destruct (Hsrc _ _ _ H1) as (k1' & q1 & Hk1).
    destruct (Hsrc _ _ _ H2) as (k2' & q2 & Hk2).
    assert (k1' = k2') as ->.
    { apply (Hone (MkExpr mt p cs) a k1' k2'); [constructor|done|by eexists..]. }
    congruence. }
  pose proof (forChildren_inv _
    (fun i (_ : unit) si =>
       (forall k, _tagData si !! (a ++ [k]) = _tagData s1 !! (a ++ [k])) /\
       (forall j c, j < i -> cs !! j = Some c -> oneIndex (_tagData si) c (a ++ [j])) /\
       (forall j c, i <= j -> cs !! j = Some c -> oneTagged (_tagData si) c (a ++ [j])))
    _ _ _ _ _ Hloop) as Hinv.
  destruct Hinv as (Hslots & Hdone & _).
  - split_and!; [done|intros; lia|].
    intros j c _ Hc.
    eapply oneTagged_below; [|exact (oneTagged_child _ (MkExpr mt p cs) a j c Hc Hone)].
    intros x [l [k ->]]. eapply completeAt_frame; [exact Hat|].
    intros i Heq. rewrite <- app_assoc in Heq. apply app_inv_head in Heq.
    simpl in Heq. destruct l; simpl in Heq; [by injection Heq|].
    injection Heq as _ Heq. by destruct l.
  - intros i c [] si [] si' Hc (Hslots & Hdone & Htodo) Hbody.
    rewrite Forall_forall in IH.
    pose proof (list_elem_of_lookup_2 _ _ _ Hc) as Hin.
    pose proof (fun x => checkCompound_frame _ _ _ _ _ _ _ _ x Hbody) as Hframe.
    split_and!.
    + intros k. rewrite Hframe; [apply Hslots|apply not_under_slot].
    + intros j c' Hj Hc'. destruct (decide (j = i)) as [->|Hne].
      * assert (c' = c) as -> by congruence.
        eapply (IH c Hin); [exact Hbody|]. apply (Htodo i c); [lia|done].
      * eapply oneIndex_below; [|apply (Hdone j c'); [lia|done]].
        intros x Hx. apply Hframe. intros Hx'.
        by eapply (under_other a i j).
    + intros j c' Hj Hc'. eapply oneTagged_below; [|apply (Htodo j c'); [lia|done]].
      intros x Hx. apply Hframe. intros Hx'.
      eapply (under_other a i j); [lia|exact Hx'|exact Hx].
  - intros n' a' k1 k2 i1 p1 i2 p2 Hnode Hand H1 H2.
    inversion Hnode as [|? ? j c ? ? Hj Hnode']; subst.
    + rewrite Hslots in H1, H2. by eapply Hhere.
    + eapply (Hdone j c); [by eapply lookup_lt_Some|done|exact Hnode'|done..].
Qed.

Lemma pickUnassigned_fails prefix fieldName index posInIdx unassigned : forall s e,
  (forall u, u ∈ unassigned -> is_Some (entryOf s (addr u))) ->
  pickUnassigned prefix fieldName index posInIdx unassigned s = Err e ->
  e = VerifyFailed 196.
Proof.
  induction unassigned as [|u rest IH]; intros s e Hentry; simpl; [done|].
  assert (Hrest : forall u', u' ∈ rest -> is_Some (entryOf s (addr u')))
    by (intros u' Hu'; apply Hentry; by right).
  destruct (negb _); [by apply IH|].
  intros [Htag | (tag & s1 & Htag & Hrun)]%bind_Err; [by run Htag|].
  run Htag. injection Htag as <- <-. destruct (_tagData s !! addr u); [by eapply IH|].
  destruct (Hentry u) as [p Hp]; [by left|].
  rewrite (bind_run _ _ _ _ _ (proj2 (predOf_Ok 194 195 _ s p _) (conj eq_refl Hp)))
    in Hrun.
  apply bind_Err in Hrun as [Hv | ([] & s1 & [_ ->]%verify_Ok & Hrun)].
  - unfold verify in Hv. case_bool_decide; [done|]. by injection Hv as <-.
  - case_bool_decide; [by run Hrun|]. eapply IH; [|exact Hrun].
    intros u' Hu'.
    rewrite (entryOf_reads (fun _ => True) s) by (by apply tagsAndReads_read).
    by apply Hrest.
Qed.

Lemma assignFields_fails prefix index it : forall posInIdx unassigned s e,
  (forall u, u ∈ unassigned -> is_Some (entryOf s (addr u))) ->
  assignFields prefix index it posInIdx unassigned s = Err e -> e = VerifyFailed 196.
Proof.
  induction it as [|kpElt it IH]; intros posInIdx unassigned s e Hentry; simpl; [done|].
  intros [Hpick | (b & s1 & Hpick & Hrun)]%bind_Err; [by eapply pickUnassigned_fails|].
  destruct b; [|done].
  apply pickUnassigned_spec in Hpick as [Hs1 _].
  eapply IH; [|exact Hrun]. intros u' Hu'.
  rewrite (entryOf_reads _ s s1 _ Hs1). by apply Hentry.
Qed.

Lemma completeCompound_fails prefix unassigned assignedCompound : forall i s e,
  (forall c, c ∈ assignedCompound ->
     exists index pos e, _tagData s !! addr c = Some (IndexTag index pos) /\
                         _indices s !! index = Some e /\ 1 < length (keyPattern e)) ->
  (forall u, u ∈ unassigned -> is_Some (entryOf s (addr u))) ->
  completeCompound prefix i assignedCompound unassigned s = Err e ->
  e = OutOfRange \/ e = VerifyFailed 196.
Proof.
  induction assignedCompound as [|child rest IH]; intros i s e Htags Hentry; simpl;
    [done|].
  assert (Hrest : forall c, c ∈ rest ->
            exists index pos e, _tagData s !! addr c = Some (IndexTag index pos) /\
                                _indices s !! index = Some e /\
                                1 < length (keyPattern e))
    by (intros c Hc; apply Htags; by right).
  destruct (Htags child) as (index & pos & e0 & Htag & He & Hkp); [by left|].
  rewrite (bind_run _ _ _ _ _
             (proj2 (indexTagOf_Ok (addr child) s (index, pos) s) (conj eq_refl Htag))).
  cbn [fst].
  intros [->%indexAt_Err | (entry & s1 & [-> _]%indexAt_Ok & Hrun)]%bind_Err; [by left|].
  destruct (multikey entry); [by eapply IH|].
  rewrite (bind_run _ _ _ _ _ (proj2 (indexAt_Ok index s e0 s) (conj eq_refl He)))
    in Hrun.
  rewrite bool_decide_eq_true_2 in Hrun
    by (destruct (keyPattern e0) as [|? [|? ?]]; simpl in *; [lia..|done]).
  unfold verify in Hrun. rewrite (bind_run (ret tt) _ s tt s eq_refl) in Hrun.
  apply bind_Err in Hrun as [Ha | (u1 & s5 & Hassign & Hrun)].
  { right. by eapply assignFields_fails. }
  apply assignFields_spec in Hassign as (Hs5 & picked & _ & Ht5 & Hnd & Hpicked & _).
  pose proof Hs5 as (_ & Hix5 & _).
  eapply IH; [| |exact Hrun].
  - intros c Hc. destruct (Hrest c Hc) as (index' & pos' & e' & Htag' & He' & Hkp').
    exists index', pos', e'. rewrite Hix5, Ht5. split_and!; try done.
    eapply (tagsGrow_Some (fun _ _ => True)); [|exact Htag'].
    apply tagColumns_grows; [done|]. intros j u Hu.
    destruct (Hpicked j u Hu) as (_ & Hnone & _). done.
  - intros u Hu. rewrite (entryOf_reads _ s s5 _ Hs5). by apply Hentry.
Qed.

Lemma partitionChildren_entries node a s parts s' :
  partitionChildren node a s = Ok (parts, s') ->
  forall u, u ∈ parts.2 -> is_Some (entryOf s (addr u)).
Proof.
  intros Hrun.
  apply (forChildren_inv _
    (fun _ (parts : list NodePtr * list NodePtr) s1 =>
       tagsAndReads (fun _ => True) s s1 /\
       forall u, u ∈ parts.2 -> is_Some (entryOf s (addr u)))
    _ _ _ _ _ Hrun).
  - split; [apply tagsAndReads_refl|]. by intros u ?%elem_of_nil.
  - intros i c [ac us] s1 [ac' us'] s2 Hc [Hs1 Hus] Hbody. simpl in *.
    destruct (nodeCanUseIndexOnOwnField c); [|by injection Hbody as <- <- <-].
    apply bind_Ok in Hbody as (p & s3 & [-> Hp]%predOf_Ok & Hbody).
    rewrite (entryOf_reads _ s s1 _ Hs1) in Hp.
    assert (Hs3 : tagsAndReads (fun _ => True) s
                    (withIds s1 (zeroKey (a ++ [i]) (_nodeToId s1)))).
    { eapply tagsAndReads_trans; [exact Hs1|]. by apply tagsAndReads_read. }
    apply bind_Ok in Hbody as (tag & s4 & Htag & Hbody). run Htag.
    injection Htag as <- <-.
    destruct (_tagData s1 !! (a ++ [i])).
    + apply bind_Ok in Hbody as (childTag & s5 & [-> _]%indexTagOf_Ok & Hbody).
      apply bind_Ok in Hbody as (b & s6 & [-> _]%isCompound_Ok & Hbody).
      by destruct b; injection Hbody as <- <- <-.
    + injection Hbody as <- <- <-. split; [done|]. simpl.
      intros u [Hu| ->%list_elem_of_singleton]%elem_of_app; [by apply Hus|].
      simpl. by eexists.
Qed.

(** X13.  The completer fails only at the [verify]s of lines 131, 132
    and 196, on a tag that is not an [IndexTag], or on an index past the
    end of the catalog: the [verify]s of lines 174, 194 and 195 never
    fail, since the loops before them have checked the same facts. *)
Theorem X13_completer_failures (node : MatchExpression) :
  forall (prefix : string) (a : Addr) (s : PlanEnumerator) (e : error),
    checkCompound prefix node a s = Err e -> completerError e = true.
Proof.
  induction node as [mt p cs IH] using MatchExpression_ind.
  intros prefix a s e. rewrite checkCompound_unfold.
  intros [Hat | (u & s1 & _ & Hloop)]%bind_Err.
  - unfold completeAt in Hat. case_decide; [|done].
    apply bind_Err in Hat as [Hpart | ([ac us] & s1 & Hpart & Hrun)].
    + apply forChildren_Err in Hpart as (j & c & [ac us] & s1 & _ & Hb). simpl in Hb.
      destruct (nodeCanUseIndexOnOwnField c); [|done].
      apply bind_Err in Hb as [[-> | ->]%predOf_Err | (p0 & s2 & _ & Hb)]; [done..|].
      apply bind_Err in Hb as [Htag | (tag & s3 & _ & Hb)]; [by run Htag|].
      destruct tag; [|done].
      apply bind_Err in Hb as [->%indexTagOf_Err | (tag' & s4 & _ & Hb)]; [done|].
      apply bind_Err in Hb as [Hc | (b & s5 & _ & Hb)]; [|by destruct b].
      apply bind_Err in Hc as [->%indexAt_Err | (? & ? & _ & ?)]; done.
    + pose proof (partitionChildren_entries _ _ _ _ _ Hpart) as Hentries.
      apply partitionChildren_parts in Hpart as ((Hs1 & Ht1) & _ & Hac). simpl in *.
      pose proof Hs1 as (_ & Hix1 & _).
      destruct (completeCompound_fails prefix us ac 0 s1 e) as [-> | ->]; try done.
      * intros c Hc. destruct (Hac c Hc) as (i & index & pos & e0 & _ & _ & ? & ? & ?).
        exists index, pos, e0. by rewrite Hix1, Ht1.
      * intros w Hw. rewrite (entryOf_reads _ s s1 _ Hs1). by apply Hentries.
  - apply forChildren_Err in Hloop as (j & c & [] & s2 & Hc & Hb).
    rewrite Forall_forall in IH. eapply IH; [|exact Hb].
    by eapply list_elem_of_lookup_2.
Qed.

End CompleterExtras.

Section PublicExtras.

Variable isLogical : MatchExpression -> bool.
Variable arrayUsesIndexOnChildren : MatchExpression -> bool.
Variable nodeCanUseIndexOnOwnField : MatchExpression -> bool.
Variable kNoIndex : N.
Variable tagForSort : Clone -> Clone.
Variable sortUsingTags : Clone -> Clone.

Local Abbreviation prepMemo :=
  (prepMemo isLogical arrayUsesIndexOnChildren nodeCanUseIndexOnOwnField kNoIndex).
Local Abbreviation checkCompound :=
  (checkCompound arrayUsesIndexOnChildren nodeCanUseIndexOnOwnField).
Local Abbreviation init :=
  (init isLogical arrayUsesIndexOnChildren nodeCanUseIndexOnOwnField kNoIndex).
Local Abbreviation getNext := (getNext tagForSort sortUsingTags).
Local Abbreviation indexable :=
  (indexable isLogical arrayUsesIndexOnChildren nodeCanUseIndexOnOwnField).
Local Abbreviation wfTree :=
  (wfTree isLogical arrayUsesIndexOnChildren nodeCanUseIndexOnOwnField).

(** Where a tag that [init] leaves comes from: the tagger, with the head
    of the [first] list of the relevance tag of the node, or the
    completer, with a later column of an index of its [notFirst] list. *)
Lemma init_tags fuel root tags indices s :
  init fuel (newPlanEnumerator root tags indices) = Ok (tt, s) ->
  forall x tag, _tagData s !! x = Some tag ->
    (exists index, tag = IndexTag index 0 /\ head (firstOf (tags !! x)) = Some index) \/
    (exists index pos e,
        tag = IndexTag index pos /\ 0 < pos /\ indices !! index = Some e /\
        is_Some (keyPattern e !! pos) /\ index ∈ notFirstOf (tags !! x)).
Proof.
  rewrite init_run. simpl.
  change (beforeBuild (newPlanEnumerator root tags indices))
    with (newPlanEnumerator root tags indices).
  destruct (prepMemo root [] _) as [[indexed s1]|e] eqn:Hbuild; [|done].
  pose proof (prepMemo_builtOver _ _ _ _ _ _ _ _ _ Hbuild) as (_ & Hix & _).
  simpl in Hix.
  assert (fromTags tags s1) as [_ Hlists].
  { eapply prepMemo_fromTags; [exact Hbuild|]. split; simpl; [by left|].
    intros id soln p Hid. by rewrite lookup_empty in Hid. }
  assert (cursorsZero (_curEnum s1)) as Hzero.
  { eapply prepMemo_cursorsZero; [exact Hbuild|]. intros id. simpl.
    by rewrite lookup_empty. }
  destruct indexed.
  - intros (u1 & s2 & Htag & Hcheck)%bind_Ok x tag Hx.
    apply tagMemo_grows in Htag as [Hs2 Hgrow2].
    apply checkCompound_grows in Hcheck as [Hs Hgrow].
    destruct Hs2 as (_ & Hi2 & Hn2 & Hm2 & _). simpl in Hi2, Hn2, Hm2.
    destruct (Hgrow x) as [Heq | (_ & tag' & Hx' & Hq)].
    + rewrite Heq in Hx.
      destruct (Hgrow2 x) as [Heq2 | (_ & tag' & Hx' & Hq)].
      { by rewrite Heq2, afterBuild_untagged in Hx. }
      rewrite Hx in Hx'. injection Hx' as <-.
      destruct Hq as (id & soln & p & index & Hid & Hp & Haddr & Hcur & _ & ->).
      simpl in Hid, Hcur. rewrite Hzero in Hcur.
      destruct (Hlists id soln p Hid Hp) as [[Hf|Hf] _];
        [|by rewrite Hf in Hcur].
      left. exists index. split; [done|].
      by rewrite head_lookup, <- Haddr, <- Hf.
    + rewrite Hx in Hx'. injection Hx' as <-.
      destruct Hq as (prefix' & n & a' & _ & i & u & index & pos & _ & _ & _ & Hxa
                      & -> & Hpos & (e & He & Hkp) & (p & Hp & Haddr & Hin)).
      simpl in Haddr. right. exists index, pos, e.
      split_and!; [done|done|by rewrite <- Hix, <- Hi2|by eexists|].
      unfold entryOf in Hp. rewrite Hn2, Hm2 in Hp. simpl in Hp.
      destruct (_memo s1 !! _) as [soln|] eqn:Hsoln; [|done]. simpl in Hp.
      destruct (Hlists _ soln p Hsoln Hp) as [_ [Hnf|Hnf]];
        [|by rewrite Hnf in Hin; apply elem_of_nil in Hin].
      by rewrite <- Haddr, <- Hnf.
  - intros [= <-] x tag Hx. by rewrite afterBuild_untagged in Hx.
Qed.

(** X3.  [init] only assigns what the relevance tags of the input allow:
    a node it leaves with position 0 has the first member of the [first]
    list of its relevance tag as index, and a node it leaves with a later
    position has a member of the [notFirst] list of its relevance tag as
    index. *)
Theorem X3_tags_from_input (fuel : nat) (root : MatchExpression)
    (tags : gmap Addr TagData) (indices : list IndexEntry) (s : PlanEnumerator)
    (x : Addr) (index pos : nat) :
  init fuel (newPlanEnumerator root tags indices) = Ok (tt, s) ->
  _tagData s !! x = Some (IndexTag index pos) ->
  exists f nf,
    tags !! x = Some (RelevantTag f nf) /\
    if decide (pos = 0) then head f = Some index else index ∈ nf.
Proof.
  intros Hinit Hx.
  destruct (init_tags _ _ _ _ _ Hinit x _ Hx)
    as [(index' & [= <-] & Hhead) | (index' & pos' & e & [= <- <-] & Hpos & _ & _ & Hin)].
  - destruct (tags !! x) as [[f nf|]|]; simpl in Hhead; [|done..].
    exists f, nf. by rewrite decide_True.
  - destruct (tags !! x) as [[f nf|]|]; simpl in Hin;
      [|by apply elem_of_nil in Hin..].
    exists f, nf. by rewrite decide_False by lia.
Qed.

(** X4.  After [init] no relevance tag is left on the tree, and an index
    tag with a position above 0 refers to a column that the key pattern
    of its catalog entry has; when the members of the relevance tags of
    the input are ids of the catalog, so is the index of every tag. *)
Theorem X4_tags_refer_to_catalog (fuel : nat) (root : MatchExpression)
    (tags : gmap Addr TagData) (indices : list IndexEntry) (s : PlanEnumerator) :
  init fuel (newPlanEnumerator root tags indices) = Ok (tt, s) ->
  forall x tag,
    _tagData s !! x = Some tag ->
    exists index pos,
      tag = IndexTag index pos /\
      (0 < pos -> exists e, indices !! index = Some e /\ pos < length (keyPattern e)) /\
      (relevanceTags (length indices) tags -> index < length indices).
Proof.
  intros Hinit x tag Hx.
  destruct (init_tags _ _ _ _ _ Hinit x _ Hx)
    as [(index & -> & Hhead) | (index & pos & e & -> & Hpos & He & Hkp & Hin)].
  - exists index, 0. split_and!; [done|lia|]. intros Hrel.
    destruct (tags !! x) as [[f nf|]|] eqn:Htag; simpl in Hhead; [|done..].
    specialize (Hrel x _ Htag). simpl in Hrel.
    apply andb_true_iff in Hrel as [Hf _].
    destruct f as [|i f]; [done|]. injection Hhead as <-. simpl in Hf.
    apply andb_true_iff in Hf as [Hi _]. by apply Nat.ltb_lt in Hi.
  - exists index, pos. split_and!; [done| |].
    + intros _. exists e. split; [done|]. destruct Hkp as [? Hkp].
      by eapply lookup_lt_Some.
    + intros _. by eapply lookup_lt_Some.
Qed.

(** X5.  The enumerator uses up the relevance tags: the call of
    [getNext] that returns a tree leaves the stored tree without tags, so
    an [init] after it, on a well-formed tree in which every disjunction
    has a child, finds nothing indexable and the next [getNext] returns
    false. *)
Theorem X5_init_after_getNext (fuel : nat) (s : PlanEnumerator) :
  _done s = false ->
  wfTree (_root s) = true ->
  noEmptyOr (_root s) = true ->
  exists out s1 s2,
    getNext s = Ok ((true, Some out), s1) /\
    untagged (_tagData s1) /\
    init fuel s1 = Ok (tt, s2) /\
    getNext s2 = Ok ((false, None), s2).
Proof.
  intros Hdone Hwf Hno.
  assert (Hnone : forall (t : gmap Addr TagData) x,
             filter (fun kv : Addr * TagData => ~ [] `prefix_of` kv.1) t !! x = None).
  { intros t x. apply map_lookup_filter_None. right. intros tag _ Hx. apply Hx.
    apply prefix_nil. }
  eexists _, _. unfold getNext at 1. run_goal. rewrite Hdone. simpl.
  unfold resetTag. run_goal.
  match goal with
  | |- exists s2, Ok (_, ?s1) = _ /\ _ =>
      destruct (prepMemo_returns isLogical arrayUsesIndexOnChildren
                  nodeCanUseIndexOnOwnField kNoIndex
                  (fun s => untagged (_tagData s))) with
        (node := _root s) (a := @nil nat) (s := beforeBuild s1)
        as (b & s1' & Hbuild & _)
  end.
  - clear. intros a node s s' HJ Hfin. destruct Hfin; simpl; try exact HJ.
    by rewrite HJ in *.
  - intros s0 a index pos HJ. by rewrite HJ.
  - exact Hwf.
  - intros x. simpl. apply Hnone.
  - pose proof (prepMemo_indexable _ _ _ _ _ _ _ _ _ Hbuild) as Hb.
    rewrite (indexable_untagged isLogical arrayUsesIndexOnChildren
               nodeCanUseIndexOnOwnField) in Hb; [|intros x; apply Hnone|exact Hno].
    subst b. eexists. split_and!; [reflexivity|intros x; apply Hnone| |].
    + rewrite init_run. simpl. rewrite Hbuild. reflexivity.
    + by apply getNext_done.
Qed.

(** X7.  With the single-option choice of the builder the completer
    only ever meets one tagged child at a conjunction, so the multikey
    flag it reads is that of the first entry of the catalog: when that
    entry is multikey, [init] assigns no later column at all, whichever
    indexes the leaves are tagged with. *)
Theorem X7_first_entry_multikey (fuel : nat) (root : MatchExpression)
    (tags : gmap Addr TagData) (indices : list IndexEntry) (s : PlanEnumerator)
    (e : IndexEntry) :
  indices !! 0 = Some e -> multikey e = true ->
  treeSize root <= fuel ->
  init fuel (newPlanEnumerator root tags indices) = Ok (tt, s) ->
  forall x index pos, _tagData s !! x = Some (IndexTag index pos) -> pos = 0.
Proof.
  intros He Hmk Hfuel. rewrite init_run. simpl.
  change (beforeBuild (newPlanEnumerator root tags indices))
    with (newPlanEnumerator root tags indices).
  destruct (prepMemo root [] _) as [[indexed s1]|e'] eqn:Hbuild; [|done].
  destruct indexed.
  2:{ intros [= <-] x index pos Hx. by rewrite afterBuild_untagged in Hx. }
  intros (u1 & s2 & Htag & Hcheck)%bind_Ok x index pos Hx.
  destruct (prepMemo_built _ _ _ _ _ _ _ _ Hbuild) as (id & Hid & Hsid & Hbuilt).
  pose proof (prepMemo_builtOver _ _ _ _ _ _ _ _ _ Hbuild) as (_ & Hix & _ & Hcnt & _).
  simpl in Hcnt, Hix.
  pose proof (memoOrder_size isLogical arrayUsesIndexOnChildren
                nodeCanUseIndexOnOwnField root []) as Hsize.
  destruct (tagMemo_built _ _ _ _ _ Hbuilt fuel (afterBuild s1 true))
    as (s2' & Hrun & Hs2 & _ & Hone); [lia|done|done| |].
  { intros y _. apply afterBuild_untagged. }
  rewrite Hid in Htag. simpl in Htag. assert (s2 = s2') as -> by congruence.
  apply (checkCompound_multikey_first _ _ _ _ _ _ _ _ e) in Hcheck; [|
    by destruct Hs2 as (_ & -> & _); simpl; rewrite Hix|done|done].
  rewrite Hcheck in Hx. apply tagMemo_grows in Hrun as [_ Hgrow].
  destruct (Hgrow x) as [Heq | (_ & tag & Hx' & Hq)].
  - by rewrite Heq, afterBuild_untagged in Hx.
  - rewrite Hx in Hx'. injection Hx' as <-.
    destruct Hq as (? & ? & ? & ? & _ & _ & _ & _ & _ & [= _ ->]). done.
Qed.

(** X12.  One index for a conjunction: after [init] the children of a
    conjunction that carry a tag all carry the same index. *)
Theorem X12_one_index_per_conjunction (fuel : nat) (root : MatchExpression)
    (tags : gmap Addr TagData) (indices : list IndexEntry) (s : PlanEnumerator) :
  treeSize root <= fuel ->
  init fuel (newPlanEnumerator root tags indices) = Ok (tt, s) ->
  forall n' a' k1 k2 i1 p1 i2 p2,
    nodeAt root [] n' a' -> matchType n' = AND ->
    _tagData s !! (a' ++ [k1]) = Some (IndexTag i1 p1) ->
    _tagData s !! (a' ++ [k2]) = Some (IndexTag i2 p2) -> i1 = i2.
Proof.
  intros Hfuel. rewrite init_run. simpl.
  change (beforeBuild (newPlanEnumerator root tags indices))
    with (newPlanEnumerator root tags indices).
  destruct (prepMemo root [] _) as [[indexed s1]|e'] eqn:Hbuild; [|done].
  destruct indexed.
  2:{ intros [= <-] n' a' k1 k2 i1 p1 i2 p2 _ _ Hx.
      by rewrite afterBuild_untagged in Hx. }
  intros (u1 & s2 & Htag & Hcheck)%bind_Ok.
  destruct (prepMemo_built _ _ _ _ _ _ _ _ Hbuild) as (id & Hid & Hsid & Hbuilt).
  pose proof (prepMemo_builtOver _ _ _ _ _ _ _ _ _ Hbuild) as (_ & _ & _ & Hcnt & _).
  simpl in Hcnt.
  pose proof (memoOrder_size isLogical arrayUsesIndexOnChildren
                nodeCanUseIndexOnOwnField root []) as Hsize.
  destruct (tagMemo_built _ _ _ _ _ Hbuilt fuel (afterBuild s1 true))
    as (s2' & Hrun & _ & _ & Hone); [lia|done|done| |].
  { intros y _. apply afterBuild_untagged. }
  rewrite Hid in Htag. simpl in Htag. assert (s2 = s2') as -> by congruence.
  exact (checkCompound_oneIndex _ _ _ _ _ _ _ _ Hcheck Hone).
Qed.

End PublicExtras.

Section DiagnosticsFacts.

Variable isLogical : MatchExpression -> bool.
Variable arrayUsesIndexOnChildren : MatchExpression -> bool.
Variable nodeCanUseIndexOnOwnField : MatchExpression -> bool.
Variable kNoIndex : N.
Variable exprToString : NodePtr -> gmap Addr TagData -> string.

Local Abbreviation prepMemo :=
  (prepMemo isLogical arrayUsesIndexOnChildren nodeCanUseIndexOnOwnField kNoIndex).
Local Abbreviation toString := (toString exprToString).
Local Abbreviation memoDump := (memoDump exprToString).

Lemma commaLoop_concat size rest : forall i,
  i + length rest = size ->
  commaLoop size i rest = String.concat ", " (pretty <$> rest).
Proof.
  induction rest as [|x rest IH]; intros i Hsize; simpl in *; [done|].
  rewrite (IH (S i)) by lia. destruct rest as [|y rest]; simpl in *.
  - replace (i <? size - 1) with false by (symmetry; apply Nat.ltb_ge; lia).
    by rewrite !append_empty_r.
  - replace (i <? size - 1) with true by (symmetry; apply Nat.ltb_lt; lia). done.
Qed.

Lemma optionsLoop_concat size rest : forall i,
  i + length rest = size ->
  optionsLoop size i rest
  = String.concat ", "
      ((fun sn => "[" +:+ String.concat ", " (pretty <$> sn) +:+ "]") <$> rest).
Proof.
  induction rest as [|sn rest IH]; intros i Hsize; simpl in *; [done|].
  rewrite (IH (S i)) by lia. rewrite (commaLoop_concat (length sn) sn 0) by done.
  destruct rest as [|sn' rest]; simpl in *.
  - replace (i <? size - 1) with false by (symmetry; apply Nat.ltb_ge; lia).
    by rewrite !append_empty_r.
  - replace (i <? size - 1) with true by (symmetry; apply Nat.ltb_lt; lia).
    by rewrite !append_assoc_string.
Qed.

(** X8.  [toString] prints the ids of a list separated by a comma and a
    space, with no separator after the last, and the options of a choice
    each in brackets and separated in the same way; it never changes the
    state; and it fails, at the [verify] of line 104, exactly on an entry
    of which all three parts are NULL. *)
Theorem X8_toString_format (ns : NodeSolution) (s : PlanEnumerator) :
  toString ns s =
  match pred ns, andSolution ns, orSolution ns with
  | Some p, _, _ =>
      Ok ("predicate, first indices: [" +:+ String.concat ", " (pretty <$> first p)
          +:+ "], notFirst indices: [" +:+ String.concat ", " (pretty <$> notFirst p)
          +:+ "], pred: " +:+ exprToString (expr p) (_tagData s), s)
  | None, Some an, _ =>
      Ok ("ONE OF: ["
          +:+ String.concat ", "
                ((fun sn => "[" +:+ String.concat ", " (pretty <$> sn) +:+ "]")
                   <$> and_subnodes an)
          +:+ "]", s)
  | None, None, Some o =>
      Ok ("ALL OF: [" +:+ foldr (fun c rest => " " +:+ pretty c +:+ rest) "" (or_subnodes o)
          +:+ "]", s)
  | None, None, None => Err (VerifyFailed 104)
  end.
Proof.
  unfold toString.
  destruct (pred ns) as [p|].
  - run_goal. by rewrite !commaLoop_concat.
  - destruct (andSolution ns) as [an|].
    + run_goal. by rewrite optionsLoop_concat.
    + destruct (orSolution ns) as [o|]; unfold verify; run_goal; reflexivity.
Qed.

(** X9.  The memo dump of [init] never reads a NULL entry and never
    fails in [toString]: after the build pass the memo holds an entry
    with exactly one part for every id below the count, and the dump
    prints one line for each, in the order of the ids. *)
Theorem X9_memo_dump (root : MatchExpression) (tags : gmap Addr TagData)
    (indices : list IndexEntry) (b : bool) (s1 : PlanEnumerator) :
  prepMemo root [] (newPlanEnumerator root tags indices) = Ok (b, s1) ->
  exists lines,
    memoDump (afterBuild s1 b) = Lines lines /\
    length lines = _inOrderCount s1 /\
    forall i, i < _inOrderCount s1 ->
      exists ns str,
        _memo s1 !! i = Some ns /\ oneKind ns /\
        toString ns (afterBuild s1 b) = Ok (str, afterBuild s1 b) /\
        lines !! i = Some ("Node #" +:+ pretty i +:+ ": " +:+ str).
Proof.
  intros Hbuild.
  pose proof (prepMemo_builtOver _ _ _ _ _ _ _ _ _ Hbuild)
    as (_ & _ & _ & Hcnt & _ & _ & Hsome & _). simpl in Hcnt, Hsome.
  assert (Hkind : forall id soln, _memo s1 !! id = Some soln -> oneKind soln).
  { eapply prepMemo_oneKind; [exact Hbuild|]. intros id soln Hid. simpl in Hid.
    by rewrite lookup_empty in Hid. }
  assert (Hprint : forall ns s, oneKind ns -> exists str, toString ns s = Ok (str, s)).
  { intros ns s [[p ->]|[[an ->]|[o ->]]]; unfold toString; run_goal; eauto. }
  unfold memoDump. simpl.
  match goal with
  | |- exists lines, ?f (seq 0 ?n) = _ /\ _ =>
      assert (Hgen : forall ids,
                 (forall i, i ∈ ids -> i < n) ->
                 exists lines,
                   f ids = Lines lines /\ length lines = length ids /\
                   forall j i, ids !! j = Some i ->
                     exists ns str,
                       _memo s1 !! i = Some ns /\ oneKind ns /\
                       toString ns (afterBuild s1 b) = Ok (str, afterBuild s1 b) /\
                       lines !! j = Some ("Node #" +:+ pretty i +:+ ": " +:+ str))
  end.
  { induction ids as [|i ids IH]; intros Hlt.
    - exists []. split_and!; [done..|]. intros j i Hj. by rewrite lookup_nil in Hj.
    - destruct IH as (lines & Hrun & Hlen & Hlines).
      { intros i' Hi'. apply Hlt. by right. }
      destruct (Hsome i) as [ns Hns]; [split; [lia|apply Hlt; by left]|].
      destruct (Hprint ns (afterBuild s1 b) (Hkind _ _ Hns)) as [str Hstr].
      exists (("Node #" +:+ pretty i +:+ ": " +:+ str) :: lines).
      split_and!.
      + simpl. simpl in Hns. rewrite Hns, Hstr, Hrun. done.
      + simpl. by rewrite Hlen.
      + intros [|j] i' Hj; simpl in Hj.
        * injection Hj as <-. exists ns, str. split_and!; eauto.
        * by apply Hlines. }
  destruct (Hgen (seq 0 (_inOrderCount s1))) as (lines & Hrun & Hlen & Hlines).
  { intros i Hi. apply elem_of_seq in Hi. lia. }
  exists lines. split_and!; [exact Hrun|by rewrite Hlen, length_seq|].
  intros i Hi. apply (Hlines i i). by apply lookup_seq_lt.
Qed.

End DiagnosticsFacts.

(** ** Worked examples of the further properties *)

Section WorkedExtras.

Import Sample Examples MoreExamples.

(** X1 on the conjunction of two comparisons. *)
Lemma X1_witness :
  exists b s',
    Sample.prepMemo andAB [] enumAB = Ok (b, s') /\
    b = Examples.indexable tagsAB andAB [] /\ b = true.
Proof.
  eexists _, _.
  match goal with
  | |- _ = Ok (?b, ?s') /\ _ =>
      destruct (X1_build_result isLogical arrayUsesIndexOnChildren
                  nodeCanUseIndexOnOwnField kNoIndex andAB [] enumAB b s')
        as [Hb _]
  end.
  - vm_compute. reflexivity.
  - split_and!; [vm_compute; reflexivity|exact Hb|reflexivity].
Defined.

(** X3 on the conjunction of two comparisons: the second child gets
    index 0, a member of its [notFirst] list. *)
Lemma X3_witness :
  exists s f nf,
    Sample.init 3 enumAB = Ok (tt, s) /\
    _tagData s !! [1] = Some (IndexTag 0 1) /\
    tagsAB !! [1] = Some (RelevantTag f nf) /\ 0 ∈ nf.
Proof.
  eexists.
  match goal with
  | |- exists f nf, _ = Ok (tt, ?s) /\ _ =>
      destruct (X3_tags_from_input isLogical arrayUsesIndexOnChildren
                  nodeCanUseIndexOnOwnField kNoIndex 3 andAB tagsAB catalogAB s [1] 0 1)
        as (f & nf & Htag & Hin)
  end.
  - vm_compute. reflexivity.
  - vm_compute. reflexivity.
  - exists f, nf. split_and!; [vm_compute; reflexivity|vm_compute; reflexivity|
                              exact Htag|exact Hin].
Defined.

(** X4 on the conjunction of two comparisons: column 1 of index 0. *)
Lemma X4_witness :
  exists s index pos e,
    Sample.init 3 enumAB = Ok (tt, s) /\
    _tagData s !! [1] = Some (IndexTag index pos) /\
    catalogAB !! index = Some e /\ pos < length (keyPattern e).
Proof.
  eexists.
  match goal with
  | |- exists index pos e, _ = Ok (tt, ?s) /\ _ =>
      destruct (X4_tags_refer_to_catalog isLogical arrayUsesIndexOnChildren
                  nodeCanUseIndexOnOwnField kNoIndex 3 andAB tagsAB catalogAB s)
        with (x := [1]) (tag := IndexTag 0 1)
        as (index & pos & Htag & Hcol & _)
  end.
  - vm_compute. reflexivity.
  - vm_compute. reflexivity.
  - injection Htag as <- <-. destruct Hcol as (e & He & Hlt); [lia|].
    exists 0, 1, e. split_and!; [vm_compute; reflexivity|vm_compute; reflexivity|
                                exact He|exact Hlt].
Defined.

(** X5 on the enumerator of the conjunction of two comparisons after
    [init]. *)
Lemma X5_witness :
  exists out s1 s2,
    Sample.getNext readyAB = Ok ((true, Some out), s1) /\
    untagged (_tagData s1) /\
    Sample.init 3 s1 = Ok (tt, s2) /\
    Sample.getNext s2 = Ok ((false, None), s2).
Proof.
  apply (X5_init_after_getNext isLogical arrayUsesIndexOnChildren
           nodeCanUseIndexOnOwnField kNoIndex id id 3 readyAB); reflexivity.
Defined.

(** X6 on the tagged conjunction of two comparisons with a catalog of
    one single-field index: the state stays as it is.  Run at another
    place of the tree, where the children have no key in [_nodeToId],
    the completer leaves each of them with the key 0. *)
Lemma X6_witness :
  Sample.checkCompound "" andAB [] taggedA = Ok (tt, taggedA) /\
  exists s',
    Sample.checkCompound "" andAB [5] taggedA = Ok (tt, s') /\
    _nodeToId taggedA !! [5; 0] = None /\
    _nodeToId s' !! [5; 0] = Some 0 /\
    s' = withIds taggedA (zeroKeys [[5; 0]; [5; 1]] (_nodeToId taggedA)).
Proof.
  split.
  - assert (exists s', Sample.checkCompound "" andAB [] taggedA = Ok (tt, s'))
      as [s' Hrun] by (eexists; vm_compute; reflexivity).
    rewrite Hrun. f_equal. f_equal.
    apply (X6_no_compound_index arrayUsesIndexOnChildren nodeCanUseIndexOnOwnField
             andAB "" [] taggedA tt s'); [|exact Hrun|].
    + vm_compute. repeat constructor.
    + assert (ownFieldKeys nodeCanUseIndexOnOwnField andAB [] = [[0]; [1]]) as ->
        by reflexivity.
      intros x Hx. apply elem_of_cons in Hx as [->|Hx]; [eexists; vm_compute; reflexivity|].
      apply elem_of_cons in Hx as [->|Hx]; [eexists; vm_compute; reflexivity|].
      by apply elem_of_nil in Hx.
  - assert (exists s', Sample.checkCompound "" andAB [5] taggedA = Ok (tt, s'))
      as [s' Hrun] by (eexists; vm_compute; reflexivity).
    exists s'. split; [exact Hrun|].
    destruct (X6_no_compound_index arrayUsesIndexOnChildren nodeCanUseIndexOnOwnField
                andAB "" [5] taggedA tt s') as [Hs' _];
      [vm_compute; repeat constructor|exact Hrun|].
    rewrite Hs'. split_and!; vm_compute; reflexivity.
Defined.

(** X7 on the conjunction over [c] and [d] with a multikey first entry:
    the first child keeps position 0 and no later column is assigned. *)
Lemma X7_witness :
  exists s,
    Sample.init 3 (newPlanEnumerator andCD tagsCD (catalogCD true false)) = Ok (tt, s) /\
    _tagData s !! [0] = Some (IndexTag 1 0) /\
    forall x index pos, _tagData s !! x = Some (IndexTag index pos) -> pos = 0.
Proof.
  eexists.
  match goal with
  | |- _ = Ok (tt, ?s) /\ _ =>
      pose proof (X7_first_entry_multikey isLogical arrayUsesIndexOnChildren
                    nodeCanUseIndexOnOwnField kNoIndex 3 andCD tagsCD
                    (catalogCD true false) s (mkIndexEntry ["a"; "b"] true)
                    eq_refl eq_refl) as Hpos
  end.
  split_and!; [vm_compute; reflexivity|vm_compute; reflexivity|].
  apply Hpos; [vm_compute; lia|vm_compute; reflexivity].
Defined.

(** X10 on the conjunction of two comparisons: one option, for the first
    child. *)
Lemma X10_witness :
  exists b s' id an,
    Sample.prepMemo andAB [] enumAB = Ok (b, s') /\
    _memo s' !! id = Some (andSoln an) /\
    length (and_subnodes an) = 1 /\ b = true.
Proof.
  eexists _, _.
  match goal with
  | |- exists id an, _ = Ok (?b, ?s') /\ _ =>
      destruct (X10_choice_options isLogical arrayUsesIndexOnChildren
                  nodeCanUseIndexOnOwnField kNoIndex andAB [] enumAB b s')
        as (id & an & _ & Hm & _ & Hlen & _)
  end.
  - right. split_and!; [reflexivity|reflexivity|discriminate].
  - vm_compute. reflexivity.
  - exists id, an. split_and!; [vm_compute; reflexivity|exact Hm|exact Hlen|reflexivity].
Defined.

(** X11 on the first child of the conjunction of two comparisons. *)
Lemma X11_witness :
  exists b s id,
    Sample.prepMemo andAB [] enumAB = Ok (b, s) /\
    _tagData s !! [0] = Some (RelevantTag [] []) /\
    _nodeToId s !! [0] = Some id /\
    _memo s !! id = Some (predSoln (mkPred [0] [] (mkPtr [0] (leaf EQ "a")))).
Proof.
  eexists _, _.
  match goal with
  | |- exists id, _ = Ok (?b, ?s) /\ _ =>
      destruct (X11_relevance_tags_moved isLogical arrayUsesIndexOnChildren
                  nodeCanUseIndexOnOwnField kNoIndex andAB tagsAB catalogAB b s
                  (leaf EQ "a") [0])
        as (id & f & nf & Htag & Hid & Hm)
  end.
  - reflexivity.
  - vm_compute. reflexivity.
  - apply (nodeAt_child andAB [] 0 (leaf EQ "a")); [reflexivity|constructor].
  - reflexivity.
  - exists id. change (tagsAB !! [0]) with (Some (RelevantTag [0] [])) in Htag.
    destruct Htag as [[= <- <-] Ht].
    split_and!; [vm_compute; reflexivity|exact Ht|exact Hid|exact Hm].
Defined.

(** X12 on the conjunction of two comparisons: both children carry
    index 0. *)
Lemma X12_witness :
  exists s,
    Sample.init 3 enumAB = Ok (tt, s) /\
    _tagData s !! [0] = Some (IndexTag 0 0) /\
    _tagData s !! [1] = Some (IndexTag 0 1) /\
    forall k1 k2 i1 p1 i2 p2,
      _tagData s !! ([] ++ [k1]) = Some (IndexTag i1 p1) ->
      _tagData s !! ([] ++ [k2]) = Some (IndexTag i2 p2) -> i1 = i2.
Proof.
  eexists.
  match goal with
  | |- _ = Ok (tt, ?s) /\ _ =>
      pose proof (X12_one_index_per_conjunction isLogical arrayUsesIndexOnChildren
                    nodeCanUseIndexOnOwnField kNoIndex 3 andAB tagsAB catalogAB s)
        as Hone
  end.
  split_and!; [vm_compute; reflexivity..|].
  intros k1 k2 i1 p1 i2 p2.
  apply (Hone ltac:(vm_compute; lia) ltac:(vm_compute; reflexivity) andAB []);
    [constructor|reflexivity].
Defined.

(** X9 on the conjunction of two comparisons: three lines. *)
Lemma X9_witness :
  exists b s1 lines,
    Sample.prepMemo andAB [] enumAB = Ok (b, s1) /\
    memoDump showPath (afterBuild s1 b) = Lines lines /\
    length lines = 3.
Proof.
  eexists _, _.
  match goal with
  | |- exists lines, _ = Ok (?b, ?s1) /\ _ =>
      destruct (X9_memo_dump isLogical arrayUsesIndexOnChildren
                  nodeCanUseIndexOnOwnField kNoIndex showPath
                  andAB tagsAB catalogAB b s1)
        as (lines & Hdump & Hlen & _)
  end.
  - vm_compute. reflexivity.
  - exists lines. split_and!; [vm_compute; reflexivity|exact Hdump|exact Hlen].
Defined.

(** X13 on the conjunction of two comparisons before the build pass:
    the first child has no memo entry and the completer stops at the
    [verify] of line 131. *)
Lemma X13_witness :
  Sample.checkCompound "" andAB [] enumAB = Err (VerifyFailed 131) /\
  completerError (VerifyFailed 131) = true.
Proof.
  split; [vm_compute; reflexivity|].
  apply (X13_completer_failures arrayUsesIndexOnChildren nodeCanUseIndexOnOwnField
           andAB "" [] enumAB (VerifyFailed 131)).
  vm_compute. reflexivity.
Defined.

End WorkedExtras.

